(** * Surface kernel of astk: Bezier, rational Bezier and NURBS patches

    A shallow embedding of [astk/geom/surfaces.py].

    Numbers.  The kernel computes with binary floating point.  In the first
    modules a finite float is an exact real number, and a float that is
    [inf] or [nan] is the single value "not finite": a NumPy division by zero
    yields it, and it absorbs every later operation.  These modules carry the
    properties that do not depend on rounding: which values are copied, which
    checks run in which order, which exception is raised, which formula is
    evaluated.  [Rounded] gives the numerical kernels with every operation
    rounded, for the properties of the numbers that are computed, and
    [Binary64] gives them on the binary64 numbers themselves, to run them on
    closed inputs.

    Control.  A Python exception is a [Raise e] result.  Methods that write
    into a patch are state transformers on the patch that keep the state
    reached when an exception is raised. *)

From Stdlib Require Import Reals Lra Lia ZArith List Bool Psatz.
From Stdlib Require Import Zfloor Sorted.
From Stdlib Require Floats Uint63.
Import ListNotations.

Open Scope R_scope.

(** ** Python values: exceptions, results, indexing *)

Module Py.

Inductive exn : Set :=
| AssertionError
| IndexError
| ValueError
| ZeroDivisionError
| NegativeWeightError
| InvalidGeometryError.

Inductive result (A : Type) : Type :=
| Ok (a : A)
| Raise (e : exn).

Arguments Ok {A} a.
Arguments Raise {A} e.

Definition bind {A B : Type} (m : result A) (k : A -> result B) : result B :=
  match m with
  | Ok a => k a
  | Raise e => Raise e
  end.

(** [assert c] *)
Definition assert (c : bool) : result unit :=
  if c then Ok tt else Raise AssertionError.

(** A mutating method: the receiver is the state, and the state reached at a
    raise is kept. *)
Definition Mut (S A : Type) : Type := S -> result A * S.

Definition mret {S A : Type} (a : A) : Mut S A := fun s => (Ok a, s).

Definition mbind {S A B : Type} (m : Mut S A) (k : A -> Mut S B) : Mut S B :=
  fun s => match m s with
           | (Ok a, s') => k a s'
           | (Raise e, s') => (Raise e, s')
           end.

(** Run a computation that only reads the receiver. *)
Definition mread {S A : Type} (f : S -> result A) : Mut S A :=
  fun s => (f s, s).

(** Run a computation that does not touch the receiver at all. *)
Definition mlift {S A : Type} (r : result A) : Mut S A :=
  fun s => (r, s).

(** Run a computation that replaces the receiver, or raises leaving it. *)
Definition mwrite {S : Type} (f : S -> result S) : Mut S unit :=
  fun s => match f s with
           | Ok s' => (Ok tt, s')
           | Raise e => (Raise e, s)
           end.

(** [for x in xs: body(x)] *)
Fixpoint mfor {S A : Type} (xs : list A) (body : A -> Mut S unit) : Mut S unit :=
  match xs with
  | [] => mret tt
  | x :: xs' => mbind (body x) (fun _ => mfor xs' body)
  end.

(** [range(n)], as the non-negative indices it yields. *)
Definition range (n : Z) : list nat := seq 0 (Z.to_nat n).

(** The position that [l[i]] addresses in a sequence of length [len]:
    a negative index counts from the end. *)
Definition norm_index (len : nat) (i : Z) : option nat :=
  if (0 <=? i)%Z then
    if (i <? Z.of_nat len)%Z then Some (Z.to_nat i) else None
  else
    if (0 <=? Z.of_nat len + i)%Z then Some (Z.to_nat (Z.of_nat len + i)) else None.

Fixpoint replace_nth {A : Type} (k : nat) (x : A) (l : list A) {struct l} : list A :=
  match l, k with
  | [], _ => []
  | _ :: t, O => x :: t
  | h :: t, S k' => h :: replace_nth k' x t
  end.

(** [l[i]] *)
Definition getitem {A : Type} (l : list A) (i : Z) : result A :=
  match norm_index (length l) i with
  | Some k => match nth_error l k with
              | Some x => Ok x
              | None => Raise IndexError
              end
  | None => Raise IndexError
  end.

(** [l[i] = x] *)
Definition setitem {A : Type} (l : list A) (i : Z) (x : A) : result (list A) :=
  match norm_index (length l) i with
  | Some k => Ok (replace_nth k x l)
  | None => Raise IndexError
  end.

(** [g[i][j]] *)
Definition getitem2 {A : Type} (g : list (list A)) (i j : Z) : result A :=
  bind (getitem g i) (fun row => getitem row j).

(** [g[i][j] = x]: the row object [g[i]] is updated in place. *)
Definition setitem2 {A : Type} (g : list (list A)) (i j : Z) (x : A)
  : result (list (list A)) :=
  bind (getitem g i) (fun row =>
  bind (setitem row j x) (fun row' =>
  setitem g i row')).

(** [len(l)] *)
Definition len {A : Type} (l : list A) : Z := Z.of_nat (length l).

End Py.

Export Py.

Declare Scope py_scope.
Delimit Scope py_scope with py.
Notation "x <- m ;; k" := (bind m (fun x => k))
  (at level 61, m at next level, right associativity) : py_scope.
Notation "' pat <- m ;; k" := (bind m (fun x => let 'pat := x in k))
  (at level 61, pat pattern, m at next level, right associativity) : py_scope.
Notation "m ;;; k" := (bind m (fun _ => k))
  (at level 61, right associativity) : py_scope.
Notation "x <~ m ;; k" := (mbind m (fun x => k))
  (at level 61, m at next level, right associativity) : py_scope.
Notation "m ~;; k" := (mbind m (fun _ => k))
  (at level 61, right associativity) : py_scope.
Open Scope py_scope.

(** ** Numbers and points *)

Module Num.

(** A NumPy float after a division: [None] is [inf] or [nan]. *)
Definition npfloat : Type := option R.

(** [x / y] on NumPy floats: no exception, a zero divisor gives [inf] or
    [nan]. *)
Definition npdiv (x y : R) : npfloat :=
  if Req_dec_T y 0 then None else Some (x / y).

(** [x / y] on Python numbers: a zero divisor raises. *)
Definition pydiv (x y : R) : result R :=
  if Req_dec_T y 0 then Raise ZeroDivisionError else Ok (x / y).

(** Modelled from the spec: [Point3D] of [astk.geom.point], a value type of
    three lengths "supporting addition, subtraction, scalar multiplication,
    and conversion to/from a raw 3-component numeric array".  The same type
    stands for the 3-component arrays.  [NonFinite] is a point with a
    component that is [inf] or [nan]. *)
Inductive Point3D : Type :=
| Pt (x y z : R)
| NonFinite.

Definition zeros : Point3D := Pt 0 0 0.

Definition padd (p q : Point3D) : Point3D :=
  match p, q with
  | Pt a b c, Pt a' b' c' => Pt (a + a') (b + b') (c + c')
  | _, _ => NonFinite
  end.

Definition psub (p q : Point3D) : Point3D :=
  match p, q with
  | Pt a b c, Pt a' b' c' => Pt (a - a') (b - b') (c - c')
  | _, _ => NonFinite
  end.

Definition pscale (k : R) (p : Point3D) : Point3D :=
  match p with
  | Pt a b c => Pt (k * a) (k * b) (k * c)
  | NonFinite => NonFinite
  end.

(** Scaling by a float that may be [inf] or [nan]. *)
Definition pscale_np (k : npfloat) (p : Point3D) : Point3D :=
  match k with
  | Some k' => pscale k' p
  | None => NonFinite
  end.

(** [p / d] with a NumPy float divisor. *)
Definition pdiv (p : Point3D) (d : R) : Point3D :=
  match p with
  | Pt a b c =>
      match npdiv a d, npdiv b d, npdiv c d with
      | Some a', Some b', Some c' => Pt a' b' c'
      | _, _, _ => NonFinite
      end
  | NonFinite => NonFinite
  end.

Definition is_finite (p : Point3D) : Prop :=
  match p with
  | Pt _ _ _ => True
  | NonFinite => False
  end.

(** Components, for stating sums coordinate by coordinate. *)
Definition coord (k : nat) (p : Point3D) : R :=
  match p with
  | Pt a b c => match k with O => a | S O => b | _ => c end
  | NonFinite => 0
  end.

End Num.

Export Num.

(** ** Grids *)

Module Grid.

(** [g[i, j]] on an array whose shape covers [(i, j)]. *)
Definition at2 {A : Type} (d : A) (g : list (list A)) (i j : nat) : A :=
  nth j (nth i g []) d.

(** An [r] by [c] grid. *)
Definition shaped {A : Type} (r c : nat) (g : list (list A)) : Prop :=
  length g = r /\ Forall (fun row => length row = c) g.

Definition all_finite (g : list (list Point3D)) : Prop :=
  Forall (Forall is_finite) g.

End Grid.

Export Grid.

(** ** Bernstein basis *)

(** Modelled from the spec: [bernstein_poly] of [astk.utils.math], the
    "closed-form B(n,i,t) = C(n,i) t^i (1-t)^(n-i), zero outside i in
    [0,n]". *)
Definition bernstein_poly (n i : Z) (t : R) : R :=
  if ((0 <=? i)%Z && (i <=? n)%Z)%bool then
    C (Z.to_nat n) (Z.to_nat i) * t ^ Z.to_nat i
    * (1 - t) ^ (Z.to_nat n - Z.to_nat i)
  else 0.

(** [np.linspace(start, stop, num)] *)
Definition linspace (start stop : R) (num : Z) : result (list R) :=
  if (num <? 0)%Z then Raise ValueError
  else
    let step := (stop - start) / (IZR num - 1) in
    Ok (map (fun k => start + INR k * step) (range num)).

(** The sum of an array of floats. *)
Definition np_sum (xs : list R) : R := fold_left Rplus xs 0.

(** [for x in xs: body(x)] for a body that only computes or raises. *)
Fixpoint for_each {A : Type} (xs : list A) (body : A -> result unit) : result unit :=
  match xs with
  | [] => Ok tt
  | x :: xs' => body x ;;; for_each xs' body
  end.

(** [[f(x) for x in xs]] *)
Fixpoint comprehension {A B : Type} (f : A -> result B) (xs : list A)
  : result (list B) :=
  match xs with
  | [] => Ok []
  | x :: xs' => y <- f x ;; ys <- comprehension f xs' ;; Ok (y :: ys)
  end.

(** ** Edges and corners *)

Inductive SurfaceEdge : Set := North | South | East | West.

Inductive SurfaceCorner : Set := Northeast | Northwest | Southwest | Southeast.

(** [np.array(...)] of the nested list of point arrays: the rows must have
    one common length. *)
Definition as_ndarray (points : list (list Point3D)) : result (list (list Point3D)) :=
  match points with
  | [] => Ok []
  | row0 :: _ =>
      if forallb (fun row => Nat.eqb (length row) (length row0)) points
      then Ok points else Raise ValueError
  end.

(** [P.shape[2]] of such an array: absent when the array has no entry. *)
Definition shape_2 (P : list (list Point3D)) : result Z :=
  match P with
  | (_ :: _) :: _ => Ok 3%Z
  | _ => Raise IndexError
  end.

(** ** BezierSurface *)

Module BezierSurface.

Record t : Type := mk {
  points : list (list Point3D);
  degree_u : Z;
  degree_v : Z;
  Nu : Z;
  Nv : Z
}.

Definition with_points (self : t) (pts : list (list Point3D)) : t :=
  mk pts (degree_u self) (degree_v self) (Nu self) (Nv self).

Definition __init__ (points : list (list Point3D)) : result t :=
  row0 <- getitem points 0 ;;
  let degree_u := (len points - 1)%Z in
  let degree_v := (len row0 - 1)%Z in
  Ok (mk points degree_u degree_v (degree_u + 1) (degree_v + 1)).

Definition get_control_point_array (self : t) : result (list (list Point3D)) :=
  as_ndarray (points self).

Definition evaluate_ndarray (self : t) (u v : R) : result Point3D :=
  P <- get_control_point_array self ;;
  shape_2 P ;;;
  Ok (fold_left (fun point i =>
        fold_left (fun point j =>
          let Bu := bernstein_poly (degree_u self) (Z.of_nat i) u in
          let Bv := bernstein_poly (degree_v self) (Z.of_nat j) v in
          let BuBv := Bu * Bv in
          padd point (pscale BuBv (at2 NonFinite P i j)))
        (range (degree_v self + 1)) point)
      (range (degree_u self + 1)) zeros).

Definition dSdu (self : t) (u v : R) : result Point3D :=
  P <- get_control_point_array self ;;
  shape_2 P ;;;
  Ok (fold_left (fun deriv_u i =>
        fold_left (fun deriv_u j =>
          let dbudu :=
            IZR (degree_u self)
            * (bernstein_poly (degree_u self - 1) (Z.of_nat i - 1) u
               - bernstein_poly (degree_u self - 1) (Z.of_nat i) u) in
          let bv := bernstein_poly (degree_v self) (Z.of_nat j) v in
          let dbudubv := dbudu * bv in
          padd deriv_u (pscale dbudubv (at2 NonFinite P i j)))
        (range (degree_v self + 1)) deriv_u)
      (range (degree_u self + 1)) zeros).

Definition dSdv (self : t) (u v : R) : result Point3D :=
  P <- get_control_point_array self ;;
  shape_2 P ;;;
  Ok (fold_left (fun deriv_v i =>
        fold_left (fun deriv_v j =>
          let dbvdv :=
            IZR (degree_v self)
            * (bernstein_poly (degree_v self - 1) (Z.of_nat j - 1) v
               - bernstein_poly (degree_v self - 1) (Z.of_nat j) v) in
          let bu := bernstein_poly (degree_u self) (Z.of_nat i) u in
          let budbvdv := bu * dbvdv in
          padd deriv_v (pscale budbvdv (at2 NonFinite P i j)))
        (range (degree_v self + 1)) deriv_v)
      (range (degree_u self + 1)) zeros).

(** One entry of [get_first_derivs_along_edge]: the derivative at the
    parameter value [t] along the edge. *)
Definition first_deriv_on_edge (self : t) (edge : SurfaceEdge) (perp : bool) (t : R)
  : result Point3D :=
  match edge with
  | North => if perp then dSdv self t 1 else dSdu self t 1
  | South => if perp then dSdv self t 0 else dSdu self t 0
  | East => if perp then dSdu self 1 t else dSdv self 1 t
  | West => if perp then dSdu self 0 t else dSdv self 0 t
  end.

Definition get_first_derivs_along_edge (self : t) (edge : SurfaceEdge)
    (n_points : Z) (perp : bool) : result (list Point3D) :=
  ts <- linspace 0 1 n_points ;;
  comprehension (first_deriv_on_edge self edge perp) ts.

Definition get_parallel_degree (self : t) (surface_edge : SurfaceEdge) : Z :=
  match surface_edge with
  | North | South => degree_u self
  | _ => degree_v self
  end.

Definition get_perpendicular_degree (self : t) (surface_edge : SurfaceEdge) : Z :=
  match surface_edge with
  | North | South => degree_v self
  | _ => degree_u self
  end.

Definition get_point (self : t) (row_index continuity_index : Z)
    (surface_edge : SurfaceEdge) : result Point3D :=
  match surface_edge with
  | North => getitem2 (points self) row_index (- (continuity_index + 1))
  | South => getitem2 (points self) row_index continuity_index
  | East => getitem2 (points self) (- (continuity_index + 1)) row_index
  | West => getitem2 (points self) continuity_index row_index
  end.

Definition set_point (point : Point3D) (row_index continuity_index : Z)
    (surface_edge : SurfaceEdge) : Mut t unit :=
  mwrite (fun self =>
    pts <- match surface_edge with
           | North => setitem2 (points self) row_index (- (continuity_index + 1)) point
           | South => setitem2 (points self) row_index continuity_index point
           | East => setitem2 (points self) (- (continuity_index + 1)) row_index point
           | West => setitem2 (points self) continuity_index row_index point
           end ;;
    Ok (with_points self pts)).

(** [other] is a patch object distinct from the receiver. *)
Definition enforce_g0 (other : t) (surface_edge other_surface_edge : SurfaceEdge)
  : Mut t unit :=
  mread (fun self =>
    assert (get_parallel_degree self surface_edge
            =? get_parallel_degree other other_surface_edge)%Z) ~;;
  n <~ mread (fun self => Ok (get_parallel_degree self surface_edge)) ;;
  mfor (range (n + 1)) (fun row_index =>
    p <~ mlift (get_point other (Z.of_nat row_index) 0 other_surface_edge) ;;
    set_point p (Z.of_nat row_index) 0 surface_edge).

Definition enforce_g0g1 (other : t) (f : R)
    (surface_edge other_surface_edge : SurfaceEdge) : Mut t unit :=
  enforce_g0 other surface_edge other_surface_edge ~;;
  n_ratio <~ mread (fun self =>
    pydiv (IZR (get_perpendicular_degree other other_surface_edge))
          (IZR (get_perpendicular_degree self surface_edge))) ;;
  n <~ mread (fun self => Ok (get_parallel_degree self surface_edge)) ;;
  mfor (range (n + 1)) (fun row_index =>
    P_i0_b <~ mread (fun self => get_point self (Z.of_nat row_index) 0 surface_edge) ;;
    P_im_a <~ mlift (get_point other (Z.of_nat row_index) 0 other_surface_edge) ;;
    P_im1_a <~ mlift (get_point other (Z.of_nat row_index) 1 other_surface_edge) ;;
    let P_i1_b := padd P_i0_b (pscale (f * n_ratio) (psub P_im_a P_im1_a)) in
    set_point P_i1_b (Z.of_nat row_index) 1 surface_edge).

(** The second derivatives: the basis value of the direction is replaced
    by the second difference of the basis of two degrees less. *)
Definition d2Sdu2 (self : t) (u v : R) : result Point3D :=
  P <- get_control_point_array self ;;
  shape_2 P ;;;
  Ok (fold_left (fun deriv_u_2 i =>
        fold_left (fun deriv_u_2 j =>
          let term1 :=
            IZR (degree_u self) * IZR (degree_u self - 1)
            * (bernstein_poly (degree_u self - 2) (Z.of_nat i - 2) u
               - bernstein_poly (degree_u self - 2) (Z.of_nat i - 1) u) in
          let term2 :=
            IZR (degree_u self) * IZR (degree_u self - 1)
            * (bernstein_poly (degree_u self - 2) (Z.of_nat i - 1) u
               - bernstein_poly (degree_u self - 2) (Z.of_nat i) u) in
          let d2budu2 := term1 - term2 in
          let Bv := bernstein_poly (degree_v self) (Z.of_nat j) v in
          let d2budu2_Bv := d2budu2 * Bv in
          padd deriv_u_2 (pscale d2budu2_Bv (at2 NonFinite P i j)))
        (range (degree_v self + 1)) deriv_u_2)
      (range (degree_u self + 1)) zeros).

Definition d2Sdv2 (self : t) (u v : R) : result Point3D :=
  P <- get_control_point_array self ;;
  shape_2 P ;;;
  Ok (fold_left (fun deriv_v_2 i =>
        fold_left (fun deriv_v_2 j =>
          let term1 :=
            IZR (degree_v self) * IZR (degree_v self - 1)
            * (bernstein_poly (degree_v self - 2) (Z.of_nat j - 2) v
               - bernstein_poly (degree_v self - 2) (Z.of_nat j - 1) v) in
          let term2 :=
            IZR (degree_v self) * IZR (degree_v self - 1)
            * (bernstein_poly (degree_v self - 2) (Z.of_nat j - 1) v
               - bernstein_poly (degree_v self - 2) (Z.of_nat j) v) in
          let d2bvdv2 := term1 - term2 in
          let Bu := bernstein_poly (degree_u self) (Z.of_nat i) u in
          let Bu_d2bvdv2 := Bu * d2bvdv2 in
          padd deriv_v_2 (pscale Bu_d2bvdv2 (at2 NonFinite P i j)))
        (range (degree_v self + 1)) deriv_v_2)
      (range (degree_u self + 1)) zeros).

(** One entry of [get_edge]: the point at the parameter value [t] along the
    edge. *)
Definition point_on_edge (self : t) (edge : SurfaceEdge) (t : R) : result Point3D :=
  match edge with
  | North => evaluate_ndarray self t 1
  | South => evaluate_ndarray self t 0
  | East => evaluate_ndarray self 1 t
  | West => evaluate_ndarray self 0 t
  end.

Definition get_edge (self : t) (edge : SurfaceEdge) (n_points : Z)
  : result (list Point3D) :=
  ts <- linspace 0 1 n_points ;;
  comprehension (point_on_edge self edge) ts.

(** One entry of [get_second_derivs_along_edge]. *)
Definition second_deriv_on_edge (self : t) (edge : SurfaceEdge) (perp : bool) (t : R)
  : result Point3D :=
  match edge with
  | North => if perp then d2Sdv2 self t 1 else d2Sdu2 self t 1
  | South => if perp then d2Sdv2 self t 0 else d2Sdu2 self t 0
  | East => if perp then d2Sdu2 self 1 t else d2Sdv2 self 1 t
  | West => if perp then d2Sdu2 self 0 t else d2Sdv2 self 0 t
  end.

Definition get_second_derivs_along_edge (self : t) (edge : SurfaceEdge)
    (n_points : Z) (perp : bool) : result (list Point3D) :=
  ts <- linspace 0 1 n_points ;;
  comprehension (second_deriv_on_edge self edge perp) ts.

(** [evaluate]: the samples of [np.meshgrid] are indexed by [v] first. *)
Definition evaluate (self : t) (Nu Nv : Z) : result (list (list Point3D)) :=
  us <- linspace 0 1 Nu ;;
  vs <- linspace 0 1 Nv ;;
  comprehension (fun v => comprehension (fun u => evaluate_ndarray self u v) us) vs.

Definition enforce_c0 (other : t) (surface_edge other_surface_edge : SurfaceEdge)
  : Mut t unit :=
  enforce_g0 other surface_edge other_surface_edge.

Definition enforce_c0c1 (other : t) (surface_edge other_surface_edge : SurfaceEdge)
  : Mut t unit :=
  enforce_g0g1 other 1 surface_edge other_surface_edge.

Definition enforce_g0g1g2 (other : t) (f : R)
    (surface_edge other_surface_edge : SurfaceEdge) : Mut t unit :=
  enforce_g0g1 other f surface_edge other_surface_edge ~;;
  let p_perp_a := get_perpendicular_degree other other_surface_edge in
  p_perp_b <~ mread (fun self => Ok (get_perpendicular_degree self surface_edge)) ;;
  n_ratio <~ mlift (pydiv (IZR (p_perp_a ^ 2 - p_perp_a))
                          (IZR (p_perp_b ^ 2 - p_perp_b))) ;;
  n <~ mread (fun self => Ok (get_parallel_degree self surface_edge)) ;;
  mfor (range (n + 1)) (fun row_index =>
    P_i0_b <~ mread (fun self => get_point self (Z.of_nat row_index) 0 surface_edge) ;;
    P_i1_b <~ mread (fun self => get_point self (Z.of_nat row_index) 1 surface_edge) ;;
    P_im_a <~ mlift (get_point other (Z.of_nat row_index) 0 other_surface_edge) ;;
    P_im1_a <~ mlift (get_point other (Z.of_nat row_index) 1 other_surface_edge) ;;
    P_im2_a <~ mlift (get_point other (Z.of_nat row_index) 2 other_surface_edge) ;;
    let P_i2_b :=
      padd (psub (pscale 2 P_i1_b) P_i0_b)
           (pscale (f ^ 2 * n_ratio)
              (padd (psub P_im_a (pscale 2 P_im1_a)) P_im2_a)) in
    set_point P_i2_b (Z.of_nat row_index) 2 surface_edge).

Definition enforce_c0c1c2 (other : t) (surface_edge other_surface_edge : SurfaceEdge)
  : Mut t unit :=
  enforce_g0g1g2 other 1 surface_edge other_surface_edge.

(** The lines that [generate_control_point_net] adds at the grid position
    [(i, j)]; [Line3D(p0=a, p1=b)] is the pair [(a, b)]. *)
Definition net_cell (self : t) (control_points : list (list Point3D)) (i j : nat)
  : list (Point3D * Point3D) :=
  let point_obj_1 := at2 NonFinite control_points i j in
  let point_obj_2 := at2 NonFinite control_points (i + 1) j in
  let point_obj_3 := at2 NonFinite control_points i (j + 1) in
  let line_1 := (point_obj_1, point_obj_2) in
  let line_2 := (point_obj_1, point_obj_3) in
  if ((Z.of_nat i <? Nu self - 2)%Z && (Z.of_nat j <? Nv self - 2)%Z)%bool
  then [line_1; line_2]
  else
    let point_obj_4 := at2 NonFinite control_points (i + 1) (j + 1) in
    let line_3 := (point_obj_3, point_obj_4) in
    let line_4 := (point_obj_2, point_obj_4) in
    [line_1; line_2] ++ [line_3; line_4].

Definition generate_control_point_net (self : t)
  : result (list Point3D * list (Point3D * Point3D)) :=
  control_points <- get_control_point_array self ;;
  let points :=
    fold_left (fun points i =>
      fold_left (fun points j => points ++ [at2 NonFinite control_points i j])
                (range (Nv self)) points)
      (range (Nu self)) [] in
  let lines :=
    fold_left (fun lines i =>
      fold_left (fun lines j => lines ++ net_cell self control_points i j)
                (range (Nv self - 1)) lines)
      (range (Nu self - 1)) [] in
  Ok (points, lines).

End BezierSurface.

(** [a.shape[0]] and [a.shape[1]] of a two-dimensional array. *)
Definition shape_0 {A : Type} (a : list (list A)) : Z := len a.

Definition shape_1 {A : Type} (a : list (list A)) : Z :=
  match a with
  | [] => 0%Z
  | row0 :: _ => len row0
  end.

(** The negative weight check of the constructors. *)
Definition check_weights (weights : list (list R)) : result unit :=
  for_each weights (fun weight_row =>
    for_each weight_row (fun weight =>
      if Rlt_dec weight 0 then Raise NegativeWeightError else Ok tt)).

(** The argument [f: float or np.ndarray] of the rational enforcement
    methods. *)
Inductive f_arg : Type :=
| f_float (x : R)
| f_ndarray (a : list R).

(** [for x in xs: s = f(s, x)] for a body that may raise. *)
Fixpoint fold_result {A S : Type} (f : S -> A -> result S) (xs : list A) (s : S)
  : result S :=
  match xs with
  | [] => Ok s
  | x :: xs' => s' <- f s x ;; fold_result f xs' s'
  end.

(** [int(x // y)] and [x % y] on floats, for a positive [y]. *)
Definition floordiv (x y : R) : Z := Zfloor (x / y).

Definition pymod (x y : R) : R := x - y * IZR (floordiv x y).

(** ** The rows of a surface of revolution

    The loop over the profile points that [from_bezier_revolve] runs, the
    same text in both classes.  The geometric helpers of [astk.geom.tools]
    and the vector type are not part of the kernel: they are parameters.
    An [Angle] is its value in radians. *)

Module Revolve.

Section Tools.

Variable Line3D : Type.
Variable project_point_onto_line : Point3D -> Line3D -> Point3D.
Variable measure_distance_point_line : Point3D -> Line3D -> R.
Variable rotate_point_about_axis : Point3D -> Line3D -> R -> Point3D.
(** [Vector3D(p0=p, p1=q).normalized_value()], as an array. *)
Variable normalized_value : Point3D -> Point3D -> Point3D.

(** [weights[-1].append(x)] *)
Definition append_to_last (weights : list (list R)) (x : R) : result (list (list R)) :=
  row <- getitem weights (-1) ;;
  setitem weights (-1) (row ++ [x]).

(** One turn of [for idx, rotated_point in enumerate(new_points)]; the
    state is [new_points] and [weights]. *)
Definition copy_step (angles : list R) (axis_projection : Point3D) (radius : R)
    (st : list Point3D * list (list R)) (idx : nat)
  : result (list Point3D * list (list R)) :=
  let '(new_points, weights) := st in
  rotated_point <- getitem new_points (Z.of_nat idx) ;;
  let weights := if Nat.eqb idx 0 then weights ++ [[]] else weights in
  if Nat.even idx then
    weights' <- append_to_last weights 1 ;;
    Ok (new_points, weights')
  else
    a_next <- getitem angles (Z.of_nat idx + 1) ;;
    a_prev <- getitem angles (Z.of_nat idx - 1) ;;
    let sine_half_angle := sin (0.5 * PI - 0.5 * (a_next - a_prev)) in
    new_points' <-
      (if Req_dec_T radius 0 then Ok new_points
       else
         let distance := npdiv radius sine_half_angle in
         let vector := normalized_value axis_projection rotated_point in
         setitem new_points (Z.of_nat idx)
                 (padd axis_projection (pscale_np distance vector))) ;;
    weights' <- append_to_last weights sine_half_angle ;;
    Ok (new_points', weights').

(** The body of [for point in bezier.points]; the state is
    [control_points] and [weights]. *)
Definition revolve_point (axis : Line3D) (angles : list R)
    (st : list (list Point3D) * list (list R)) (point : Point3D)
  : result (list (list Point3D) * list (list R)) :=
  let '(control_points, weights) := st in
  let axis_projection := project_point_onto_line point axis in
  let radius := measure_distance_point_line point axis in
  let new_points :=
    if Req_dec_T radius 0 then map (fun _ => point) angles
    else map (fun angle => rotate_point_about_axis point axis angle) angles in
  '(new_points', weights') <-
    fold_result (copy_step angles axis_projection radius)
                (range (len new_points)) (new_points, weights) ;;
  Ok (control_points ++ [new_points'], weights').

Definition revolve_rows (axis : Line3D) (angles : list R) (bezier_points : list Point3D)
  : result (list (list Point3D) * list (list R)) :=
  fold_result (revolve_point axis angles) bezier_points ([], []).

End Tools.

End Revolve.

(** ** RationalBezierSurface *)

Module RationalBezierSurface.

Record t : Type := mk {
  points : list (list Point3D);
  knots_u : list R;
  knots_v : list R;
  weights : list (list R);
  degree_u : Z;
  degree_v : Z;
  Nu : Z;
  Nv : Z
}.

Definition with_points (self : t) (pts : list (list Point3D)) : t :=
  mk pts (knots_u self) (knots_v self) (weights self)
     (degree_u self) (degree_v self) (Nu self) (Nv self).

Definition with_weights (self : t) (ws : list (list R)) : t :=
  mk (points self) (knots_u self) (knots_v self) ws
     (degree_u self) (degree_v self) (Nu self) (Nv self).

(** [k = np.zeros(2 * n); k[n:] = 1.0] *)
Definition clamped_knots (n : nat) : list R := repeat 0 n ++ repeat 1 n.

Definition __init__ (points : list (list Point3D)) (weights : list (list R))
  : result t :=
  let knots_u := clamped_knots (length points) in
  row0 <- getitem points 0 ;;
  let knots_v := clamped_knots (length row0) in
  let degree_u := (len points - 1)%Z in
  let degree_v := (len row0 - 1)%Z in
  assert (len knots_u =? len points + degree_u + 1)%Z ;;;
  assert (len knots_v =? len row0 + degree_v + 1)%Z ;;;
  assert (len points =? shape_0 weights)%Z ;;;
  assert (len row0 =? shape_1 weights)%Z ;;;
  check_weights weights ;;;
  Ok (mk points knots_u knots_v weights degree_u degree_v (len points) (len row0)).

Definition get_control_point_array (self : t) : result (list (list Point3D)) :=
  as_ndarray (points self).

Definition evaluate_ndarray (self : t) (u v : R) : result Point3D :=
  P <- get_control_point_array self ;;
  shape_2 P ;;;
  let '(point, wBuBv_sum) :=
    fold_left (fun acc i =>
      fold_left (fun '(point, wBuBv_sum) j =>
        let Bu := bernstein_poly (degree_u self) (Z.of_nat i) u in
        let Bv := bernstein_poly (degree_v self) (Z.of_nat j) v in
        let wBuBv := Bu * Bv * at2 0 (weights self) i j in
        (padd point (pscale wBuBv (at2 NonFinite P i j)), wBuBv_sum + wBuBv))
      (range (Nv self)) acc)
    (range (Nu self)) (zeros, 0) in
  Ok (pdiv point wBuBv_sum).

Definition get_parallel_degree (self : t) (surface_edge : SurfaceEdge) : Z :=
  match surface_edge with
  | North | South => degree_u self
  | _ => degree_v self
  end.

Definition get_perpendicular_degree (self : t) (surface_edge : SurfaceEdge) : Z :=
  match surface_edge with
  | North | South => degree_v self
  | _ => degree_u self
  end.

Definition get_corner_index (self : t) (surface_corner : SurfaceCorner) : Z * Z :=
  match surface_corner with
  | Northeast => (degree_u self, degree_v self)
  | Northwest => (0%Z, degree_v self)
  | Southwest => (0%Z, 0%Z)
  | Southeast => (degree_u self, 1%Z)
  end.

Definition get_point (self : t) (row_index continuity_index : Z)
    (surface_edge : SurfaceEdge) : result Point3D :=
  match surface_edge with
  | North => getitem2 (points self) row_index (- (continuity_index + 1))
  | South => getitem2 (points self) row_index continuity_index
  | East => getitem2 (points self) (- (continuity_index + 1)) row_index
  | West => getitem2 (points self) continuity_index row_index
  end.

Definition set_point (point : Point3D) (row_index continuity_index : Z)
    (surface_edge : SurfaceEdge) : Mut t unit :=
  mwrite (fun self =>
    pts <- match surface_edge with
           | North => setitem2 (points self) row_index (- (continuity_index + 1)) point
           | South => setitem2 (points self) row_index continuity_index point
           | East => setitem2 (points self) (- (continuity_index + 1)) row_index point
           | West => setitem2 (points self) continuity_index row_index point
           end ;;
    Ok (with_points self pts)).

Definition get_weight (self : t) (row_index continuity_index : Z)
    (surface_edge : SurfaceEdge) : result R :=
  match surface_edge with
  | North => getitem2 (weights self) row_index (- (continuity_index + 1))
  | South => getitem2 (weights self) row_index continuity_index
  | East => getitem2 (weights self) (- (continuity_index + 1)) row_index
  | West => getitem2 (weights self) continuity_index row_index
  end.

Definition set_weight (weight : R) (row_index continuity_index : Z)
    (surface_edge : SurfaceEdge) : Mut t unit :=
  mwrite (fun self =>
    ws <- match surface_edge with
          | North => setitem2 (weights self) row_index (- (continuity_index + 1)) weight
          | South => setitem2 (weights self) row_index continuity_index weight
          | East => setitem2 (weights self) (- (continuity_index + 1)) row_index weight
          | West => setitem2 (weights self) continuity_index row_index weight
          end ;;
    Ok (with_weights self ws)).

(** [other] is a patch object distinct from the receiver. *)
Definition enforce_g0 (other : t) (surface_edge other_surface_edge : SurfaceEdge)
  : Mut t unit :=
  mread (fun self =>
    assert (get_parallel_degree self surface_edge
            =? get_parallel_degree other other_surface_edge)%Z) ~;;
  n <~ mread (fun self => Ok (get_parallel_degree self surface_edge)) ;;
  mfor (range (n + 1)) (fun row_index =>
    p <~ mlift (get_point other (Z.of_nat row_index) 0 other_surface_edge) ;;
    set_point p (Z.of_nat row_index) 0 surface_edge ~;;
    w <~ mlift (get_weight other (Z.of_nat row_index) 0 other_surface_edge) ;;
    set_weight w (Z.of_nat row_index) 0 surface_edge).

(** [f if isinstance(f, float) else f[row_index]] *)
Definition f_row_of (f : f_arg) (row_index : nat) : result R :=
  match f with
  | f_float x => Ok x
  | f_ndarray a => getitem a (Z.of_nat row_index)
  end.

(** The body of the row loop of [enforce_g0g1]. *)
Definition enforce_g0g1_row (other : t) (f : f_arg) (n_ratio : R)
    (surface_edge other_surface_edge : SurfaceEdge) (row_index : nat) : Mut t unit :=
  f_row <~ mlift (f_row_of f row_index) ;;
  w_i0_b <~ mread (fun self => get_weight self (Z.of_nat row_index) 0 surface_edge) ;;
  w_im_a <~ mlift (get_weight other (Z.of_nat row_index) 0 other_surface_edge) ;;
  w_im1_a <~ mlift (get_weight other (Z.of_nat row_index) 1 other_surface_edge) ;;
  let w_i1_b := w_i0_b + f_row * n_ratio * (w_im_a - w_im1_a) in
  (if Rlt_dec w_i1_b 0 then mlift (Raise NegativeWeightError) else mret tt) ~;;
  set_weight w_i1_b (Z.of_nat row_index) 1 surface_edge ~;;
  P_i0_b <~ mread (fun self => get_point self (Z.of_nat row_index) 0 surface_edge) ;;
  P_im_a <~ mlift (get_point other (Z.of_nat row_index) 0 other_surface_edge) ;;
  P_im1_a <~ mlift (get_point other (Z.of_nat row_index) 1 other_surface_edge) ;;
  let P_i1_b :=
    padd (pscale_np (npdiv w_i0_b w_i1_b) P_i0_b)
         (pscale_np (npdiv (f_row * n_ratio) w_i1_b)
            (psub (pscale w_im_a P_im_a) (pscale w_im1_a P_im1_a))) in
  set_point P_i1_b (Z.of_nat row_index) 1 surface_edge.

Definition enforce_g0g1 (other : t) (f : f_arg)
    (surface_edge other_surface_edge : SurfaceEdge) : Mut t unit :=
  match f with
  | f_ndarray a =>
      mread (fun self =>
        assert (len a =? get_parallel_degree self surface_edge + 1)%Z)
  | f_float _ => mret tt
  end ~;;
  enforce_g0 other surface_edge other_surface_edge ~;;
  n_ratio <~ mread (fun self =>
    pydiv (IZR (get_perpendicular_degree other other_surface_edge))
          (IZR (get_perpendicular_degree self surface_edge))) ;;
  n <~ mread (fun self => Ok (get_parallel_degree self surface_edge)) ;;
  mfor (range (n + 1))
       (enforce_g0g1_row other f n_ratio surface_edge other_surface_edge).

Definition enforce_c0 (other : t) (surface_edge other_surface_edge : SurfaceEdge)
  : Mut t unit :=
  enforce_g0 other surface_edge other_surface_edge.

Definition enforce_c0c1 (other : t) (surface_edge other_surface_edge : SurfaceEdge)
  : Mut t unit :=
  enforce_g0g1 other (f_float 1) surface_edge other_surface_edge.

(** The body of the row loop of [enforce_g0g1g2]. *)
Definition enforce_g0g1g2_row (other : t) (f : f_arg) (n_ratio : R)
    (surface_edge other_surface_edge : SurfaceEdge) (row_index : nat) : Mut t unit :=
  w_i0_b <~ mread (fun self => get_weight self (Z.of_nat row_index) 0 surface_edge) ;;
  w_i1_b <~ mread (fun self => get_weight self (Z.of_nat row_index) 1 surface_edge) ;;
  w_im_a <~ mlift (get_weight other (Z.of_nat row_index) 0 other_surface_edge) ;;
  w_im1_a <~ mlift (get_weight other (Z.of_nat row_index) 1 other_surface_edge) ;;
  w_im2_a <~ mlift (get_weight other (Z.of_nat row_index) 2 other_surface_edge) ;;
  f_row <~ mlift (f_row_of f row_index) ;;
  let w_i2_b :=
    2 * w_i1_b - w_i0_b + f_row ^ 2 * n_ratio * (w_im_a - 2 * w_im1_a + w_im2_a) in
  (if Rlt_dec w_i2_b 0 then mlift (Raise NegativeWeightError) else mret tt) ~;;
  set_weight w_i2_b (Z.of_nat row_index) 2 surface_edge ~;;
  P_i0_b <~ mread (fun self => get_point self (Z.of_nat row_index) 0 surface_edge) ;;
  P_i1_b <~ mread (fun self => get_point self (Z.of_nat row_index) 1 surface_edge) ;;
  P_im_a <~ mlift (get_point other (Z.of_nat row_index) 0 other_surface_edge) ;;
  P_im1_a <~ mlift (get_point other (Z.of_nat row_index) 1 other_surface_edge) ;;
  P_im2_a <~ mlift (get_point other (Z.of_nat row_index) 2 other_surface_edge) ;;
  let P_i2_b :=
    padd (psub (pscale_np (npdiv (2 * w_i1_b) w_i2_b) P_i1_b)
               (pscale_np (npdiv w_i0_b w_i2_b) P_i0_b))
         (pscale_np (option_map (Rmult (f_row ^ 2 * n_ratio)) (npdiv 1 w_i2_b))
            (padd (psub (pscale w_im_a P_im_a) (pscale (2 * w_im1_a) P_im1_a))
                  (pscale w_im2_a P_im2_a))) in
  set_point P_i2_b (Z.of_nat row_index) 2 surface_edge.

Definition enforce_g0g1g2 (other : t) (f : f_arg)
    (surface_edge other_surface_edge : SurfaceEdge) : Mut t unit :=
  enforce_g0g1 other f surface_edge other_surface_edge ~;;
  n_ratio <~ mread (fun self =>
    pydiv (IZR (get_perpendicular_degree other other_surface_edge ^ 2
                - get_perpendicular_degree other other_surface_edge))
          (IZR (get_perpendicular_degree self surface_edge ^ 2
                - get_perpendicular_degree self surface_edge))) ;;
  n <~ mread (fun self => Ok (get_parallel_degree self surface_edge)) ;;
  mfor (range (n + 1))
       (enforce_g0g1g2_row other f n_ratio surface_edge other_surface_edge).

Definition enforce_c0c1c2 (other : t) (surface_edge other_surface_edge : SurfaceEdge)
  : Mut t unit :=
  enforce_g0g1g2 other (f_float 1) surface_edge other_surface_edge.

Section Builder.

Variable Line3D : Type.
Variable project_point_onto_line : Point3D -> Line3D -> Point3D.
Variable measure_distance_point_line : Point3D -> Line3D -> R.
Variable rotate_point_about_axis : Point3D -> Line3D -> R -> Point3D.
Variable normalized_value : Point3D -> Point3D -> Point3D.

Definition _determine_angle_distribution (start_angle end_angle : R)
  : result (list R) :=
  let angle_diff := Rabs (end_angle - start_angle) in
  if Req_dec_T angle_diff 0 then Raise InvalidGeometryError
  else
    let N_angles :=
      if Req_dec_T (pymod angle_diff (0.5 * PI)) 0
      then (2 * floordiv angle_diff (0.5 * PI) + 1)%Z
      else (2 * floordiv angle_diff (0.5 * PI) + 3)%Z in
    linspace start_angle end_angle N_angles.

Definition from_bezier_revolve (bezier_points : list Point3D) (axis : Line3D)
    (start_angle end_angle : R) : result t :=
  angles <- _determine_angle_distribution start_angle end_angle ;;
  '(control_points, weights) <-
    Revolve.revolve_rows Line3D project_point_onto_line measure_distance_point_line
      rotate_point_about_axis normalized_value axis angles bezier_points ;;
  __init__ control_points weights.

End Builder.

End RationalBezierSurface.

(** [np.insert(arr, obj, value)] for an index [obj] that is not negative:
    the value goes before the entry of that index. *)
Definition np_insert {A : Type} (arr : list A) (obj : nat) (value : A)
  : result (list A) :=
  if (obj <=? length arr)%nat
  then Ok (firstn obj arr ++ value :: skipn obj arr)
  else Raise IndexError.

(** ** NURBSSurface *)

Module NURBSSurface.

Record t : Type := mk {
  control_points : list (list Point3D);
  knots_u : list R;
  knots_v : list R;
  weights : list (list R);
  degree_u : nat;
  degree_v : nat;
  Nu : Z;
  Nv : Z;
  possible_spans_u : list (R * R);
  possible_span_indices_u : list nat;
  possible_spans_v : list (R * R);
  possible_span_indices_v : list nat
}.

(** The loop over [enumerate(zip(knot_vector[:-1], knot_vector[1:]))],
    started at index [knot_idx]. *)
Fixpoint possible_spans_from (knot_idx : nat) (knot_vector : list R)
  : list (R * R) * list nat :=
  match knot_vector with
  | knot_1 :: rest =>
      match rest with
      | knot_2 :: _ =>
          let '(possible_spans, possible_span_indices) :=
            possible_spans_from (S knot_idx) rest in
          if Req_dec_T knot_1 knot_2
          then (possible_spans, possible_span_indices)
          else ((knot_1, knot_2) :: possible_spans, knot_idx :: possible_span_indices)
      | [] => ([], [])
      end
  | [] => ([], [])
  end.

Definition _get_possible_spans (knot_vector : list R) : list (R * R) * list nat :=
  possible_spans_from 0 knot_vector.

(** The degrees are natural numbers here.  The constructor itself does not
    check their sign: it accepts a negative degree with a knot vector that
    is shorter by as much, and such a surface is not a value of [t]. *)
Definition __init__ (control_points : list (list Point3D))
    (knots_u knots_v : list R) (weights : list (list R))
    (degree_u degree_v : nat) : result t :=
  assert (len knots_u =? shape_0 control_points + Z.of_nat degree_u + 1)%Z ;;;
  assert (len knots_v =? shape_1 control_points + Z.of_nat degree_v + 1)%Z ;;;
  assert ((shape_0 control_points =? shape_0 weights)%Z
          && (shape_1 control_points =? shape_1 weights)%Z) ;;;
  check_weights weights ;;;
  let '(possible_spans_u, possible_span_indices_u) := _get_possible_spans knots_u in
  let '(possible_spans_v, possible_span_indices_v) := _get_possible_spans knots_v in
  Ok (mk control_points knots_u knots_v weights degree_u degree_v
         (shape_0 control_points) (shape_1 control_points)
         possible_spans_u possible_span_indices_u
         possible_spans_v possible_span_indices_v).

(** The scan of [_find_span] over [zip(spans, indices)]. *)
Fixpoint find_span_scan (t : R) (zipped : list ((R * R) * nat)) : option nat :=
  match zipped with
  | [] => None
  | (knot_span, knot_span_idx) :: rest =>
      if Rle_dec (fst knot_span) t then
        if Rlt_dec t (snd knot_span) then Some knot_span_idx
        else find_span_scan t rest
      else find_span_scan t rest
  end.

(** The result is [None] when the function falls off its end. *)
Definition _find_span (t : R) (possible_spans_u_or_v : list (R * R))
    (possible_span_indices_u_or_v : list nat) : result (option nat) :=
  match find_span_scan t (combine possible_spans_u_or_v possible_span_indices_u_or_v) with
  | Some k => Ok (Some k)
  | None =>
      last_span <- getitem possible_spans_u_or_v (-1) ;;
      if Req_dec_T t (snd last_span) then
        k <- getitem possible_span_indices_u_or_v (-1) ;;
        Ok (Some k)
      else Ok None
  end.

(** [inf] and [nan] are replaced by [0.0]. *)
Definition finite_or_zero (x : npfloat) : R :=
  match x with
  | Some r => r
  | None => 0
  end.

Fixpoint _cox_de_boor (t : R) (i : nat) (p : nat) (knot_vector : list R)
    (possible_spans_u_or_v : list (R * R))
    (possible_span_indices_u_or_v : list nat) {struct p} : result R :=
  match p with
  | O =>
      if existsb (Nat.eqb i) possible_span_indices_u_or_v then
        span <- _find_span t possible_spans_u_or_v possible_span_indices_u_or_v ;;
        match span with
        | Some k => if Nat.eqb k i then Ok 1 else Ok 0
        | None => Ok 0
        end
      else Ok 0
  | S p_minus_1 =>
      k_i <- getitem knot_vector (Z.of_nat i) ;;
      k_ip <- getitem knot_vector (Z.of_nat i + Z.of_nat p) ;;
      k_ip1 <- getitem knot_vector (Z.of_nat i + Z.of_nat p + 1) ;;
      k_i1 <- getitem knot_vector (Z.of_nat i + 1) ;;
      let f := finite_or_zero (npdiv (t - k_i) (k_ip - k_i)) in
      let g := finite_or_zero (npdiv (k_ip1 - t) (k_ip1 - k_i1)) in
      if Req_dec_T f 0 then
        if Req_dec_T g 0 then Ok 0
        else
          r <- _cox_de_boor t (i + 1) p_minus_1 knot_vector
                 possible_spans_u_or_v possible_span_indices_u_or_v ;;
          Ok (g * r)
      else
        if Req_dec_T g 0 then
          r <- _cox_de_boor t i p_minus_1 knot_vector
                 possible_spans_u_or_v possible_span_indices_u_or_v ;;
          Ok (f * r)
        else
          r1 <- _cox_de_boor t i p_minus_1 knot_vector
                  possible_spans_u_or_v possible_span_indices_u_or_v ;;
          r2 <- _cox_de_boor t (i + 1) p_minus_1 knot_vector
                  possible_spans_u_or_v possible_span_indices_u_or_v ;;
          Ok (f * r1 + g * r2)
  end.

Definition _basis_functions (t : R) (p : nat) (knot_vector : list R)
    (n_control_points_u_or_v : Z) (possible_spans_u_or_v : list (R * R))
    (possible_span_indices_u_or_v : list nat) : result (list R) :=
  comprehension
    (fun i => _cox_de_boor t i p knot_vector
                possible_spans_u_or_v possible_span_indices_u_or_v)
    (range n_control_points_u_or_v).

Definition _determine_angle_distribution (start_angle end_angle : R)
  : result (list R) :=
  let angle_diff := end_angle - start_angle in
  if Req_dec_T angle_diff 0 then Raise InvalidGeometryError
  else
    let N_angles :=
      if Req_dec_T (pymod angle_diff (0.5 * PI)) 0
      then (2 * floordiv angle_diff (0.5 * PI) + 1)%Z
      else (2 * floordiv angle_diff (0.5 * PI) + 3)%Z in
    linspace start_angle end_angle N_angles.

(** [Bu[i]] and [Bv[j]] are read on indices below the lengths of the two
    arrays. *)
Definition evaluate_ndarray (self : t) (u v : R) : result Point3D :=
  Bu <- _basis_functions u (degree_u self) (knots_u self) (Nu self)
          (possible_spans_u self) (possible_span_indices_u self) ;;
  Bv <- _basis_functions v (degree_v self) (knots_v self) (Nv self)
          (possible_spans_v self) (possible_span_indices_v self) ;;
  let '(weighted_cps, denominator) :=
    fold_left (fun acc i =>
      fold_left (fun '(weighted_cps, denominator) j =>
        (padd weighted_cps
              (pscale (at2 0 (weights self) i j)
                 (pscale (nth j Bv 0)
                    (pscale (nth i Bu 0) (at2 NonFinite (control_points self) i j)))),
         denominator + nth i Bu 0 * nth j Bv 0 * at2 0 (weights self) i j))
      (range (Nv self)) acc)
    (range (Nu self)) (zeros, 0) in
  Ok (pdiv weighted_cps denominator).

(** One turn of the loop that inserts the inner knots of a revolution. *)
Definition insert_knot (delta : R) (knots_v : list R) (idx : nat) : result (list R) :=
  k <- getitem knots_v (2 + Z.of_nat idx) ;;
  let new_knot := if Nat.odd idx then k else k + delta in
  np_insert knots_v (3 + idx) new_knot.

(** The knot vector across the profile, for [n_angles] angle samples.  The
    divisor of [delta] is at least 3/2 when the loop runs. *)
Definition revolve_knots_v (n_angles : Z) : result (list R) :=
  let knots_v := [0; 0; 0; 1; 1; 1] in
  let n_knots_to_insert := (n_angles - 3)%Z in
  if (0 <? n_knots_to_insert)%Z then
    let delta := 1 / (IZR n_knots_to_insert / 2 + 1) in
    fold_result (insert_knot delta) (range n_knots_to_insert) knots_v
  else Ok knots_v.

Section Builder.

Variable Line3D : Type.
Variable project_point_onto_line : Point3D -> Line3D -> Point3D.
Variable measure_distance_point_line : Point3D -> Line3D -> R.
Variable rotate_point_about_axis : Point3D -> Line3D -> R -> Point3D.
Variable normalized_value : Point3D -> Point3D -> Point3D.

(** [np.array] of an empty list of rows has one dimension, and the first
    assert of the constructor, [control_points.ndim == 3], fails. *)
Definition from_bezier_revolve (bezier_points : list Point3D) (axis : Line3D)
    (start_angle end_angle : R) : result t :=
  angles <- _determine_angle_distribution start_angle end_angle ;;
  '(control_points, weights) <-
    Revolve.revolve_rows Line3D project_point_onto_line measure_distance_point_line
      rotate_point_about_axis normalized_value axis angles bezier_points ;;
  knots_v <- revolve_knots_v (len angles) ;;
  let knots_u := map (fun _ => 0) bezier_points ++ map (fun _ => 1) bezier_points in
  let degree_v := 2%nat in
  match bezier_points with
  | [] => Raise AssertionError
  | _ :: _ =>
      let degree_u := (length bezier_points - 1)%nat in
      __init__ control_points knots_u knots_v weights degree_u degree_v
  end.

End Builder.

End NURBSSurface.

(** ** Corners of a control grid *)

(** The control point at a corner of the grid.  West is [u = 0] and East is
    [u = 1], South is [v = 0] and North is [v = 1], as [get_edge] and
    [get_point] have them; [u] runs over the first index of the grid. *)
Definition corner_control_point {A : Type} (grid : list (list A))
    (corner : SurfaceCorner) : result A :=
  match corner with
  | Southwest => getitem2 grid 0 0
  | Southeast => getitem2 grid (-1) 0
  | Northwest => getitem2 grid 0 (-1)
  | Northeast => getitem2 grid (-1) (-1)
  end.

(** The parameter pair of a corner. *)
Definition corner_parameters (corner : SurfaceCorner) : R * R :=
  match corner with
  | Southwest => (0, 0)
  | Southeast => (1, 0)
  | Northwest => (0, 1)
  | Northeast => (1, 1)
  end.

(** ** Sums *)

(** The sum of [f 0], ..., [f (n - 1)]. *)
Fixpoint rsum (f : nat -> R) (n : nat) : R :=
  match n with
  | O => 0
  | S n' => rsum f n' + f n'
  end.

(** A coordinate of the sum of the control points weighted by [c]. *)
Definition gsum (c : nat -> nat -> R) (P : list (list Point3D)) (k : nat)
    (nu nv : nat) : R :=
  rsum (fun i => rsum (fun j => c i j * coord k (at2 NonFinite P i j)) nv) nu.

(** The grid position of a corner in a grid of [n + 1] by [m + 1] entries. *)
Definition corner_index (n m : nat) (corner : SurfaceCorner) : nat * nat :=
  match corner with
  | Southwest => (0, 0)%nat
  | Southeast => (n, 0)%nat
  | Northwest => (0, m)%nat
  | Northeast => (n, m)%nat
  end.

(** ** Weight grids *)

Definition nonneg_weights (ws : list (list R)) : Prop :=
  Forall (Forall (fun w => 0 <= w)) ws.

Definition has_negative_weight (ws : list (list R)) : Prop :=
  Exists (Exists (fun w => w < 0)) ws.

Definition all_ones (ws : list (list R)) : Prop :=
  Forall (Forall (fun w => w = 1)) ws.

Definition positive_weights (ws : list (list R)) : Prop :=
  Forall (Forall (fun w => 0 < w)) ws.

(** A weight grid with every entry multiplied by [c]. *)
Definition scale_weights (c : R) (ws : list (list R)) : list (list R) :=
  map (map (Rmult c)) ws.

(** ** Patches and their edges *)

(** The degrees along and across an edge of a grid of [n + 1] by [m + 1]
    entries. *)
Definition parallel_degree (n m : nat) (edge : SurfaceEdge) : nat :=
  match edge with
  | North | South => n
  | _ => m
  end.

Definition perpendicular_degree (n m : nat) (edge : SurfaceEdge) : nat :=
  match edge with
  | North | South => m
  | _ => n
  end.

(** The grid position of the entry [row] along an edge and [c] entries
    inward from it. *)
Definition edge_cell (n m : nat) (edge : SurfaceEdge) (row c : nat) : nat * nat :=
  match edge with
  | North => (row, m - c)%nat
  | South => (row, c)
  | East => ((n - c)%nat, row)
  | West => (c, row)
  end.

(** North and East are the far boundaries of the grid. *)
Definition far_edge (edge : SurfaceEdge) : bool :=
  match edge with
  | North | East => true
  | _ => false
  end.

(** A polynomial patch of degrees [n] and [m], as its constructor leaves it
    and as the enforcement methods keep it. *)
Definition bezier_patch (n m : nat) (srf : BezierSurface.t) : Prop :=
  shaped (S n) (S m) (BezierSurface.points srf)
  /\ BezierSurface.degree_u srf = Z.of_nat n
  /\ BezierSurface.degree_v srf = Z.of_nat m.

(** A rational patch of degrees [n] and [m]. *)
Definition rational_patch (n m : nat) (srf : RationalBezierSurface.t) : Prop :=
  shaped (S n) (S m) (RationalBezierSurface.points srf)
  /\ shaped (S n) (S m) (RationalBezierSurface.weights srf)
  /\ RationalBezierSurface.degree_u srf = Z.of_nat n
  /\ RationalBezierSurface.degree_v srf = Z.of_nat m.

(** The grid after the entry [row] along an edge and [c] entries inward is
    replaced by [x]. *)
Definition edge_write {A : Type} (n m : nat) (edge : SurfaceEdge) (row c : nat)
    (x : A) (g : list (list A)) : list (list A) :=
  let i := fst (edge_cell n m edge row c) in
  let j := snd (edge_cell n m edge row c) in
  replace_nth i (replace_nth j x (nth i g [])) g.

(** The entry [row] along an edge and [c] entries inward. *)
Definition edge_read {A : Type} (d : A) (n m : nat) (edge : SurfaceEdge)
    (row c : nat) (g : list (list A)) : A :=
  at2 d g (fst (edge_cell n m edge row c)) (snd (edge_cell n m edge row c)).

(** The sign of the inward direction across an edge: the far edges end the
    parameter range, the near edges start it. *)
Definition edge_sign (edge : SurfaceEdge) : R :=
  if far_edge edge then 1 else -1.

(** A coordinate of the sum, over the rows of an edge, of the difference of
    the boundary control point and the next one inward, weighted by the
    basis of the edge at the parameter [t]. *)
Definition edge_difference_sum (n m : nat) (edge : SurfaceEdge) (t : R)
    (P : list (list Point3D)) (k : nat) : R :=
  rsum (fun row =>
          bernstein_poly (Z.of_nat (parallel_degree n m edge)) (Z.of_nat row) t
          * (coord k (edge_read NonFinite n m edge row 0 P)
             - coord k (edge_read NonFinite n m edge row 1 P)))
       (S (parallel_degree n m edge)).

(** A coordinate of the sum, over the rows of an edge, of the second
    difference of the three control points next to the boundary, weighted
    by the basis of the edge at the parameter [t]. *)
Definition edge_second_difference_sum (n m : nat) (edge : SurfaceEdge) (t : R)
    (P : list (list Point3D)) (k : nat) : R :=
  rsum (fun row =>
          bernstein_poly (Z.of_nat (parallel_degree n m edge)) (Z.of_nat row) t
          * (coord k (edge_read NonFinite n m edge row 0 P)
             - 2 * coord k (edge_read NonFinite n m edge row 1 P)
             + coord k (edge_read NonFinite n m edge row 2 P)))
       (S (parallel_degree n m edge)).

(** ** Knot vectors *)

(** [knot_vector[i]] on an index in range. *)
Definition knot (knot_vector : list R) (i : nat) : R := nth i knot_vector 0.

(** A quotient with the convention of [_cox_de_boor]: a zero divisor gives
    zero. *)
Definition ratio (x y : R) : R := if Req_dec_T y 0 then 0 else x / y.

(** The value that [_cox_de_boor] computes on indices in range, without the
    lookups that may fail and without the skipped branches. *)
Fixpoint bspline (knot_vector : list R) (t : R) (p i : nat) : R :=
  match p with
  | O =>
      if Rle_dec (knot knot_vector i) t then
        if Rlt_dec t (knot knot_vector (i + 1)) then 1 else 0
      else 0
  | S p_minus_1 =>
      ratio (t - knot knot_vector i) (knot knot_vector (i + p) - knot knot_vector i)
      * bspline knot_vector t p_minus_1 i
      + ratio (knot knot_vector (i + p + 1) - t)
              (knot knot_vector (i + p + 1) - knot knot_vector (i + 1))
        * bspline knot_vector t p_minus_1 (i + 1)
  end.

(** A clamped knot vector for [n] control points of degree [p]: it does not
    decrease, and its first and its last knot are repeated [p + 1] times. *)
Definition clamped_knot_vector (knot_vector : list R) (p n : nat) (a b : R) : Prop :=
  length knot_vector = (n + p + 1)%nat
  /\ Sorted Rle knot_vector
  /\ (forall i, (i <= p)%nat -> knot knot_vector i = a)
  /\ (forall i, (n <= i <= n + p)%nat -> knot knot_vector i = b)
  /\ a < b.

(** The sum of [f a], ..., [f (b - 1)]. *)
Definition rsum_range (f : nat -> R) (a b : nat) : R :=
  rsum (fun j => f (a + j)%nat) (b - a).

(** The index [L] of the last span of a knot vector that is not
    degenerate: every knot after [L] equals the last knot. *)
Definition last_span (knot_vector : list R) (L : nat) : Prop :=
  (S L < length knot_vector)%nat
  /\ knot knot_vector L < knot knot_vector (S L)
  /\ forall j, (L < j)%nat -> (j < length knot_vector)%nat ->
       knot knot_vector j = knot knot_vector (S L).

(** The array of length [n] that is one at the index [k] and zero
    elsewhere. *)
Definition unit_array (n k : nat) : list R :=
  map (fun i => if Nat.eqb i k then 1 else 0) (seq 0 n).


(** A clamped knot vector whose end knots are repeated [p + 1] times and no
    more. *)
Definition simply_clamped (knot_vector : list R) (p n : nat) (a b : R) : Prop :=
  clamped_knot_vector knot_vector p n a b
  /\ a < knot knot_vector (p + 1)
  /\ knot knot_vector (n - 1) < b.

(** The parameter pair of a corner of the knot rectangle
    [[au, bu] x [av, bv]]. *)
Definition knot_corner (au bu av bv : R) (corner : SurfaceCorner) : R * R :=
  match corner with
  | Southwest => (au, av)
  | Southeast => (bu, av)
  | Northwest => (au, bv)
  | Northeast => (bu, bv)
  end.

(** The clamped knot vector of degree one for two control points. *)
Definition sample_nurbs_knots : list R := [0; 0; 1; 1].

(** ** Angles *)

(** An angle that is a whole number of quarter turns. *)
Definition quarter_turn_multiple (x : R) : Prop :=
  exists k : Z, x = IZR k * (PI / 2).

(** The weight that the revolution gives to the copy [idx] of a profile
    point: one on the even indices, and on the odd indices the sine of a
    quarter turn less half the angle between the two neighbouring samples. *)
Definition revolve_weight (angles : list R) (idx : nat) : R :=
  if Nat.even idx then 1
  else sin (0.5 * PI - 0.5 * (nth (idx + 1) angles 0 - nth (idx - 1) angles 0)).

(** ** Sample data *)

(** A grid of two by two control points, with weights that have a zero at
    the Southwest corner, and weights that are all one. *)
Definition sample_points : list (list Point3D) :=
  [[Pt 0 0 0; Pt 0 1 0]; [Pt 1 0 0; Pt 1 1 1]].

Definition sample_weights_zero_corner : list (list R) := [[0; 1]; [1; 1]].

Definition sample_unit_weights : list (list R) := [[1; 1]; [1; 1]].

(** Two rational patches of degree one by one.  The West edge of [B] lies on
    the East edge of [A]; across the East edge of [A] the weights fall from
    2 to 1. *)
Definition sample_patch_A : RationalBezierSurface.t :=
  RationalBezierSurface.mk sample_points
    (RationalBezierSurface.clamped_knots 2) (RationalBezierSurface.clamped_knots 2)
    [[2; 2]; [1; 1]] 1 1 2 2.

Definition sample_patch_B : RationalBezierSurface.t :=
  RationalBezierSurface.mk [[Pt 1 0 0; Pt 1 1 1]; [Pt 2 0 0; Pt 2 1 1]]
    (RationalBezierSurface.clamped_knots 2) (RationalBezierSurface.clamped_knots 2)
    sample_unit_weights 1 1 2 2.

(** Two polynomial patches of degree one by one; the West edge of [B] lies
    on the East edge of [A]. *)
Definition sample_bezier_A : BezierSurface.t :=
  BezierSurface.mk sample_points 1 1 2 2.

Definition sample_bezier_B : BezierSurface.t :=
  BezierSurface.mk [[Pt 1 0 0; Pt 1 1 1]; [Pt 2 0 0; Pt 2 1 1]] 1 1 2 2.

(** A weight grid of two by two with one negative entry, and a grid of one
    control point with a row of two weights, one negative. *)
Definition sample_negative_weights : list (list R) := [[1; 1]; [-1; 1]].

Definition single_point : list (list Point3D) := [[Pt 0 0 0]].

Definition two_weights_one_negative : list (list R) := [[-1; 1]].

(** A clamped knot vector for four control points of degree two. *)
Definition sample_knot_vector : list R := [0; 0; 0; 1 / 2; 1; 1; 1].

(** A polynomial patch of degree one by zero: a single column of two
    control points. *)
Definition sample_bezier_flat : BezierSurface.t :=
  BezierSurface.mk [[Pt 0 0 0]; [Pt 1 0 0]] 1 0 2 1.

(** Two polynomial patches of degree one by two; the South edge of [D] lies
    on the North edge of [C]. *)
Definition sample_bezier_C : BezierSurface.t :=
  BezierSurface.mk [[Pt 0 0 0; Pt 0 1 0; Pt 0 2 1]; [Pt 1 0 0; Pt 1 1 0; Pt 1 2 1]]
    1 2 2 3.

Definition sample_bezier_D : BezierSurface.t :=
  BezierSurface.mk [[Pt 0 2 1; Pt 0 3 1; Pt 0 4 0]; [Pt 1 2 1; Pt 1 3 1; Pt 1 4 0]]
    1 2 2 3.

(** A rational patch with unit weights, and the polynomial patch of the
    same control points. *)
Definition unit_weight_pair (n m : nat) (r : RationalBezierSurface.t)
    (p : BezierSurface.t) : Prop :=
  rational_patch n m r /\ bezier_patch n m p
  /\ RationalBezierSurface.points r = BezierSurface.points p
  /\ all_ones (RationalBezierSurface.weights r).

(** Two rational patches of degree one by two with unit weights, on the
    control points of the polynomial samples [C] and [D]. *)
Definition sample_patch_C : RationalBezierSurface.t :=
  RationalBezierSurface.mk (BezierSurface.points sample_bezier_C)
    (RationalBezierSurface.clamped_knots 2) (RationalBezierSurface.clamped_knots 3)
    [[1; 1; 1]; [1; 1; 1]] 1 2 2 3.

Definition sample_patch_D : RationalBezierSurface.t :=
  RationalBezierSurface.mk (BezierSurface.points sample_bezier_D)
    (RationalBezierSurface.clamped_knots 2) (RationalBezierSurface.clamped_knots 3)
    [[1; 1; 1]; [1; 1; 1]] 1 2 2 3.

(** Geometric helpers for the examples, for the one axis they use: the z
    axis. *)
Module ZAxis.

Definition project_point_onto_line (point : Point3D) (axis : unit) : Point3D :=
  match point with
  | Pt _ _ z => Pt 0 0 z
  | NonFinite => NonFinite
  end.

Definition measure_distance_point_line (point : Point3D) (axis : unit) : R :=
  match point with
  | Pt x y _ => sqrt (x * x + y * y)
  | NonFinite => 0
  end.

Definition rotate_point_about_axis (point : Point3D) (axis : unit) (angle : R)
  : Point3D :=
  match point with
  | Pt x y z => Pt (x * cos angle - y * sin angle) (x * sin angle + y * cos angle) z
  | NonFinite => NonFinite
  end.

Definition normalized_value (p0 p1 : Point3D) : Point3D :=
  pscale_np (npdiv 1 (measure_distance_point_line (psub p1 p0) tt)) (psub p1 p0).

End ZAxis.

(** ** Rounding

    The arithmetic above is exact.  The modules of [Rounded] give the
    numerical kernels once more with the rounding of floating point: every
    operation on floats returns the rounding [rnd] of its exact result.
    [rnd] is any function from the reals to the reals; what a property needs
    of it is a hypothesis of that property ([rounding], [relative_error]
    below).  Binary64 with rounding to nearest is such a function as long as
    no operation overflows; overflow is not modelled.  A division by zero
    yields [inf] or [nan], the value "not finite", as before.  The data
    (patches, grids, knot vectors) and the code that does no arithmetic
    (constructors, indexing, the search of a span) are those of the modules
    above. *)

Module Rounded.

Module Num.

Section Arithmetic.

Variable rnd : R -> R.

Definition add (x y : R) : R := rnd (x + y).

Definition sub (x y : R) : R := rnd (x - y).

Definition mul (x y : R) : R := rnd (x * y).

(** [x / y] on NumPy floats. *)
Definition npdiv (x y : R) : npfloat :=
  if Req_dec_T y 0 then None else Some (rnd (x / y)).

(** [x / y] on Python numbers; the quotient of two integers is rounded
    once. *)
Definition pydiv (x y : R) : result R :=
  if Req_dec_T y 0 then Raise ZeroDivisionError else Ok (rnd (x / y)).

Definition padd (p q : Point3D) : Point3D :=
  match p, q with
  | Pt a b c, Pt a' b' c' => Pt (add a a') (add b b') (add c c')
  | _, _ => NonFinite
  end.

Definition psub (p q : Point3D) : Point3D :=
  match p, q with
  | Pt a b c, Pt a' b' c' => Pt (sub a a') (sub b b') (sub c c')
  | _, _ => NonFinite
  end.

Definition pscale (k : R) (p : Point3D) : Point3D :=
  match p with
  | Pt a b c => Pt (mul k a) (mul k b) (mul k c)
  | NonFinite => NonFinite
  end.

Definition pdiv (p : Point3D) (d : R) : Point3D :=
  match p with
  | Pt a b c =>
      match npdiv a d, npdiv b d, npdiv c d with
      | Some a', Some b', Some c' => Pt a' b' c'
      | _, _, _ => NonFinite
      end
  | NonFinite => NonFinite
  end.

End Arithmetic.

End Num.

Module BezierSurface.

Section Kernel.

Variable rnd : R -> R.

(** [bernstein_poly] of [astk.utils.math] is not part of the kernel: here
    it is any function that returns a float. *)
Variable bernstein_poly : Z -> Z -> R -> R.

Definition evaluate_ndarray (self : BezierSurface.t) (u v : R) : result Point3D :=
  P <- BezierSurface.get_control_point_array self ;;
  shape_2 P ;;;
  Ok (fold_left (fun point i =>
        fold_left (fun point j =>
          let Bu := bernstein_poly (BezierSurface.degree_u self) (Z.of_nat i) u in
          let Bv := bernstein_poly (BezierSurface.degree_v self) (Z.of_nat j) v in
          let BuBv := Num.mul rnd Bu Bv in
          Num.padd rnd point (Num.pscale rnd BuBv (at2 NonFinite P i j)))
        (range (BezierSurface.degree_v self + 1)) point)
      (range (BezierSurface.degree_u self + 1)) zeros).

(** [other] is a patch object distinct from the receiver. *)
Definition enforce_g0g1 (other : BezierSurface.t) (f : R)
    (surface_edge other_surface_edge : SurfaceEdge) : Mut BezierSurface.t unit :=
  BezierSurface.enforce_g0 other surface_edge other_surface_edge ~;;
  n_ratio <~ mread (fun self =>
    Num.pydiv rnd
      (IZR (BezierSurface.get_perpendicular_degree other other_surface_edge))
      (IZR (BezierSurface.get_perpendicular_degree self surface_edge))) ;;
  n <~ mread (fun self => Ok (BezierSurface.get_parallel_degree self surface_edge)) ;;
  mfor (range (n + 1)) (fun row_index =>
    P_i0_b <~ mread (fun self =>
      BezierSurface.get_point self (Z.of_nat row_index) 0 surface_edge) ;;
    P_im_a <~ mlift (BezierSurface.get_point other (Z.of_nat row_index) 0
                       other_surface_edge) ;;
    P_im1_a <~ mlift (BezierSurface.get_point other (Z.of_nat row_index) 1
                        other_surface_edge) ;;
    let P_i1_b :=
      Num.padd rnd P_i0_b
        (Num.pscale rnd (Num.mul rnd f n_ratio) (Num.psub rnd P_im_a P_im1_a)) in
    BezierSurface.set_point P_i1_b (Z.of_nat row_index) 1 surface_edge).

(** [f ** 2] is the power function of the C library, which need not round
    as the arithmetic does: here [square] is any function that returns a
    float. *)
Variable square : R -> R.

Definition enforce_g0g1g2 (other : BezierSurface.t) (f : R)
    (surface_edge other_surface_edge : SurfaceEdge) : Mut BezierSurface.t unit :=
  enforce_g0g1 other f surface_edge other_surface_edge ~;;
  let p_perp_a := BezierSurface.get_perpendicular_degree other other_surface_edge in
  p_perp_b <~ mread (fun self =>
    Ok (BezierSurface.get_perpendicular_degree self surface_edge)) ;;
  n_ratio <~ mlift (Num.pydiv rnd (IZR (p_perp_a ^ 2 - p_perp_a))
                                  (IZR (p_perp_b ^ 2 - p_perp_b))) ;;
  n <~ mread (fun self => Ok (BezierSurface.get_parallel_degree self surface_edge)) ;;
  mfor (range (n + 1)) (fun row_index =>
    P_i0_b <~ mread (fun self =>
      BezierSurface.get_point self (Z.of_nat row_index) 0 surface_edge) ;;
    P_i1_b <~ mread (fun self =>
      BezierSurface.get_point self (Z.of_nat row_index) 1 surface_edge) ;;
    P_im_a <~ mlift (BezierSurface.get_point other (Z.of_nat row_index) 0
                       other_surface_edge) ;;
    P_im1_a <~ mlift (BezierSurface.get_point other (Z.of_nat row_index) 1
                        other_surface_edge) ;;
    P_im2_a <~ mlift (BezierSurface.get_point other (Z.of_nat row_index) 2
                        other_surface_edge) ;;
    let P_i2_b :=
      Num.padd rnd (Num.psub rnd (Num.pscale rnd 2 P_i1_b) P_i0_b)
        (Num.pscale rnd (Num.mul rnd (square f) n_ratio)
           (Num.padd rnd (Num.psub rnd P_im_a (Num.pscale rnd 2 P_im1_a))
              P_im2_a)) in
    BezierSurface.set_point P_i2_b (Z.of_nat row_index) 2 surface_edge).

End Kernel.

End BezierSurface.

Module RationalBezierSurface.

Section Kernel.

Variable rnd : R -> R.

Variable bernstein_poly : Z -> Z -> R -> R.

Definition evaluate_ndarray (self : RationalBezierSurface.t) (u v : R)
  : result Point3D :=
  P <- RationalBezierSurface.get_control_point_array self ;;
  shape_2 P ;;;
  let '(point, wBuBv_sum) :=
    fold_left (fun acc i =>
      fold_left (fun '(point, wBuBv_sum) j =>
        let Bu := bernstein_poly (RationalBezierSurface.degree_u self) (Z.of_nat i) u in
        let Bv := bernstein_poly (RationalBezierSurface.degree_v self) (Z.of_nat j) v in
        let wBuBv :=
          Num.mul rnd (Num.mul rnd Bu Bv)
                  (at2 0 (RationalBezierSurface.weights self) i j) in
        (Num.padd rnd point (Num.pscale rnd wBuBv (at2 NonFinite P i j)),
         Num.add rnd wBuBv_sum wBuBv))
      (range (RationalBezierSurface.Nv self)) acc)
    (range (RationalBezierSurface.Nu self)) (zeros, 0) in
  Ok (Num.pdiv rnd point wBuBv_sum).

End Kernel.

End RationalBezierSurface.

Module NURBSSurface.

Section Kernel.

Variable rnd : R -> R.

Fixpoint _cox_de_boor (t : R) (i : nat) (p : nat) (knot_vector : list R)
    (possible_spans_u_or_v : list (R * R))
    (possible_span_indices_u_or_v : list nat) {struct p} : result R :=
  match p with
  | O =>
      if existsb (Nat.eqb i) possible_span_indices_u_or_v then
        span <- NURBSSurface._find_span t possible_spans_u_or_v
                  possible_span_indices_u_or_v ;;
        match span with
        | Some k => if Nat.eqb k i then Ok 1 else Ok 0
        | None => Ok 0
        end
      else Ok 0
  | S p_minus_1 =>
      k_i <- getitem knot_vector (Z.of_nat i) ;;
      k_ip <- getitem knot_vector (Z.of_nat i + Z.of_nat p) ;;
      k_ip1 <- getitem knot_vector (Z.of_nat i + Z.of_nat p + 1) ;;
      k_i1 <- getitem knot_vector (Z.of_nat i + 1) ;;
      let f := NURBSSurface.finite_or_zero
                 (Num.npdiv rnd (Num.sub rnd t k_i) (Num.sub rnd k_ip k_i)) in
      let g := NURBSSurface.finite_or_zero
                 (Num.npdiv rnd (Num.sub rnd k_ip1 t) (Num.sub rnd k_ip1 k_i1)) in
      if Req_dec_T f 0 then
        if Req_dec_T g 0 then Ok 0
        else
          r <- _cox_de_boor t (i + 1) p_minus_1 knot_vector
                 possible_spans_u_or_v possible_span_indices_u_or_v ;;
          Ok (Num.mul rnd g r)
      else
        if Req_dec_T g 0 then
          r <- _cox_de_boor t i p_minus_1 knot_vector
                 possible_spans_u_or_v possible_span_indices_u_or_v ;;
          Ok (Num.mul rnd f r)
        else
          r1 <- _cox_de_boor t i p_minus_1 knot_vector
                  possible_spans_u_or_v possible_span_indices_u_or_v ;;
          r2 <- _cox_de_boor t (i + 1) p_minus_1 knot_vector
                  possible_spans_u_or_v possible_span_indices_u_or_v ;;
          Ok (Num.add rnd (Num.mul rnd f r1) (Num.mul rnd g r2))
  end.

Definition _basis_functions (t : R) (p : nat) (knot_vector : list R)
    (n_control_points_u_or_v : Z) (possible_spans_u_or_v : list (R * R))
    (possible_span_indices_u_or_v : list nat) : result (list R) :=
  comprehension
    (fun i => _cox_de_boor t i p knot_vector
                possible_spans_u_or_v possible_span_indices_u_or_v)
    (range n_control_points_u_or_v).

End Kernel.

End NURBSSurface.

End Rounded.

(** ** Rounding functions *)

(** What every rounding to a floating-point format does: zero and one are
    floats, and a float is its own rounding. *)
Definition rounding (rnd : R -> R) : Prop :=
  rnd 0 = 0 /\ rnd 1 = 1 /\ forall x, rnd (rnd x) = rnd x.

(** A real number that is a float. *)
Definition representable (rnd : R -> R) (x : R) : Prop := rnd x = x.

(** A grid of floats. *)
Definition float_weights (rnd : R -> R) (ws : list (list R)) : Prop :=
  Forall (Forall (representable rnd)) ws.

(** A point whose three coordinates are floats. *)
Definition float_point (rnd : R -> R) (p : Point3D) : Prop :=
  match p with
  | Pt a b c => representable rnd a /\ representable rnd b /\ representable rnd c
  | NonFinite => False
  end.

Definition float_points (rnd : R -> R) (g : list (list Point3D)) : Prop :=
  Forall (Forall (float_point rnd)) g.

(** The relative error of one rounding is at most [eps], the unit roundoff
    (2^-53 for binary64 with rounding to nearest, as long as the result is
    not subnormal). *)
Definition relative_error (rnd : R -> R) (eps : R) : Prop :=
  0 <= eps < 1 /\ forall x, Rabs (rnd x - x) <= eps * Rabs x.

(** The factor by which one rounding can move a quotient of two positive
    numbers. *)
Definition growth (eps : R) : R := (1 + eps) / (1 - eps).

(** [y] is [x] up to [k] roundings: each of the two numbers is at most
    the other times the [k]-th power of the factor. *)
Definition close_to (eps : R) (k : nat) (x y : R) : Prop :=
  x <= y * growth eps ^ k /\ y <= x * growth eps ^ k.

(** The sum of the real numbers that the floats of an array are. *)
Definition real_sum (xs : list R) : R := fold_right Rplus 0 xs.

(** What [bernstein_poly] returns at the two ends of the unit interval: one
    for the basis function of that end and zero for the others, exactly (the
    closed form has no rounding there). *)
Definition bernstein_ends (B : Z -> Z -> R -> R) : Prop :=
  forall n i : nat,
    B (Z.of_nat n) (Z.of_nat i) 0 = (if Nat.eqb i 0 then 1 else 0)
    /\ B (Z.of_nat n) (Z.of_nat i) 1 = (if Nat.eqb i n then 1 else 0).

(** The divisor of the rational evaluation of a grid of [n + 1] by [m + 1]
    unit weights: the products of the basis values, accumulated in the order
    of the two loops. *)
Definition basis_product_sum (rnd : R -> R) (B : Z -> Z -> R -> R) (n m : nat)
    (u v : R) : R :=
  fold_left (fun acc i =>
    fold_left (fun acc j =>
      Rounded.Num.add rnd acc
        (Rounded.Num.mul rnd (B (Z.of_nat n) (Z.of_nat i) u)
                             (B (Z.of_nat m) (Z.of_nat j) v)))
      (seq 0 (S m)) acc)
    (seq 0 (S n)) 0.

(** ** Binary64

    The numerical kernels on the binary64 numbers themselves, with the
    operations of IEEE 754, to run them on closed inputs.  The grids are
    rectangular and the lookups of the evaluations are in range. *)

Module Binary64.

Import PrimFloat.

#[local] Open Scope float_scope.
#[local] Set Warnings "-inexact-float".

(** An array of three floats. *)
Definition array3 : Type := float * float * float.

Definition zeros : array3 := (0, 0, 0).

Definition padd (p q : array3) : array3 :=
  let '(a, b, c) := p in
  let '(a', b', c') := q in
  (a + a', b + b', c + c').

Definition psub (p q : array3) : array3 :=
  let '(a, b, c) := p in
  let '(a', b', c') := q in
  (a - a', b - b', c - c').

Definition pscale (k : float) (p : array3) : array3 :=
  let '(a, b, c) := p in (a * k, b * k, c * k).

Definition pdiv (p : array3) (d : float) : array3 :=
  let '(a, b, c) := p in (a / d, b / d, c / d).

(** [float(z)] *)
Definition of_int (z : Z) : float :=
  if (z <? 0)%Z then - of_uint63 (Uint63.of_Z (- z)) else of_uint63 (Uint63.of_Z z).

(** The binomial coefficient. *)
Fixpoint comb (n i : nat) : Z :=
  match i, n with
  | O, _ => 1%Z
  | S _, O => 0%Z
  | S i', S n' => (comb n' i' + comb n' i)%Z
  end.

(** [x ** k]: exact for the exponents 0 and 1, whatever the implementation
    of the power. *)
Fixpoint pow (x : float) (k : nat) : float :=
  match k with
  | O => 1
  | S O => x
  | S k' => x * pow x k'
  end.

(** Modelled from the spec, as above: the closed form
    [C(n,i) t^i (1-t)^(n-i)], in binary64.  The instances below are of
    degree one, where the function returns [1 - t] and [t]. *)
Definition bernstein_poly (n i : Z) (t : float) : float :=
  if ((0 <=? i)%Z && (i <=? n)%Z)%bool then
    of_int (comb (Z.to_nat n) (Z.to_nat i)) * pow t (Z.to_nat i)
    * pow (1 - t) (Z.to_nat n - Z.to_nat i)
  else 0.

(** [np.sum] of a short array: the entries are added from the left. *)
Definition np_sum (xs : list float) : float := fold_left add xs 0.

(** The integer [x * 2^1100] for a finite float [x], to add floats without
    rounding. *)
Definition scaled (x : float) : Z :=
  match FloatOps.Prim2SF x with
  | SpecFloat.S754_finite s m e =>
      ((if s then -1 else 1) * Z.pos m * 2 ^ (e + 1100))%Z
  | _ => 0%Z
  end.

(** The sum of the numbers that the floats of an array are, times 2^1100. *)
Definition scaled_sum (xs : list float) : Z := fold_right Z.add 0%Z (map scaled xs).

Module BezierSurface.

Record t : Type := mk {
  points : list (list array3);
  degree_u : Z;
  degree_v : Z
}.

Definition evaluate_ndarray (self : t) (u v : float) : array3 :=
  let P := points self in
  fold_left (fun point i =>
    fold_left (fun point j =>
      let Bu := bernstein_poly (degree_u self) (Z.of_nat i) u in
      let Bv := bernstein_poly (degree_v self) (Z.of_nat j) v in
      let BuBv := Bu * Bv in
      padd point (pscale BuBv (at2 zeros P i j)))
    (range (degree_v self + 1)) point)
  (range (degree_u self + 1)) zeros.

(** The point that the row loop of [enforce_g0g1] stores. *)
Definition g1_point (P_i0_b P_im_a P_im1_a : array3) (f n_ratio : float) : array3 :=
  padd P_i0_b (pscale (f * n_ratio) (psub P_im_a P_im1_a)).

End BezierSurface.

Module RationalBezierSurface.

Record t : Type := mk {
  points : list (list array3);
  weights : list (list float);
  degree_u : Z;
  degree_v : Z;
  Nu : Z;
  Nv : Z
}.

Definition evaluate_ndarray (self : t) (u v : float) : array3 :=
  let P := points self in
  let '(point, wBuBv_sum) :=
    fold_left (fun acc i =>
      fold_left (fun '(point, wBuBv_sum) j =>
        let Bu := bernstein_poly (degree_u self) (Z.of_nat i) u in
        let Bv := bernstein_poly (degree_v self) (Z.of_nat j) v in
        let wBuBv := Bu * Bv * at2 0 (weights self) i j in
        (padd point (pscale wBuBv (at2 zeros P i j)), wBuBv_sum + wBuBv))
      (range (Nv self)) acc)
    (range (Nu self)) (zeros, 0) in
  pdiv point wBuBv_sum.

End RationalBezierSurface.

Module NURBSSurface.

Fixpoint possible_spans_from (knot_idx : nat) (knot_vector : list float)
  : list (float * float) * list nat :=
  match knot_vector with
  | knot_1 :: rest =>
      match rest with
      | knot_2 :: _ =>
          let '(possible_spans, possible_span_indices) :=
            possible_spans_from (S knot_idx) rest in
          if eqb knot_1 knot_2
          then (possible_spans, possible_span_indices)
          else ((knot_1, knot_2) :: possible_spans, knot_idx :: possible_span_indices)
      | [] => ([], [])
      end
  | [] => ([], [])
  end.

Definition _get_possible_spans (knot_vector : list float)
  : list (float * float) * list nat :=
  possible_spans_from 0 knot_vector.

Fixpoint find_span_scan (t : float) (zipped : list ((float * float) * nat))
  : option nat :=
  match zipped with
  | [] => None
  | (knot_span, knot_span_idx) :: rest =>
      if (leb (fst knot_span) t && ltb t (snd knot_span))%bool
      then Some knot_span_idx
      else find_span_scan t rest
  end.

Definition _find_span (t : float) (possible_spans_u_or_v : list (float * float))
    (possible_span_indices_u_or_v : list nat) : result (option nat) :=
  match find_span_scan t (combine possible_spans_u_or_v possible_span_indices_u_or_v) with
  | Some k => Ok (Some k)
  | None =>
      last_span <- getitem possible_spans_u_or_v (-1) ;;
      if eqb t (snd last_span) then
        k <- getitem possible_span_indices_u_or_v (-1) ;;
        Ok (Some k)
      else Ok None
  end.

(** [inf] and [nan] are replaced by [0.0]. *)
Definition finite_or_zero (x : float) : float :=
  if (is_infinity x || is_nan x)%bool then 0 else x.

Fixpoint _cox_de_boor (t : float) (i : nat) (p : nat) (knot_vector : list float)
    (possible_spans_u_or_v : list (float * float))
    (possible_span_indices_u_or_v : list nat) {struct p} : result float :=
  match p with
  | O =>
      if existsb (Nat.eqb i) possible_span_indices_u_or_v then
        span <- _find_span t possible_spans_u_or_v possible_span_indices_u_or_v ;;
        match span with
        | Some k => if Nat.eqb k i then Ok 1 else Ok 0
        | None => Ok 0
        end
      else Ok 0
  | S p_minus_1 =>
      k_i <- getitem knot_vector (Z.of_nat i) ;;
      k_ip <- getitem knot_vector (Z.of_nat i + Z.of_nat p) ;;
      k_ip1 <- getitem knot_vector (Z.of_nat i + Z.of_nat p + 1) ;;
      k_i1 <- getitem knot_vector (Z.of_nat i + 1) ;;
      let f := finite_or_zero ((t - k_i) / (k_ip - k_i)) in
      let g := finite_or_zero ((k_ip1 - t) / (k_ip1 - k_i1)) in
      if eqb f 0 then
        if eqb g 0 then Ok 0
        else
          r <- _cox_de_boor t (i + 1) p_minus_1 knot_vector
                 possible_spans_u_or_v possible_span_indices_u_or_v ;;
          Ok (g * r)
      else
        if eqb g 0 then
          r <- _cox_de_boor t i p_minus_1 knot_vector
                 possible_spans_u_or_v possible_span_indices_u_or_v ;;
          Ok (f * r)
        else
          r1 <- _cox_de_boor t i p_minus_1 knot_vector
                  possible_spans_u_or_v possible_span_indices_u_or_v ;;
          r2 <- _cox_de_boor t (i + 1) p_minus_1 knot_vector
                  possible_spans_u_or_v possible_span_indices_u_or_v ;;
          Ok (f * r1 + g * r2)
  end.

Definition _basis_functions (t : float) (p : nat) (knot_vector : list float)
    (n_control_points_u_or_v : Z) (possible_spans_u_or_v : list (float * float))
    (possible_span_indices_u_or_v : list nat) : result (list float) :=
  comprehension
    (fun i => _cox_de_boor t i p knot_vector
                possible_spans_u_or_v possible_span_indices_u_or_v)
    (range n_control_points_u_or_v).

End NURBSSurface.

(** The sample grid of two by two control points, as a polynomial patch and
    as a rational patch with unit weights. *)
Definition sample_points : list (list array3) :=
  [[(0, 0, 0); (0, 1, 0)]; [(1, 0, 0); (1, 1, 1)]].

Definition sample_bezier : BezierSurface.t := BezierSurface.mk sample_points 1 1.

Definition sample_unit_rational : RationalBezierSurface.t :=
  RationalBezierSurface.mk sample_points [[1; 1]; [1; 1]] 1 1 2 2.

(** A rational patch whose Southwest control point is (0.1, 0.2, 0.3), with
    the weight 3 there. *)
Definition sample_weighted_rational : RationalBezierSurface.t :=
  RationalBezierSurface.mk
    [[(0.1, 0.2, 0.3); (0, 1, 0)]; [(1, 0, 0); (1, 1, 1)]]
    [[3; 1]; [1; 1]] 1 1 2 2.

(** The clamped knot vector of degree two for three control points. *)
Definition sample_knot_vector : list float := [0; 0; 0; 1; 1; 1].

End Binary64.

(** A point that an operation on points has returned: its coordinates are
    floats, or it is not finite. *)
Definition rounded_point (rnd : R -> R) (p : Point3D) : Prop :=
  match p with
  | Pt a b c => representable rnd a /\ representable rnd b /\ representable rnd c
  | NonFinite => True
  end.

(** [B] returns, on the unit interval, the Bernstein polynomials up to [k]
    roundings of relative error [eps]; [bernstein_poly] above is their
    closed form, without rounding. *)
Definition bernstein_close (eps : R) (k : nat) (B : Z -> Z -> R -> R) : Prop :=
  forall (n i : nat) (t : R), 0 <= t <= 1 ->
    close_to eps k (bernstein_poly (Z.of_nat n) (Z.of_nat i) t)
                   (B (Z.of_nat n) (Z.of_nat i) t).

(** * Properties *)

(** ** Results and indexing *)

Lemma range_of_nat (n : nat) : range (Z.of_nat n) = seq 0 n.
Proof. unfold range. now rewrite Nat2Z.id. Qed.

Lemma range_succ (n : nat) : range (Z.of_nat n - 1 + 1) = seq 0 n.
Proof. replace (Z.of_nat n - 1 + 1)%Z with (Z.of_nat n) by lia. apply range_of_nat. Qed.

Lemma norm_index_nonneg (n : nat) (k : nat) :
  (k < n)%nat -> norm_index n (Z.of_nat k) = Some k.
Proof.
  intros H. unfold norm_index.
  destruct (Z.leb_spec 0 (Z.of_nat k)); [|lia].
  destruct (Z.ltb_spec (Z.of_nat k) (Z.of_nat n)); [|lia].
  now rewrite Nat2Z.id.
Qed.

Lemma norm_index_back (n : nat) (k : nat) :
  (k < n)%nat -> norm_index n (- (Z.of_nat k + 1)) = Some (n - 1 - k)%nat.
Proof.
  intros H. unfold norm_index.
  destruct (Z.leb_spec 0 (- (Z.of_nat k + 1))); [lia|].
  destruct (Z.leb_spec 0 (Z.of_nat n + - (Z.of_nat k + 1))); [|lia].
  f_equal. lia.
Qed.

Lemma norm_index_lt (n : nat) (i : Z) (k : nat) :
  norm_index n i = Some k -> (k < n)%nat.
Proof.
  unfold norm_index.
  destruct (Z.leb_spec 0 i).
  - destruct (Z.ltb_spec i (Z.of_nat n)); [|discriminate].
    intros [= <-]. lia.
  - destruct (Z.leb_spec 0 (Z.of_nat n + i)); [|discriminate].
    intros [= <-]. lia.
Qed.

Lemma getitem_norm {A : Type} (d : A) (l : list A) (i : Z) (k : nat) :
  norm_index (length l) i = Some k -> getitem l i = Ok (nth k l d).
Proof.
  intros H. unfold getitem. rewrite H.
  pose proof (norm_index_lt _ _ _ H) as Hk.
  destruct (nth_error l k) eqn:E.
  - f_equal. symmetry. now apply nth_error_nth.
  - apply nth_error_None in E. lia.
Qed.

Lemma getitem_nonneg {A : Type} (d : A) (l : list A) (k : nat) :
  (k < length l)%nat -> getitem l (Z.of_nat k) = Ok (nth k l d).
Proof. intros H. apply getitem_norm. now apply norm_index_nonneg. Qed.

Lemma getitem_back {A : Type} (d : A) (l : list A) (k : nat) :
  (k < length l)%nat ->
  getitem l (- (Z.of_nat k + 1)) = Ok (nth (length l - 1 - k) l d).
Proof. intros H. apply getitem_norm. now apply norm_index_back. Qed.

Lemma replace_nth_length {A : Type} (k : nat) (x : A) (l : list A) :
  length (replace_nth k x l) = length l.
Proof.
  revert k. induction l as [|h t IH]; intros [|k]; simpl; auto.
Qed.

Lemma nth_replace_nth_same {A : Type} (d : A) (k : nat) (x : A) (l : list A) :
  (k < length l)%nat -> nth k (replace_nth k x l) d = x.
Proof.
  revert k. induction l as [|h t IH]; intros [|k] H; simpl in *; try lia; auto.
  apply IH. lia.
Qed.

Lemma nth_replace_nth_other {A : Type} (d : A) (k k' : nat) (x : A) (l : list A) :
  k <> k' -> nth k' (replace_nth k x l) d = nth k' l d.
Proof.
  revert k k'. induction l as [|h t IH]; intros [|k] [|k'] H; simpl; auto.
  congruence.
Qed.

Lemma Forall_replace_nth {A : Type} (Q : A -> Prop) (k : nat) (x : A) (l : list A) :
  Forall Q l -> ((k < length l)%nat -> Q x) -> Forall Q (replace_nth k x l).
Proof.
  revert k. induction l as [|h t IH]; intros k Hl Hx; simpl.
  - constructor.
  - inversion Hl as [|? ? Hh Ht]; subst.
    destruct k as [|k]; constructor; auto.
    + apply Hx. simpl. lia.
    + apply IH; auto. intros Hk. apply Hx. simpl. lia.
Qed.

(** Shapes are kept by writing a cell. *)
Lemma shaped_replace_cell {A : Type} (r c : nat) (g : list (list A))
    (i j : nat) (x : A) :
  shaped r c g ->
  shaped r c (replace_nth i (replace_nth j x (nth i g [])) g).
Proof.
  intros [Hr Hc]. split.
  - now rewrite replace_nth_length.
  - apply Forall_replace_nth; auto.
    intros Hi. rewrite replace_nth_length.
    rewrite Forall_forall in Hc. apply Hc. now apply nth_In.
Qed.

Lemma shaped_row_length {A : Type} (r c : nat) (g : list (list A)) (i : nat) :
  shaped r c g -> (i < r)%nat -> length (nth i g []) = c.
Proof.
  intros [Hr Hc] Hi. rewrite Forall_forall in Hc. apply Hc. apply nth_In. lia.
Qed.

(** Reading a cell of a shaped grid through Python indices. *)
Lemma getitem2_norm {A : Type} (d : A) (r c : nat) (g : list (list A))
    (i j : Z) (ki kj : nat) :
  shaped r c g ->
  norm_index r i = Some ki -> norm_index c j = Some kj ->
  getitem2 g i j = Ok (at2 d g ki kj).
Proof.
  intros Hs Hi Hj. unfold getitem2, at2.
  pose proof (norm_index_lt _ _ _ Hi) as Hki.
  destruct Hs as [Hr Hc].
  rewrite (getitem_norm [] g i ki) by now rewrite Hr.
  simpl. apply getitem_norm.
  rewrite (shaped_row_length r c g ki); auto. now split.
Qed.

Lemma getitem2_raise_row {A : Type} (r c : nat) (g : list (list A)) (i j : Z) :
  shaped r c g -> norm_index r i = None -> getitem2 g i j = Raise IndexError.
Proof.
  intros [Hr _] Hi. unfold getitem2, getitem. now rewrite Hr, Hi.
Qed.

(** Writing a cell of a shaped grid through Python indices. *)
Lemma setitem2_norm {A : Type} (r c : nat) (g : list (list A))
    (i j : Z) (ki kj : nat) (x : A) :
  shaped r c g ->
  norm_index r i = Some ki -> norm_index c j = Some kj ->
  setitem2 g i j x = Ok (replace_nth ki (replace_nth kj x (nth ki g [])) g).
Proof.
  intros Hs Hi Hj. unfold setitem2.
  pose proof (norm_index_lt _ _ _ Hi) as Hki.
  pose proof Hs as [Hr Hc].
  rewrite (getitem_norm [] g i ki) by now rewrite Hr.
  simpl. unfold setitem at 1.
  rewrite (shaped_row_length r c g ki); auto.
  rewrite Hj. simpl. unfold setitem. now rewrite Hr, Hi.
Qed.

Lemma at2_replace_same {A : Type} (d : A) (r c : nat) (g : list (list A))
    (i j : nat) (x : A) :
  shaped r c g -> (i < r)%nat -> (j < c)%nat ->
  at2 d (replace_nth i (replace_nth j x (nth i g [])) g) i j = x.
Proof.
  intros Hs Hi Hj. unfold at2.
  destruct Hs as [Hr Hc].
  rewrite (nth_replace_nth_same []) by lia.
  apply nth_replace_nth_same.
  rewrite (shaped_row_length r c g i); auto. now split.
Qed.

Lemma at2_replace_other {A : Type} (d : A) (r c : nat) (g : list (list A))
    (i j i' j' : nat) (x : A) :
  shaped r c g -> (i < r)%nat ->
  (i, j) <> (i', j') ->
  at2 d (replace_nth i (replace_nth j x (nth i g [])) g) i' j' = at2 d g i' j'.
Proof.
  intros Hs Hi Hne. unfold at2.
  destruct Hs as [Hr Hc].
  destruct (Nat.eq_dec i i') as [<-|Hii].
  - rewrite (nth_replace_nth_same []) by lia.
    apply nth_replace_nth_other. congruence.
  - now rewrite (nth_replace_nth_other []) by assumption.
Qed.

(** ** Sums *)

Lemma rsum_ext (f g : nat -> R) (n : nat) :
  (forall i, (i < n)%nat -> f i = g i) -> rsum f n = rsum g n.
Proof.
  induction n as [|n IH]; intros H; simpl; auto.
  rewrite IH, H; auto.
Qed.

Lemma rsum_zero (f : nat -> R) (n : nat) :
  (forall i, (i < n)%nat -> f i = 0) -> rsum f n = 0.
Proof.
  induction n as [|n IH]; intros H; simpl; auto.
  rewrite IH, H; auto. lra.
Qed.

Lemma rsum_scale (c : R) (f : nat -> R) (n : nat) :
  rsum (fun i => c * f i) n = c * rsum f n.
Proof. induction n as [|n IH]; simpl; [|rewrite IH]; ring. Qed.

Lemma rsum_plus (f g : nat -> R) (n : nat) :
  rsum (fun i => f i + g i) n = rsum f n + rsum g n.
Proof. induction n as [|n IH]; simpl; [|rewrite IH]; ring. Qed.

Lemma rsum_swap (f : nat -> nat -> R) (n m : nat) :
  rsum (fun i => rsum (fun j => f i j) m) n
  = rsum (fun j => rsum (fun i => f i j) n) m.
Proof.
  induction n as [|n IH]; simpl.
  - symmetry. now apply rsum_zero.
  - rewrite IH, <- rsum_plus. reflexivity.
Qed.

(** Only the term at [k] survives a coefficient that vanishes elsewhere. *)
Lemma rsum_single (k : nat) (f : nat -> R) (n : nat) :
  (k < n)%nat -> (forall i, (i < n)%nat -> i <> k -> f i = 0) ->
  rsum f n = f k.
Proof.
  induction n as [|n IH]; intros Hk H; [lia|]. simpl.
  destruct (Nat.eq_dec k n) as [->|Hne].
  - rewrite rsum_zero; [lra|]. intros i Hi. apply H; lia.
  - rewrite IH; [|lia|intros; apply H; lia].
    rewrite (H n); [lra|lia|congruence].
Qed.

(** Only the terms at [k1] and [k2] survive. *)
Lemma rsum_pair (k1 k2 : nat) (f : nat -> R) (n : nat) :
  (k1 < n)%nat -> (k2 < n)%nat -> k1 <> k2 ->
  (forall i, (i < n)%nat -> i <> k1 -> i <> k2 -> f i = 0) ->
  rsum f n = f k1 + f k2.
Proof.
  induction n as [|n IH]; intros H1 H2 Hne H; [lia|]. simpl.
  destruct (Nat.eq_dec k1 n) as [->|Hn1].
  - rewrite (rsum_single k2); [lra|lia|]. intros i Hi Hik. apply H; lia.
  - destruct (Nat.eq_dec k2 n) as [->|Hn2].
    + rewrite (rsum_single k1); [lra|lia|]. intros i Hi Hik. apply H; lia.
    + rewrite IH; try lia; [|intros; apply H; lia].
      rewrite (H n); [lra|lia|congruence|congruence].
Qed.

Lemma rsum_sum_f_R0 (f : nat -> R) (n : nat) : rsum f (S n) = sum_f_R0 f n.
Proof.
  induction n as [|n IH].
  - simpl. lra.
  - change (rsum f (S (S n))) with (rsum f (S n) + f (S n)).
    rewrite IH. reflexivity.
Qed.

(** A loop that adds [f i] for [i] in [range(n)]. *)
Lemma fold_rsum (f : nat -> R) (n : nat) (a : R) :
  fold_left (fun acc i => acc + f i) (seq 0 n) a = a + rsum f n.
Proof.
  induction n as [|n IH].
  - simpl. lra.
  - rewrite seq_S, fold_left_app, IH. simpl. lra.
Qed.

(** ** The Bernstein basis *)

Lemma C_n_0 (n : nat) : C n 0 = 1.
Proof.
  unfold C. rewrite Nat.sub_0_r. simpl. field. apply INR_fact_neq_0.
Qed.

Lemma C_n_n (n : nat) : C n n = 1.
Proof.
  unfold C. rewrite Nat.sub_diag. simpl. field. apply INR_fact_neq_0.
Qed.

Lemma bernstein_out_of_range (n i : Z) (t : R) :
  (i < 0 \/ n < i)%Z -> bernstein_poly n i t = 0.
Proof.
  intros H. unfold bernstein_poly.
  destruct (Z.leb_spec 0 i); destruct (Z.leb_spec i n); simpl; auto; lia.
Qed.

Lemma bernstein_in_range (n i : nat) (t : R) :
  (i <= n)%nat ->
  bernstein_poly (Z.of_nat n) (Z.of_nat i) t = C n i * t ^ i * (1 - t) ^ (n - i).
Proof.
  intros H. unfold bernstein_poly.
  destruct (Z.leb_spec 0 (Z.of_nat i)); [|lia].
  destruct (Z.leb_spec (Z.of_nat i) (Z.of_nat n)); [|lia].
  simpl. now rewrite !Nat2Z.id.
Qed.

(** At [t = 0] only the first basis function is not zero. *)
Lemma bernstein_at_0 (n i : nat) :
  bernstein_poly (Z.of_nat n) (Z.of_nat i) 0 = if Nat.eqb i 0 then 1 else 0.
Proof.
  destruct (Nat.le_gt_cases i n) as [Hin|Hin].
  - rewrite bernstein_in_range by assumption.
    destruct i as [|i]; simpl Nat.eqb.
    + rewrite C_n_0, Rminus_0_r, pow1. simpl. lra.
    + rewrite pow_i by lia. ring.
  - rewrite bernstein_out_of_range by lia.
    destruct i; [lia|reflexivity].
Qed.

(** At [t = 1] only the last basis function is not zero. *)
Lemma bernstein_at_1 (n i : nat) :
  bernstein_poly (Z.of_nat n) (Z.of_nat i) 1 = if Nat.eqb i n then 1 else 0.
Proof.
  destruct (Nat.le_gt_cases i n) as [Hin|Hin].
  - rewrite bernstein_in_range by assumption.
    destruct (Nat.eqb_spec i n) as [->|Hne].
    + rewrite C_n_n, Nat.sub_diag, pow1. simpl. lra.
    + replace (1 - 1) with 0 by lra. rewrite (pow_i (n - i)) by lia. ring.
  - rewrite bernstein_out_of_range by lia.
    destruct (Nat.eqb_spec i n); [lia|reflexivity].
Qed.

(** The basis functions of one degree sum to one. *)
Lemma bernstein_partition (n : nat) (t : R) :
  rsum (fun i => bernstein_poly (Z.of_nat n) (Z.of_nat i) t) (S n) = 1.
Proof.
  rewrite (rsum_ext _ (fun i => C n i * t ^ i * (1 - t) ^ (n - i))).
  - rewrite rsum_sum_f_R0, <- binomial.
    replace (t + (1 - t)) with 1 by ring. apply pow1.
  - intros i Hi. apply bernstein_in_range. lia.
Qed.

(** ** Points *)

Lemma padd_finite (p q : Point3D) :
  is_finite p -> is_finite q ->
  padd p q = Pt (coord 0 p + coord 0 q) (coord 1 p + coord 1 q) (coord 2 p + coord 2 q).
Proof. destruct p, q; simpl; intros; tauto. Qed.

Lemma pscale_finite (k : R) (p : Point3D) :
  is_finite p ->
  pscale k p = Pt (k * coord 0 p) (k * coord 1 p) (k * coord 2 p).
Proof. destruct p; simpl; intros; tauto. Qed.

Lemma Pt_coords (p : Point3D) :
  is_finite p -> p = Pt (coord 0 p) (coord 1 p) (coord 2 p).
Proof. destruct p; simpl; intros; tauto. Qed.

Lemma pdiv_nonzero (a b c d : R) :
  d <> 0 -> pdiv (Pt a b c) d = Pt (a / d) (b / d) (c / d).
Proof.
  intros H. unfold pdiv, npdiv. destruct (Req_dec_T d 0); [contradiction|reflexivity].
Qed.

Lemma pdiv_zero (p : Point3D) : pdiv p 0 = NonFinite.
Proof.
  unfold pdiv, npdiv. destruct p; auto.
  destruct (Req_dec_T 0 0); [reflexivity|contradiction].
Qed.

Lemma pdiv_one (p : Point3D) : pdiv p 1 = p.
Proof.
  destruct p as [a b c|]; [|reflexivity].
  rewrite pdiv_nonzero by lra. f_equal; field.
Qed.

(** ** Loops over a control grid *)

Lemma at2_finite (r c : nat) (g : list (list Point3D)) (i j : nat) :
  shaped r c g -> all_finite g -> (i < r)%nat -> (j < c)%nat ->
  is_finite (at2 NonFinite g i j).
Proof.
  intros Hs Hf Hi Hj. unfold at2, all_finite in *.
  pose proof (shaped_row_length r c g i Hs Hi) as Hlen.
  destruct Hs as [Hr Hc].
  rewrite Forall_forall in Hf.
  assert (Hrow : Forall is_finite (nth i g [])) by (apply Hf, nth_In; lia).
  rewrite Forall_forall in Hrow. apply Hrow, nth_In. lia.
Qed.

(** A loop that adds [c i * g i] to a point, coordinate by coordinate. *)
Lemma fold_points_finite (c : nat -> R) (g : nat -> Point3D) (n : nat) (a b d : R) :
  (forall i, (i < n)%nat -> is_finite (g i)) ->
  fold_left (fun acc i => padd acc (pscale (c i) (g i))) (seq 0 n) (Pt a b d)
  = Pt (a + rsum (fun i => c i * coord 0 (g i)) n)
       (b + rsum (fun i => c i * coord 1 (g i)) n)
       (d + rsum (fun i => c i * coord 2 (g i)) n).
Proof.
  induction n as [|n IH]; intros Hf.
  - simpl. f_equal; lra.
  - rewrite seq_S, fold_left_app, IH by (intros; apply Hf; lia).
    simpl fold_left. rewrite (pscale_finite _ (g n)) by (apply Hf; lia).
    simpl. f_equal; lra.
Qed.

(** The nested loop of the evaluators on a grid of finite points. *)
Lemma grid_fold_finite (c : nat -> nat -> R) (P : list (list Point3D)) (nu nv : nat) :
  (forall i j, (i < nu)%nat -> (j < nv)%nat -> is_finite (at2 NonFinite P i j)) ->
  fold_left (fun acc i =>
      fold_left (fun acc j => padd acc (pscale (c i j) (at2 NonFinite P i j)))
                (seq 0 nv) acc)
    (seq 0 nu) zeros
  = Pt (gsum c P 0 nu nv) (gsum c P 1 nu nv) (gsum c P 2 nu nv).
Proof.
  intros Hf. unfold gsum, zeros.
  assert (H : forall a b d,
    fold_left (fun acc i =>
        fold_left (fun acc j => padd acc (pscale (c i j) (at2 NonFinite P i j)))
                  (seq 0 nv) acc)
      (seq 0 nu) (Pt a b d)
    = Pt (a + rsum (fun i => rsum (fun j => c i j * coord 0 (at2 NonFinite P i j)) nv) nu)
         (b + rsum (fun i => rsum (fun j => c i j * coord 1 (at2 NonFinite P i j)) nv) nu)
         (d + rsum (fun i => rsum (fun j => c i j * coord 2 (at2 NonFinite P i j)) nv) nu)).
  { induction nu as [|nu IH]; intros a b d.
    - simpl. f_equal; lra.
    - rewrite seq_S, fold_left_app, IH by (intros; apply Hf; lia).
      simpl fold_left at 1.
      rewrite (fold_points_finite (c nu) (fun j => at2 NonFinite P nu j))
        by (intros; apply Hf; lia).
      simpl. f_equal; lra. }
  rewrite H. f_equal; lra.
Qed.

(** The nested loop of the rational evaluator: the point is accumulated as
    in the polynomial evaluator, next to the sum of the coefficients. *)
Lemma grid_fold_pair (c : nat -> nat -> R) (P : list (list Point3D)) (nu nv : nat)
    (p0 : Point3D) (w0 : R) :
  fold_left (fun acc i =>
      fold_left (fun '(point, wsum) j =>
                   (padd point (pscale (c i j) (at2 NonFinite P i j)), wsum + c i j))
                (seq 0 nv) acc)
    (seq 0 nu) (p0, w0)
  = (fold_left (fun acc i =>
        fold_left (fun acc j => padd acc (pscale (c i j) (at2 NonFinite P i j)))
                  (seq 0 nv) acc)
      (seq 0 nu) p0,
     w0 + rsum (fun i => rsum (fun j => c i j) nv) nu).
Proof.
  assert (H : forall i p w,
    fold_left (fun '(point, wsum) j =>
                 (padd point (pscale (c i j) (at2 NonFinite P i j)), wsum + c i j))
              (seq 0 nv) (p, w)
    = (fold_left (fun acc j => padd acc (pscale (c i j) (at2 NonFinite P i j)))
                 (seq 0 nv) p,
       w + rsum (fun j => c i j) nv)).
  { intros i. induction nv as [|nv IHv]; intros p w.
    - simpl. f_equal. lra.
    - rewrite !seq_S, !fold_left_app, IHv. simpl. f_equal. lra. }
  induction nu as [|nu IH].
  - simpl. f_equal. lra.
  - rewrite !seq_S, !fold_left_app, IH. cbn [fold_left].
    rewrite H. cbn [rsum Nat.add]. f_equal. lra.
Qed.

(** Loops with the same body on the indices they visit compute the same. *)
Lemma fold_left_ext_in {A B : Type} (f g : A -> B -> A) (l : list B) (a : A) :
  (forall x y, In y l -> f x y = g x y) -> fold_left f l a = fold_left g l a.
Proof.
  revert a. induction l as [|y l IH]; intros a H; simpl; auto.
  rewrite H by (left; reflexivity). apply IH. intros; apply H; now right.
Qed.

(** A double sum whose terms vanish off [(ki, kj)]. *)
Lemma rsum2_single (f : nat -> nat -> R) (nu nv ki kj : nat) :
  (ki < nu)%nat -> (kj < nv)%nat ->
  (forall i j, (i < nu)%nat -> (j < nv)%nat -> i <> ki \/ j <> kj -> f i j = 0) ->
  rsum (fun i => rsum (fun j => f i j) nv) nu = f ki kj.
Proof.
  intros Hi Hj H.
  rewrite (rsum_single ki); auto.
  - rewrite (rsum_single kj); auto.
  - intros i Hin Hne. apply rsum_zero. intros j Hjn. apply H; auto.
Qed.

(** A coefficient that vanishes off [(ki, kj)] picks one control point. *)
Lemma gsum_single (c : nat -> nat -> R) (P : list (list Point3D)) (k : nat)
    (nu nv ki kj : nat) :
  (ki < nu)%nat -> (kj < nv)%nat ->
  (forall i j, (i < nu)%nat -> (j < nv)%nat -> i <> ki \/ j <> kj -> c i j = 0) ->
  gsum c P k nu nv = c ki kj * coord k (at2 NonFinite P ki kj).
Proof.
  intros Hi Hj H. unfold gsum.
  rewrite (rsum2_single (fun i j => c i j * coord k (at2 NonFinite P i j))
             nu nv ki kj); auto.
  intros i j Hin Hjn Hne. rewrite (H i j); auto. ring.
Qed.

(** ** Construction and evaluation of the Bezier patches *)

Lemma range_degree (n : nat) : range (Z.of_nat n + 1) = seq 0 (S n).
Proof. unfold range. f_equal. lia. Qed.

Lemma as_ndarray_shaped (r c : nat) (pts : list (list Point3D)) :
  shaped r c pts -> as_ndarray pts = Ok pts.
Proof.
  intros [Hr Hc]. unfold as_ndarray.
  destruct pts as [|row0 rest]; [reflexivity|].
  replace (forallb _ _) with true; [reflexivity|].
  symmetry. apply forallb_forall. intros row Hin.
  rewrite Forall_forall in Hc.
  rewrite (Hc row Hin), (Hc row0 (or_introl eq_refl)). apply Nat.eqb_refl.
Qed.

Lemma shape_2_shaped (n m : nat) (pts : list (list Point3D)) :
  shaped (S n) (S m) pts -> shape_2 pts = Ok 3%Z.
Proof.
  intros [Hr Hc]. destruct pts as [|row0 rest]; [discriminate|].
  inversion Hc as [|? ? Hrow _]; subst.
  destruct row0; [discriminate|reflexivity].
Qed.

Lemma getitem_row0 {A : Type} (n m : nat) (g : list (list A)) :
  shaped (S n) (S m) g ->
  exists row0, getitem g 0 = Ok row0 /\ length row0 = S m.
Proof.
  intros [Hr Hc]. destruct g as [|row0 rest]; [discriminate|].
  exists row0. split; [reflexivity|].
  now inversion Hc.
Qed.

Lemma bezier_init (n m : nat) (pts : list (list Point3D)) :
  shaped (S n) (S m) pts ->
  BezierSurface.__init__ pts
  = Ok (BezierSurface.mk pts (Z.of_nat n) (Z.of_nat m)
          (Z.of_nat n + 1) (Z.of_nat m + 1)).
Proof.
  intros Hs. unfold BezierSurface.__init__.
  destruct (getitem_row0 n m pts Hs) as [row0 [-> Hlen]]. simpl.
  destruct Hs as [Hr _]. unfold len. rewrite Hr, Hlen.
  replace (Z.of_nat (S n) - 1)%Z with (Z.of_nat n) by lia.
  replace (Z.of_nat (S m) - 1)%Z with (Z.of_nat m) by lia.
  reflexivity.
Qed.

(** Polynomial evaluation of a grid of finite points, as a double sum. *)
Lemma bezier_evaluate_gsum (n m : nat) (pts : list (list Point3D))
    (srf : BezierSurface.t) (u v : R) :
  shaped (S n) (S m) pts -> all_finite pts ->
  BezierSurface.__init__ pts = Ok srf ->
  let c := fun i j => bernstein_poly (Z.of_nat n) (Z.of_nat i) u
                      * bernstein_poly (Z.of_nat m) (Z.of_nat j) v in
  BezierSurface.evaluate_ndarray srf u v
  = Ok (Pt (gsum c pts 0 (S n) (S m)) (gsum c pts 1 (S n) (S m))
           (gsum c pts 2 (S n) (S m))).
Proof.
  intros Hs Hf Hinit c.
  rewrite (bezier_init n m) in Hinit by assumption.
  injection Hinit as <-.
  unfold BezierSurface.evaluate_ndarray, BezierSurface.get_control_point_array.
  simpl. rewrite (as_ndarray_shaped _ _ _ Hs). simpl.
  rewrite (shape_2_shaped _ _ _ Hs). simpl.
  rewrite !range_degree. f_equal.
  apply (grid_fold_finite c).
  intros i j Hi Hj. now apply (at2_finite (S n) (S m)).
Qed.

Lemma check_row_nonneg (row : list R) :
  Forall (fun w => 0 <= w) row ->
  for_each row (fun weight =>
    if Rlt_dec weight 0 then Raise NegativeWeightError else Ok tt) = Ok tt.
Proof.
  induction 1 as [|w row Hw _ IH]; simpl; auto.
  destruct (Rlt_dec w 0); [lra|]. simpl. exact IH.
Qed.

Lemma check_row_negative (row : list R) :
  Exists (fun w => w < 0) row ->
  for_each row (fun weight =>
    if Rlt_dec weight 0 then Raise NegativeWeightError else Ok tt)
  = Raise NegativeWeightError.
Proof.
  induction 1 as [w row Hw|w row _ IH]; simpl.
  - destruct (Rlt_dec w 0); [reflexivity|lra].
  - destruct (Rlt_dec w 0); [reflexivity|]. simpl. exact IH.
Qed.

Lemma check_row_cases (row : list R) :
  Forall (fun w => 0 <= w) row \/ Exists (fun w => w < 0) row.
Proof.
  induction row as [|w row [IH|IH]]; auto.
  destruct (Rlt_dec w 0); [right; now left|left; constructor; auto; lra].
Qed.

(** The check passes on a grid without a negative weight. *)
Lemma check_weights_nonneg (ws : list (list R)) :
  nonneg_weights ws -> check_weights ws = Ok tt.
Proof.
  unfold check_weights.
  induction 1 as [|row ws Hrow _ IH]; simpl; auto.
  rewrite check_row_nonneg by assumption. simpl. exact IH.
Qed.

(** The check raises on a grid with a negative weight. *)
Lemma check_weights_negative (ws : list (list R)) :
  has_negative_weight ws -> check_weights ws = Raise NegativeWeightError.
Proof.
  unfold check_weights.
  induction 1 as [row ws Hrow|row ws _ IH]; simpl.
  - now rewrite check_row_negative.
  - destruct (check_row_cases row) as [Hn|Hn].
    + rewrite check_row_nonneg by assumption. simpl. exact IH.
    + now rewrite check_row_negative.
Qed.

Lemma clamped_knots_length (n : nat) :
  length (RationalBezierSurface.clamped_knots n) = (n + n)%nat.
Proof.
  unfold RationalBezierSurface.clamped_knots.
  now rewrite length_app, !repeat_length.
Qed.

Lemma shape_0_shaped {A : Type} (r c : nat) (g : list (list A)) :
  shaped r c g -> shape_0 g = Z.of_nat r.
Proof. intros [Hr _]. unfold shape_0, len. now rewrite Hr. Qed.

Lemma shape_1_shaped {A : Type} (r c : nat) (g : list (list A)) :
  shaped (S r) c g -> shape_1 g = Z.of_nat c.
Proof.
  intros [Hr Hc]. destruct g as [|row0 rest]; [discriminate|].
  inversion Hc; subst. reflexivity.
Qed.

(** The asserts of the rational constructor pass on grids of one shape. *)
Lemma rational_init_checks (n m : nat) (pts : list (list Point3D))
    (ws : list (list R)) :
  shaped (S n) (S m) pts -> shaped (S n) (S m) ws ->
  RationalBezierSurface.__init__ pts ws
  = (check_weights ws ;;;
     Ok (RationalBezierSurface.mk pts
           (RationalBezierSurface.clamped_knots (S n))
           (RationalBezierSurface.clamped_knots (S m))
           ws (Z.of_nat n) (Z.of_nat m) (Z.of_nat (S n)) (Z.of_nat (S m)))).
Proof.
  intros Hp Hw. unfold RationalBezierSurface.__init__.
  destruct (getitem_row0 n m pts Hp) as [row0 [-> Hlen]]. cbn [bind].
  rewrite (shape_0_shaped _ _ _ Hw), (shape_1_shaped _ _ _ Hw).
  destruct Hp as [Hr _]. unfold len.
  rewrite !clamped_knots_length, Hr, Hlen.
  replace (Z.of_nat (S n + S n) =? Z.of_nat (S n) + (Z.of_nat (S n) - 1) + 1)%Z
    with true by (symmetry; apply Z.eqb_eq; lia).
  replace (Z.of_nat (S m + S m) =? Z.of_nat (S m) + (Z.of_nat (S m) - 1) + 1)%Z
    with true by (symmetry; apply Z.eqb_eq; lia).
  rewrite !Z.eqb_refl. cbn [assert bind].
  replace (Z.of_nat (S n) - 1)%Z with (Z.of_nat n) by lia.
  replace (Z.of_nat (S m) - 1)%Z with (Z.of_nat m) by lia.
  reflexivity.
Qed.

Lemma rational_init (n m : nat) (pts : list (list Point3D)) (ws : list (list R)) :
  shaped (S n) (S m) pts -> shaped (S n) (S m) ws -> nonneg_weights ws ->
  RationalBezierSurface.__init__ pts ws
  = Ok (RationalBezierSurface.mk pts
          (RationalBezierSurface.clamped_knots (S n))
          (RationalBezierSurface.clamped_knots (S m))
          ws (Z.of_nat n) (Z.of_nat m) (Z.of_nat (S n)) (Z.of_nat (S m))).
Proof.
  intros Hp Hw Hn. rewrite (rational_init_checks n m) by assumption.
  now rewrite check_weights_nonneg.
Qed.

(** Polynomial evaluation, as the loop over the grid. *)
Lemma bezier_evaluate_fold (n m : nat) (pts : list (list Point3D))
    (srf : BezierSurface.t) (u v : R) :
  shaped (S n) (S m) pts ->
  BezierSurface.__init__ pts = Ok srf ->
  let c := fun i j => bernstein_poly (Z.of_nat n) (Z.of_nat i) u
                      * bernstein_poly (Z.of_nat m) (Z.of_nat j) v in
  BezierSurface.evaluate_ndarray srf u v
  = Ok (fold_left (fun acc i =>
          fold_left (fun acc j => padd acc (pscale (c i j) (at2 NonFinite pts i j)))
                    (seq 0 (S m)) acc)
        (seq 0 (S n)) zeros).
Proof.
  intros Hs Hinit c.
  rewrite (bezier_init n m) in Hinit by assumption.
  injection Hinit as <-.
  unfold BezierSurface.evaluate_ndarray, BezierSurface.get_control_point_array.
  simpl. rewrite (as_ndarray_shaped _ _ _ Hs). simpl.
  rewrite (shape_2_shaped _ _ _ Hs). simpl.
  rewrite !range_degree. reflexivity.
Qed.

(** Rational evaluation, as the loop over the grid and the sum of the
    weighted basis values. *)
Lemma rational_evaluate_fold (n m : nat) (pts : list (list Point3D))
    (ws : list (list R)) (srf : RationalBezierSurface.t) (u v : R) :
  shaped (S n) (S m) pts -> shaped (S n) (S m) ws ->
  RationalBezierSurface.__init__ pts ws = Ok srf ->
  let c := fun i j => bernstein_poly (Z.of_nat n) (Z.of_nat i) u
                      * bernstein_poly (Z.of_nat m) (Z.of_nat j) v
                      * at2 0 ws i j in
  RationalBezierSurface.evaluate_ndarray srf u v
  = Ok (pdiv
          (fold_left (fun acc i =>
             fold_left (fun acc j => padd acc (pscale (c i j) (at2 NonFinite pts i j)))
                       (seq 0 (S m)) acc)
           (seq 0 (S n)) zeros)
          (rsum (fun i => rsum (fun j => c i j) (S m)) (S n))).
Proof.
  intros Hp Hw Hinit c.
  rewrite (rational_init_checks n m) in Hinit by assumption.
  destruct (check_weights ws); [|discriminate].
  cbn [bind] in Hinit. injection Hinit as <-.
  unfold RationalBezierSurface.evaluate_ndarray,
    RationalBezierSurface.get_control_point_array.
  cbn [RationalBezierSurface.points RationalBezierSurface.weights
       RationalBezierSurface.degree_u RationalBezierSurface.degree_v
       RationalBezierSurface.Nu RationalBezierSurface.Nv].
  rewrite (as_ndarray_shaped _ _ _ Hp). cbn [bind].
  rewrite (shape_2_shaped _ _ _ Hp). cbn [bind].
  change (Z.pos (Pos.of_succ_nat m)) with (Z.of_nat (S m)).
  change (Z.pos (Pos.of_succ_nat n)) with (Z.of_nat (S n)).
  rewrite !range_of_nat.
  pose proof (grid_fold_pair c pts (S n) (S m) zeros 0) as H.
  unfold c in H |- *. cbv beta in H. rewrite H.
  f_equal. f_equal. lra.
Qed.

(** ** Evaluation at the parameter corners *)

Lemma corner_index_in_range (n m : nat) (corner : SurfaceCorner) :
  (fst (corner_index n m corner) < S n)%nat
  /\ (snd (corner_index n m corner) < S m)%nat.
Proof. destruct corner; simpl; lia. Qed.

Lemma corner_control_point_at {A : Type} (d : A) (n m : nat) (g : list (list A))
    (corner : SurfaceCorner) :
  shaped (S n) (S m) g ->
  corner_control_point g corner
  = Ok (at2 d g (fst (corner_index n m corner)) (snd (corner_index n m corner))).
Proof.
  intros Hs.
  assert (H0n : norm_index (S n) 0 = Some 0%nat) by reflexivity.
  assert (H0m : norm_index (S m) 0 = Some 0%nat) by reflexivity.
  assert (H1n : norm_index (S n) (-1) = Some n).
  { change (-1)%Z with (- (Z.of_nat 0 + 1))%Z.
    rewrite norm_index_back by lia. f_equal. lia. }
  assert (H1m : norm_index (S m) (-1) = Some m).
  { change (-1)%Z with (- (Z.of_nat 0 + 1))%Z.
    rewrite norm_index_back by lia. f_equal. lia. }
  destruct corner; simpl;
    eapply getitem2_norm; eauto.
Qed.

(** At a parameter corner the product of the two basis values is one at the
    corner of the grid and zero at every other position. *)
Lemma bernstein_corner (n m : nat) (corner : SurfaceCorner) (i j : nat) :
  bernstein_poly (Z.of_nat n) (Z.of_nat i) (fst (corner_parameters corner))
  * bernstein_poly (Z.of_nat m) (Z.of_nat j) (snd (corner_parameters corner))
  = if (Nat.eqb i (fst (corner_index n m corner))
        && Nat.eqb j (snd (corner_index n m corner)))%bool
    then 1 else 0.
Proof.
  destruct corner; simpl fst; simpl snd;
    rewrite ?bernstein_at_0, ?bernstein_at_1;
    repeat match goal with
           | |- context [Nat.eqb ?a ?b] => destruct (Nat.eqb a b)
           end; simpl; lra.
Qed.

Lemma corner_coefficient_off (n m : nat) (corner : SurfaceCorner) (w : nat -> nat -> R)
    (i j : nat) :
  i <> fst (corner_index n m corner) \/ j <> snd (corner_index n m corner) ->
  bernstein_poly (Z.of_nat n) (Z.of_nat i) (fst (corner_parameters corner))
  * bernstein_poly (Z.of_nat m) (Z.of_nat j) (snd (corner_parameters corner))
  * w i j = 0.
Proof.
  intros H. rewrite bernstein_corner.
  destruct (Nat.eqb_spec i (fst (corner_index n m corner)));
    destruct (Nat.eqb_spec j (snd (corner_index n m corner)));
    simpl; try lra.
  destruct H; contradiction.
Qed.

Lemma corner_coefficient_on (n m : nat) (corner : SurfaceCorner) :
  bernstein_poly (Z.of_nat n) (Z.of_nat (fst (corner_index n m corner)))
    (fst (corner_parameters corner))
  * bernstein_poly (Z.of_nat m) (Z.of_nat (snd (corner_index n m corner)))
      (snd (corner_parameters corner))
  = 1.
Proof. rewrite bernstein_corner, !Nat.eqb_refl. reflexivity. Qed.

(** A polynomial patch of finite control points passes through its corner
    control points. *)
Lemma bezier_corner_eval (n m : nat) (pts : list (list Point3D))
    (srf : BezierSurface.t) (corner : SurfaceCorner) :
  shaped (S n) (S m) pts -> all_finite pts ->
  BezierSurface.__init__ pts = Ok srf ->
  BezierSurface.evaluate_ndarray srf (fst (corner_parameters corner))
                                 (snd (corner_parameters corner))
  = corner_control_point pts corner.
Proof.
  intros Hs Hf Hinit.
  rewrite (bezier_evaluate_gsum n m pts) by assumption.
  rewrite (corner_control_point_at NonFinite n m) by assumption.
  destruct (corner_index_in_range n m corner) as [Hi Hj].
  set (ki := fst (corner_index n m corner)) in *.
  set (kj := snd (corner_index n m corner)) in *.
  assert (Hfin : is_finite (at2 NonFinite pts ki kj))
    by now apply (at2_finite (S n) (S m)).
  rewrite !(gsum_single _ pts _ (S n) (S m) ki kj); auto;
    try (intros i j _ _ Hne;
         pose proof (corner_coefficient_off n m corner (fun _ _ => 1) i j Hne) as H0;
         cbv beta in H0; lra).
  unfold ki, kj. rewrite corner_coefficient_on.
  fold ki kj. rewrite !Rmult_1_l. f_equal. symmetry. now apply Pt_coords.
Qed.

(** A rational patch of finite control points passes through a corner
    control point when the weight at that corner is not zero, and has no
    finite value there when the weight is zero. *)
Lemma rational_corner_eval (n m : nat) (pts : list (list Point3D))
    (ws : list (list R)) (srf : RationalBezierSurface.t) (corner : SurfaceCorner) :
  shaped (S n) (S m) pts -> shaped (S n) (S m) ws -> all_finite pts ->
  RationalBezierSurface.__init__ pts ws = Ok srf ->
  let ki := fst (corner_index n m corner) in
  let kj := snd (corner_index n m corner) in
  RationalBezierSurface.evaluate_ndarray srf (fst (corner_parameters corner))
                                         (snd (corner_parameters corner))
  = Ok (if Req_dec_T (at2 0 ws ki kj) 0 then NonFinite
        else at2 NonFinite pts ki kj).
Proof.
  intros Hp Hw Hf Hinit ki kj.
  rewrite (rational_evaluate_fold n m pts ws) by assumption.
  destruct (corner_index_in_range n m corner) as [Hi Hj].
  fold ki kj in Hi, Hj.
  assert (Hfin : is_finite (at2 NonFinite pts ki kj))
    by now apply (at2_finite (S n) (S m)).
  rewrite grid_fold_finite
    by (intros; now apply (at2_finite (S n) (S m))).
  rewrite !(gsum_single _ pts _ (S n) (S m) ki kj); auto;
    try (intros i j _ _ Hne;
         now apply (corner_coefficient_off n m corner (at2 0 ws))).
  rewrite (rsum2_single _ (S n) (S m) ki kj); auto;
    try (intros i j _ _ Hne;
         now apply (corner_coefficient_off n m corner (at2 0 ws))).
  unfold ki, kj. rewrite corner_coefficient_on. fold ki kj.
  rewrite !Rmult_1_l. f_equal.
  destruct (Req_dec_T (at2 0 ws ki kj) 0) as [Hz|Hnz].
  - rewrite Hz. apply pdiv_zero.
  - rewrite pdiv_nonzero by assumption.
    rewrite (Pt_coords (at2 NonFinite pts ki kj)) at 4 by assumption.
    f_equal; field; assumption.
Qed.

Lemma sample_points_shaped : shaped 2 2 sample_points.
Proof. split; [reflexivity|repeat constructor]. Qed.

Lemma sample_points_finite : all_finite sample_points.
Proof. repeat constructor. Qed.

(** C1 as stated fails: the weights may be any non-negative numbers, and
    with the weight zero at the Southwest corner the rational evaluation at
    (0,0) is not the Southwest control point. *)
Lemma corner_interpolation_zero_weight :
  shaped 2 2 sample_weights_zero_corner
  /\ nonneg_weights sample_weights_zero_corner
  /\ exists srf,
       RationalBezierSurface.__init__ sample_points sample_weights_zero_corner = Ok srf
       /\ corner_control_point sample_points Southwest = Ok (Pt 0 0 0)
       /\ RationalBezierSurface.evaluate_ndarray srf 0 0 = Ok NonFinite
       /\ RationalBezierSurface.evaluate_ndarray srf 0 0
          <> corner_control_point sample_points Southwest.
Proof.
  assert (Hw : shaped 2 2 sample_weights_zero_corner)
    by (split; [reflexivity|repeat constructor]).
  assert (Hn : nonneg_weights sample_weights_zero_corner)
    by (repeat constructor; lra).
  split; [exact Hw|]. split; [exact Hn|].
  pose proof (rational_init 1 1 sample_points sample_weights_zero_corner
                sample_points_shaped Hw Hn) as Hinit.
  eexists. split; [exact Hinit|]. split; [reflexivity|].
  pose proof (rational_corner_eval 1 1 sample_points sample_weights_zero_corner _
                Southwest sample_points_shaped Hw sample_points_finite Hinit) as He.
  cbn [corner_parameters corner_index fst snd] in He.
  assert (Hz : RationalBezierSurface.evaluate_ndarray
                 (RationalBezierSurface.mk sample_points
                    (RationalBezierSurface.clamped_knots 2)
                    (RationalBezierSurface.clamped_knots 2)
                    sample_weights_zero_corner (Z.of_nat 1) (Z.of_nat 1)
                    (Z.of_nat 2) (Z.of_nat 2)) 0 0 = Ok NonFinite).
  { rewrite He. unfold at2; simpl nth.
    destruct (Req_dec_T 0 0); [reflexivity|contradiction]. }
  split; [exact Hz|]. rewrite Hz. discriminate.
Qed.

(** ** Unit weights *)

Lemma at2_all_ones (r c : nat) (ws : list (list R)) (i j : nat) :
  shaped r c ws -> all_ones ws -> (i < r)%nat -> (j < c)%nat -> at2 0 ws i j = 1.
Proof.
  intros Hs Ho Hi Hj. unfold at2, all_ones in *.
  pose proof (shaped_row_length r c ws i Hs Hi) as Hlen.
  destruct Hs as [Hr Hc].
  rewrite Forall_forall in Ho.
  assert (Hrow : Forall (fun w => w = 1) (nth i ws [])) by (apply Ho, nth_In; lia).
  rewrite Forall_forall in Hrow. apply Hrow, nth_In. lia.
Qed.

Lemma all_ones_nonneg (ws : list (list R)) : all_ones ws -> nonneg_weights ws.
Proof.
  unfold all_ones, nonneg_weights. intros H.
  eapply Forall_impl; [|exact H]. intros row Hrow.
  eapply Forall_impl; [|exact Hrow]. simpl. intros w ->. lra.
Qed.

(** The products of the basis values of the two directions sum to one. *)
Lemma bernstein_product_partition (n m : nat) (u v : R) :
  rsum (fun i => rsum (fun j =>
          bernstein_poly (Z.of_nat n) (Z.of_nat i) u
          * bernstein_poly (Z.of_nat m) (Z.of_nat j) v) (S m)) (S n) = 1.
Proof.
  rewrite (rsum_ext _ (fun i => bernstein_poly (Z.of_nat n) (Z.of_nat i) u * 1)).
  - rewrite (rsum_ext _ (fun i => 1 * bernstein_poly (Z.of_nat n) (Z.of_nat i) u))
      by (intros; ring).
    rewrite rsum_scale, bernstein_partition. ring.
  - intros i _. rewrite rsum_scale, bernstein_partition. reflexivity.
Qed.

(** ** Addressing along an edge *)

Lemma edge_cell_in_range (n m : nat) (edge : SurfaceEdge) (row c : nat) :
  (row <= parallel_degree n m edge)%nat ->
  (c <= perpendicular_degree n m edge)%nat ->
  (fst (edge_cell n m edge row c) < S n)%nat
  /\ (snd (edge_cell n m edge row c) < S m)%nat.
Proof. destruct edge; simpl; lia. Qed.

Lemma edge_cell_injective (n m : nat) (edge : SurfaceEdge) (row c row' c' : nat) :
  (c <= perpendicular_degree n m edge)%nat ->
  (c' <= perpendicular_degree n m edge)%nat ->
  edge_cell n m edge row c = edge_cell n m edge row' c' -> row = row' /\ c = c'.
Proof. destruct edge; simpl; intros Hc Hc' [= H1 H2]; lia. Qed.

(** Reading the entry of an edge goes to its grid position. *)
Lemma edge_get_cell {A : Type} (d : A) (n m : nat) (g : list (list A))
    (edge : SurfaceEdge) (row c : nat) :
  shaped (S n) (S m) g ->
  (row <= parallel_degree n m edge)%nat ->
  (c <= perpendicular_degree n m edge)%nat ->
  match edge with
  | North => getitem2 g (Z.of_nat row) (- (Z.of_nat c + 1))
  | South => getitem2 g (Z.of_nat row) (Z.of_nat c)
  | East => getitem2 g (- (Z.of_nat c + 1)) (Z.of_nat row)
  | West => getitem2 g (Z.of_nat c) (Z.of_nat row)
  end
  = Ok (at2 d g (fst (edge_cell n m edge row c)) (snd (edge_cell n m edge row c))).
Proof.
  intros Hs Hrow Hc.
  destruct edge; simpl in *;
    apply (getitem2_norm d (S n) (S m)); auto;
    try (apply norm_index_nonneg; lia);
    try (rewrite norm_index_back by lia; f_equal; lia).
Qed.

(** Writing the entry of an edge replaces its grid position. *)
Lemma edge_set_cell {A : Type} (n m : nat) (g : list (list A))
    (edge : SurfaceEdge) (row c : nat) (x : A) :
  shaped (S n) (S m) g ->
  (row <= parallel_degree n m edge)%nat ->
  (c <= perpendicular_degree n m edge)%nat ->
  match edge with
  | North => setitem2 g (Z.of_nat row) (- (Z.of_nat c + 1)) x
  | South => setitem2 g (Z.of_nat row) (Z.of_nat c) x
  | East => setitem2 g (- (Z.of_nat c + 1)) (Z.of_nat row) x
  | West => setitem2 g (Z.of_nat c) (Z.of_nat row) x
  end
  = Ok (replace_nth (fst (edge_cell n m edge row c))
          (replace_nth (snd (edge_cell n m edge row c)) x
             (nth (fst (edge_cell n m edge row c)) g [])) g).
Proof.
  intros Hs Hrow Hc.
  destruct edge; simpl in *;
    apply (setitem2_norm (S n) (S m)); auto;
    try (apply norm_index_nonneg; lia);
    try (rewrite norm_index_back by lia; f_equal; lia).
Qed.

(** The grid after the entry [(row, c)] of an edge is replaced by [x]. *)
Lemma at2_edge_replace {A : Type} (d : A) (n m : nat) (g : list (list A))
    (edge : SurfaceEdge) (row c row' c' : nat) (x : A) :
  shaped (S n) (S m) g ->
  (row <= parallel_degree n m edge)%nat ->
  (c <= perpendicular_degree n m edge)%nat ->
  (c' <= perpendicular_degree n m edge)%nat ->
  let g' := replace_nth (fst (edge_cell n m edge row c))
              (replace_nth (snd (edge_cell n m edge row c)) x
                 (nth (fst (edge_cell n m edge row c)) g [])) g in
  at2 d g' (fst (edge_cell n m edge row' c')) (snd (edge_cell n m edge row' c'))
  = if (Nat.eqb row row' && Nat.eqb c c')%bool then x
    else at2 d g (fst (edge_cell n m edge row' c')) (snd (edge_cell n m edge row' c')).
Proof.
  intros Hs Hrow Hc Hc' g'. unfold g'.
  destruct (edge_cell_in_range n m edge row c Hrow Hc) as [Hi Hj].
  destruct (Nat.eqb_spec row row') as [<-|Hne]; simpl.
  - destruct (Nat.eqb_spec c c') as [<-|Hne].
    + now apply (at2_replace_same d (S n) (S m)).
    + apply (at2_replace_other d (S n) (S m)); auto.
      intros Heq.
      assert (E : edge_cell n m edge row c = edge_cell n m edge row c').
      { rewrite (surjective_pairing (edge_cell n m edge row c)).
        rewrite (surjective_pairing (edge_cell n m edge row c')). exact Heq. }
      apply edge_cell_injective in E; auto. lia.
  - apply (at2_replace_other d (S n) (S m)); auto.
    intros Heq.
    assert (E : edge_cell n m edge row c = edge_cell n m edge row' c').
    { rewrite (surjective_pairing (edge_cell n m edge row c)).
      rewrite (surjective_pairing (edge_cell n m edge row' c')). exact Heq. }
    apply edge_cell_injective in E; auto. lia.
Qed.

(** ** Loops of mutating methods *)

(** A row loop whose turns all succeed and carry an invariant from one row
    to the next. *)
Lemma mfor_invariant {St : Type} (Inv : nat -> St -> Prop)
    (body : nat -> Mut St unit) (n : nat) (s : St) :
  Inv 0%nat s ->
  (forall k s1, (k < n)%nat -> Inv k s1 ->
     exists s2, body k s1 = (Ok tt, s2) /\ Inv (S k) s2) ->
  exists s', mfor (seq 0 n) body s = (Ok tt, s') /\ Inv n s'.
Proof.
  intros H0 Hstep.
  assert (G : forall cnt start s1, (start + cnt <= n)%nat -> Inv start s1 ->
            exists s', mfor (seq start cnt) body s1 = (Ok tt, s')
                       /\ Inv (start + cnt)%nat s').
  { induction cnt as [|cnt IH]; intros start s1 Hle Hinv.
    - exists s1. rewrite Nat.add_0_r. split; [reflexivity|assumption].
    - destruct (Hstep start s1) as [s2 [Hb Hi2]]; [lia|assumption|].
      destruct (IH (S start) s2) as [s3 [Hm Hi3]]; [lia|assumption|].
      exists s3. simpl. unfold mbind. rewrite Hb. split; [exact Hm|].
      now replace (start + S cnt)%nat with (S start + cnt)%nat by lia. }
  apply (G n 0%nat s); auto.
Qed.

Lemma edge_write_shaped {A : Type} (n m : nat) (edge : SurfaceEdge) (row c : nat)
    (x : A) (g : list (list A)) :
  shaped (S n) (S m) g -> shaped (S n) (S m) (edge_write n m edge row c x g).
Proof. intros Hs. now apply shaped_replace_cell. Qed.

Lemma edge_read_write {A : Type} (d : A) (n m : nat) (g : list (list A))
    (edge : SurfaceEdge) (row c row' c' : nat) (x : A) :
  shaped (S n) (S m) g ->
  (row <= parallel_degree n m edge)%nat ->
  (c <= perpendicular_degree n m edge)%nat ->
  (c' <= perpendicular_degree n m edge)%nat ->
  edge_read d n m edge row' c' (edge_write n m edge row c x g)
  = if (Nat.eqb row row' && Nat.eqb c c')%bool then x
    else edge_read d n m edge row' c' g.
Proof. intros. now apply at2_edge_replace. Qed.

(** ** Rational patches: reading and writing along an edge *)

Lemma rational_parallel_degree (n m : nat) (srf : RationalBezierSurface.t)
    (edge : SurfaceEdge) :
  rational_patch n m srf ->
  RationalBezierSurface.get_parallel_degree srf edge
  = Z.of_nat (parallel_degree n m edge).
Proof. intros (_ & _ & Hu & Hv). destruct edge; simpl; assumption. Qed.

Lemma rational_perpendicular_degree (n m : nat) (srf : RationalBezierSurface.t)
    (edge : SurfaceEdge) :
  rational_patch n m srf ->
  RationalBezierSurface.get_perpendicular_degree srf edge
  = Z.of_nat (perpendicular_degree n m edge).
Proof. intros (_ & _ & Hu & Hv). destruct edge; simpl; assumption. Qed.

Lemma rational_get_point (n m : nat) (srf : RationalBezierSurface.t)
    (edge : SurfaceEdge) (row c : nat) :
  rational_patch n m srf ->
  (row <= parallel_degree n m edge)%nat ->
  (c <= perpendicular_degree n m edge)%nat ->
  RationalBezierSurface.get_point srf (Z.of_nat row) (Z.of_nat c) edge
  = Ok (edge_read NonFinite n m edge row c (RationalBezierSurface.points srf)).
Proof.
  intros (Hp & _) Hrow Hc. unfold RationalBezierSurface.get_point.
  now apply edge_get_cell.
Qed.

Lemma rational_get_weight (n m : nat) (srf : RationalBezierSurface.t)
    (edge : SurfaceEdge) (row c : nat) :
  rational_patch n m srf ->
  (row <= parallel_degree n m edge)%nat ->
  (c <= perpendicular_degree n m edge)%nat ->
  RationalBezierSurface.get_weight srf (Z.of_nat row) (Z.of_nat c) edge
  = Ok (edge_read 0 n m edge row c (RationalBezierSurface.weights srf)).
Proof.
  intros (_ & Hw & _) Hrow Hc. unfold RationalBezierSurface.get_weight.
  now apply edge_get_cell.
Qed.

Lemma rational_set_point (n m : nat) (srf : RationalBezierSurface.t)
    (edge : SurfaceEdge) (row c : nat) (p : Point3D) :
  rational_patch n m srf ->
  (row <= parallel_degree n m edge)%nat ->
  (c <= perpendicular_degree n m edge)%nat ->
  RationalBezierSurface.set_point p (Z.of_nat row) (Z.of_nat c) edge srf
  = (Ok tt,
     RationalBezierSurface.with_points srf
       (edge_write n m edge row c p (RationalBezierSurface.points srf))).
Proof.
  intros (Hp & _) Hrow Hc. unfold RationalBezierSurface.set_point, mwrite.
  now rewrite (edge_set_cell n m) by assumption.
Qed.

Lemma rational_set_weight (n m : nat) (srf : RationalBezierSurface.t)
    (edge : SurfaceEdge) (row c : nat) (w : R) :
  rational_patch n m srf ->
  (row <= parallel_degree n m edge)%nat ->
  (c <= perpendicular_degree n m edge)%nat ->
  RationalBezierSurface.set_weight w (Z.of_nat row) (Z.of_nat c) edge srf
  = (Ok tt,
     RationalBezierSurface.with_weights srf
       (edge_write n m edge row c w (RationalBezierSurface.weights srf))).
Proof.
  intros (_ & Hw & _) Hrow Hc. unfold RationalBezierSurface.set_weight, mwrite.
  now rewrite (edge_set_cell n m) by assumption.
Qed.

Lemma rational_patch_with_points (n m : nat) (srf : RationalBezierSurface.t)
    (edge : SurfaceEdge) (row c : nat) (p : Point3D) :
  rational_patch n m srf ->
  rational_patch n m
    (RationalBezierSurface.with_points srf
       (edge_write n m edge row c p (RationalBezierSurface.points srf))).
Proof.
  intros (Hp & Hw & Hu & Hv). repeat split; simpl; auto;
    try apply Hw; apply edge_write_shaped; auto.
Qed.

Lemma rational_patch_with_weights (n m : nat) (srf : RationalBezierSurface.t)
    (edge : SurfaceEdge) (row c : nat) (w : R) :
  rational_patch n m srf ->
  rational_patch n m
    (RationalBezierSurface.with_weights srf
       (edge_write n m edge row c w (RationalBezierSurface.weights srf))).
Proof.
  intros (Hp & Hw & Hu & Hv). repeat split; simpl; auto;
    try apply Hp; apply edge_write_shaped; auto.
Qed.

Lemma rational_init_patch (n m : nat) (pts : list (list Point3D))
    (ws : list (list R)) (srf : RationalBezierSurface.t) :
  shaped (S n) (S m) pts -> shaped (S n) (S m) ws ->
  RationalBezierSurface.__init__ pts ws = Ok srf ->
  rational_patch n m srf.
Proof.
  intros Hp Hw Hinit.
  rewrite (rational_init_checks n m) in Hinit by assumption.
  destruct (check_weights ws); [|discriminate].
  cbn [bind] in Hinit. injection Hinit as <-.
  repeat split; simpl; auto; try apply Hp; apply Hw.
Qed.

(** The same at the continuity indices 0 and 1, as the methods write them. *)
Lemma rational_get_point_at (n m : nat) (srf : RationalBezierSurface.t)
    (edge : SurfaceEdge) (row : nat) :
  rational_patch n m srf ->
  (row <= parallel_degree n m edge)%nat ->
  RationalBezierSurface.get_point srf (Z.of_nat row) 0 edge
  = Ok (edge_read NonFinite n m edge row 0 (RationalBezierSurface.points srf))
  /\ ((1 <= perpendicular_degree n m edge)%nat ->
      RationalBezierSurface.get_point srf (Z.of_nat row) 1 edge
      = Ok (edge_read NonFinite n m edge row 1 (RationalBezierSurface.points srf))).
Proof.
  intros H Hrow. split.
  - apply (rational_get_point n m srf edge row 0); auto. lia.
  - intros Hc. now apply (rational_get_point n m srf edge row 1).
Qed.

Lemma rational_get_weight_at (n m : nat) (srf : RationalBezierSurface.t)
    (edge : SurfaceEdge) (row : nat) :
  rational_patch n m srf ->
  (row <= parallel_degree n m edge)%nat ->
  RationalBezierSurface.get_weight srf (Z.of_nat row) 0 edge
  = Ok (edge_read 0 n m edge row 0 (RationalBezierSurface.weights srf))
  /\ ((1 <= perpendicular_degree n m edge)%nat ->
      RationalBezierSurface.get_weight srf (Z.of_nat row) 1 edge
      = Ok (edge_read 0 n m edge row 1 (RationalBezierSurface.weights srf))).
Proof.
  intros H Hrow. split.
  - apply (rational_get_weight n m srf edge row 0); auto. lia.
  - intros Hc. now apply (rational_get_weight n m srf edge row 1).
Qed.

Lemma rational_set_point_at (n m : nat) (srf : RationalBezierSurface.t)
    (edge : SurfaceEdge) (row : nat) (p : Point3D) :
  rational_patch n m srf ->
  (row <= parallel_degree n m edge)%nat ->
  RationalBezierSurface.set_point p (Z.of_nat row) 0 edge srf
  = (Ok tt,
     RationalBezierSurface.with_points srf
       (edge_write n m edge row 0 p (RationalBezierSurface.points srf)))
  /\ ((1 <= perpendicular_degree n m edge)%nat ->
      RationalBezierSurface.set_point p (Z.of_nat row) 1 edge srf
      = (Ok tt,
         RationalBezierSurface.with_points srf
           (edge_write n m edge row 1 p (RationalBezierSurface.points srf)))).
Proof.
  intros H Hrow. split.
  - apply (rational_set_point n m srf edge row 0); auto. lia.
  - intros Hc. now apply (rational_set_point n m srf edge row 1).
Qed.

Lemma rational_set_weight_at (n m : nat) (srf : RationalBezierSurface.t)
    (edge : SurfaceEdge) (row : nat) (w : R) :
  rational_patch n m srf ->
  (row <= parallel_degree n m edge)%nat ->
  RationalBezierSurface.set_weight w (Z.of_nat row) 0 edge srf
  = (Ok tt,
     RationalBezierSurface.with_weights srf
       (edge_write n m edge row 0 w (RationalBezierSurface.weights srf)))
  /\ ((1 <= perpendicular_degree n m edge)%nat ->
      RationalBezierSurface.set_weight w (Z.of_nat row) 1 edge srf
      = (Ok tt,
         RationalBezierSurface.with_weights srf
           (edge_write n m edge row 1 w (RationalBezierSurface.weights srf)))).
Proof.
  intros H Hrow. split.
  - apply (rational_set_weight n m srf edge row 0); auto. lia.
  - intros Hc. now apply (rational_set_weight n m srf edge row 1).
Qed.

(** ** Positional continuity of rational patches *)

(** One turn of the row loop of [enforce_g0]. *)
Lemma rational_g0_row (nA mA nB mB : nat) (A B : RationalBezierSurface.t)
    (eB eA : SurfaceEdge) (row : nat) :
  rational_patch nA mA A -> rational_patch nB mB B ->
  (row <= parallel_degree nA mA eA)%nat ->
  (row <= parallel_degree nB mB eB)%nat ->
  (p <~ mlift (RationalBezierSurface.get_point A (Z.of_nat row) 0 eA) ;;
   RationalBezierSurface.set_point p (Z.of_nat row) 0 eB ~;;
   w <~ mlift (RationalBezierSurface.get_weight A (Z.of_nat row) 0 eA) ;;
   RationalBezierSurface.set_weight w (Z.of_nat row) 0 eB) B
  = (Ok tt,
     RationalBezierSurface.with_weights
       (RationalBezierSurface.with_points B
          (edge_write nB mB eB row 0
             (edge_read NonFinite nA mA eA row 0 (RationalBezierSurface.points A))
             (RationalBezierSurface.points B)))
       (edge_write nB mB eB row 0
          (edge_read 0 nA mA eA row 0 (RationalBezierSurface.weights A))
          (RationalBezierSurface.weights B))).
Proof.
  intros HA HB HrA HrB.
  unfold mbind, mlift.
  rewrite (proj1 (rational_get_point_at nA mA A eA row HA HrA)).
  rewrite (proj1 (rational_set_point_at nB mB B eB row _ HB HrB)).
  rewrite (proj1 (rational_get_weight_at nA mA A eA row HA HrA)).
  rewrite (proj1 (rational_set_weight_at nB mB _ eB row _
                    (rational_patch_with_points nB mB B eB row 0 _ HB) HrB)).
  reflexivity.
Qed.

(** With equal parallel degrees [enforce_g0] succeeds and copies the
    boundary row of points and of weights. *)
Lemma rational_enforce_g0_ok (nA mA nB mB : nat) (A B : RationalBezierSurface.t)
    (eB eA : SurfaceEdge) :
  rational_patch nA mA A -> rational_patch nB mB B ->
  parallel_degree nB mB eB = parallel_degree nA mA eA ->
  exists B',
    RationalBezierSurface.enforce_g0 A eB eA B = (Ok tt, B')
    /\ rational_patch nB mB B'
    /\ forall row, (row <= parallel_degree nB mB eB)%nat ->
         edge_read NonFinite nB mB eB row 0 (RationalBezierSurface.points B')
         = edge_read NonFinite nA mA eA row 0 (RationalBezierSurface.points A)
         /\ edge_read 0 nB mB eB row 0 (RationalBezierSurface.weights B')
            = edge_read 0 nA mA eA row 0 (RationalBezierSurface.weights A).
Proof.
  intros HA HB Hpar.
  unfold RationalBezierSurface.enforce_g0.
  unfold mbind at 1. unfold mread at 1.
  rewrite (rational_parallel_degree nB mB B eB HB),
          (rational_parallel_degree nA mA A eA HA), Hpar, Z.eqb_refl.
  cbn [assert]. unfold mbind at 1. unfold mread at 1.
  rewrite (rational_parallel_degree nB mB B eB HB), range_degree.
  destruct (mfor_invariant
    (fun k s =>
       rational_patch nB mB s
       /\ forall row, (row < k)%nat ->
            edge_read NonFinite nB mB eB row 0 (RationalBezierSurface.points s)
            = edge_read NonFinite nA mA eA row 0 (RationalBezierSurface.points A)
            /\ edge_read 0 nB mB eB row 0 (RationalBezierSurface.weights s)
               = edge_read 0 nA mA eA row 0 (RationalBezierSurface.weights A))
    (fun row_index =>
       p <~ mlift (RationalBezierSurface.get_point A (Z.of_nat row_index) 0 eA) ;;
       RationalBezierSurface.set_point p (Z.of_nat row_index) 0 eB ~;;
       w <~ mlift (RationalBezierSurface.get_weight A (Z.of_nat row_index) 0 eA) ;;
       RationalBezierSurface.set_weight w (Z.of_nat row_index) 0 eB)
    (S (parallel_degree nB mB eB)) B) as [B' [Hrun [HB' Hrows]]].
  - split; [assumption|]. intros row Hrow. lia.
  - intros k s1 Hk [Hs1 Hprev].
    eexists. split.
    + apply (rational_g0_row nA mA nB mB); auto; lia.
    + split.
      * apply (rational_patch_with_weights nB mB
                 (RationalBezierSurface.with_points s1 _)).
        apply rational_patch_with_points; assumption.
      * intros row Hrow. simpl.
        destruct Hs1 as (Hp1 & Hw1 & _).
        rewrite !edge_read_write by (auto; lia).
        destruct (Nat.eqb_spec k row) as [<-|Hne]; simpl; [split; reflexivity|].
        apply Hprev. lia.
  - exists B'. split; [exact Hrun|]. split; [exact HB'|].
    intros row Hrow. apply Hrows. lia.
Qed.

(** With different parallel degrees the precondition fails and the patch is
    left as it was. *)
Lemma rational_enforce_g0_mismatch (A B : RationalBezierSurface.t)
    (eB eA : SurfaceEdge) :
  RationalBezierSurface.get_parallel_degree B eB
  <> RationalBezierSurface.get_parallel_degree A eA ->
  RationalBezierSurface.enforce_g0 A eB eA B = (Raise AssertionError, B).
Proof.
  intros Hne. unfold RationalBezierSurface.enforce_g0.
  unfold mbind at 1. unfold mread at 1.
  destruct (Z.eqb_spec (RationalBezierSurface.get_parallel_degree B eB)
                       (RationalBezierSurface.get_parallel_degree A eA));
    [contradiction|reflexivity].
Qed.

(** C3.  Two rational Bezier patches [A] and [B], an edge on each, equal
    parallel degrees: [B.enforce_g0(A, edge_B, edge_A)] succeeds, and after
    it, for every row index from 0 to the parallel degree, [B.get_point] and
    [B.get_weight] at continuity index 0 of [edge_B] return what
    [A.get_point] and [A.get_weight] return at continuity index 0 of
    [edge_A].  With different parallel degrees the call fails on the
    assertion and writes nothing. *)
Theorem enforce_g0_boundary (nA mA nB mB : nat) (A B : RationalBezierSurface.t)
    (eB eA : SurfaceEdge) :
  rational_patch nA mA A -> rational_patch nB mB B ->
  (RationalBezierSurface.get_parallel_degree B eB
   = RationalBezierSurface.get_parallel_degree A eA ->
   exists B',
     RationalBezierSurface.enforce_g0 A eB eA B = (Ok tt, B')
     /\ forall row_index : Z,
          (0 <= row_index <= RationalBezierSurface.get_parallel_degree B eB)%Z ->
          exists p w,
            RationalBezierSurface.get_point B' row_index 0 eB = Ok p
            /\ RationalBezierSurface.get_point A row_index 0 eA = Ok p
            /\ RationalBezierSurface.get_weight B' row_index 0 eB = Ok w
            /\ RationalBezierSurface.get_weight A row_index 0 eA = Ok w)
  /\ (RationalBezierSurface.get_parallel_degree B eB
      <> RationalBezierSurface.get_parallel_degree A eA ->
      RationalBezierSurface.enforce_g0 A eB eA B = (Raise AssertionError, B)).
Proof.
  intros HA HB. split; [|apply rational_enforce_g0_mismatch].
  intros Hpar.
  rewrite (rational_parallel_degree nB mB B eB HB) in *.
  rewrite (rational_parallel_degree nA mA A eA HA) in Hpar.
  apply Nat2Z.inj in Hpar.
  destruct (rational_enforce_g0_ok nA mA nB mB A B eB eA HA HB Hpar)
    as [B' [Hrun [HB' Hrows]]].
  exists B'. split; [exact Hrun|].
  intros row_index Hrange.
  destruct (Hrows (Z.to_nat row_index)) as [Hp Hw]; [lia|].
  assert (HrB : (Z.to_nat row_index <= parallel_degree nB mB eB)%nat) by lia.
  assert (HrA : (Z.to_nat row_index <= parallel_degree nA mA eA)%nat) by lia.
  rewrite <- (Z2Nat.id row_index) by lia.
  rewrite (proj1 (rational_get_point_at nB mB B' eB _ HB' HrB)).
  rewrite (proj1 (rational_get_point_at nA mA A eA _ HA HrA)).
  rewrite (proj1 (rational_get_weight_at nB mB B' eB _ HB' HrB)).
  rewrite (proj1 (rational_get_weight_at nA mA A eA _ HA HrA)).
  eexists. eexists. rewrite Hp, Hw. repeat split.
Qed.

(** ** Tangential continuity of rational patches: one row *)

(** What one turn of the row loop of [enforce_g0g1] does. *)
Lemma rational_g1_row (nA mA nB mB : nat) (A B : RationalBezierSurface.t)
    (f : f_arg) (n_ratio : R) (eB eA : SurfaceEdge) (row : nat) (f_row : R) :
  rational_patch nA mA A -> rational_patch nB mB B ->
  (row <= parallel_degree nA mA eA)%nat ->
  (row <= parallel_degree nB mB eB)%nat ->
  (1 <= perpendicular_degree nA mA eA)%nat ->
  (1 <= perpendicular_degree nB mB eB)%nat ->
  RationalBezierSurface.f_row_of f row = Ok f_row ->
  let w_i0_b := edge_read 0 nB mB eB row 0 (RationalBezierSurface.weights B) in
  let w_im_a := edge_read 0 nA mA eA row 0 (RationalBezierSurface.weights A) in
  let w_im1_a := edge_read 0 nA mA eA row 1 (RationalBezierSurface.weights A) in
  let P_i0_b := edge_read NonFinite nB mB eB row 0 (RationalBezierSurface.points B) in
  let P_im_a := edge_read NonFinite nA mA eA row 0 (RationalBezierSurface.points A) in
  let P_im1_a := edge_read NonFinite nA mA eA row 1 (RationalBezierSurface.points A) in
  let w_i1_b := w_i0_b + f_row * n_ratio * (w_im_a - w_im1_a) in
  let P_i1_b :=
    padd (pscale_np (npdiv w_i0_b w_i1_b) P_i0_b)
         (pscale_np (npdiv (f_row * n_ratio) w_i1_b)
            (psub (pscale w_im_a P_im_a) (pscale w_im1_a P_im1_a))) in
  RationalBezierSurface.enforce_g0g1_row A f n_ratio eB eA row B
  = if Rlt_dec w_i1_b 0 then (Raise NegativeWeightError, B)
    else (Ok tt,
          RationalBezierSurface.with_points
            (RationalBezierSurface.with_weights B
               (edge_write nB mB eB row 1 w_i1_b (RationalBezierSurface.weights B)))
            (edge_write nB mB eB row 1 P_i1_b (RationalBezierSurface.points B))).
Proof.
  intros HA HB HrA HrB HpA HpB Hf w_i0_b w_im_a w_im1_a P_i0_b P_im_a P_im1_a
         w_i1_b P_i1_b.
  unfold RationalBezierSurface.enforce_g0g1_row.
  unfold mbind, mlift, mread, mret. rewrite Hf.
  rewrite (proj1 (rational_get_weight_at nB mB B eB row HB HrB)).
  rewrite (proj1 (rational_get_weight_at nA mA A eA row HA HrA)).
  rewrite (proj2 (rational_get_weight_at nA mA A eA row HA HrA) HpA).
  fold w_i0_b w_im_a w_im1_a w_i1_b.
  destruct (Rlt_dec w_i1_b 0) as [Hneg|Hpos]; [reflexivity|].
  rewrite (proj2 (rational_set_weight_at nB mB B eB row _ HB HrB) HpB).
  pose proof (rational_patch_with_weights nB mB B eB row 1 w_i1_b HB) as HB1.
  rewrite (proj1 (rational_get_point_at nB mB _ eB row HB1 HrB)).
  rewrite (proj1 (rational_get_point_at nA mA A eA row HA HrA)).
  rewrite (proj2 (rational_get_point_at nA mA A eA row HA HrA) HpA).
  rewrite (proj2 (rational_set_point_at nB mB _ eB row _ HB1 HrB) HpB).
  reflexivity.
Qed.

(** What the getters return after a turn that succeeded. *)
Lemma rational_g1_row_after (nB mB : nat) (B : RationalBezierSurface.t)
    (eB : SurfaceEdge) (row : nat) (w : R) (p : Point3D) :
  rational_patch nB mB B ->
  (row <= parallel_degree nB mB eB)%nat ->
  (1 <= perpendicular_degree nB mB eB)%nat ->
  let B' := RationalBezierSurface.with_points
              (RationalBezierSurface.with_weights B
                 (edge_write nB mB eB row 1 w (RationalBezierSurface.weights B)))
              (edge_write nB mB eB row 1 p (RationalBezierSurface.points B)) in
  rational_patch nB mB B'
  /\ RationalBezierSurface.get_weight B' (Z.of_nat row) 1 eB = Ok w
  /\ RationalBezierSurface.get_point B' (Z.of_nat row) 1 eB = Ok p.
Proof.
  intros HB Hrow Hperp B'.
  assert (HB' : rational_patch nB mB B').
  { apply (rational_patch_with_points nB mB
             (RationalBezierSurface.with_weights B _)).
    now apply rational_patch_with_weights. }
  split; [exact HB'|].
  rewrite (proj2 (rational_get_weight_at nB mB B' eB row HB' Hrow) Hperp).
  rewrite (proj2 (rational_get_point_at nB mB B' eB row HB' Hrow) Hperp).
  destruct HB as (Hp & Hw & _).
  unfold B'. simpl.
  rewrite !edge_read_write by (auto; lia).
  rewrite !Nat.eqb_refl. split; reflexivity.
Qed.

(** [enforce_g0g1] with a scalar [f] on two patches that fit: the boundary
    row is copied, the ratio of the degrees across the edges is taken, and
    the body of the row loop runs on the rows in order, from the patch that
    [enforce_g0] left. *)
Lemma rational_enforce_g0g1_rows (nA mA nB mB : nat) (A B : RationalBezierSurface.t)
    (f : R) (eB eA : SurfaceEdge) :
  rational_patch nA mA A -> rational_patch nB mB B ->
  parallel_degree nB mB eB = parallel_degree nA mA eA ->
  (1 <= perpendicular_degree nB mB eB)%nat ->
  exists B0,
    RationalBezierSurface.enforce_g0 A eB eA B = (Ok tt, B0)
    /\ rational_patch nB mB B0
    /\ RationalBezierSurface.enforce_g0g1 A (f_float f) eB eA B
       = mfor (seq 0 (S (parallel_degree nB mB eB)))
              (RationalBezierSurface.enforce_g0g1_row A (f_float f)
                 (INR (perpendicular_degree nA mA eA)
                  / INR (perpendicular_degree nB mB eB)) eB eA)
              B0.
Proof.
  intros HA HB Hpar HqB.
  destruct (rational_enforce_g0_ok nA mA nB mB A B eB eA HA HB Hpar)
    as (B0 & Hg0 & HB0 & _).
  exists B0. split; [exact Hg0|]. split; [exact HB0|].
  unfold RationalBezierSurface.enforce_g0g1.
  unfold mbind at 1. unfold mret at 1.
  unfold mbind at 1. rewrite Hg0.
  unfold mbind at 1. unfold mread at 1.
  rewrite (rational_perpendicular_degree nB mB B0 eB HB0),
          (rational_perpendicular_degree nA mA A eA HA).
  rewrite <- !INR_IZR_INZ. unfold pydiv.
  destruct (Req_dec_T (INR (perpendicular_degree nB mB eB)) 0) as [Hz|Hnz].
  { apply (INR_eq _ 0%nat) in Hz. lia. }
  unfold mbind at 1. unfold mread at 1.
  rewrite (rational_parallel_degree nB mB B0 eB HB0), range_degree.
  reflexivity.
Qed.

(** C6.  In one row of the rational G1 enforcement the new weight
    [w_i1_b = w_i0_b + f * n_ratio * (w_im_a - w_im1_a)] is computed and
    checked first.  If it is negative, [NegativeWeightError] is raised and
    the patch is as it was before the row: neither the weight nor the point
    at continuity index 1 of the row is written.  Otherwise the weight is
    stored, and the point stored at continuity index 1 is
    [(w_i0_b / w_i1_b) * P_i0_b
     + f * n_ratio / w_i1_b * (w_im_a * P_im_a - w_im1_a * P_im1_a)]
    with the stored weight as [w_i1_b]. *)
Theorem g1_weight_checked_before_point (nA mA nB mB : nat)
    (A B : RationalBezierSurface.t) (f : f_arg) (n_ratio : R)
    (eB eA : SurfaceEdge) (row : nat)
    (f_row w_i0_b w_im_a w_im1_a : R) (P_i0_b P_im_a P_im1_a : Point3D) :
  rational_patch nA mA A -> rational_patch nB mB B ->
  (row <= parallel_degree nA mA eA)%nat ->
  (row <= parallel_degree nB mB eB)%nat ->
  (1 <= perpendicular_degree nA mA eA)%nat ->
  (1 <= perpendicular_degree nB mB eB)%nat ->
  RationalBezierSurface.f_row_of f row = Ok f_row ->
  RationalBezierSurface.get_weight B (Z.of_nat row) 0 eB = Ok w_i0_b ->
  RationalBezierSurface.get_weight A (Z.of_nat row) 0 eA = Ok w_im_a ->
  RationalBezierSurface.get_weight A (Z.of_nat row) 1 eA = Ok w_im1_a ->
  RationalBezierSurface.get_point B (Z.of_nat row) 0 eB = Ok P_i0_b ->
  RationalBezierSurface.get_point A (Z.of_nat row) 0 eA = Ok P_im_a ->
  RationalBezierSurface.get_point A (Z.of_nat row) 1 eA = Ok P_im1_a ->
  let w_i1_b := w_i0_b + f_row * n_ratio * (w_im_a - w_im1_a) in
  (w_i1_b < 0 ->
   RationalBezierSurface.enforce_g0g1_row A f n_ratio eB eA row B
   = (Raise NegativeWeightError, B))
  /\ (0 <= w_i1_b ->
      exists B' w,
        RationalBezierSurface.enforce_g0g1_row A f n_ratio eB eA row B = (Ok tt, B')
        /\ RationalBezierSurface.get_weight B' (Z.of_nat row) 1 eB = Ok w
        /\ w = w_i1_b
        /\ RationalBezierSurface.get_point B' (Z.of_nat row) 1 eB
           = Ok (padd (pscale_np (npdiv w_i0_b w) P_i0_b)
                      (pscale_np (npdiv (f_row * n_ratio) w)
                         (psub (pscale w_im_a P_im_a) (pscale w_im1_a P_im1_a))))).
Proof.
  intros HA HB HrA HrB HpA HpB Hf Hw0 Hwa Hwa1 Hp0 Hpa Hpa1 w_i1_b.
  pose proof (rational_g1_row nA mA nB mB A B f n_ratio eB eA row f_row
                HA HB HrA HrB HpA HpB Hf) as Hrow.
  cbv zeta in Hrow.
  rewrite (proj1 (rational_get_weight_at nB mB B eB row HB HrB)) in Hw0.
  rewrite (proj1 (rational_get_weight_at nA mA A eA row HA HrA)) in Hwa.
  rewrite (proj2 (rational_get_weight_at nA mA A eA row HA HrA) HpA) in Hwa1.
  rewrite (proj1 (rational_get_point_at nB mB B eB row HB HrB)) in Hp0.
  rewrite (proj1 (rational_get_point_at nA mA A eA row HA HrA)) in Hpa.
  rewrite (proj2 (rational_get_point_at nA mA A eA row HA HrA) HpA) in Hpa1.
  injection Hw0 as Hw0. injection Hwa as Hwa. injection Hwa1 as Hwa1.
  injection Hp0 as Hp0. injection Hpa as Hpa. injection Hpa1 as Hpa1.
  rewrite Hw0, Hwa, Hwa1, Hp0, Hpa, Hpa1 in Hrow. fold w_i1_b in Hrow.
  split.
  - intros Hneg. rewrite Hrow. destruct (Rlt_dec w_i1_b 0); [reflexivity|lra].
  - intros Hpos. rewrite Hrow. destruct (Rlt_dec w_i1_b 0); [lra|].
    eexists. exists w_i1_b. split; [reflexivity|].
    match goal with
    | |- context [edge_write nB mB eB row 1 ?p (RationalBezierSurface.points B)] =>
        destruct (rational_g1_row_after nB mB B eB row w_i1_b p HB HrB HpB)
          as (_ & Hgw & Hgp)
    end.
    split; [exact Hgw|]. split; [reflexivity|]. exact Hgp.
Qed.

Lemma sample_patch_A_patch : rational_patch 1 1 sample_patch_A.
Proof. repeat split; repeat constructor. Qed.

Lemma sample_patch_B_patch : rational_patch 1 1 sample_patch_B.
Proof. repeat split; repeat constructor. Qed.

Lemma g1_weight_checked_before_point_witness :
  RationalBezierSurface.enforce_g0g1_row sample_patch_A (f_float 2) 1 West East 0
    sample_patch_B
  = (Raise NegativeWeightError, sample_patch_B)
  /\ exists B',
       RationalBezierSurface.enforce_g0g1_row sample_patch_A (f_float (1 / 2)) 1
         West East 0 sample_patch_B = (Ok tt, B')
       /\ RationalBezierSurface.get_weight B' 0 1 West = Ok (1 / 2)
       /\ RationalBezierSurface.get_point B' 0 1 West = Ok (Pt 3 0 0).
Proof.
  split.
  - refine (proj1 (g1_weight_checked_before_point 1 1 1 1
                     sample_patch_A sample_patch_B (f_float 2) 1 West East 0
                     2 1 1 2 (Pt 1 0 0) (Pt 1 0 0) (Pt 0 0 0)
                     _ _ _ _ _ _ _ _ _ _ _ _ _) _);
      try reflexivity; try (simpl; lia); try lra;
      repeat split; repeat constructor.
  - destruct (proj2 (g1_weight_checked_before_point 1 1 1 1
                       sample_patch_A sample_patch_B (f_float (1 / 2)) 1 West East 0
                       (1 / 2) 1 1 2 (Pt 1 0 0) (Pt 1 0 0) (Pt 0 0 0)
                       sample_patch_A_patch sample_patch_B_patch
                       ltac:(simpl; lia) ltac:(simpl; lia)
                       ltac:(simpl; lia) ltac:(simpl; lia)
                       eq_refl eq_refl eq_refl eq_refl eq_refl eq_refl eq_refl)
                ltac:(lra))
      as (B' & w & Hrun & Hgw & Hw & Hgp).
    exists B'. split; [exact Hrun|].
    change (Z.of_nat 0) with 0%Z in Hgw, Hgp.
    rewrite Hgw, Hgp, Hw. split; [f_equal; lra|].
    f_equal. unfold npdiv.
    destruct (Req_dec_T (1 + 1 / 2 * 1 * (1 - 2)) 0) as [E|E]; [lra|].
    simpl. f_equal; field_simplify; lra.
Defined.

(** C10.  In one row of the rational G1 enforcement a computed weight that
    is exactly zero does not raise [NegativeWeightError]: the check is
    [w_i1_b < 0].  The zero is stored at continuity index 1, and the point
    stored next to it is the result of dividing by that zero, not a finite
    point.  The weight stored by a row that succeeds is only known to be
    at least zero. *)
Theorem g1_zero_weight_unguarded (nA mA nB mB : nat)
    (A B : RationalBezierSurface.t) (f : f_arg) (n_ratio : R)
    (eB eA : SurfaceEdge) (row : nat)
    (f_row w_i0_b w_im_a w_im1_a : R) :
  rational_patch nA mA A -> rational_patch nB mB B ->
  (row <= parallel_degree nA mA eA)%nat ->
  (row <= parallel_degree nB mB eB)%nat ->
  (1 <= perpendicular_degree nA mA eA)%nat ->
  (1 <= perpendicular_degree nB mB eB)%nat ->
  RationalBezierSurface.f_row_of f row = Ok f_row ->
  RationalBezierSurface.get_weight B (Z.of_nat row) 0 eB = Ok w_i0_b ->
  RationalBezierSurface.get_weight A (Z.of_nat row) 0 eA = Ok w_im_a ->
  RationalBezierSurface.get_weight A (Z.of_nat row) 1 eA = Ok w_im1_a ->
  let w_i1_b := w_i0_b + f_row * n_ratio * (w_im_a - w_im1_a) in
  (w_i1_b = 0 ->
   exists B',
     RationalBezierSurface.enforce_g0g1_row A f n_ratio eB eA row B = (Ok tt, B')
     /\ RationalBezierSurface.get_weight B' (Z.of_nat row) 1 eB = Ok 0
     /\ RationalBezierSurface.get_point B' (Z.of_nat row) 1 eB = Ok NonFinite)
  /\ (forall B',
        RationalBezierSurface.enforce_g0g1_row A f n_ratio eB eA row B = (Ok tt, B') ->
        exists w,
          RationalBezierSurface.get_weight B' (Z.of_nat row) 1 eB = Ok w /\ 0 <= w).
Proof.
  intros HA HB HrA HrB HpA HpB Hf Hw0 Hwa Hwa1 w_i1_b.
  pose proof (rational_g1_row nA mA nB mB A B f n_ratio eB eA row f_row
                HA HB HrA HrB HpA HpB Hf) as Hrow.
  cbv zeta in Hrow.
  rewrite (proj1 (rational_get_weight_at nB mB B eB row HB HrB)) in Hw0.
  rewrite (proj1 (rational_get_weight_at nA mA A eA row HA HrA)) in Hwa.
  rewrite (proj2 (rational_get_weight_at nA mA A eA row HA HrA) HpA) in Hwa1.
  injection Hw0 as Hw0. injection Hwa as Hwa. injection Hwa1 as Hwa1.
  rewrite Hw0, Hwa, Hwa1 in Hrow. fold w_i1_b in Hrow.
  split.
  - intros Hz. rewrite Hrow. destruct (Rlt_dec w_i1_b 0); [lra|].
    eexists. split; [reflexivity|].
    match goal with
    | |- context [edge_write nB mB eB row 1 ?p (RationalBezierSurface.points B)] =>
        destruct (rational_g1_row_after nB mB B eB row w_i1_b p HB HrB HpB)
          as (_ & Hgw & Hgp)
    end.
    rewrite Hgw, Hgp, Hz. split; [reflexivity|].
    unfold npdiv. destruct (Req_dec_T 0 0); [reflexivity|contradiction].
  - intros B' Hrun. rewrite Hrow in Hrun.
    destruct (Rlt_dec w_i1_b 0); [discriminate|].
    injection Hrun as <-.
    match goal with
    | |- context [edge_write nB mB eB row 1 ?p (RationalBezierSurface.points B)] =>
        destruct (rational_g1_row_after nB mB B eB row w_i1_b p HB HrB HpB)
          as (_ & Hgw & _)
    end.
    exists w_i1_b. split; [exact Hgw|lra].
Qed.

Lemma g1_zero_weight_unguarded_witness :
  exists B',
    RationalBezierSurface.enforce_g0g1_row sample_patch_A (f_float 1) 1 West East 0
      sample_patch_B = (Ok tt, B')
    /\ RationalBezierSurface.get_weight B' 0 1 West = Ok 0
    /\ RationalBezierSurface.get_point B' 0 1 West = Ok NonFinite.
Proof.
  refine (proj1 (g1_zero_weight_unguarded 1 1 1 1 sample_patch_A sample_patch_B
                   (f_float 1) 1 West East 0 1 1 1 2
                   _ _ _ _ _ _ _ _ _ _) _);
    try reflexivity; try (simpl; lia); try lra;
    repeat split; repeat constructor.
Defined.

Lemma enforce_g0_boundary_witness :
  exists B',
    RationalBezierSurface.enforce_g0 sample_patch_A West East sample_patch_B
    = (Ok tt, B')
    /\ forall row_index : Z,
         (0 <= row_index
          <= RationalBezierSurface.get_parallel_degree sample_patch_B West)%Z ->
         exists p w,
           RationalBezierSurface.get_point B' row_index 0 West = Ok p
           /\ RationalBezierSurface.get_point sample_patch_A row_index 0 East = Ok p
           /\ RationalBezierSurface.get_weight B' row_index 0 West = Ok w
           /\ RationalBezierSurface.get_weight sample_patch_A row_index 0 East = Ok w.
Proof.
  refine (proj1 (enforce_g0_boundary 1 1 1 1 sample_patch_A sample_patch_B
                   West East _ _) _);
    try reflexivity; repeat split; repeat constructor.
Defined.

(** ** Polynomial patches: derivatives across an edge *)

(** The basis functions of one degree lower, at the two ends. *)
Lemma bernstein_lower_at_0 (n i : nat) :
  (1 <= n)%nat ->
  bernstein_poly (Z.of_nat n - 1) (Z.of_nat i - 1) 0 = (if Nat.eqb i 1 then 1 else 0)
  /\ bernstein_poly (Z.of_nat n - 1) (Z.of_nat i) 0 = (if Nat.eqb i 0 then 1 else 0).
Proof.
  intros Hn.
  replace (Z.of_nat n - 1)%Z with (Z.of_nat (n - 1)) by lia.
  split; [|apply bernstein_at_0].
  destruct i as [|i].
  - apply bernstein_out_of_range. lia.
  - replace (Z.of_nat (S i) - 1)%Z with (Z.of_nat i) by lia.
    rewrite bernstein_at_0. destruct i; reflexivity.
Qed.

Lemma bernstein_lower_at_1 (n i : nat) :
  (1 <= n)%nat ->
  bernstein_poly (Z.of_nat n - 1) (Z.of_nat i - 1) 1 = (if Nat.eqb i n then 1 else 0)
  /\ bernstein_poly (Z.of_nat n - 1) (Z.of_nat i) 1
     = (if Nat.eqb i (n - 1) then 1 else 0).
Proof.
  intros Hn.
  replace (Z.of_nat n - 1)%Z with (Z.of_nat (n - 1)) by lia.
  split; [|apply bernstein_at_1].
  destruct i as [|i].
  - rewrite bernstein_out_of_range by lia.
    destruct (Nat.eqb_spec 0 n); [lia|reflexivity].
  - replace (Z.of_nat (S i) - 1)%Z with (Z.of_nat i) by lia.
    rewrite bernstein_at_1.
    destruct (Nat.eqb_spec i (n - 1)); destruct (Nat.eqb_spec (S i) n);
      try reflexivity; lia.
Qed.

(** The derivative of the basis at the two ends: only the two functions
    next to the end are not zero. *)
Lemma basis_derivative_at_0 (n i : nat) :
  (1 <= n)%nat ->
  IZR (Z.of_nat n)
  * (bernstein_poly (Z.of_nat n - 1) (Z.of_nat i - 1) 0
     - bernstein_poly (Z.of_nat n - 1) (Z.of_nat i) 0)
  = if Nat.eqb i 0 then - INR n else if Nat.eqb i 1 then INR n else 0.
Proof.
  intros Hn. destruct (bernstein_lower_at_0 n i Hn) as [-> ->].
  rewrite <- INR_IZR_INZ.
  destruct i as [|[|i]]; simpl Nat.eqb; cbv iota; ring.
Qed.

Lemma basis_derivative_at_1 (n i : nat) :
  (1 <= n)%nat ->
  IZR (Z.of_nat n)
  * (bernstein_poly (Z.of_nat n - 1) (Z.of_nat i - 1) 1
     - bernstein_poly (Z.of_nat n - 1) (Z.of_nat i) 1)
  = if Nat.eqb i n then INR n else if Nat.eqb i (n - 1) then - INR n else 0.
Proof.
  intros Hn. destruct (bernstein_lower_at_1 n i Hn) as [-> ->].
  rewrite <- INR_IZR_INZ.
  destruct (Nat.eqb_spec i n); destruct (Nat.eqb_spec i (n - 1));
    try ring; lia.
Qed.

Lemma bezier_dSdu_gsum (n m : nat) (srf : BezierSurface.t) (u v : R) :
  bezier_patch n m srf -> all_finite (BezierSurface.points srf) ->
  let c := fun i j =>
    IZR (Z.of_nat n)
    * (bernstein_poly (Z.of_nat n - 1) (Z.of_nat i - 1) u
       - bernstein_poly (Z.of_nat n - 1) (Z.of_nat i) u)
    * bernstein_poly (Z.of_nat m) (Z.of_nat j) v in
  BezierSurface.dSdu srf u v
  = Ok (Pt (gsum c (BezierSurface.points srf) 0 (S n) (S m))
           (gsum c (BezierSurface.points srf) 1 (S n) (S m))
           (gsum c (BezierSurface.points srf) 2 (S n) (S m))).
Proof.
  intros (Hs & Hu & Hv) Hf c.
  unfold BezierSurface.dSdu, BezierSurface.get_control_point_array.
  rewrite Hu, Hv, (as_ndarray_shaped _ _ _ Hs). cbn [bind].
  rewrite (shape_2_shaped _ _ _ Hs). cbn [bind].
  rewrite !range_degree. f_equal.
  apply (grid_fold_finite c).
  intros i j Hi Hj. now apply (at2_finite (S n) (S m)).
Qed.

Lemma bezier_dSdv_gsum (n m : nat) (srf : BezierSurface.t) (u v : R) :
  bezier_patch n m srf -> all_finite (BezierSurface.points srf) ->
  let c := fun i j =>
    bernstein_poly (Z.of_nat n) (Z.of_nat i) u
    * (IZR (Z.of_nat m)
       * (bernstein_poly (Z.of_nat m - 1) (Z.of_nat j - 1) v
          - bernstein_poly (Z.of_nat m - 1) (Z.of_nat j) v)) in
  BezierSurface.dSdv srf u v
  = Ok (Pt (gsum c (BezierSurface.points srf) 0 (S n) (S m))
           (gsum c (BezierSurface.points srf) 1 (S n) (S m))
           (gsum c (BezierSurface.points srf) 2 (S n) (S m))).
Proof.
  intros (Hs & Hu & Hv) Hf c.
  unfold BezierSurface.dSdv, BezierSurface.get_control_point_array.
  rewrite Hu, Hv, (as_ndarray_shaped _ _ _ Hs). cbn [bind].
  rewrite (shape_2_shaped _ _ _ Hs). cbn [bind].
  rewrite !range_degree. f_equal.
  apply (grid_fold_finite c).
  intros i j Hi Hj. now apply (at2_finite (S n) (S m)).
Qed.

(** A double sum whose coefficient lives on two rows. *)
Lemma rsum2_rows_pair (f : nat -> nat -> R) (nu nv k1 k2 : nat) :
  (k1 < nu)%nat -> (k2 < nu)%nat -> k1 <> k2 ->
  (forall i j, (i < nu)%nat -> (j < nv)%nat -> i <> k1 -> i <> k2 -> f i j = 0) ->
  rsum (fun i => rsum (fun j => f i j) nv) nu
  = rsum (fun j => f k1 j + f k2 j) nv.
Proof.
  intros H1 H2 Hne H.
  rewrite (rsum_pair k1 k2); auto.
  - now rewrite rsum_plus.
  - intros i Hi Hi1 Hi2. apply rsum_zero. intros j Hj. now apply H.
Qed.

(** A double sum whose coefficient lives on two columns. *)
Lemma rsum2_cols_pair (f : nat -> nat -> R) (nu nv k1 k2 : nat) :
  (k1 < nv)%nat -> (k2 < nv)%nat -> k1 <> k2 ->
  (forall i j, (i < nu)%nat -> (j < nv)%nat -> j <> k1 -> j <> k2 -> f i j = 0) ->
  rsum (fun i => rsum (fun j => f i j) nv) nu
  = rsum (fun i => f i k1 + f i k2) nu.
Proof.
  intros H1 H2 Hne H.
  apply rsum_ext. intros i Hi.
  apply (rsum_pair k1 k2); auto.
Qed.

(** The first derivative across an edge of a patch of finite points: the
    degree across the edge times the sum of the differences of the two
    boundary rows, with the sign of the edge. *)
Lemma bezier_cross_derivative (n m : nat) (srf : BezierSurface.t)
    (edge : SurfaceEdge) (t : R) :
  bezier_patch n m srf -> all_finite (BezierSurface.points srf) ->
  (1 <= perpendicular_degree n m edge)%nat ->
  let D := fun k =>
    edge_sign edge * INR (perpendicular_degree n m edge)
    * edge_difference_sum n m edge t (BezierSurface.points srf) k in
  BezierSurface.first_deriv_on_edge srf edge true t = Ok (Pt (D 0%nat) (D 1%nat) (D 2%nat)).
Proof.
  intros Hp Hf Hq D.
  assert (Hrows : forall (a b : nat -> R) (k k1 k2 : nat) (s : R),
    (k1 < S n)%nat -> (k2 < S n)%nat -> k1 <> k2 ->
    (forall i, i <> k1 -> i <> k2 -> a i = 0) ->
    a k1 = s * INR n -> a k2 = - (s * INR n) ->
    gsum (fun i j => a i * b j) (BezierSurface.points srf) k (S n) (S m)
    = s * INR n
      * rsum (fun j => b j * (coord k (at2 NonFinite (BezierSurface.points srf) k1 j)
                              - coord k (at2 NonFinite (BezierSurface.points srf) k2 j)))
             (S m)).
  { intros a b k k1 k2 s H1 H2 Hne Hz Ha1 Ha2. unfold gsum.
    rewrite (rsum2_rows_pair _ (S n) (S m) k1 k2); auto.
    - rewrite <- rsum_scale. apply rsum_ext. intros j _.
      rewrite Ha1, Ha2. ring.
    - intros i j _ _ Hi1 Hi2. rewrite (Hz i); auto. ring. }
  assert (Hcols : forall (a b : nat -> R) (k k1 k2 : nat) (s : R),
    (k1 < S m)%nat -> (k2 < S m)%nat -> k1 <> k2 ->
    (forall j, j <> k1 -> j <> k2 -> b j = 0) ->
    b k1 = s * INR m -> b k2 = - (s * INR m) ->
    gsum (fun i j => a i * b j) (BezierSurface.points srf) k (S n) (S m)
    = s * INR m
      * rsum (fun i => a i * (coord k (at2 NonFinite (BezierSurface.points srf) i k1)
                              - coord k (at2 NonFinite (BezierSurface.points srf) i k2)))
             (S n)).
  { intros a b k k1 k2 s H1 H2 Hne Hz Hb1 Hb2. unfold gsum.
    rewrite (rsum2_cols_pair _ (S n) (S m) k1 k2); auto.
    - rewrite <- rsum_scale. apply rsum_ext. intros i _.
      rewrite Hb1, Hb2. ring.
    - intros i j _ _ Hj1 Hj2. rewrite (Hz j); auto. ring. }
  unfold D, edge_difference_sum, edge_read, edge_sign.
  destruct edge; simpl in Hq; simpl far_edge; cbv iota;
    simpl BezierSurface.first_deriv_on_edge;
    simpl parallel_degree; simpl perpendicular_degree; simpl edge_cell;
    simpl fst; simpl snd; rewrite ?Nat.sub_0_r.
  - (* North *)
    rewrite (bezier_dSdv_gsum n m) by assumption. cbv zeta. f_equal.
    f_equal;
      apply (Hcols _ (fun j => IZR (Z.of_nat m)
                        * (bernstein_poly (Z.of_nat m - 1) (Z.of_nat j - 1) 1
                           - bernstein_poly (Z.of_nat m - 1) (Z.of_nat j) 1))
               _ m (m - 1)%nat 1); try lia;
      try (intros j Hj1 Hj2); rewrite basis_derivative_at_1 by lia;
      repeat match goal with
             | |- context [Nat.eqb ?x ?y] => destruct (Nat.eqb_spec x y)
             end; try lia; try ring.
  - (* South *)
    rewrite (bezier_dSdv_gsum n m) by assumption. cbv zeta. f_equal.
    f_equal;
      apply (Hcols _ (fun j => IZR (Z.of_nat m)
                        * (bernstein_poly (Z.of_nat m - 1) (Z.of_nat j - 1) 0
                           - bernstein_poly (Z.of_nat m - 1) (Z.of_nat j) 0))
               _ 0%nat 1%nat (-1)); try lia;
      try (intros j Hj1 Hj2); rewrite basis_derivative_at_0 by lia;
      repeat match goal with
             | |- context [Nat.eqb ?x ?y] => destruct (Nat.eqb_spec x y)
             end; try lia; try ring.
  - (* East *)
    rewrite (bezier_dSdu_gsum n m) by assumption. cbv zeta. f_equal.
    f_equal;
      apply (Hrows (fun i => IZR (Z.of_nat n)
                      * (bernstein_poly (Z.of_nat n - 1) (Z.of_nat i - 1) 1
                         - bernstein_poly (Z.of_nat n - 1) (Z.of_nat i) 1))
               _ _ n (n - 1)%nat 1); try lia;
      try (intros i Hi1 Hi2); rewrite basis_derivative_at_1 by lia;
      repeat match goal with
             | |- context [Nat.eqb ?x ?y] => destruct (Nat.eqb_spec x y)
             end; try lia; try ring.
  - (* West *)
    rewrite (bezier_dSdu_gsum n m) by assumption. cbv zeta. f_equal.
    f_equal;
      apply (Hrows (fun i => IZR (Z.of_nat n)
                      * (bernstein_poly (Z.of_nat n - 1) (Z.of_nat i - 1) 0
                         - bernstein_poly (Z.of_nat n - 1) (Z.of_nat i) 0))
               _ _ 0%nat 1%nat (-1)); try lia;
      try (intros i Hi1 Hi2); rewrite basis_derivative_at_0 by lia;
      repeat match goal with
             | |- context [Nat.eqb ?x ?y] => destruct (Nat.eqb_spec x y)
             end; try lia; try ring.
Qed.

(** ** Polynomial patches: reading and writing along an edge *)

Lemma bezier_parallel_degree (n m : nat) (srf : BezierSurface.t) (edge : SurfaceEdge) :
  bezier_patch n m srf ->
  BezierSurface.get_parallel_degree srf edge = Z.of_nat (parallel_degree n m edge).
Proof. intros (_ & Hu & Hv). destruct edge; simpl; assumption. Qed.

Lemma bezier_perpendicular_degree (n m : nat) (srf : BezierSurface.t)
    (edge : SurfaceEdge) :
  bezier_patch n m srf ->
  BezierSurface.get_perpendicular_degree srf edge
  = Z.of_nat (perpendicular_degree n m edge).
Proof. intros (_ & Hu & Hv). destruct edge; simpl; assumption. Qed.

Lemma bezier_get_point_at (n m : nat) (srf : BezierSurface.t)
    (edge : SurfaceEdge) (row : nat) :
  bezier_patch n m srf ->
  (row <= parallel_degree n m edge)%nat ->
  BezierSurface.get_point srf (Z.of_nat row) 0 edge
  = Ok (edge_read NonFinite n m edge row 0 (BezierSurface.points srf))
  /\ ((1 <= perpendicular_degree n m edge)%nat ->
      BezierSurface.get_point srf (Z.of_nat row) 1 edge
      = Ok (edge_read NonFinite n m edge row 1 (BezierSurface.points srf))).
Proof.
  intros (Hs & _) Hrow. unfold BezierSurface.get_point. split.
  - apply (edge_get_cell NonFinite n m _ edge row 0); auto. lia.
  - intros Hc. now apply (edge_get_cell NonFinite n m _ edge row 1).
Qed.

Lemma bezier_set_point_at (n m : nat) (srf : BezierSurface.t)
    (edge : SurfaceEdge) (row : nat) (p : Point3D) :
  bezier_patch n m srf ->
  (row <= parallel_degree n m edge)%nat ->
  BezierSurface.set_point p (Z.of_nat row) 0 edge srf
  = (Ok tt,
     BezierSurface.with_points srf
       (edge_write n m edge row 0 p (BezierSurface.points srf)))
  /\ ((1 <= perpendicular_degree n m edge)%nat ->
      BezierSurface.set_point p (Z.of_nat row) 1 edge srf
      = (Ok tt,
         BezierSurface.with_points srf
           (edge_write n m edge row 1 p (BezierSurface.points srf)))).
Proof.
  intros (Hs & _) Hrow. unfold BezierSurface.set_point, mwrite. split.
  - rewrite (edge_set_cell n m _ edge row 0) by (auto; lia). reflexivity.
  - intros Hc. rewrite (edge_set_cell n m _ edge row 1) by auto. reflexivity.
Qed.

Lemma bezier_patch_with_points (n m : nat) (srf : BezierSurface.t)
    (edge : SurfaceEdge) (row c : nat) (p : Point3D) :
  bezier_patch n m srf ->
  bezier_patch n m
    (BezierSurface.with_points srf
       (edge_write n m edge row c p (BezierSurface.points srf))).
Proof.
  intros (Hs & Hu & Hv). repeat split; simpl; auto; apply edge_write_shaped; auto.
Qed.

Lemma all_finite_edge_write (n m : nat) (edge : SurfaceEdge) (row c : nat)
    (p : Point3D) (g : list (list Point3D)) :
  all_finite g -> is_finite p -> all_finite (edge_write n m edge row c p g).
Proof.
  intros Hg Hp. unfold edge_write, all_finite in *.
  apply Forall_replace_nth; auto. intros Hi.
  apply Forall_replace_nth; auto.
  rewrite Forall_forall in Hg. apply Hg. now apply nth_In.
Qed.

Lemma edge_read_finite (n m : nat) (edge : SurfaceEdge) (row c : nat)
    (g : list (list Point3D)) :
  shaped (S n) (S m) g -> all_finite g ->
  (row <= parallel_degree n m edge)%nat ->
  (c <= perpendicular_degree n m edge)%nat ->
  is_finite (edge_read NonFinite n m edge row c g).
Proof.
  intros Hs Hf Hrow Hc. unfold edge_read.
  destruct (edge_cell_in_range n m edge row c Hrow Hc).
  now apply (at2_finite (S n) (S m)).
Qed.

Lemma bezier_init_patch (n m : nat) (pts : list (list Point3D)) (srf : BezierSurface.t) :
  shaped (S n) (S m) pts -> BezierSurface.__init__ pts = Ok srf ->
  bezier_patch n m srf /\ BezierSurface.points srf = pts.
Proof.
  intros Hs Hinit. rewrite (bezier_init n m) in Hinit by assumption.
  injection Hinit as <-. repeat split; simpl; auto; apply Hs.
Qed.

(** ** Positional and tangential continuity of polynomial patches *)

Lemma bezier_enforce_g0_ok (nA mA nB mB : nat) (A B : BezierSurface.t)
    (eB eA : SurfaceEdge) :
  bezier_patch nA mA A -> bezier_patch nB mB B ->
  all_finite (BezierSurface.points A) -> all_finite (BezierSurface.points B) ->
  parallel_degree nB mB eB = parallel_degree nA mA eA ->
  exists B',
    BezierSurface.enforce_g0 A eB eA B = (Ok tt, B')
    /\ bezier_patch nB mB B'
    /\ all_finite (BezierSurface.points B')
    /\ forall row, (row <= parallel_degree nB mB eB)%nat ->
         edge_read NonFinite nB mB eB row 0 (BezierSurface.points B')
         = edge_read NonFinite nA mA eA row 0 (BezierSurface.points A).
Proof.
  intros HA HB HfA HfB Hpar.
  unfold BezierSurface.enforce_g0.
  unfold mbind at 1. unfold mread at 1.
  rewrite (bezier_parallel_degree nB mB B eB HB),
          (bezier_parallel_degree nA mA A eA HA), Hpar, Z.eqb_refl.
  cbn [assert]. unfold mbind at 1. unfold mread at 1.
  rewrite (bezier_parallel_degree nB mB B eB HB), range_degree.
  destruct (mfor_invariant
    (fun k s =>
       bezier_patch nB mB s /\ all_finite (BezierSurface.points s)
       /\ forall row, (row < k)%nat ->
            edge_read NonFinite nB mB eB row 0 (BezierSurface.points s)
            = edge_read NonFinite nA mA eA row 0 (BezierSurface.points A))
    (fun row_index =>
       p <~ mlift (BezierSurface.get_point A (Z.of_nat row_index) 0 eA) ;;
       BezierSurface.set_point p (Z.of_nat row_index) 0 eB)
    (S (parallel_degree nB mB eB)) B) as [B' [Hrun (HB' & HfB' & Hrows)]].
  - split; [exact HB|]. split; [exact HfB|]. intros row Hrow. lia.
  - intros k s1 Hk (Hs1 & Hf1 & Hprev).
    assert (HkA : (k <= parallel_degree nA mA eA)%nat) by lia.
    assert (HkB : (k <= parallel_degree nB mB eB)%nat) by lia.
    eexists. split.
    + unfold mbind, mlift.
      rewrite (proj1 (bezier_get_point_at nA mA A eA k HA HkA)).
      rewrite (proj1 (bezier_set_point_at nB mB s1 eB k _ Hs1 HkB)).
      reflexivity.
    + split; [now apply bezier_patch_with_points|].
      split.
      * simpl. apply all_finite_edge_write; auto.
        destruct HA as (HsA & _). apply edge_read_finite; auto. lia.
      * intros row Hrow. simpl.
        destruct Hs1 as (Hp1 & _).
        rewrite edge_read_write by (auto; lia).
        destruct (Nat.eqb_spec k row) as [<-|Hne]; simpl; [reflexivity|].
        apply Hprev. lia.
  - exists B'. split; [exact Hrun|]. split; [exact HB'|]. split; [exact HfB'|].
    intros row Hrow. apply Hrows. lia.
Qed.

Lemma bezier_enforce_g0g1_ok (nA mA nB mB : nat) (A B : BezierSurface.t) (f : R)
    (eB eA : SurfaceEdge) :
  bezier_patch nA mA A -> bezier_patch nB mB B ->
  all_finite (BezierSurface.points A) -> all_finite (BezierSurface.points B) ->
  parallel_degree nB mB eB = parallel_degree nA mA eA ->
  (1 <= perpendicular_degree nA mA eA)%nat ->
  (1 <= perpendicular_degree nB mB eB)%nat ->
  let n_ratio := INR (perpendicular_degree nA mA eA)
                 / INR (perpendicular_degree nB mB eB) in
  exists B',
    BezierSurface.enforce_g0g1 A f eB eA B = (Ok tt, B')
    /\ bezier_patch nB mB B'
    /\ all_finite (BezierSurface.points B')
    /\ forall row, (row <= parallel_degree nB mB eB)%nat ->
         let P_im_a := edge_read NonFinite nA mA eA row 0 (BezierSurface.points A) in
         let P_im1_a := edge_read NonFinite nA mA eA row 1 (BezierSurface.points A) in
         edge_read NonFinite nB mB eB row 0 (BezierSurface.points B') = P_im_a
         /\ edge_read NonFinite nB mB eB row 1 (BezierSurface.points B')
            = padd P_im_a (pscale (f * n_ratio) (psub P_im_a P_im1_a)).
Proof.
  intros HA HB HfA HfB Hpar HqA HqB n_ratio.
  destruct (bezier_enforce_g0_ok nA mA nB mB A B eB eA HA HB HfA HfB Hpar)
    as (B0 & Hg0 & HB0 & HfB0 & Hrow0).
  unfold BezierSurface.enforce_g0g1.
  unfold mbind at 1. rewrite Hg0.
  unfold mbind at 1. unfold mread at 1.
  rewrite (bezier_perpendicular_degree nB mB B0 eB HB0),
          (bezier_perpendicular_degree nA mA A eA HA).
  rewrite <- !INR_IZR_INZ. unfold pydiv.
  destruct (Req_dec_T (INR (perpendicular_degree nB mB eB)) 0) as [Hz|Hnz].
  { apply (INR_eq _ 0%nat) in Hz. lia. }
  fold n_ratio.
  unfold mbind at 1. unfold mread at 1.
  rewrite (bezier_parallel_degree nB mB B0 eB HB0), range_degree.
  destruct (mfor_invariant
    (fun k s =>
       bezier_patch nB mB s /\ all_finite (BezierSurface.points s)
       /\ (forall row, (row <= parallel_degree nB mB eB)%nat ->
             edge_read NonFinite nB mB eB row 0 (BezierSurface.points s)
             = edge_read NonFinite nA mA eA row 0 (BezierSurface.points A))
       /\ forall row, (row < k)%nat ->
            edge_read NonFinite nB mB eB row 1 (BezierSurface.points s)
            = padd (edge_read NonFinite nA mA eA row 0 (BezierSurface.points A))
                   (pscale (f * n_ratio)
                      (psub (edge_read NonFinite nA mA eA row 0 (BezierSurface.points A))
                            (edge_read NonFinite nA mA eA row 1 (BezierSurface.points A)))))
    (fun row_index =>
       P_i0_b <~ mread (fun self => BezierSurface.get_point self (Z.of_nat row_index) 0 eB) ;;
       P_im_a <~ mlift (BezierSurface.get_point A (Z.of_nat row_index) 0 eA) ;;
       P_im1_a <~ mlift (BezierSurface.get_point A (Z.of_nat row_index) 1 eA) ;;
       let P_i1_b := padd P_i0_b (pscale (f * n_ratio) (psub P_im_a P_im1_a)) in
       BezierSurface.set_point P_i1_b (Z.of_nat row_index) 1 eB)
    (S (parallel_degree nB mB eB)) B0) as [B' [Hrun (HB' & HfB' & Hr0 & Hr1)]].
  - split; [exact HB0|]. split; [exact HfB0|]. split; [exact Hrow0|].
    intros row Hrow. lia.
  - intros k s1 Hk (Hs1 & Hf1 & Hk0 & Hk1).
    assert (HkA : (k <= parallel_degree nA mA eA)%nat) by lia.
    assert (HkB : (k <= parallel_degree nB mB eB)%nat) by lia.
    eexists. split.
    + unfold mbind, mlift, mread.
      rewrite (proj1 (bezier_get_point_at nB mB s1 eB k Hs1 HkB)).
      rewrite (proj1 (bezier_get_point_at nA mA A eA k HA HkA)).
      rewrite (proj2 (bezier_get_point_at nA mA A eA k HA HkA) HqA).
      rewrite (proj2 (bezier_set_point_at nB mB s1 eB k _ Hs1 HkB) HqB).
      reflexivity.
    + split; [now apply bezier_patch_with_points|].
      pose proof HA as (HsA & _). pose proof Hs1 as (Hp1 & _).
      assert (Fa0 : is_finite (edge_read NonFinite nA mA eA k 0 (BezierSurface.points A)))
        by (apply edge_read_finite; auto; lia).
      assert (Fa1 : is_finite (edge_read NonFinite nA mA eA k 1 (BezierSurface.points A)))
        by (apply edge_read_finite; auto; lia).
      rewrite (Hk0 k HkB).
      split.
      * simpl. apply all_finite_edge_write; auto.
        destruct (edge_read NonFinite nA mA eA k 0 (BezierSurface.points A));
          destruct (edge_read NonFinite nA mA eA k 1 (BezierSurface.points A));
          simpl in *; tauto.
      * split.
        -- intros row Hrow. simpl.
           rewrite edge_read_write by (auto; lia).
           replace (Nat.eqb 1 0) with false by reflexivity.
           rewrite andb_false_r. now apply Hk0.
        -- intros row Hrow. simpl.
           rewrite edge_read_write by (auto; lia).
           destruct (Nat.eqb_spec k row) as [<-|Hne]; simpl; [reflexivity|].
           apply Hk1. lia.
  - exists B'. split; [exact Hrun|]. split; [exact HB'|]. split; [exact HfB'|].
    intros row Hrow. cbv zeta. split; [now apply Hr0|]. apply Hr1. lia.
Qed.

(** With the degree zero across the edge of the receiver, the ratio of the
    degrees is a division by zero: [enforce_g0g1] raises after the boundary
    row has been copied. *)
Lemma bezier_enforce_g0g1_degree_zero (nA mA nB mB : nat) (A B : BezierSurface.t)
    (f : R) (eB eA : SurfaceEdge) :
  bezier_patch nA mA A -> bezier_patch nB mB B ->
  all_finite (BezierSurface.points A) -> all_finite (BezierSurface.points B) ->
  parallel_degree nB mB eB = parallel_degree nA mA eA ->
  perpendicular_degree nB mB eB = 0%nat ->
  exists B0,
    BezierSurface.enforce_g0 A eB eA B = (Ok tt, B0)
    /\ BezierSurface.enforce_g0g1 A f eB eA B = (Raise ZeroDivisionError, B0).
Proof.
  intros HA HB HfA HfB Hpar Hq.
  destruct (bezier_enforce_g0_ok nA mA nB mB A B eB eA HA HB HfA HfB Hpar)
    as (B0 & Hg0 & HB0 & _).
  exists B0. split; [exact Hg0|].
  unfold BezierSurface.enforce_g0g1.
  unfold mbind at 1. rewrite Hg0.
  unfold mbind at 1. unfold mread at 1.
  rewrite (bezier_perpendicular_degree nB mB B0 eB HB0), Hq.
  unfold pydiv. simpl Z.of_nat.
  destruct (Req_dec_T 0 0); [reflexivity|contradiction].
Qed.

Lemma coord_g1_difference (k : nat) (c : R) (X Y : Point3D) :
  is_finite X -> is_finite Y ->
  coord k X - coord k (padd X (pscale c (psub X Y)))
  = - c * (coord k X - coord k Y).
Proof.
  destruct X, Y; simpl; try tauto. intros _ _.
  destruct k as [|[|k]]; ring.
Qed.

Lemma edge_sign_square (edge : SurfaceEdge) : edge_sign edge * edge_sign edge = 1.
Proof. destruct edge; unfold edge_sign; simpl; ring. Qed.

Lemma comprehension_ext {A B : Type} (f g : A -> result B) (xs : list A) :
  (forall x, f x = g x) -> comprehension f xs = comprehension g xs.
Proof.
  intros H. induction xs as [|x xs IH]; simpl; auto. now rewrite H, IH.
Qed.


Lemma pscale_one (p : Point3D) : pscale 1 p = p.
Proof. destruct p; simpl; auto. f_equal; ring. Qed.






(** ** Construction *)

(** The asserts of the NURBS constructor pass on grids of one shape and
    knot vectors of the matching lengths. *)
Lemma nurbs_init_checks (n m : nat) (cps : list (list Point3D))
    (ku kv : list R) (ws : list (list R)) (du dv : nat) :
  shaped (S n) (S m) cps -> shaped (S n) (S m) ws ->
  length ku = (S n + du + 1)%nat -> length kv = (S m + dv + 1)%nat ->
  NURBSSurface.__init__ cps ku kv ws du dv
  = (check_weights ws ;;;
     let '(possible_spans_u, possible_span_indices_u) :=
       NURBSSurface._get_possible_spans ku in
     let '(possible_spans_v, possible_span_indices_v) :=
       NURBSSurface._get_possible_spans kv in
     Ok (NURBSSurface.mk cps ku kv ws du dv (Z.of_nat (S n)) (Z.of_nat (S m))
           possible_spans_u possible_span_indices_u
           possible_spans_v possible_span_indices_v)).
Proof.
  intros Hc Hw Hku Hkv. unfold NURBSSurface.__init__.
  rewrite (shape_0_shaped _ _ _ Hw), (shape_1_shaped _ _ _ Hw).
  rewrite (shape_0_shaped _ _ _ Hc), (shape_1_shaped _ _ _ Hc).
  unfold len. rewrite Hku, Hkv.
  replace (Z.of_nat (S n + du + 1) =? Z.of_nat (S n) + Z.of_nat du + 1)%Z
    with true by (symmetry; apply Z.eqb_eq; lia).
  replace (Z.of_nat (S m + dv + 1) =? Z.of_nat (S m) + Z.of_nat dv + 1)%Z
    with true by (symmetry; apply Z.eqb_eq; lia).
  rewrite !Z.eqb_refl. reflexivity.
Qed.

(** C5 (as amended).  For a control grid and a weight grid of the same
    shape (and, for a NURBS surface, knot vectors of the lengths that the
    degrees ask for): if a weight is negative, constructing a
    RationalBezierSurface or a NURBSSurface raises [NegativeWeightError];
    if no weight is negative, the construction succeeds. *)
Theorem negative_weight_rejected (n m : nat) (pts : list (list Point3D))
    (ws : list (list R)) (ku kv : list R) (du dv : nat) :
  shaped (S n) (S m) pts -> shaped (S n) (S m) ws ->
  length ku = (S n + du + 1)%nat -> length kv = (S m + dv + 1)%nat ->
  (has_negative_weight ws ->
   RationalBezierSurface.__init__ pts ws = Raise NegativeWeightError
   /\ NURBSSurface.__init__ pts ku kv ws du dv = Raise NegativeWeightError)
  /\ (nonneg_weights ws ->
      (exists srf, RationalBezierSurface.__init__ pts ws = Ok srf)
      /\ (exists srf, NURBSSurface.__init__ pts ku kv ws du dv = Ok srf)).
Proof.
  intros Hp Hw Hku Hkv.
  rewrite (rational_init_checks n m pts ws Hp Hw).
  rewrite (nurbs_init_checks n m pts ku kv ws du dv Hp Hw Hku Hkv).
  split.
  - intros Hneg. rewrite (check_weights_negative ws Hneg). split; reflexivity.
  - intros Hnn. rewrite (check_weights_nonneg ws Hnn). cbn [bind]. split.
    + eexists. reflexivity.
    + destruct (NURBSSurface._get_possible_spans ku).
      destruct (NURBSSurface._get_possible_spans kv).
      eexists. reflexivity.
Qed.

Lemma negative_weight_rejected_witness :
  RationalBezierSurface.__init__ sample_points sample_negative_weights
  = Raise NegativeWeightError
  /\ NURBSSurface.__init__ sample_points [0; 0; 1; 1] [0; 0; 1; 1]
       sample_negative_weights 1 1 = Raise NegativeWeightError.
Proof.
  refine (proj1 (negative_weight_rejected 1 1 sample_points sample_negative_weights
                   [0; 0; 1; 1] [0; 0; 1; 1] 1 1 _ _ _ _) _).
  - split; [reflexivity|repeat constructor].
  - split; [reflexivity|repeat constructor].
  - reflexivity.
  - reflexivity.
  - right. left. left. lra.
Defined.

(** C5 as stated fails: the shapes are asserted before the weights are
    checked, so a weight grid with a negative entry and a shape other than
    that of the control grid raises [AssertionError]. *)
Lemma negative_weight_shape_mismatch :
  has_negative_weight two_weights_one_negative
  /\ RationalBezierSurface.__init__ single_point two_weights_one_negative
     = Raise AssertionError
  /\ NURBSSurface.__init__ single_point [0; 0] [0; 0] two_weights_one_negative 0 0
     = Raise AssertionError.
Proof.
  split; [left; left; lra|]. split; reflexivity.
Qed.

(** ** Knot spans *)

Lemma sorted_knots_monotone (kv : list R) :
  Sorted Rle kv ->
  forall i j, (i <= j)%nat -> (j < length kv)%nat -> knot kv i <= knot kv j.
Proof.
  intros Hs. apply Sorted_StronglySorted in Hs; [|exact Rle_trans].
  unfold knot. induction Hs as [|x l Hl IH Hx]; intros i j Hij Hj.
  - simpl in Hj. lia.
  - destruct j as [|j].
    + replace i with 0%nat by lia. simpl. lra.
    + destruct i as [|i].
      * simpl. rewrite Forall_forall in Hx. apply Hx, nth_In. simpl in Hj. lia.
      * simpl. apply IH; simpl in Hj; lia.
Qed.

Lemma sorted_tail (x : R) (l : list R) : Sorted Rle (x :: l) -> Sorted Rle l.
Proof. intros H. now inversion H. Qed.

(** The spans and the indices are listed in pairs. *)
Lemma possible_spans_lengths (l : list R) (k0 : nat) :
  length (fst (NURBSSurface.possible_spans_from k0 l))
  = length (snd (NURBSSurface.possible_spans_from k0 l)).
Proof.
  revert k0. induction l as [|x rest IH]; intros k0; [reflexivity|].
  simpl. destruct rest as [|y tl]; [reflexivity|].
  specialize (IH (S k0)).
  destruct (NURBSSurface.possible_spans_from (S k0) (y :: tl)) as [sp ix].
  destruct (Req_dec_T x y); simpl in *; congruence.
Qed.

(** The scan returns the index of a span that holds [t]. *)
Lemma scan_sound (l : list R) (k0 : nat) (t : R) (k : nat) :
  NURBSSurface.find_span_scan t
    (combine (fst (NURBSSurface.possible_spans_from k0 l))
             (snd (NURBSSurface.possible_spans_from k0 l))) = Some k ->
  exists j, k = (k0 + j)%nat /\ (S j < length l)%nat
            /\ nth j l 0 <= t < nth (S j) l 0.
Proof.
  revert k0. induction l as [|x rest IH]; intros k0; [discriminate|].
  simpl. destruct rest as [|y tl]; [discriminate|].
  specialize (IH (S k0)).
  destruct (NURBSSurface.possible_spans_from (S k0) (y :: tl)) as [sp ix].
  assert (Hrec : NURBSSurface.find_span_scan t (combine sp ix) = Some k ->
                 exists j, k = (k0 + j)%nat /\ (S j < length (x :: y :: tl))%nat
                           /\ nth j (x :: y :: tl) 0 <= t < nth (S j) (x :: y :: tl) 0).
  { intros H. destruct (IH H) as (j & -> & Hj & Ht).
    exists (S j). split; [lia|]. split; [simpl in *; lia|exact Ht]. }
  destruct (Req_dec_T x y); simpl; [exact Hrec|].
  destruct (Rle_dec x t); [|exact Hrec].
  destruct (Rlt_dec t y); [|exact Hrec].
  intros [= <-]. exists 0%nat. split; [lia|]. split; [simpl; lia|simpl; lra].
Qed.

(** On a vector that does not decrease, the scan finds the span that holds
    [t]. *)
Lemma scan_complete (l : list R) (k0 : nat) (t : R) (j : nat) :
  Sorted Rle l -> (S j < length l)%nat ->
  nth j l 0 <= t < nth (S j) l 0 ->
  NURBSSurface.find_span_scan t
    (combine (fst (NURBSSurface.possible_spans_from k0 l))
             (snd (NURBSSurface.possible_spans_from k0 l))) = Some (k0 + j)%nat.
Proof.
  revert k0 j. induction l as [|x rest IH]; intros k0 j Hs Hj Ht;
    [simpl in Hj; lia|].
  simpl. destruct rest as [|y tl]; [simpl in Hj; lia|].
  pose proof (sorted_tail _ _ Hs) as Hs'.
  specialize (IH (S k0)).
  destruct (NURBSSurface.possible_spans_from (S k0) (y :: tl)) as [sp ix].
  assert (Hrec : forall j', j = S j' ->
            NURBSSurface.find_span_scan t (combine sp ix) = Some (k0 + j)%nat).
  { intros j' ->. replace (k0 + S j')%nat with (S k0 + j')%nat by lia.
    apply IH; auto. simpl in Hj |- *. lia. }
  assert (Hmono : forall i, (S i < length (x :: y :: tl))%nat ->
                    y <= nth (S i) (x :: y :: tl) 0).
  { intros i Hi.
    apply (sorted_knots_monotone (x :: y :: tl) Hs 1 (S i)); [lia|exact Hi]. }
  destruct (Req_dec_T x y) as [Hxy|Hxy]; simpl.
  - destruct j as [|j']; [simpl in Ht; lra|]. now apply (Hrec j').
  - destruct (Rle_dec x t) as [Hxt|Hxt].
    + destruct (Rlt_dec t y) as [Hty|Hty].
      * destruct j as [|j']; [f_equal; lia|].
        pose proof (Hmono j' ltac:(simpl in *; lia)) as Hy.
        simpl in Ht, Hy. lra.
      * destruct j as [|j']; [simpl in Ht; lra|]. now apply (Hrec j').
    + destruct j as [|j']; [simpl in Ht; lra|]. now apply (Hrec j').
Qed.

(** The index of a span that is not degenerate is listed. *)
Lemma span_index_listed (l : list R) (k0 : nat) (j : nat) :
  (S j < length l)%nat -> nth j l 0 <> nth (S j) l 0 ->
  existsb (Nat.eqb (k0 + j))
          (snd (NURBSSurface.possible_spans_from k0 l)) = true.
Proof.
  revert k0 j. induction l as [|x rest IH]; intros k0 j Hj Hne;
    [simpl in Hj; lia|].
  simpl. destruct rest as [|y tl]; [simpl in Hj; lia|].
  specialize (IH (S k0)).
  destruct (NURBSSurface.possible_spans_from (S k0) (y :: tl)) as [sp ix].
  assert (Hrec : forall j', j = S j' -> existsb (Nat.eqb (k0 + j)) ix = true).
  { intros j' ->. replace (k0 + S j')%nat with (S k0 + j')%nat by lia.
    apply IH; auto. simpl in Hj |- *. lia. }
  destruct (Req_dec_T x y) as [Hxy|Hxy]; simpl.
  - destruct j as [|j']; [simpl in Hne; contradiction|]. now apply (Hrec j').
  - destruct j as [|j'].
    + rewrite Nat.add_0_r, Nat.eqb_refl. reflexivity.
    + rewrite (Hrec j' eq_refl). apply orb_true_r.
Qed.

(** On a vector that does not decrease, a parameter from the first knot up
    to, but not, the last lies in a span. *)
Lemma span_exists (l : list R) (t : R) :
  Sorted Rle l ->
  nth 0 l 0 <= t < nth (length l - 1) l 0 ->
  exists j, (S j < length l)%nat /\ nth j l 0 <= t < nth (S j) l 0.
Proof.
  induction l as [|x rest IH]; intros Hs Ht; [simpl in Ht; lra|].
  destruct rest as [|y tl]; [simpl in Ht; lra|].
  destruct (Rlt_dec t y) as [Hty|Hty].
  - exists 0%nat. simpl in *. split; [lia|lra].
  - destruct IH as (j & Hj & Hjt).
    + now apply sorted_tail in Hs.
    + simpl in Ht |- *. rewrite Nat.sub_0_r in *. split; [lra|].
      destruct tl; simpl in *; lra.
    + exists (S j). simpl in *. split; [lia|exact Hjt].
Qed.

(** ** The Cox-de Boor recursion *)

Lemma getitem_knot (kv : list R) (i : nat) :
  (i < length kv)%nat -> getitem kv (Z.of_nat i) = Ok (knot kv i).
Proof. intros H. now apply getitem_nonneg. Qed.

Lemma finite_or_zero_ratio (x y : R) :
  NURBSSurface.finite_or_zero (npdiv x y) = ratio x y.
Proof. unfold npdiv, ratio. destruct (Req_dec_T y 0); reflexivity. Qed.

(** Degree zero: one on the span of the index, zero elsewhere. *)
Lemma cox_de_boor_base (kv : list R) (t : R) (i : nat) :
  Sorted Rle kv ->
  knot kv 0 <= t < knot kv (length kv - 1) ->
  (S i < length kv)%nat ->
  NURBSSurface._cox_de_boor t i 0 kv
    (fst (NURBSSurface._get_possible_spans kv))
    (snd (NURBSSurface._get_possible_spans kv))
  = Ok (bspline kv t 0 i).
Proof.
  intros Hs Ht Hi. unfold NURBSSurface._get_possible_spans. simpl.
  destruct (span_exists kv t Hs Ht) as (j & Hj & Hjt).
  pose proof (scan_complete kv 0 t j Hs Hj Hjt) as Hscan. simpl in Hscan.
  assert (Hind : forall k, (S k < length kv)%nat ->
            knot kv k <= t < knot kv (k + 1) -> k = j).
  { intros k Hk Hkt. replace (k + 1)%nat with (S k) in Hkt by lia.
    pose proof (scan_complete kv 0 t k Hs Hk Hkt) as Hscan'. simpl in Hscan'.
    congruence. }
  destruct (existsb (Nat.eqb i) (snd (NURBSSurface.possible_spans_from 0 kv))) eqn:Hmem.
  - unfold NURBSSurface._find_span. rewrite Hscan. cbn [bind].
    destruct (Nat.eqb_spec j i) as [->|Hne].
    + replace (S i) with (i + 1)%nat in Hjt by lia. unfold knot.
      destruct (Rle_dec (nth i kv 0) t); [|lra].
      destruct (Rlt_dec t (nth (i + 1) kv 0)); [reflexivity|lra].
    + destruct (Rle_dec (knot kv i) t); [|reflexivity].
      destruct (Rlt_dec t (knot kv (i + 1))); [|reflexivity].
      exfalso. apply Hne. symmetry. apply Hind; auto.
  - destruct (Rle_dec (knot kv i) t); [|reflexivity].
    destruct (Rlt_dec t (knot kv (i + 1))); [|reflexivity].
    exfalso.
    assert (Hne : nth i kv 0 <> nth (S i) kv 0).
    { unfold knot in *. replace (i + 1)%nat with (S i) in * by lia. lra. }
    pose proof (span_index_listed kv 0 i Hi Hne) as Hl. simpl in Hl. congruence.
Qed.

(** On indices in range, [_cox_de_boor] returns the value of the
    recursion. *)
Lemma cox_de_boor_value (kv : list R) (t : R) (p i : nat) :
  Sorted Rle kv ->
  knot kv 0 <= t < knot kv (length kv - 1) ->
  (i + p + 1 < length kv)%nat ->
  NURBSSurface._cox_de_boor t i p kv
    (fst (NURBSSurface._get_possible_spans kv))
    (snd (NURBSSurface._get_possible_spans kv))
  = Ok (bspline kv t p i).
Proof.
  intros Hs Ht. revert i. induction p as [|p IH]; intros i Hi.
  - apply cox_de_boor_base; auto. lia.
  - cbn [NURBSSurface._cox_de_boor bspline].
    replace (Z.of_nat i + Z.of_nat (S p))%Z with (Z.of_nat (i + S p)) by lia.
    replace (Z.of_nat (i + S p) + 1)%Z with (Z.of_nat (i + S p + 1)) by lia.
    replace (Z.of_nat i + 1)%Z with (Z.of_nat (i + 1)) by lia.
    rewrite !getitem_knot by lia. cbn [bind].
    rewrite !finite_or_zero_ratio.
    rewrite (IH i) by lia. rewrite (IH (i + 1)%nat) by lia. cbn [bind].
    set (f := ratio (t - knot kv i) (knot kv (i + S p) - knot kv i)).
    set (g := ratio (knot kv (i + S p + 1) - t)
                    (knot kv (i + S p + 1) - knot kv (i + 1))).
    destruct (Req_dec_T f 0) as [Hf|Hf]; destruct (Req_dec_T g 0) as [Hg|Hg];
      f_equal; try rewrite Hf; try rewrite Hg; ring.
Qed.

(** The array of [_basis_functions]. *)
Lemma basis_functions_value (kv : list R) (t : R) (p n : nat) :
  Sorted Rle kv ->
  knot kv 0 <= t < knot kv (length kv - 1) ->
  (n + p + 1 <= length kv)%nat ->
  NURBSSurface._basis_functions t p kv (Z.of_nat n)
    (fst (NURBSSurface._get_possible_spans kv))
    (snd (NURBSSurface._get_possible_spans kv))
  = Ok (map (bspline kv t p) (seq 0 n)).
Proof.
  intros Hs Ht Hn. unfold NURBSSurface._basis_functions.
  rewrite range_of_nat.
  assert (G : forall l, (forall i, In i l -> (i < n)%nat) ->
    comprehension
      (fun i => NURBSSurface._cox_de_boor t i p kv
                  (fst (NURBSSurface._get_possible_spans kv))
                  (snd (NURBSSurface._get_possible_spans kv))) l
    = Ok (map (bspline kv t p) l)).
  { induction l as [|i l IHl]; intros Hl; [reflexivity|].
    simpl. rewrite cox_de_boor_value; auto.
    - cbn [bind]. rewrite IHl; [reflexivity|]. intros; apply Hl; now right.
    - pose proof (Hl i (or_introl eq_refl)). lia. }
  apply G. intros i Hi. apply in_seq in Hi. lia.
Qed.

Lemma np_sum_map (f : nat -> R) (n : nat) :
  np_sum (map f (seq 0 n)) = rsum f n.
Proof.
  unfold np_sum.
  assert (G : forall a, fold_left Rplus (map f (seq 0 n)) a = a + rsum f n).
  { induction n as [|n IH]; intros a.
    - simpl. lra.
    - rewrite seq_S, map_app, fold_left_app, IH. simpl. lra. }
  rewrite G. lra.
Qed.

(** ** Sums over a range of indices *)

Lemma rsum_range_from_0 (f : nat -> R) (n : nat) : rsum_range f 0 n = rsum f n.
Proof. unfold rsum_range. rewrite Nat.sub_0_r. now apply rsum_ext. Qed.

Lemma rsum_range_ext (f g : nat -> R) (a b : nat) :
  (forall i, (a <= i < b)%nat -> f i = g i) -> rsum_range f a b = rsum_range g a b.
Proof. intros H. unfold rsum_range. apply rsum_ext. intros j Hj. apply H. lia. Qed.

Lemma rsum_range_plus (f g : nat -> R) (a b : nat) :
  rsum_range (fun i => f i + g i) a b = rsum_range f a b + rsum_range g a b.
Proof. unfold rsum_range. apply rsum_plus. Qed.

Lemma rsum_range_last (f : nat -> R) (a b : nat) :
  (a <= b)%nat -> rsum_range f a (S b) = rsum_range f a b + f b.
Proof.
  intros H. unfold rsum_range.
  replace (S b - a)%nat with (S (b - a)) by lia. simpl.
  now replace (a + (b - a))%nat with b by lia.
Qed.

Lemma rsum_shift (f : nat -> R) (n : nat) :
  rsum f (S n) = f 0%nat + rsum (fun j => f (S j)) n.
Proof.
  induction n as [|n IH].
  - simpl. lra.
  - change (rsum f (S (S n))) with (rsum f (S n) + f (S n)).
    rewrite IH. simpl. lra.
Qed.

Lemma rsum_range_first (f : nat -> R) (a b : nat) :
  (a < b)%nat -> rsum_range f a b = f a + rsum_range f (S a) b.
Proof.
  intros H. unfold rsum_range.
  replace (b - a)%nat with (S (b - S a)) by lia.
  rewrite rsum_shift, Nat.add_0_r. f_equal.
  apply rsum_ext. intros j _. f_equal. lia.
Qed.

Lemma rsum_range_shift (f : nat -> R) (a b : nat) :
  rsum_range (fun i => f (i + 1)%nat) a b = rsum_range f (S a) (S b).
Proof.
  unfold rsum_range. simpl. apply rsum_ext. intros j _. f_equal. lia.
Qed.

Lemma rsum_range_zero (f : nat -> R) (a b : nat) :
  (forall i, (a <= i < b)%nat -> f i = 0) -> rsum_range f a b = 0.
Proof. intros H. unfold rsum_range. apply rsum_zero. intros j Hj. apply H. lia. Qed.

(** ** Partition of unity of the B-spline basis *)

(** A basis function vanishes outside the knots that it spans. *)
Lemma bspline_support (kv : list R) (t : R) (p i : nat) :
  Sorted Rle kv -> (i + p + 1 < length kv)%nat ->
  t < knot kv i \/ knot kv (i + p + 1) <= t ->
  bspline kv t p i = 0.
Proof.
  intros Hs. revert i. induction p as [|p IH]; intros i Hi Ht.
  - simpl. rewrite Nat.add_0_r in Ht.
    destruct (Rle_dec (knot kv i) t); [|reflexivity].
    destruct (Rlt_dec t (knot kv (i + 1))); [|reflexivity].
    destruct Ht; lra.
  - cbn [bspline].
    pose proof (sorted_knots_monotone kv Hs i (i + 1)) as M1.
    pose proof (sorted_knots_monotone kv Hs (i + p + 1) (i + S p + 1)) as M2.
    rewrite (IH i), (IH (i + 1)%nat); try lia; [ring| |].
    + replace (i + 1 + p + 1)%nat with (i + S p + 1)%nat by lia.
      destruct Ht as [Ht|Ht]; [left|right; exact Ht].
      specialize (M1 ltac:(lia) ltac:(lia)). lra.
    + destruct Ht as [Ht|Ht]; [left; exact Ht|right].
      specialize (M2 ltac:(lia) ltac:(lia)). lra.
Qed.

(** The functions of degree zero on the spans from [a] to [b]: exactly one
    holds [t]. *)
Lemma bspline_indicator_sum (kv : list R) (t : R) (a d : nat) :
  Sorted Rle kv -> (a + d < length kv)%nat ->
  knot kv a <= t < knot kv (a + d) ->
  rsum_range (bspline kv t 0) a (a + d) = 1.
Proof.
  intros Hs. induction d as [|d IH]; intros Hlen Ht.
  - rewrite Nat.add_0_r in Ht. lra.
  - replace (a + S d)%nat with (S (a + d)) in * by lia.
    rewrite rsum_range_last by lia.
    destruct (Rlt_dec t (knot kv (a + d))) as [Hlt|Hge].
    + rewrite IH by (try lia; lra). simpl.
      destruct (Rle_dec (knot kv (a + d)) t); [lra|]. lra.
    + rewrite rsum_range_zero.
      * simpl. destruct (Rle_dec (knot kv (a + d)) t); [|lra].
        replace (a + d + 1)%nat with (S (a + d)) by lia.
        destruct (Rlt_dec t (knot kv (S (a + d)))); lra.
      * intros i Hi. simpl.
        pose proof (sorted_knots_monotone kv Hs (i + 1) (a + d)
                      ltac:(lia) ltac:(lia)).
        destruct (Rle_dec (knot kv i) t); [|reflexivity].
        destruct (Rlt_dec t (knot kv (i + 1))); [lra|reflexivity].
Qed.

(** The two halves of the recursion, indexed by the function of lower
    degree that they multiply. *)
Lemma bspline_step (kv : list R) (t : R) (q i : nat) :
  bspline kv t (S q) i
  = ratio (t - knot kv i) (knot kv (i + q + 1) - knot kv i) * bspline kv t q i
    + ratio (knot kv (i + 1 + q + 1) - t) (knot kv (i + 1 + q + 1) - knot kv (i + 1))
      * bspline kv t q (i + 1).
Proof.
  cbn [bspline].
  replace (i + S q)%nat with (i + q + 1)%nat by lia.
  replace (i + q + 1 + 1)%nat with (i + 1 + q + 1)%nat by lia.
  reflexivity.
Qed.

(** The two coefficients of one function of lower degree add up to one
    where that function is not zero. *)
Lemma bspline_coefficients (kv : list R) (t : R) (q k : nat) :
  Sorted Rle kv -> (k + q + 1 < length kv)%nat ->
  ratio (t - knot kv k) (knot kv (k + q + 1) - knot kv k) * bspline kv t q k
  + ratio (knot kv (k + q + 1) - t) (knot kv (k + q + 1) - knot kv k)
    * bspline kv t q k
  = bspline kv t q k.
Proof.
  intros Hs Hk. unfold ratio.
  destruct (Req_dec_T (knot kv (k + q + 1) - knot kv k) 0) as [Hz|Hnz].
  - rewrite (bspline_support kv t q k Hs Hk); [ring|].
    destruct (Rlt_dec t (knot kv k)); [left; assumption|right; lra].
  - field. assumption.
Qed.

(** On the parameters from the knot [p] up to, but not, the knot [n], the
    functions of degree [q] with the indices from [p - q] on sum to one. *)
Lemma bspline_partition_level (kv : list R) (t : R) (p n : nat) :
  Sorted Rle kv -> length kv = (n + p + 1)%nat ->
  knot kv p <= t < knot kv n ->
  forall q, (q <= p)%nat -> rsum_range (bspline kv t q) (p - q) n = 1.
Proof.
  intros Hs Hlen Ht.
  assert (Hpn : (p < n)%nat).
  { destruct (Nat.lt_ge_cases p n) as [H|H]; [exact H|].
    pose proof (sorted_knots_monotone kv Hs n p H ltac:(lia)). lra. }
  induction q as [|q IH]; intros Hq.
  - rewrite Nat.sub_0_r.
    replace n with (p + (n - p))%nat at 1 by lia.
    apply bspline_indicator_sum; auto; [lia|].
    now replace (p + (n - p))%nat with n by lia.
  - specialize (IH ltac:(lia)).
    set (a := (p - S q)%nat) in *.
    replace (p - q)%nat with (S a) in IH by (unfold a; lia).
    set (F := fun k => ratio (t - knot kv k) (knot kv (k + q + 1) - knot kv k)
                       * bspline kv t q k).
    set (G := fun k => ratio (knot kv (k + q + 1) - t)
                             (knot kv (k + q + 1) - knot kv k)
                       * bspline kv t q k).
    rewrite (rsum_range_ext _ (fun i => F i + G (i + 1)%nat))
      by (intros i _; apply bspline_step).
    rewrite rsum_range_plus.
    rewrite (rsum_range_shift G a n).
    rewrite (rsum_range_first F a n) by (unfold a; lia).
    rewrite (rsum_range_last G (S a) n) by (unfold a; lia).
    assert (HFa : F a = 0).
    { unfold F. rewrite (bspline_support kv t q a Hs); [ring|unfold a; lia|].
      right. replace (a + q + 1)%nat with p by (unfold a; lia). lra. }
    assert (HGn : G n = 0).
    { unfold G. rewrite (bspline_support kv t q n Hs); [ring|lia|].
      left. lra. }
    rewrite HFa, HGn, <- IH.
    transitivity (rsum_range (fun k => F k + G k) (S a) n).
    + rewrite rsum_range_plus. ring.
    + apply rsum_range_ext. intros k Hk. unfold F, G.
      apply bspline_coefficients; auto. lia.
Qed.

(** ** The angles of a revolution *)

Lemma half_pi : 0.5 * PI = PI / 2.
Proof. lra. Qed.

Lemma half_pi_positive : 0 < PI / 2.
Proof. pose proof PI_RGT_0. lra. Qed.

(** The remainder is zero exactly on the whole multiples. *)
Lemma pymod_zero_multiple (x : R) :
  pymod x (0.5 * PI) = 0 <-> quarter_turn_multiple x.
Proof.
  pose proof half_pi_positive as Hh. rewrite half_pi.
  unfold pymod, floordiv, quarter_turn_multiple. split.
  - intros H. exists (Zfloor (x / (PI / 2))). lra.
  - intros [k Hk].
    assert (Hq : x / (PI / 2) = IZR k) by (rewrite Hk; field; lra).
    rewrite Hq, ZfloorZ. lra.
Qed.

Lemma linspace_ok (start stop : R) (num : Z) :
  (0 <= num)%Z ->
  linspace start stop num
  = Ok (map (fun k => start + INR k * ((stop - start) / (IZR num - 1)))
            (seq 0 (Z.to_nat num))).
Proof.
  intros H. unfold linspace, range.
  destruct (Z.ltb_spec num 0); [lia|reflexivity].
Qed.

Lemma nth_map_seq (f : nat -> R) (n k : nat) (d : R) :
  (k < n)%nat -> nth k (map f (seq 0 n)) d = f k.
Proof.
  intros Hk.
  rewrite (nth_indep _ d (f 0%nat)) by (rewrite length_map, length_seq; exact Hk).
  rewrite map_nth, seq_nth by exact Hk. reflexivity.
Qed.

Lemma linspace_ends (start stop : R) (n : nat) :
  (2 <= n)%nat ->
  let xs := map (fun k => start + INR k * ((stop - start) / (IZR (Z.of_nat n) - 1)))
                (seq 0 n) in
  length xs = n /\ nth 0 xs 0 = start /\ nth (n - 1) xs 0 = stop.
Proof.
  intros Hn xs. unfold xs.
  split; [now rewrite length_map, length_seq|].
  split.
  - rewrite nth_map_seq by lia. simpl. lra.
  - rewrite nth_map_seq by lia.
    rewrite <- INR_IZR_INZ, minus_INR by lia. simpl INR.
    assert (INR n - 1 <> 0).
    { assert (2 <= INR n) by (change 2 with (INR 2); apply le_INR; lia). lra. }
    field. assumption.
Qed.

(** The rational builder: the number of angle samples. *)
Lemma rational_angle_count (start_angle end_angle : R) :
  start_angle <> end_angle ->
  let d := Rabs (end_angle - start_angle) in
  let N := Zfloor (d / (PI / 2)) in
  exists angles,
    RationalBezierSurface._determine_angle_distribution start_angle end_angle
    = Ok angles
    /\ (quarter_turn_multiple d -> Z.of_nat (length angles) = (2 * N + 1)%Z)
    /\ (~ quarter_turn_multiple d -> Z.of_nat (length angles) = (2 * N + 3)%Z)
    /\ Nat.odd (length angles) = true
    /\ nth 0 angles 0 = start_angle
    /\ nth (length angles - 1) angles 0 = end_angle.
Proof.
  intros Hne d N.
  pose proof half_pi_positive as Hh.
  assert (Hd : 0 < d).
  { unfold d. apply Rabs_pos_lt. lra. }
  assert (Hq : d / (0.5 * PI) = d / (PI / 2)) by now rewrite half_pi.
  assert (HN : (0 <= N)%Z).
  { unfold N. apply Zfloor_lub. simpl.
    apply Rmult_le_pos; [lra|]. apply Rlt_le, Rinv_0_lt_compat. lra. }
  unfold RationalBezierSurface._determine_angle_distribution, floordiv. fold d.
  destruct (Req_dec_T d 0) as [Hz|_]; [lra|].
  rewrite Hq. fold N.
  destruct (Req_dec_T (pymod d (0.5 * PI)) 0) as [Hm|Hm].
  - assert (HN1 : (1 <= N)%Z).
    { apply pymod_zero_multiple in Hm. destruct Hm as [k Hk].
      assert (Hkq : d / (PI / 2) = IZR k) by (rewrite Hk; field; lra).
      unfold N. rewrite Hkq, ZfloorZ.
      assert (0 < IZR k) by (rewrite <- Hkq; apply Rdiv_lt_0_compat; lra).
      apply lt_IZR in H. lia. }
    rewrite linspace_ok by lia.
    destruct (linspace_ends start_angle end_angle (Z.to_nat (2 * N + 1)))
      as (Hl & H0 & Hlast); [lia|].
    rewrite Z2Nat.id in * by lia.
    eexists. split; [reflexivity|]. rewrite Hl.
    split; [intros _; lia|]. split.
    { intros Hnm. exfalso. apply Hnm. now apply pymod_zero_multiple. }
    split; [|split; assumption].
    replace (Z.to_nat (2 * N + 1)) with (S (2 * Z.to_nat N)) by lia.
    rewrite Nat.odd_succ. apply Nat.even_spec. exists (Z.to_nat N). lia.
  - rewrite linspace_ok by lia.
    destruct (linspace_ends start_angle end_angle (Z.to_nat (2 * N + 3)))
      as (Hl & H0 & Hlast); [lia|].
    rewrite Z2Nat.id in * by lia.
    eexists. split; [reflexivity|]. rewrite Hl.
    split.
    { intros Hmul. exfalso. apply Hm. now apply pymod_zero_multiple. }
    split; [intros _; lia|].
    split; [|split; assumption].
    replace (Z.to_nat (2 * N + 3)) with (S (2 * (Z.to_nat N + 1))) by lia.
    rewrite Nat.odd_succ. apply Nat.even_spec. exists (Z.to_nat N + 1)%nat. lia.
Qed.

Lemma rational_angle_same (angle : R) :
  RationalBezierSurface._determine_angle_distribution angle angle
  = Raise InvalidGeometryError.
Proof.
  unfold RationalBezierSurface._determine_angle_distribution.
  replace (angle - angle) with 0 by ring. rewrite Rabs_R0.
  destruct (Req_dec_T 0 0); [reflexivity|contradiction].
Qed.

(** C8, the NURBS builder at an end angle below the start angle.  From a
    quarter turn down to zero the difference of the angles is minus one
    quarter turn, the number of samples asked of [np.linspace] is [-1], and
    the builder fails with [ValueError]; the count of the claim is 3. *)
Theorem nurbs_angle_distribution_backwards :
  NURBSSurface._determine_angle_distribution (PI / 2) 0 = Raise ValueError
  /\ (2 * Zfloor (Rabs (0 - PI / 2) / (PI / 2)) + 1 = 3)%Z
  /\ quarter_turn_multiple (Rabs (0 - PI / 2))
  /\ exists angles,
       RationalBezierSurface._determine_angle_distribution (PI / 2) 0 = Ok angles
       /\ length angles = 3%nat.
Proof.
  pose proof half_pi_positive as Hh.
  assert (Hq : (0 - PI / 2) / (0.5 * PI) = IZR (-1))
    by (rewrite half_pi; field; lra).
  assert (Habs : Rabs (0 - PI / 2) = PI / 2).
  { rewrite Rabs_left by lra. lra. }
  assert (Hfl : Zfloor (Rabs (0 - PI / 2) / (PI / 2)) = 1%Z).
  { rewrite Habs. replace (PI / 2 / (PI / 2)) with (IZR 1) by (field; lra).
    apply ZfloorZ. }
  assert (Hmul : quarter_turn_multiple (Rabs (0 - PI / 2))).
  { exists 1%Z. rewrite Habs. lra. }
  split; [|split; [|split]].
  - unfold NURBSSurface._determine_angle_distribution.
    destruct (Req_dec_T (0 - PI / 2) 0) as [Hz|_]; [lra|].
    unfold pymod, floordiv. rewrite Hq, ZfloorZ.
    destruct (Req_dec_T (0 - PI / 2 - 0.5 * PI * IZR (-1)) 0) as [_|Hnz];
      [reflexivity|].
    exfalso. apply Hnz. lra.
  - rewrite Hfl. reflexivity.
  - exact Hmul.
  - destruct (rational_angle_count (PI / 2) 0) as (angles & Hrun & Hm & _);
      [lra|].
    exists angles. split; [exact Hrun|].
    specialize (Hm Hmul). rewrite Hfl in Hm. lia.
Qed.

(** ** The rows of a surface of revolution *)

(** A loop over [range(n)] whose turns all succeed and carry an invariant
    from one index to the next. *)
Lemma fold_result_invariant {St : Type} (Inv : nat -> St -> Prop)
    (f : St -> nat -> result St) (n : nat) (s : St) :
  Inv 0%nat s ->
  (forall k s1, (k < n)%nat -> Inv k s1 ->
     exists s2, f s1 k = Ok s2 /\ Inv (S k) s2) ->
  exists s', fold_result f (seq 0 n) s = Ok s' /\ Inv n s'.
Proof.
  intros H0 Hstep.
  assert (G : forall cnt start s1, (start + cnt <= n)%nat -> Inv start s1 ->
            exists s', fold_result f (seq start cnt) s1 = Ok s'
                       /\ Inv (start + cnt)%nat s').
  { induction cnt as [|cnt IH]; intros start s1 Hle Hinv.
    - exists s1. rewrite Nat.add_0_r. split; [reflexivity|assumption].
    - destruct (Hstep start s1) as [s2 [Hb Hi2]]; [lia|assumption|].
      destruct (IH (S start) s2) as [s3 [Hm Hi3]]; [lia|assumption|].
      exists s3. simpl. rewrite Hb. cbn [bind]. split; [exact Hm|].
      now replace (start + S cnt)%nat with (S start + cnt)%nat by lia. }
  apply (G n 0%nat s); auto.
Qed.

Lemma odd_index_has_successor (n idx : nat) :
  Nat.odd n = true -> Nat.even idx = false -> (idx < n)%nat ->
  (1 <= idx)%nat /\ (idx + 1 < n)%nat.
Proof.
  intros Hn Hidx Hlt.
  rewrite <- Nat.negb_odd in Hidx. apply negb_false_iff in Hidx.
  apply Nat.odd_spec in Hn. apply Nat.odd_spec in Hidx.
  destruct Hn as [a Ha]. destruct Hidx as [b Hb]. lia.
Qed.

Section RevolveFacts.

Variable Line3D : Type.
Variable project_point_onto_line : Point3D -> Line3D -> Point3D.
Variable measure_distance_point_line : Point3D -> Line3D -> R.
Variable rotate_point_about_axis : Point3D -> Line3D -> R -> Point3D.
Variable normalized_value : Point3D -> Point3D -> Point3D.

Lemma append_to_last_app (weights : list (list R)) (row : list R) (x : R) :
  Revolve.append_to_last (weights ++ [row]) x = Ok (weights ++ [row ++ [x]]).
Proof.
  unfold Revolve.append_to_last, getitem, setitem.
  assert (Hn : norm_index (length (weights ++ [row])) (-1) = Some (length weights)).
  { change (-1)%Z with (- (Z.of_nat 0 + 1))%Z.
    rewrite norm_index_back by (rewrite length_app; simpl; lia).
    f_equal. rewrite length_app. simpl. lia. }
  rewrite Hn.
  rewrite nth_error_app2, Nat.sub_diag by lia. cbn [nth_error bind].
  clear Hn. f_equal. induction weights as [|w ws IH]; simpl; [reflexivity|].
  now rewrite IH.
Qed.

(** One turn of the loop over the copies of a profile point; [row] is the
    row of weights that the earlier turns have filled. *)
Lemma copy_step_result (angles : list R) (axis_projection : Point3D) (radius : R)
    (new_points : list Point3D) (weights : list (list R)) (row : list R)
    (idx : nat) :
  Nat.odd (length angles) = true ->
  length new_points = length angles ->
  (idx < length angles)%nat ->
  exists new_points',
    Revolve.copy_step normalized_value angles axis_projection radius
      (new_points, if Nat.eqb idx 0 then weights else weights ++ [row]) idx
    = Ok (new_points',
          weights ++ [(if Nat.eqb idx 0 then [] else row)
                      ++ [revolve_weight angles idx]])
    /\ length new_points' = length angles
    /\ (radius = 0 -> new_points' = new_points).
Proof.
  intros Hodd Hlen Hidx. unfold Revolve.copy_step, revolve_weight.
  rewrite (getitem_nonneg NonFinite) by lia. cbn [bind].
  assert (Hws : (if Nat.eqb idx 0
                 then (if Nat.eqb idx 0 then weights else weights ++ [row]) ++ [[]]
                 else (if Nat.eqb idx 0 then weights else weights ++ [row]))
                = weights ++ [if Nat.eqb idx 0 then [] else row]).
  { destruct (Nat.eqb idx 0); reflexivity. }
  rewrite Hws.
  destruct (Nat.even idx) eqn:Heven.
  - rewrite append_to_last_app. cbn [bind].
    exists new_points. repeat split; auto.
  - destruct (odd_index_has_successor _ _ Hodd Heven Hidx) as [H1 H2].
    replace (Z.of_nat idx + 1)%Z with (Z.of_nat (idx + 1)) by lia.
    replace (Z.of_nat idx - 1)%Z with (Z.of_nat (idx - 1)) by lia.
    rewrite !(getitem_nonneg 0) by lia. cbn [bind].
    destruct (Req_dec_T radius 0) as [Hz|Hnz]; cbn [bind].
    + rewrite append_to_last_app. cbn [bind].
      exists new_points. repeat split; auto.
    + unfold setitem at 1. rewrite norm_index_nonneg by lia. cbn [bind].
      rewrite append_to_last_app. cbn [bind].
      eexists. split; [reflexivity|].
      split; [now rewrite replace_nth_length|]. intros Hz. contradiction.
Qed.

(** The body of the loop over the profile points appends one row of control
    points and one row of weights: the weights depend on the index of the
    copy only, and the copies of a point on the axis are the point itself. *)
Lemma revolve_point_result (axis : Line3D) (angles : list R)
    (control_points : list (list Point3D)) (weights : list (list R))
    (point : Point3D) :
  Nat.odd (length angles) = true ->
  exists new_points,
    Revolve.revolve_point Line3D project_point_onto_line measure_distance_point_line
      rotate_point_about_axis normalized_value axis angles
      (control_points, weights) point
    = Ok (control_points ++ [new_points],
          weights ++ [map (revolve_weight angles) (seq 0 (length angles))])
    /\ length new_points = length angles
    /\ (measure_distance_point_line point axis = 0 ->
        new_points = map (fun _ => point) angles).
Proof.
  intros Hodd. unfold Revolve.revolve_point.
  set (radius := measure_distance_point_line point axis).
  set (start_points :=
         if Req_dec_T radius 0 then map (fun _ => point) angles
         else map (fun angle => rotate_point_about_axis point axis angle) angles).
  assert (Hlen0 : length start_points = length angles).
  { unfold start_points. destruct (Req_dec_T radius 0); apply length_map. }
  assert (Hpos : (0 < length angles)%nat).
  { destruct (length angles); [discriminate|lia]. }
  unfold len. rewrite Hlen0, range_of_nat.
  destruct (fold_result_invariant
    (fun k st =>
       length (fst st) = length angles
       /\ snd st = (if Nat.eqb k 0 then weights
                    else weights ++ [map (revolve_weight angles) (seq 0 k)])
       /\ (radius = 0 -> fst st = start_points))
    (Revolve.copy_step normalized_value angles
       (project_point_onto_line point axis) radius)
    (length angles) (start_points, weights)) as [[pts ws] [Hrun (Hl & Hw & Hp)]].
  - repeat split; auto.
  - intros k [np wr] Hk (Hl1 & Hw1 & Hp1). cbn [fst snd] in Hl1, Hw1, Hp1.
    destruct (copy_step_result angles (project_point_onto_line point axis) radius
                np weights (map (revolve_weight angles) (seq 0 k)) k Hodd Hl1 Hk)
      as (np' & Hstep & Hl2 & Hp2).
    rewrite <- Hw1 in Hstep.
    eexists. split; [exact Hstep|]. cbn [fst snd].
    split; [exact Hl2|]. split.
    + cbn [Nat.eqb]. rewrite seq_S, map_app.
      destruct (Nat.eqb k 0) eqn:Hk0; [|reflexivity].
      apply Nat.eqb_eq in Hk0. subst k. reflexivity.
    + intros Hz. rewrite (Hp2 Hz). now apply Hp1.
  - cbn [fst snd] in Hl, Hw, Hp. exists pts. rewrite Hrun. cbn [bind].
    rewrite Hw.
    destruct (Nat.eqb_spec (length angles) 0) as [H0|_]; [lia|].
    split; [reflexivity|]. split; [exact Hl|].
    intros Hz. rewrite (Hp Hz). unfold start_points.
    destruct (Req_dec_T radius 0); [reflexivity|contradiction].
Qed.

(** The rows of all the profile points. *)
Lemma revolve_rows_result (axis : Line3D) (angles : list R)
    (bezier_points : list Point3D) :
  Nat.odd (length angles) = true ->
  exists control_points,
    Revolve.revolve_rows Line3D project_point_onto_line measure_distance_point_line
      rotate_point_about_axis normalized_value axis angles bezier_points
    = Ok (control_points,
          map (fun _ => map (revolve_weight angles) (seq 0 (length angles)))
              bezier_points)
    /\ length control_points = length bezier_points
    /\ Forall (fun row => length row = length angles) control_points
    /\ forall r point,
         nth_error bezier_points r = Some point ->
         measure_distance_point_line point axis = 0 ->
         nth r control_points [] = map (fun _ => point) angles.
Proof.
  intros Hodd. unfold Revolve.revolve_rows.
  assert (G : forall pts cps0 ws0,
    exists cps,
      fold_result
        (Revolve.revolve_point Line3D project_point_onto_line
           measure_distance_point_line rotate_point_about_axis
           normalized_value axis angles)
        pts (cps0, ws0)
      = Ok (cps0 ++ cps,
            ws0 ++ map (fun _ => map (revolve_weight angles) (seq 0 (length angles)))
                       pts)
      /\ length cps = length pts
      /\ Forall (fun row => length row = length angles) cps
      /\ forall r point,
           nth_error pts r = Some point ->
           measure_distance_point_line point axis = 0 ->
           nth r cps [] = map (fun _ => point) angles).
  { induction pts as [|pt pts IH]; intros cps0 ws0.
    - exists []. rewrite !app_nil_r. repeat split; auto.
      intros r point Hr. destruct r; discriminate.
    - destruct (revolve_point_result axis angles cps0 ws0 pt Hodd)
        as (np & Hrow & Hl & Hp).
      destruct (IH (cps0 ++ [np])
                   (ws0 ++ [map (revolve_weight angles) (seq 0 (length angles))]))
        as (cps & Hrun & Hlc & Hall & Hax).
      exists (np :: cps). cbn [fold_result]. rewrite Hrow. cbn [bind].
      rewrite Hrun, <- !app_assoc. simpl.
      split; [reflexivity|]. split; [now rewrite Hlc|].
      split; [constructor; auto|].
      intros r point Hr Hz. destruct r as [|r]; simpl in Hr |- *.
      + injection Hr as <-. now apply Hp.
      + now apply Hax. }
  destruct (G bezier_points [] []) as (cps & Hrun & Hrest).
  exists cps. split; [exact Hrun|exact Hrest].
Qed.

End RevolveFacts.

(** The rational builder: the angle samples are evenly spaced, odd in
    number, and no two neighbours are more than an eighth of a turn
    apart. *)
Lemma rational_angles_form (start_angle end_angle : R) :
  start_angle <> end_angle ->
  exists n step,
    RationalBezierSurface._determine_angle_distribution start_angle end_angle
    = Ok (map (fun k => start_angle + INR k * step) (seq 0 n))
    /\ Nat.odd n = true /\ (3 <= n)%nat
    /\ - (PI / 4) <= step <= PI / 4.
Proof.
  intros Hne.
  pose proof half_pi_positive as Hh.
  set (d := Rabs (end_angle - start_angle)).
  set (N := Zfloor (d / (PI / 2))).
  assert (Hd : 0 < d) by (unfold d; apply Rabs_pos_lt; lra).
  assert (Hx : - d <= end_angle - start_angle <= d).
  { unfold d. split.
    - pose proof (Rle_abs (- (end_angle - start_angle))) as H.
      rewrite Rabs_Ropp in H. lra.
    - apply Rle_abs. }
  assert (HN : (0 <= N)%Z).
  { unfold N. apply Zfloor_lub. simpl.
    apply Rmult_le_pos; [lra|]. apply Rlt_le, Rinv_0_lt_compat. lra. }
  destruct (Zfloor_bound (d / (PI / 2))) as [Hlo Hhi]. fold N in Hlo, Hhi.
  assert (HdN : IZR N * (PI / 2) <= d < (IZR N + 1) * (PI / 2)).
  { assert (E : d = d / (PI / 2) * (PI / 2)) by (field; lra).
    set (q := d / (PI / 2)) in *. nra. }
  assert (Hstep : forall D, 0 < D -> d <= PI / 4 * D ->
            - (PI / 4) <= (end_angle - start_angle) / D <= PI / 4).
  { intros D HD HdD.
    assert (E : (end_angle - start_angle) / D * D = end_angle - start_angle)
      by (field; lra).
    split; apply (Rmult_le_reg_r D); try assumption; rewrite E; lra. }
  unfold RationalBezierSurface._determine_angle_distribution, floordiv. fold d.
  destruct (Req_dec_T d 0) as [Hz|_]; [lra|].
  rewrite half_pi. fold N.
  destruct (Req_dec_T (pymod d (PI / 2)) 0) as [Hm|Hm].
  - unfold pymod, floordiv in Hm. fold N in Hm.
    assert (HN1 : (1 <= N)%Z).
    { assert (0 < IZR N) by nra. apply lt_IZR in H. lia. }
    rewrite linspace_ok by lia.
    exists (Z.to_nat (2 * N + 1)), ((end_angle - start_angle) / (IZR (2 * N + 1) - 1)).
    split; [reflexivity|]. split; [|split; [lia|]].
    + replace (Z.to_nat (2 * N + 1)) with (S (2 * Z.to_nat N)) by lia.
      rewrite Nat.odd_succ. apply Nat.even_spec. exists (Z.to_nat N). lia.
    + assert (0 < IZR N) by (apply IZR_lt; lia).
      rewrite plus_IZR, mult_IZR. apply Hstep; lra.
  - rewrite linspace_ok by lia.
    exists (Z.to_nat (2 * N + 3)), ((end_angle - start_angle) / (IZR (2 * N + 3) - 1)).
    split; [reflexivity|]. split; [|split; [lia|]].
    + replace (Z.to_nat (2 * N + 3)) with (S (2 * (Z.to_nat N + 1))) by lia.
      rewrite Nat.odd_succ. apply Nat.even_spec. exists (Z.to_nat N + 1)%nat. lia.
    + assert (0 <= IZR N) by (apply IZR_le; lia).
      rewrite plus_IZR, mult_IZR. apply Hstep; lra.
Qed.

(** On evenly spaced angles no more than an eighth of a turn apart, the
    weights of the revolution are not negative. *)
Lemma revolve_weight_nonneg (start_angle step : R) (n idx : nat) :
  Nat.odd n = true -> (idx < n)%nat ->
  - (PI / 4) <= step <= PI / 4 ->
  0 <= revolve_weight (map (fun k => start_angle + INR k * step) (seq 0 n)) idx.
Proof.
  intros Hodd Hidx Hstep. unfold revolve_weight.
  destruct (Nat.even idx) eqn:Heven; [lra|].
  destruct (odd_index_has_successor n idx Hodd Heven Hidx) as [H1 H2].
  rewrite !nth_map_seq by lia.
  rewrite plus_INR, minus_INR by lia. simpl INR.
  replace (0.5 * PI - 0.5 * (start_angle + (INR idx + 1) * step
                             - (start_angle + (INR idx - 1) * step)))
    with (PI / 2 - step) by lra.
  rewrite sin_shift. pose proof PI_RGT_0. apply cos_ge_0; lra.
Qed.

Lemma nth_map_const {A B : Type} (c d : B) (l : list A) (r : nat) :
  (r < length l)%nat -> nth r (map (fun _ => c) l) d = c.
Proof.
  revert r. induction l as [|x l IH]; intros r Hr; [simpl in Hr; lia|].
  destruct r as [|r]; simpl; [reflexivity|]. apply IH. simpl in Hr. lia.
Qed.

Section BuilderFacts.

Variable Line3D : Type.
Variable project_point_onto_line : Point3D -> Line3D -> Point3D.
Variable measure_distance_point_line : Point3D -> Line3D -> R.
Variable rotate_point_about_axis : Point3D -> Line3D -> R -> Point3D.
Variable normalized_value : Point3D -> Point3D -> Point3D.

(** The rational builder succeeds on a profile that is not empty and two
    different angles; the weights of its surface depend on the index of the
    copy only, and the copies of a profile point on the axis are the point
    itself. *)
Lemma rational_revolve_result (bezier_points : list Point3D) (axis : Line3D)
    (start_angle end_angle : R) :
  start_angle <> end_angle -> bezier_points <> [] ->
  exists srf angles,
    RationalBezierSurface._determine_angle_distribution start_angle end_angle
    = Ok angles
    /\ RationalBezierSurface.from_bezier_revolve Line3D project_point_onto_line
         measure_distance_point_line rotate_point_about_axis normalized_value
         bezier_points axis start_angle end_angle = Ok srf
    /\ RationalBezierSurface.weights srf
       = map (fun _ => map (revolve_weight angles) (seq 0 (length angles)))
             bezier_points
    /\ length (RationalBezierSurface.points srf) = length bezier_points
    /\ forall r point,
         nth_error bezier_points r = Some point ->
         measure_distance_point_line point axis = 0 ->
         nth r (RationalBezierSurface.points srf) [] = map (fun _ => point) angles.
Proof.
  intros Hne Hpts.
  destruct (rational_angles_form start_angle end_angle Hne)
    as (n & step & Hangles & Hodd & Hn & Hstep).
  set (angles := map (fun k => start_angle + INR k * step) (seq 0 n)) in *.
  assert (Hlen : length angles = n)
    by (unfold angles; now rewrite length_map, length_seq).
  destruct (revolve_rows_result Line3D project_point_onto_line
              measure_distance_point_line rotate_point_about_axis normalized_value
              axis angles bezier_points) as (cps & Hrows & Hlc & Hall & Hax).
  { now rewrite Hlen. }
  set (ws := map (fun _ => map (revolve_weight angles) (seq 0 (length angles)))
                 bezier_points) in *.
  assert (Hshape_p : shaped (S (length bezier_points - 1)) (S (n - 1)) cps).
  { split.
    - rewrite Hlc. destruct bezier_points; [contradiction|simpl; lia].
    - eapply Forall_impl; [|exact Hall]. intros row Hrow. cbv beta in Hrow. lia. }
  assert (Hshape_w : shaped (S (length bezier_points - 1)) (S (n - 1)) ws).
  { split.
    - unfold ws. rewrite length_map.
      destruct bezier_points; [contradiction|simpl; lia].
    - unfold ws. apply Forall_forall. intros row Hrow.
      apply in_map_iff in Hrow. destruct Hrow as (pt & <- & _).
      rewrite length_map, length_seq. lia. }
  assert (Hnn : nonneg_weights ws).
  { unfold nonneg_weights, ws. apply Forall_forall. intros row Hrow.
    apply in_map_iff in Hrow. destruct Hrow as (pt & <- & _).
    apply Forall_forall. intros w Hw.
    apply in_map_iff in Hw. destruct Hw as (idx & <- & Hidx).
    apply in_seq in Hidx. unfold angles.
    apply revolve_weight_nonneg; auto. lia. }
  pose proof (rational_init _ _ cps ws Hshape_p Hshape_w Hnn) as Hinit.
  eexists. exists angles.
  split; [exact Hangles|].
  unfold RationalBezierSurface.from_bezier_revolve.
  rewrite Hangles. cbn [bind]. rewrite Hrows. cbn [bind].
  split; [exact Hinit|]. split; [reflexivity|]. split; [exact Hlc|]. exact Hax.
Qed.

(** C9 (as amended).  In the surface that the revolution builder returns,
    in the row of every profile control point, on the axis or off it, the
    copies of even index have the weight 1.0 and the copies of odd index
    have the weight [sin(pi/2 - half-angle)], the half-angle being half the
    difference of the two neighbouring angle samples; and every copy of a
    profile control point whose distance to the axis is 0 is the point
    itself. *)
Theorem revolve_weights (bezier_points : list Point3D) (axis : Line3D)
    (start_angle end_angle : R) :
  start_angle <> end_angle -> bezier_points <> [] ->
  exists srf angles,
    RationalBezierSurface.from_bezier_revolve Line3D project_point_onto_line
      measure_distance_point_line rotate_point_about_axis normalized_value
      bezier_points axis start_angle end_angle = Ok srf
    /\ RationalBezierSurface._determine_angle_distribution start_angle end_angle
       = Ok angles
    /\ forall r point,
         nth_error bezier_points r = Some point ->
         (forall idx, (idx < length angles)%nat ->
            at2 0 (RationalBezierSurface.weights srf) r idx
            = if Nat.even idx then 1
              else sin (PI / 2
                        - (nth (idx + 1) angles 0 - nth (idx - 1) angles 0) / 2))
         /\ (measure_distance_point_line point axis = 0 ->
             forall idx, (idx < length angles)%nat ->
               at2 NonFinite (RationalBezierSurface.points srf) r idx = point).
Proof.
  intros Hne Hpts.
  destruct (rational_revolve_result bezier_points axis start_angle end_angle Hne Hpts)
    as (srf & angles & Hangles & Hrun & Hw & _ & Hax).
  exists srf, angles. split; [exact Hrun|]. split; [exact Hangles|].
  intros r point Hr. split.
  - intros idx Hidx. unfold at2. rewrite Hw.
    assert (Hrlt : (r < length bezier_points)%nat)
      by (apply nth_error_Some; congruence).
    rewrite nth_map_const by exact Hrlt.
    rewrite nth_map_seq by exact Hidx.
    unfold revolve_weight. destruct (Nat.even idx); [reflexivity|].
    f_equal. lra.
  - intros Hz idx Hidx. unfold at2. rewrite (Hax r point Hr Hz).
    now apply nth_map_const.
Qed.

End BuilderFacts.

Lemma revolve_weights_witness :
  exists srf angles,
    RationalBezierSurface.from_bezier_revolve unit ZAxis.project_point_onto_line
      ZAxis.measure_distance_point_line ZAxis.rotate_point_about_axis
      ZAxis.normalized_value [Pt 1 0 0; Pt 0 0 1] tt 0 (PI / 2) = Ok srf
    /\ RationalBezierSurface._determine_angle_distribution 0 (PI / 2) = Ok angles
    /\ forall r point,
         nth_error [Pt 1 0 0; Pt 0 0 1] r = Some point ->
         (forall idx, (idx < length angles)%nat ->
            at2 0 (RationalBezierSurface.weights srf) r idx
            = if Nat.even idx then 1
              else sin (PI / 2
                        - (nth (idx + 1) angles 0 - nth (idx - 1) angles 0) / 2))
         /\ (ZAxis.measure_distance_point_line point tt = 0 ->
             forall idx, (idx < length angles)%nat ->
               at2 NonFinite (RationalBezierSurface.points srf) r idx = point).
Proof.
  apply (revolve_weights unit ZAxis.project_point_onto_line
           ZAxis.measure_distance_point_line ZAxis.rotate_point_about_axis
           ZAxis.normalized_value [Pt 1 0 0; Pt 0 0 1] tt 0 (PI / 2)).
  - pose proof PI_RGT_0. lra.
  - discriminate.
Defined.

Lemma sin_eighth_turn_below_one : sin (PI / 4) <> 1.
Proof.
  rewrite sin_PI4. intros H.
  pose proof sqrt2_neq_0 as Hs.
  assert (Hsq : sqrt 2 * sqrt 2 = 2) by (apply sqrt_sqrt; lra).
  assert (H1 : sqrt 2 = 1).
  { apply (Rmult_eq_reg_l (1 / sqrt 2)).
    - rewrite H at 2. field. assumption.
    - rewrite H. lra. }
  rewrite H1 in Hsq. lra.
Qed.

(** C9 as stated fails: a profile point on the axis, revolved through a
    quarter turn, has three copies that are the point itself, and the copy
    of index 1 has the weight [sin(pi/4)], not 1.0. *)
Lemma revolve_on_axis_weight :
  ZAxis.measure_distance_point_line (Pt 0 0 1) tt = 0
  /\ exists srf,
       RationalBezierSurface.from_bezier_revolve unit ZAxis.project_point_onto_line
         ZAxis.measure_distance_point_line ZAxis.rotate_point_about_axis
         ZAxis.normalized_value [Pt 0 0 1] tt 0 (PI / 2) = Ok srf
       /\ RationalBezierSurface.points srf = [[Pt 0 0 1; Pt 0 0 1; Pt 0 0 1]]
       /\ at2 0 (RationalBezierSurface.weights srf) 0 1 = sin (PI / 4)
       /\ at2 0 (RationalBezierSurface.weights srf) 0 1 <> 1.
Proof.
  assert (Hz : ZAxis.measure_distance_point_line (Pt 0 0 1) tt = 0).
  { simpl. replace (0 * 0 + 0 * 0) with 0 by ring. apply sqrt_0. }
  split; [exact Hz|].
  pose proof PI_RGT_0 as Hpi.
  assert (Hne : 0 <> PI / 2) by lra.
  destruct (rational_revolve_result unit ZAxis.project_point_onto_line
              ZAxis.measure_distance_point_line ZAxis.rotate_point_about_axis
              ZAxis.normalized_value [Pt 0 0 1] tt 0 (PI / 2) Hne)
    as (srf & angles & Hangles & Hrun & Hw & Hrows & Hax); [discriminate|].
  destruct (rational_angle_count 0 (PI / 2) Hne)
    as (angles' & Hangles' & Hmul & _ & _ & Hfirst & Hlast).
  rewrite Hangles in Hangles'. injection Hangles' as <-.
  assert (Habs : Rabs (PI / 2 - 0) = PI / 2) by (rewrite Rabs_right; lra).
  assert (Hlen : length angles = 3%nat).
  { assert (Hm : quarter_turn_multiple (Rabs (PI / 2 - 0)))
      by (exists 1%Z; rewrite Habs; lra).
    specialize (Hmul Hm). rewrite Habs in Hmul.
    replace (PI / 2 / (PI / 2)) with (IZR 1) in Hmul by (field; lra).
    rewrite ZfloorZ in Hmul. lia. }
  rewrite Hlen in Hlast. simpl in Hlast.
  assert (Hw1 : at2 0 (RationalBezierSurface.weights srf) 0 1 = sin (PI / 4)).
  { unfold at2. rewrite Hw, Hlen. simpl. unfold revolve_weight. simpl.
    rewrite Hfirst, Hlast. f_equal. lra. }
  exists srf. split; [exact Hrun|]. split.
  - pose proof (Hax 0%nat (Pt 0 0 1) eq_refl Hz) as Hrow.
    destruct (RationalBezierSurface.points srf) as [|row rest] eqn:Hpts.
    + simpl in Hrow. destruct angles; discriminate.
    + simpl in Hrow. subst row.
      destruct rest; [|discriminate].
      destruct angles as [|a0 [|a1 [|a2 [|a3 tl]]]]; try discriminate.
      reflexivity.
  - split; [exact Hw1|]. rewrite Hw1. apply sin_eighth_turn_below_one.
Qed.

(** ** Derivatives of the Bernstein basis *)

Lemma derivable_pt_lim_value (f : R -> R) (x l l' : R) :
  derivable_pt_lim f x l -> l = l' -> derivable_pt_lim f x l'.
Proof. intros H <-. exact H. Qed.

Lemma derivable_pt_lim_rsum (f : nat -> R -> R) (d : nat -> R) (n : nat) (x : R) :
  (forall i, (i < n)%nat -> derivable_pt_lim (f i) x (d i)) ->
  derivable_pt_lim (fun y => rsum (fun i => f i y) n) x (rsum d n).
Proof.
  induction n as [|n IH]; intros H.
  - simpl. apply derivable_pt_lim_const.
  - simpl.
    apply (derivable_pt_lim_plus (fun y => rsum (fun i => f i y) n) (f n)).
    + apply IH. intros i Hi. apply H. lia.
    + apply H. lia.
Qed.

Lemma derivable_pt_lim_scale_r (f : R -> R) (c x l : R) :
  derivable_pt_lim f x l -> derivable_pt_lim (fun y => f y * c) x (l * c).
Proof.
  intros H.
  apply (derivable_pt_lim_ext (mult_real_fct c f)).
  - intros z. unfold mult_real_fct. ring.
  - apply (derivable_pt_lim_value _ _ (c * l)); [|ring].
    now apply derivable_pt_lim_scal.
Qed.

Lemma derivable_pt_lim_scale_l (f : R -> R) (c x l : R) :
  derivable_pt_lim f x l -> derivable_pt_lim (fun y => c * f y) x (c * l).
Proof. intros H. now apply (derivable_pt_lim_scal f c). Qed.

Lemma pow_one_minus_derivative (k : nat) (t : R) :
  derivable_pt_lim (fun y => (1 - y) ^ k) t (- (INR k * (1 - t) ^ pred k)).
Proof.
  apply (derivable_pt_lim_ext (comp (fun y => y ^ k) (fun y => 1 - y))).
  - intros z. reflexivity.
  - apply (derivable_pt_lim_value _ _ (INR k * (1 - t) ^ pred k * (0 - 1))); [|ring].
    apply (derivable_pt_lim_comp (fun y => 1 - y) (fun y => y ^ k)).
    + apply (derivable_pt_lim_minus (fun _ => 1) (fun y => y)).
      * apply derivable_pt_lim_const.
      * apply derivable_pt_lim_id.
    + apply derivable_pt_lim_pow.
Qed.

Lemma binomial_times_lower (n i : nat) :
  (i <= n)%nat -> C (S n) (S i) * INR (S i) = INR (S n) * C n i.
Proof.
  intros H. unfold C.
  replace (S n - S i)%nat with (n - i)%nat by lia.
  rewrite !fact_simpl, !mult_INR.
  pose proof (INR_fact_neq_0 i). pose proof (INR_fact_neq_0 (n - i)).
  assert (INR (S i) <> 0) by (apply not_0_INR; lia).
  field. auto.
Qed.

Lemma binomial_times_upper (n i : nat) :
  (i <= n)%nat -> C (S n) i * INR (S n - i) = INR (S n) * C n i.
Proof.
  intros H. unfold C.
  replace (S n - i)%nat with (S (n - i)) by lia.
  rewrite !fact_simpl, !mult_INR.
  pose proof (INR_fact_neq_0 i). pose proof (INR_fact_neq_0 (n - i)).
  assert (INR (S (n - i)) <> 0) by (apply not_0_INR; lia).
  field. auto.
Qed.

Lemma bernstein_nat_derivative (n i : nat) (t : R) :
  derivable_pt_lim (fun y => C n i * y ^ i * (1 - y) ^ (n - i)) t
    (C n i * (INR i * t ^ pred i * (1 - t) ^ (n - i)
              - t ^ i * (INR (n - i) * (1 - t) ^ pred (n - i)))).
Proof.
  apply (derivable_pt_lim_ext
           (fun y => C n i * ((fun z => z ^ i) * (fun z => (1 - z) ^ (n - i)))%F y)).
  - intros z. unfold mult_fct. ring.
  - apply derivable_pt_lim_scale_l.
    apply (derivable_pt_lim_value _ _
             (INR i * t ^ pred i * (1 - t) ^ (n - i)
              + t ^ i * (- (INR (n - i) * (1 - t) ^ pred (n - i))))); [|ring].
    apply (derivable_pt_lim_mult (fun z => z ^ i) (fun z => (1 - z) ^ (n - i))).
    + apply derivable_pt_lim_pow.
    + apply pow_one_minus_derivative.
Qed.

(** The derivative of a basis function is the degree times the difference
    of two basis functions of one degree less; this holds for every pair of
    integers, the basis being zero off its range. *)
Lemma bernstein_derivative (n i : Z) (t : R) :
  derivable_pt_lim (bernstein_poly n i) t
    (IZR n * (bernstein_poly (n - 1) (i - 1) t - bernstein_poly (n - 1) i t)).
Proof.
  destruct (Z_lt_le_dec i 0) as [Hneg|Hi0].
  { apply (derivable_pt_lim_ext (fun _ => 0)).
    - intros z. symmetry. apply bernstein_out_of_range. lia.
    - rewrite !bernstein_out_of_range by lia.
      apply (derivable_pt_lim_value _ _ 0); [apply derivable_pt_lim_const|ring]. }
  destruct (Z_lt_le_dec n i) as [Hbig|Hin].
  { apply (derivable_pt_lim_ext (fun _ => 0)).
    - intros z. symmetry. apply bernstein_out_of_range. lia.
    - rewrite !bernstein_out_of_range by lia.
      apply (derivable_pt_lim_value _ _ 0); [apply derivable_pt_lim_const|ring]. }
  rewrite <- (Z2Nat.id n), <- (Z2Nat.id i) by lia.
  set (n' := Z.to_nat n). set (i' := Z.to_nat i).
  assert (Hle : (i' <= n')%nat) by (unfold n', i'; lia).
  clearbody n' i'. clear n i Hi0 Hin.
  apply (derivable_pt_lim_ext (fun y => C n' i' * y ^ i' * (1 - y) ^ (n' - i'))).
  { intros z. symmetry. now apply bernstein_in_range. }
  apply (derivable_pt_lim_value _ _ _ _ (bernstein_nat_derivative n' i' t)).
  rewrite <- INR_IZR_INZ.
  destruct i' as [|i].
  - rewrite (bernstein_out_of_range _ (Z.of_nat 0 - 1)) by lia.
    destruct n' as [|n].
    + simpl. ring.
    + replace (Z.of_nat (S n) - 1)%Z with (Z.of_nat n) by lia.
      rewrite bernstein_in_range by lia.
      rewrite !C_n_0, !Nat.sub_0_r. simpl pred. simpl (INR 0). simpl (t ^ 0). ring.
  - destruct n' as [|n]; [lia|].
    replace (Z.of_nat (S n) - 1)%Z with (Z.of_nat n) by lia.
    replace (Z.of_nat (S i) - 1)%Z with (Z.of_nat i) by lia.
    rewrite bernstein_in_range by lia.
    simpl pred. replace (S n - S i)%nat with (n - i)%nat by lia.
    destruct (Nat.eq_dec i n) as [->|Hne].
    + rewrite (bernstein_out_of_range _ (Z.of_nat (S n))) by lia.
      rewrite !C_n_n, Nat.sub_diag. simpl (INR 0). simpl ((1 - t) ^ 0). ring.
    + rewrite bernstein_in_range by lia.
      replace (n - i)%nat with (S (n - S i)) by lia. simpl pred.
      pose proof (binomial_times_lower n i ltac:(lia)) as Ha.
      pose proof (binomial_times_upper n (S i) ltac:(lia)) as Hb.
      replace (S n - S i)%nat with (S (n - S i)) in Hb by lia.
      transitivity (C (S n) (S i) * INR (S i) * (t ^ i * (1 - t) ^ S (n - S i))
                    - C (S n) (S i) * INR (S (n - S i)) * (t ^ S i * (1 - t) ^ (n - S i))).
      * ring.
      * rewrite Ha, Hb. ring.
Qed.

(** ** Derivatives of a polynomial patch *)

Lemma bezier_patch_evaluate_gsum (n m : nat) (srf : BezierSurface.t) (u v : R) :
  bezier_patch n m srf -> all_finite (BezierSurface.points srf) ->
  let c := fun i j => bernstein_poly (Z.of_nat n) (Z.of_nat i) u
                      * bernstein_poly (Z.of_nat m) (Z.of_nat j) v in
  BezierSurface.evaluate_ndarray srf u v
  = Ok (Pt (gsum c (BezierSurface.points srf) 0 (S n) (S m))
           (gsum c (BezierSurface.points srf) 1 (S n) (S m))
           (gsum c (BezierSurface.points srf) 2 (S n) (S m))).
Proof.
  intros (Hs & Hu & Hv) Hf c.
  unfold BezierSurface.evaluate_ndarray, BezierSurface.get_control_point_array.
  rewrite Hu, Hv, (as_ndarray_shaped _ _ _ Hs). cbn [bind].
  rewrite (shape_2_shaped _ _ _ Hs). cbn [bind].
  rewrite !range_degree. f_equal.
  apply (grid_fold_finite c).
  intros i j Hi Hj. now apply (at2_finite (S n) (S m)).
Qed.

Lemma bezier_d2Sdu2_gsum (n m : nat) (srf : BezierSurface.t) (u v : R) :
  bezier_patch n m srf -> all_finite (BezierSurface.points srf) ->
  let c := fun i j =>
    (IZR (Z.of_nat n) * IZR (Z.of_nat n - 1)
     * (bernstein_poly (Z.of_nat n - 2) (Z.of_nat i - 2) u
        - bernstein_poly (Z.of_nat n - 2) (Z.of_nat i - 1) u)
     - IZR (Z.of_nat n) * IZR (Z.of_nat n - 1)
       * (bernstein_poly (Z.of_nat n - 2) (Z.of_nat i - 1) u
          - bernstein_poly (Z.of_nat n - 2) (Z.of_nat i) u))
    * bernstein_poly (Z.of_nat m) (Z.of_nat j) v in
  BezierSurface.d2Sdu2 srf u v
  = Ok (Pt (gsum c (BezierSurface.points srf) 0 (S n) (S m))
           (gsum c (BezierSurface.points srf) 1 (S n) (S m))
           (gsum c (BezierSurface.points srf) 2 (S n) (S m))).
Proof.
  intros (Hs & Hu & Hv) Hf c.
  unfold BezierSurface.d2Sdu2, BezierSurface.get_control_point_array.
  rewrite Hu, Hv, (as_ndarray_shaped _ _ _ Hs). cbn [bind].
  rewrite (shape_2_shaped _ _ _ Hs). cbn [bind].
  rewrite !range_degree. f_equal.
  apply (grid_fold_finite c).
  intros i j Hi Hj. now apply (at2_finite (S n) (S m)).
Qed.

Lemma bezier_d2Sdv2_gsum (n m : nat) (srf : BezierSurface.t) (u v : R) :
  bezier_patch n m srf -> all_finite (BezierSurface.points srf) ->
  let c := fun i j =>
    bernstein_poly (Z.of_nat n) (Z.of_nat i) u
    * (IZR (Z.of_nat m) * IZR (Z.of_nat m - 1)
       * (bernstein_poly (Z.of_nat m - 2) (Z.of_nat j - 2) v
          - bernstein_poly (Z.of_nat m - 2) (Z.of_nat j - 1) v)
       - IZR (Z.of_nat m) * IZR (Z.of_nat m - 1)
         * (bernstein_poly (Z.of_nat m - 2) (Z.of_nat j - 1) v
            - bernstein_poly (Z.of_nat m - 2) (Z.of_nat j) v)) in
  BezierSurface.d2Sdv2 srf u v
  = Ok (Pt (gsum c (BezierSurface.points srf) 0 (S n) (S m))
           (gsum c (BezierSurface.points srf) 1 (S n) (S m))
           (gsum c (BezierSurface.points srf) 2 (S n) (S m))).
Proof.
  intros (Hs & Hu & Hv) Hf c.
  unfold BezierSurface.d2Sdv2, BezierSurface.get_control_point_array.
  rewrite Hu, Hv, (as_ndarray_shaped _ _ _ Hs). cbn [bind].
  rewrite (shape_2_shaped _ _ _ Hs). cbn [bind].
  rewrite !range_degree. f_equal.
  apply (grid_fold_finite c).
  intros i j Hi Hj. now apply (at2_finite (S n) (S m)).
Qed.

(** A weighted sum of control points whose weights are the products of a
    function of [x] and a constant: its derivative in [x]. *)
Lemma gsum_derivative_first (a : nat -> R -> R) (da : nat -> R) (b : nat -> R)
    (P : list (list Point3D)) (k nu nv : nat) (x : R) :
  (forall i, derivable_pt_lim (a i) x (da i)) ->
  derivable_pt_lim (fun y => gsum (fun i j => a i y * b j) P k nu nv) x
    (gsum (fun i j => da i * b j) P k nu nv).
Proof.
  intros H. unfold gsum.
  apply (derivable_pt_lim_rsum
           (fun i y => rsum (fun j => a i y * b j * coord k (at2 NonFinite P i j)) nv)).
  intros i _.
  apply (derivable_pt_lim_rsum
           (fun j y => a i y * b j * coord k (at2 NonFinite P i j))).
  intros j _.
  apply (derivable_pt_lim_ext (fun y => a i y * (b j * coord k (at2 NonFinite P i j)))).
  - intros z. ring.
  - apply (derivable_pt_lim_value _ _ (da i * (b j * coord k (at2 NonFinite P i j))));
      [|ring].
    now apply derivable_pt_lim_scale_r.
Qed.

Lemma gsum_derivative_second (a : nat -> R) (b : nat -> R -> R) (db : nat -> R)
    (P : list (list Point3D)) (k nu nv : nat) (x : R) :
  (forall j, derivable_pt_lim (b j) x (db j)) ->
  derivable_pt_lim (fun y => gsum (fun i j => a i * b j y) P k nu nv) x
    (gsum (fun i j => a i * db j) P k nu nv).
Proof.
  intros H. unfold gsum.
  apply (derivable_pt_lim_rsum
           (fun i y => rsum (fun j => a i * b j y * coord k (at2 NonFinite P i j)) nv)).
  intros i _.
  apply (derivable_pt_lim_rsum
           (fun j y => a i * b j y * coord k (at2 NonFinite P i j))).
  intros j _.
  apply (derivable_pt_lim_ext (fun y => b j y * (a i * coord k (at2 NonFinite P i j)))).
  - intros z. ring.
  - apply (derivable_pt_lim_value _ _ (db j * (a i * coord k (at2 NonFinite P i j))));
      [|ring].
    now apply derivable_pt_lim_scale_r.
Qed.

(** The derivative of the difference of basis values that [dSdu] and [dSdv]
    use. *)
Lemma basis_difference_derivative (n i : Z) (t : R) :
  derivable_pt_lim
    (fun y => IZR n * (bernstein_poly (n - 1) (i - 1) y - bernstein_poly (n - 1) i y)) t
    (IZR n * IZR (n - 1)
     * (bernstein_poly (n - 2) (i - 2) t - bernstein_poly (n - 2) (i - 1) t)
     - IZR n * IZR (n - 1)
       * (bernstein_poly (n - 2) (i - 1) t - bernstein_poly (n - 2) i t)).
Proof.
  apply (derivable_pt_lim_value _ _
    (IZR n * (IZR (n - 1) * (bernstein_poly (n - 1 - 1) (i - 1 - 1) t
                             - bernstein_poly (n - 1 - 1) (i - 1) t)
              - IZR (n - 1) * (bernstein_poly (n - 1 - 1) (i - 1) t
                               - bernstein_poly (n - 1 - 1) i t)))).
  - apply derivable_pt_lim_scale_l.
    apply (derivable_pt_lim_minus (bernstein_poly (n - 1) (i - 1))
                                  (bernstein_poly (n - 1) i));
      apply bernstein_derivative.
  - replace (n - 1 - 1)%Z with (n - 2)%Z by lia.
    replace (i - 1 - 1)%Z with (i - 2)%Z by lia. ring.
Qed.

(** X1.  On a polynomial patch of finite control points, [dSdu] and [dSdv]
    are the partial derivatives of [evaluate_ndarray]: at every parameter
    pair, each coordinate of the point that [evaluate_ndarray] returns is
    differentiable in [u] and in [v], with the coordinates of [dSdu] and of
    [dSdv] as its derivatives. *)
Theorem first_derivatives_are_partials (n m : nat) (srf : BezierSurface.t) (u v : R) :
  bezier_patch n m srf -> all_finite (BezierSurface.points srf) ->
  exists (S : R -> R -> Point3D) (du dv : Point3D),
    (forall x y, BezierSurface.evaluate_ndarray srf x y = Ok (S x y))
    /\ BezierSurface.dSdu srf u v = Ok du
    /\ BezierSurface.dSdv srf u v = Ok dv
    /\ forall k,
         derivable_pt_lim (fun x => coord k (S x v)) u (coord k du)
         /\ derivable_pt_lim (fun y => coord k (S u y)) v (coord k dv).
Proof.
  intros Hp Hf.
  eexists. eexists. eexists.
  split; [intros x y; apply (bezier_patch_evaluate_gsum n m srf x y Hp Hf)|].
  split; [apply (bezier_dSdu_gsum n m srf u v Hp Hf)|].
  split; [apply (bezier_dSdv_gsum n m srf u v Hp Hf)|].
  intros k. split.
  - apply (derivable_pt_lim_ext
             (fun x => gsum (fun i j => bernstein_poly (Z.of_nat n) (Z.of_nat i) x
                                        * bernstein_poly (Z.of_nat m) (Z.of_nat j) v)
                            (BezierSurface.points srf) k (S n) (S m))).
    { intros z. destruct k as [|[|k]]; reflexivity. }
    apply (derivable_pt_lim_value _ _ _ _
             (gsum_derivative_first
                (fun i => bernstein_poly (Z.of_nat n) (Z.of_nat i))
                (fun i => IZR (Z.of_nat n)
                          * (bernstein_poly (Z.of_nat n - 1) (Z.of_nat i - 1) u
                             - bernstein_poly (Z.of_nat n - 1) (Z.of_nat i) u))
                (fun j => bernstein_poly (Z.of_nat m) (Z.of_nat j) v)
                (BezierSurface.points srf) k (S n) (S m) u
                (fun i => bernstein_derivative _ _ u))).
    destruct k as [|[|k]]; reflexivity.
  - apply (derivable_pt_lim_ext
             (fun y => gsum (fun i j => bernstein_poly (Z.of_nat n) (Z.of_nat i) u
                                        * bernstein_poly (Z.of_nat m) (Z.of_nat j) y)
                            (BezierSurface.points srf) k (S n) (S m))).
    { intros z. destruct k as [|[|k]]; reflexivity. }
    apply (derivable_pt_lim_value _ _ _ _
             (gsum_derivative_second
                (fun i => bernstein_poly (Z.of_nat n) (Z.of_nat i) u)
                (fun j => bernstein_poly (Z.of_nat m) (Z.of_nat j))
                (fun j => IZR (Z.of_nat m)
                          * (bernstein_poly (Z.of_nat m - 1) (Z.of_nat j - 1) v
                             - bernstein_poly (Z.of_nat m - 1) (Z.of_nat j) v))
                (BezierSurface.points srf) k (S n) (S m) v
                (fun j => bernstein_derivative _ _ v))).
    destruct k as [|[|k]]; reflexivity.
Qed.

Lemma first_derivatives_are_partials_witness :
  exists (S : R -> R -> Point3D) (du dv : Point3D),
    (forall x y, BezierSurface.evaluate_ndarray sample_bezier_A x y = Ok (S x y))
    /\ BezierSurface.dSdu sample_bezier_A (1 / 2) (1 / 4) = Ok du
    /\ BezierSurface.dSdv sample_bezier_A (1 / 2) (1 / 4) = Ok dv
    /\ forall k,
         derivable_pt_lim (fun x => coord k (S x (1 / 4))) (1 / 2) (coord k du)
         /\ derivable_pt_lim (fun y => coord k (S (1 / 2) y)) (1 / 4) (coord k dv).
Proof.
  apply (first_derivatives_are_partials 1 1 sample_bezier_A (1 / 2) (1 / 4)).
  - repeat split; repeat constructor.
  - repeat constructor.
Defined.

(** X2.  On a polynomial patch of finite control points, [d2Sdu2] is the
    partial derivative in [u] of [dSdu], and [d2Sdv2] the partial derivative
    in [v] of [dSdv], coordinate by coordinate and at every parameter
    pair. *)
Theorem second_derivatives_are_partials (n m : nat) (srf : BezierSurface.t) (u v : R) :
  bezier_patch n m srf -> all_finite (BezierSurface.points srf) ->
  exists (Du Dv : R -> R -> Point3D) (duu dvv : Point3D),
    (forall x y, BezierSurface.dSdu srf x y = Ok (Du x y))
    /\ (forall x y, BezierSurface.dSdv srf x y = Ok (Dv x y))
    /\ BezierSurface.d2Sdu2 srf u v = Ok duu
    /\ BezierSurface.d2Sdv2 srf u v = Ok dvv
    /\ forall k,
         derivable_pt_lim (fun x => coord k (Du x v)) u (coord k duu)
         /\ derivable_pt_lim (fun y => coord k (Dv u y)) v (coord k dvv).
Proof.
  intros Hp Hf.
  eexists. eexists. eexists. eexists.
  split; [intros x y; apply (bezier_dSdu_gsum n m srf x y Hp Hf)|].
  split; [intros x y; apply (bezier_dSdv_gsum n m srf x y Hp Hf)|].
  split; [apply (bezier_d2Sdu2_gsum n m srf u v Hp Hf)|].
  split; [apply (bezier_d2Sdv2_gsum n m srf u v Hp Hf)|].
  intros k. split.
  - apply (derivable_pt_lim_ext
             (fun x => gsum (fun i j =>
                         IZR (Z.of_nat n)
                         * (bernstein_poly (Z.of_nat n - 1) (Z.of_nat i - 1) x
                            - bernstein_poly (Z.of_nat n - 1) (Z.of_nat i) x)
                         * bernstein_poly (Z.of_nat m) (Z.of_nat j) v)
                       (BezierSurface.points srf) k (S n) (S m))).
    { intros z. destruct k as [|[|k]]; reflexivity. }
    apply (derivable_pt_lim_value _ _ _ _
             (gsum_derivative_first
                (fun i y => IZR (Z.of_nat n)
                            * (bernstein_poly (Z.of_nat n - 1) (Z.of_nat i - 1) y
                               - bernstein_poly (Z.of_nat n - 1) (Z.of_nat i) y))
                _
                (fun j => bernstein_poly (Z.of_nat m) (Z.of_nat j) v)
                (BezierSurface.points srf) k (S n) (S m) u
                (fun i => basis_difference_derivative _ _ u))).
    destruct k as [|[|k]]; reflexivity.
  - apply (derivable_pt_lim_ext
             (fun y => gsum (fun i j =>
                         bernstein_poly (Z.of_nat n) (Z.of_nat i) u
                         * (IZR (Z.of_nat m)
                            * (bernstein_poly (Z.of_nat m - 1) (Z.of_nat j - 1) y
                               - bernstein_poly (Z.of_nat m - 1) (Z.of_nat j) y)))
                       (BezierSurface.points srf) k (S n) (S m))).
    { intros z. destruct k as [|[|k]]; reflexivity. }
    apply (derivable_pt_lim_value _ _ _ _
             (gsum_derivative_second
                (fun i => bernstein_poly (Z.of_nat n) (Z.of_nat i) u)
                (fun j y => IZR (Z.of_nat m)
                            * (bernstein_poly (Z.of_nat m - 1) (Z.of_nat j - 1) y
                               - bernstein_poly (Z.of_nat m - 1) (Z.of_nat j) y))
                _
                (BezierSurface.points srf) k (S n) (S m) v
                (fun j => basis_difference_derivative _ _ v))).
    destruct k as [|[|k]]; reflexivity.
Qed.

Lemma second_derivatives_are_partials_witness :
  exists (Du Dv : R -> R -> Point3D) (duu dvv : Point3D),
    (forall x y, BezierSurface.dSdu sample_bezier_A x y = Ok (Du x y))
    /\ (forall x y, BezierSurface.dSdv sample_bezier_A x y = Ok (Dv x y))
    /\ BezierSurface.d2Sdu2 sample_bezier_A (1 / 2) (1 / 4) = Ok duu
    /\ BezierSurface.d2Sdv2 sample_bezier_A (1 / 2) (1 / 4) = Ok dvv
    /\ forall k,
         derivable_pt_lim (fun x => coord k (Du x (1 / 4))) (1 / 2) (coord k duu)
         /\ derivable_pt_lim (fun y => coord k (Dv (1 / 2) y)) (1 / 4) (coord k dvv).
Proof.
  apply (second_derivatives_are_partials 1 1 sample_bezier_A (1 / 2) (1 / 4)).
  - repeat split; repeat constructor.
  - repeat constructor.
Defined.

(** ** Positional continuity of polynomial patches: the frame and the edge *)

(** [enforce_g0] on polynomial patches writes the boundary row and nothing
    else. *)
Lemma bezier_enforce_g0_frame (nA mA nB mB : nat) (A B : BezierSurface.t)
    (eB eA : SurfaceEdge) :
  bezier_patch nA mA A -> bezier_patch nB mB B ->
  parallel_degree nB mB eB = parallel_degree nA mA eA ->
  exists B',
    BezierSurface.enforce_g0 A eB eA B = (Ok tt, B')
    /\ bezier_patch nB mB B'
    /\ (forall row, (row <= parallel_degree nB mB eB)%nat ->
          edge_read NonFinite nB mB eB row 0 (BezierSurface.points B')
          = edge_read NonFinite nA mA eA row 0 (BezierSurface.points A))
    /\ (forall row c, (row <= parallel_degree nB mB eB)%nat ->
          (1 <= c <= perpendicular_degree nB mB eB)%nat ->
          edge_read NonFinite nB mB eB row c (BezierSurface.points B')
          = edge_read NonFinite nB mB eB row c (BezierSurface.points B)).
Proof.
  intros HA HB Hpar.
  unfold BezierSurface.enforce_g0.
  unfold mbind at 1. unfold mread at 1.
  rewrite (bezier_parallel_degree nB mB B eB HB),
          (bezier_parallel_degree nA mA A eA HA), Hpar, Z.eqb_refl.
  cbn [assert]. unfold mbind at 1. unfold mread at 1.
  rewrite (bezier_parallel_degree nB mB B eB HB), range_degree.
  destruct (mfor_invariant
    (fun k s =>
       bezier_patch nB mB s
       /\ (forall row, (row < k)%nat ->
             edge_read NonFinite nB mB eB row 0 (BezierSurface.points s)
             = edge_read NonFinite nA mA eA row 0 (BezierSurface.points A))
       /\ (forall row c, (row <= parallel_degree nB mB eB)%nat ->
             (1 <= c <= perpendicular_degree nB mB eB)%nat ->
             edge_read NonFinite nB mB eB row c (BezierSurface.points s)
             = edge_read NonFinite nB mB eB row c (BezierSurface.points B)))
    (fun row_index =>
       p <~ mlift (BezierSurface.get_point A (Z.of_nat row_index) 0 eA) ;;
       BezierSurface.set_point p (Z.of_nat row_index) 0 eB)
    (S (parallel_degree nB mB eB)) B) as [B' [Hrun (HB' & Hrows & Hframe)]].
  - split; [exact HB|]. split; [intros row Hrow; lia|]. intros; reflexivity.
  - intros k s1 Hk (Hs1 & Hprev & Hfr).
    assert (HkA : (k <= parallel_degree nA mA eA)%nat) by lia.
    assert (HkB : (k <= parallel_degree nB mB eB)%nat) by lia.
    eexists. split.
    + unfold mbind, mlift.
      rewrite (proj1 (bezier_get_point_at nA mA A eA k HA HkA)).
      rewrite (proj1 (bezier_set_point_at nB mB s1 eB k _ Hs1 HkB)).
      reflexivity.
    + split; [now apply bezier_patch_with_points|].
      destruct Hs1 as (Hp1 & _).
      split.
      * intros row Hrow. simpl.
        rewrite edge_read_write by (auto; lia).
        destruct (Nat.eqb_spec k row) as [<-|Hne]; simpl; [reflexivity|].
        apply Hprev. lia.
      * intros row c Hrow Hc. simpl.
        rewrite edge_read_write by (auto; lia).
        destruct (Nat.eqb_spec 0 c) as [<-|Hne]; [lia|].
        rewrite andb_false_r. now apply Hfr.
  - exists B'. split; [exact Hrun|]. split; [exact HB'|]. split.
    + intros row Hrow. apply Hrows. lia.
    + intros row c Hrow Hc. apply Hframe; lia.
Qed.

(** With different degrees along the two edges the assert fails, and the
    receiver is as it was. *)
Lemma bezier_enforce_g0_mismatch (A B : BezierSurface.t) (eB eA : SurfaceEdge) :
  BezierSurface.get_parallel_degree B eB <> BezierSurface.get_parallel_degree A eA ->
  BezierSurface.enforce_g0 A eB eA B = (Raise AssertionError, B).
Proof.
  intros Hne. unfold BezierSurface.enforce_g0.
  unfold mbind at 1. unfold mread at 1.
  destruct (Z.eqb_spec (BezierSurface.get_parallel_degree B eB)
                       (BezierSurface.get_parallel_degree A eA)); [contradiction|].
  reflexivity.
Qed.

(** X3.  [B.enforce_g0(A, edge_B, edge_A)] on polynomial patches whose
    edges have the same degree along them succeeds, makes every control
    point on [edge_B] equal to the control point of the same row on
    [edge_A], and leaves every other control point of [B] as it was.  With
    different degrees along the two edges it raises [AssertionError] and
    [B] is unchanged. *)
Theorem bezier_enforce_g0_boundary (nA mA nB mB : nat) (A B : BezierSurface.t)
    (eB eA : SurfaceEdge) :
  bezier_patch nA mA A -> bezier_patch nB mB B ->
  (BezierSurface.get_parallel_degree B eB = BezierSurface.get_parallel_degree A eA ->
   exists B',
     BezierSurface.enforce_g0 A eB eA B = (Ok tt, B')
     /\ bezier_patch nB mB B'
     /\ (forall row, (row <= parallel_degree nB mB eB)%nat ->
           BezierSurface.get_point B' (Z.of_nat row) 0 eB
           = BezierSurface.get_point A (Z.of_nat row) 0 eA)
     /\ (forall row c, (row <= parallel_degree nB mB eB)%nat ->
           (1 <= c <= perpendicular_degree nB mB eB)%nat ->
           edge_read NonFinite nB mB eB row c (BezierSurface.points B')
           = edge_read NonFinite nB mB eB row c (BezierSurface.points B)))
  /\ (BezierSurface.get_parallel_degree B eB <> BezierSurface.get_parallel_degree A eA ->
      BezierSurface.enforce_g0 A eB eA B = (Raise AssertionError, B)).
Proof.
  intros HA HB. split.
  - intros Hpar.
    rewrite (bezier_parallel_degree nB mB B eB HB),
            (bezier_parallel_degree nA mA A eA HA) in Hpar.
    apply Nat2Z.inj in Hpar.
    destruct (bezier_enforce_g0_frame nA mA nB mB A B eB eA HA HB Hpar)
      as (B' & Hrun & HB' & Hrows & Hframe).
    exists B'. split; [exact Hrun|]. split; [exact HB'|]. split; [|exact Hframe].
    intros row Hrow.
    rewrite (proj1 (bezier_get_point_at nB mB B' eB row HB' Hrow)).
    rewrite (proj1 (bezier_get_point_at nA mA A eA row HA ltac:(lia))).
    f_equal. now apply Hrows.
  - apply bezier_enforce_g0_mismatch.
Qed.

Lemma bezier_enforce_g0_boundary_witness :
  exists B',
    BezierSurface.enforce_g0 sample_bezier_A West East sample_bezier_B = (Ok tt, B')
    /\ bezier_patch 1 1 B'
    /\ (forall row, (row <= parallel_degree 1 1 West)%nat ->
          BezierSurface.get_point B' (Z.of_nat row) 0 West
          = BezierSurface.get_point sample_bezier_A (Z.of_nat row) 0 East)
    /\ (forall row c, (row <= parallel_degree 1 1 West)%nat ->
          (1 <= c <= perpendicular_degree 1 1 West)%nat ->
          edge_read NonFinite 1 1 West row c (BezierSurface.points B')
          = edge_read NonFinite 1 1 West row c (BezierSurface.points sample_bezier_B)).
Proof.
  refine (proj1 (bezier_enforce_g0_boundary 1 1 1 1 sample_bezier_A sample_bezier_B
                   West East _ _) _).
  - repeat split; repeat constructor.
  - repeat split; repeat constructor.
  - reflexivity.
Defined.

(** ** The boundary curves of a polynomial patch *)

(** A double sum whose coefficient lives on one column, or on one row. *)
Lemma rsum2_col_single (f : nat -> nat -> R) (nu nv k : nat) :
  (k < nv)%nat ->
  (forall i j, (i < nu)%nat -> (j < nv)%nat -> j <> k -> f i j = 0) ->
  rsum (fun i => rsum (fun j => f i j) nv) nu = rsum (fun i => f i k) nu.
Proof.
  intros Hk H. apply rsum_ext. intros i Hi.
  apply (rsum_single k); auto.
Qed.

Lemma rsum2_row_single (f : nat -> nat -> R) (nu nv k : nat) :
  (k < nu)%nat ->
  (forall i j, (i < nu)%nat -> (j < nv)%nat -> i <> k -> f i j = 0) ->
  rsum (fun i => rsum (fun j => f i j) nv) nu = rsum (fun j => f k j) nv.
Proof.
  intros Hk H. rewrite (rsum_single k); auto.
  intros i Hi Hne. apply rsum_zero. intros j Hj. now apply H.
Qed.

(** The value of a basis function at an end of the parameter range. *)
Ltac basis_at_end :=
  rewrite ?bernstein_at_0, ?bernstein_at_1;
  repeat match goal with
         | |- context [Nat.eqb ?x ?y] => destruct (Nat.eqb_spec x y)
         end;
  try lia; try reflexivity; try contradiction.

(** The point of a boundary curve: the control points of the edge weighted
    by the basis of the degree along the edge. *)
Lemma bezier_point_on_edge (n m : nat) (srf : BezierSurface.t)
    (edge : SurfaceEdge) (t : R) :
  bezier_patch n m srf -> all_finite (BezierSurface.points srf) ->
  let E := fun k =>
    rsum (fun row =>
            bernstein_poly (Z.of_nat (parallel_degree n m edge)) (Z.of_nat row) t
            * coord k (edge_read NonFinite n m edge row 0 (BezierSurface.points srf)))
         (S (parallel_degree n m edge)) in
  BezierSurface.point_on_edge srf edge t = Ok (Pt (E 0%nat) (E 1%nat) (E 2%nat)).
Proof.
  intros Hp Hf E.
  assert (Hcol : forall (a b : nat -> R) (k kc : nat),
    (kc < S m)%nat -> (forall j, j <> kc -> b j = 0) -> b kc = 1 ->
    gsum (fun i j => a i * b j) (BezierSurface.points srf) k (S n) (S m)
    = rsum (fun i => a i * coord k (at2 NonFinite (BezierSurface.points srf) i kc))
           (S n)).
  { intros a b k kc Hkc Hz H1. unfold gsum.
    rewrite (rsum2_col_single
               (fun i j => a i * b j
                           * coord k (at2 NonFinite (BezierSurface.points srf) i j))
               (S n) (S m) kc Hkc).
    - apply rsum_ext. intros i _. rewrite H1. ring.
    - intros i j _ _ Hj. rewrite (Hz j Hj). ring. }
  assert (Hrow : forall (a b : nat -> R) (k kr : nat),
    (kr < S n)%nat -> (forall i, i <> kr -> a i = 0) -> a kr = 1 ->
    gsum (fun i j => a i * b j) (BezierSurface.points srf) k (S n) (S m)
    = rsum (fun j => b j * coord k (at2 NonFinite (BezierSurface.points srf) kr j))
           (S m)).
  { intros a b k kr Hkr Hz H1. unfold gsum.
    rewrite (rsum2_row_single
               (fun i j => a i * b j
                           * coord k (at2 NonFinite (BezierSurface.points srf) i j))
               (S n) (S m) kr Hkr).
    - apply rsum_ext. intros j _. rewrite H1. ring.
    - intros i j _ _ Hi. rewrite (Hz i Hi). ring. }
  unfold E, edge_read.
  destruct edge; simpl BezierSurface.point_on_edge; simpl parallel_degree;
    simpl edge_cell; simpl fst; simpl snd; rewrite ?Nat.sub_0_r;
    rewrite (bezier_patch_evaluate_gsum n m) by assumption; cbv zeta;
    f_equal.
  - f_equal;
      apply (Hcol _ (fun j => bernstein_poly (Z.of_nat m) (Z.of_nat j) 1) _ m);
      try lia; try (intros j Hj); basis_at_end.
  - f_equal;
      apply (Hcol _ (fun j => bernstein_poly (Z.of_nat m) (Z.of_nat j) 0) _ 0%nat);
      try lia; try (intros j Hj); basis_at_end.
  - f_equal;
      apply (Hrow (fun i => bernstein_poly (Z.of_nat n) (Z.of_nat i) 1) _ _ n);
      try lia; try (intros i Hi); basis_at_end.
  - f_equal;
      apply (Hrow (fun i => bernstein_poly (Z.of_nat n) (Z.of_nat i) 0) _ _ 0%nat);
      try lia; try (intros i Hi); basis_at_end.
Qed.

(** X4.  After [B.enforce_g0(A, edge_B, edge_A)] on polynomial patches of
    finite control points, the boundary curves agree: [B.get_edge(edge_B)]
    and [A.get_edge(edge_A)] return the same points, for every number of
    samples (the arrays that [verify_g0] compares). *)
Theorem bezier_enforce_g0_edges_agree (nA mA nB mB : nat) (A B : BezierSurface.t)
    (eB eA : SurfaceEdge) :
  bezier_patch nA mA A -> bezier_patch nB mB B ->
  all_finite (BezierSurface.points A) -> all_finite (BezierSurface.points B) ->
  BezierSurface.get_parallel_degree B eB = BezierSurface.get_parallel_degree A eA ->
  exists B',
    BezierSurface.enforce_g0 A eB eA B = (Ok tt, B')
    /\ (forall t, BezierSurface.point_on_edge B' eB t
                  = BezierSurface.point_on_edge A eA t)
    /\ forall n_points,
         BezierSurface.get_edge B' eB n_points = BezierSurface.get_edge A eA n_points.
Proof.
  intros HA HB HfA HfB Hpar.
  rewrite (bezier_parallel_degree nB mB B eB HB),
          (bezier_parallel_degree nA mA A eA HA) in Hpar.
  apply Nat2Z.inj in Hpar.
  destruct (bezier_enforce_g0_ok nA mA nB mB A B eB eA HA HB HfA HfB Hpar)
    as (B' & Hrun & HB' & HfB' & Hrows).
  assert (Hpt : forall t, BezierSurface.point_on_edge B' eB t
                          = BezierSurface.point_on_edge A eA t).
  { intros t.
    rewrite (bezier_point_on_edge nB mB B' eB t HB' HfB').
    rewrite (bezier_point_on_edge nA mA A eA t HA HfA).
    cbv zeta. rewrite Hpar. f_equal.
    f_equal; apply rsum_ext; intros row Hrow;
      rewrite Hrows by lia; reflexivity. }
  exists B'. split; [exact Hrun|]. split; [exact Hpt|].
  intros n_points. unfold BezierSurface.get_edge.
  destruct (linspace 0 1 n_points) as [ts|e]; [|reflexivity]. cbn [bind].
  now apply comprehension_ext.
Qed.

Lemma bezier_enforce_g0_edges_agree_witness :
  exists B',
    BezierSurface.enforce_g0 sample_bezier_A West East sample_bezier_B = (Ok tt, B')
    /\ (forall t, BezierSurface.point_on_edge B' West t
                  = BezierSurface.point_on_edge sample_bezier_A East t)
    /\ forall n_points,
         BezierSurface.get_edge B' West n_points
         = BezierSurface.get_edge sample_bezier_A East n_points.
Proof.
  apply (bezier_enforce_g0_edges_agree 1 1 1 1 sample_bezier_A sample_bezier_B
           West East).
  - repeat split; repeat constructor.
  - repeat split; repeat constructor.
  - repeat constructor.
  - repeat constructor.
  - reflexivity.
Defined.

(** ** Tangential continuity of polynomial patches: any ratio, and the
    degenerate degrees *)

Lemma comprehension_map {A B : Type} (f g : A -> result B) (h : B -> B) (xs : list A) :
  (forall x, exists y, g x = Ok y /\ f x = Ok (h y)) ->
  exists ys, comprehension g xs = Ok ys /\ comprehension f xs = Ok (map h ys).
Proof.
  intros H. induction xs as [|x xs (ys & Hg & Hf)].
  - exists []. split; reflexivity.
  - destruct (H x) as (y & Hgx & Hfx).
    exists (y :: ys). simpl. rewrite Hgx, Hfx, Hg, Hf. split; reflexivity.
Qed.

(** The second row inward from an edge does not exist on a patch of degree
    zero across that edge. *)
Lemma bezier_get_point_second_row_missing (n m : nat) (srf : BezierSurface.t)
    (edge : SurfaceEdge) :
  bezier_patch n m srf -> perpendicular_degree n m edge = 0%nat ->
  BezierSurface.get_point srf 0 1 edge = Raise IndexError.
Proof.
  intros (Hs & _) Hq.
  destruct (getitem_row0 n m _ Hs) as (row0 & Hrow0 & Hlen).
  destruct Hs as [Hr _].
  unfold BezierSurface.get_point, getitem2.
  destruct edge; simpl in Hq; subst; simpl Z.opp.
  - rewrite Hrow0. cbn [bind]. unfold getitem. rewrite Hlen. reflexivity.
  - rewrite Hrow0. cbn [bind]. unfold getitem. rewrite Hlen. reflexivity.
  - unfold getitem. rewrite Hr. reflexivity.
  - unfold getitem. rewrite Hr. reflexivity.
Qed.

(** X6.  [B.enforce_g0g1(A, f, edge_B, edge_A)] on polynomial patches with
    a degree zero across an edge: the boundary row of [B] is overwritten
    first, as by [enforce_g0], and then the call fails.  With the degree
    zero across [edge_B] the ratio of the degrees is a division by zero
    ([ZeroDivisionError]); with a degree of at least one across [edge_B]
    and zero across [edge_A], the second row of [A] does not exist
    ([IndexError]).  In both cases [B] is left with the new boundary row. *)
Theorem bezier_enforce_g0g1_degenerate (nA mA nB mB : nat) (A B : BezierSurface.t)
    (f : R) (eB eA : SurfaceEdge) :
  bezier_patch nA mA A -> bezier_patch nB mB B ->
  BezierSurface.get_parallel_degree B eB = BezierSurface.get_parallel_degree A eA ->
  exists B0,
    BezierSurface.enforce_g0 A eB eA B = (Ok tt, B0)
    /\ (BezierSurface.get_perpendicular_degree B eB = 0%Z ->
        BezierSurface.enforce_g0g1 A f eB eA B = (Raise ZeroDivisionError, B0))
    /\ ((1 <= BezierSurface.get_perpendicular_degree B eB)%Z ->
        BezierSurface.get_perpendicular_degree A eA = 0%Z ->
        BezierSurface.enforce_g0g1 A f eB eA B = (Raise IndexError, B0)).
Proof.
  intros HA HB Hpar.
  rewrite (bezier_parallel_degree nB mB B eB HB),
          (bezier_parallel_degree nA mA A eA HA) in Hpar.
  rewrite (bezier_perpendicular_degree nA mA A eA HA).
  rewrite (bezier_perpendicular_degree nB mB B eB HB).
  apply Nat2Z.inj in Hpar.
  destruct (bezier_enforce_g0_frame nA mA nB mB A B eB eA HA HB Hpar)
    as (B0 & Hg0 & HB0 & _).
  exists B0. split; [exact Hg0|].
  split; [intros Hq|intros HqB HqA];
    unfold BezierSurface.enforce_g0g1;
    unfold mbind at 1; rewrite Hg0;
    unfold mbind at 1; unfold mread at 1;
    rewrite (bezier_perpendicular_degree nB mB B0 eB HB0),
            (bezier_perpendicular_degree nA mA A eA HA);
    unfold pydiv.
  - rewrite Hq. destruct (Req_dec_T 0 0); [reflexivity|contradiction].
  - destruct (Req_dec_T (IZR (Z.of_nat (perpendicular_degree nB mB eB))) 0)
      as [Hz|_].
    { apply eq_IZR in Hz. lia. }
    unfold mbind at 1. unfold mread at 1.
    rewrite (bezier_parallel_degree nB mB B0 eB HB0), range_degree.
    cbn [seq mfor]. unfold mbind, mread, mlift.
    rewrite (proj1 (bezier_get_point_at nB mB B0 eB 0 HB0 ltac:(lia))).
    rewrite (proj1 (bezier_get_point_at nA mA A eA 0 HA ltac:(lia))).
    change (Z.of_nat 0) with 0%Z.
    rewrite (bezier_get_point_second_row_missing nA mA A eA HA ltac:(lia)).
    reflexivity.
Qed.

Lemma bezier_enforce_g0g1_degenerate_witness :
  exists B0,
    BezierSurface.enforce_g0 sample_bezier_A South South sample_bezier_flat = (Ok tt, B0)
    /\ BezierSurface.enforce_g0g1 sample_bezier_A 1 South South sample_bezier_flat
       = (Raise ZeroDivisionError, B0).
Proof.
  destruct (bezier_enforce_g0g1_degenerate 1 1 1 0 sample_bezier_A sample_bezier_flat 1
              South South) as (B0 & Hg0 & Hzero & _).
  - repeat split; repeat constructor.
  - repeat split; repeat constructor.
  - reflexivity.
  - exists B0. split; [exact Hg0|]. apply Hzero. reflexivity.
Defined.

(** ** Curvature continuity of polynomial patches *)

(** Only the terms at [k1], [k2] and [k3] survive. *)
Lemma rsum_triple (k1 k2 k3 : nat) (f : nat -> R) (n : nat) :
  (k1 < n)%nat -> (k2 < n)%nat -> (k3 < n)%nat ->
  k1 <> k2 -> k1 <> k3 -> k2 <> k3 ->
  (forall i, (i < n)%nat -> i <> k1 -> i <> k2 -> i <> k3 -> f i = 0) ->
  rsum f n = f k1 + f k2 + f k3.
Proof.
  induction n as [|n IH]; intros H1 H2 H3 N12 N13 N23 H; [lia|]. simpl.
  destruct (Nat.eq_dec k1 n) as [->|Hn1].
  { rewrite (rsum_pair k2 k3); [lra|lia|lia|assumption|].
    intros i Hi Hi2 Hi3. apply H; lia. }
  destruct (Nat.eq_dec k2 n) as [->|Hn2].
  { rewrite (rsum_pair k1 k3); [lra|lia|lia|assumption|].
    intros i Hi Hi1 Hi3. apply H; lia. }
  destruct (Nat.eq_dec k3 n) as [->|Hn3].
  { rewrite (rsum_pair k1 k2); [lra|lia|lia|assumption|].
    intros i Hi Hi1 Hi2. apply H; lia. }
  rewrite IH; try lia; [|intros; apply H; lia].
  rewrite (H n); [lra|lia|congruence|congruence|congruence].
Qed.

(** The basis at the two ends of the parameter range, for every integer
    index. *)
Lemma bernstein_index_at_0 (d : nat) (j : Z) :
  bernstein_poly (Z.of_nat d) j 0 = if (j =? 0)%Z then 1 else 0.
Proof.
  destruct (Z_lt_le_dec j 0) as [Hneg|Hpos].
  - rewrite bernstein_out_of_range by lia.
    destruct (Z.eqb_spec j 0); [lia|reflexivity].
  - rewrite <- (Z2Nat.id j) at 1 by lia. rewrite bernstein_at_0.
    destruct (Z.eqb_spec j 0) as [->|Hne]; [reflexivity|].
    destruct (Nat.eqb_spec (Z.to_nat j) 0); [lia|reflexivity].
Qed.

Lemma bernstein_index_at_1 (d : nat) (j : Z) :
  bernstein_poly (Z.of_nat d) j 1 = if (j =? Z.of_nat d)%Z then 1 else 0.
Proof.
  destruct (Z_lt_le_dec j 0) as [Hneg|Hpos].
  - rewrite bernstein_out_of_range by lia.
    destruct (Z.eqb_spec j (Z.of_nat d)); [lia|reflexivity].
  - rewrite <- (Z2Nat.id j) at 1 by lia. rewrite bernstein_at_1.
    destruct (Z.eqb_spec j (Z.of_nat d)) as [->|Hne].
    + now rewrite Nat2Z.id, Nat.eqb_refl.
    + destruct (Nat.eqb_spec (Z.to_nat j) d); [lia|reflexivity].
Qed.

(** The second difference of the basis at the two ends: only the three
    functions next to the end are not zero. *)
Lemma basis_second_difference_at_0 (n i : nat) :
  (2 <= n)%nat ->
  IZR (Z.of_nat n) * IZR (Z.of_nat n - 1)
  * (bernstein_poly (Z.of_nat n - 2) (Z.of_nat i - 2) 0
     - bernstein_poly (Z.of_nat n - 2) (Z.of_nat i - 1) 0)
  - IZR (Z.of_nat n) * IZR (Z.of_nat n - 1)
    * (bernstein_poly (Z.of_nat n - 2) (Z.of_nat i - 1) 0
       - bernstein_poly (Z.of_nat n - 2) (Z.of_nat i) 0)
  = if Nat.eqb i 0 then INR n * (INR n - 1)
    else if Nat.eqb i 1 then - 2 * (INR n * (INR n - 1))
    else if Nat.eqb i 2 then INR n * (INR n - 1) else 0.
Proof.
  intros Hn.
  replace (Z.of_nat n - 2)%Z with (Z.of_nat (n - 2)) by lia.
  rewrite !bernstein_index_at_0, minus_IZR, <- INR_IZR_INZ.
  destruct i as [|[|[|i]]]; simpl Nat.eqb; cbv iota;
    repeat match goal with
           | |- context [Z.eqb ?x ?y] => destruct (Z.eqb_spec x y)
           end; try lia; ring.
Qed.

Lemma basis_second_difference_at_1 (n i : nat) :
  (2 <= n)%nat ->
  IZR (Z.of_nat n) * IZR (Z.of_nat n - 1)
  * (bernstein_poly (Z.of_nat n - 2) (Z.of_nat i - 2) 1
     - bernstein_poly (Z.of_nat n - 2) (Z.of_nat i - 1) 1)
  - IZR (Z.of_nat n) * IZR (Z.of_nat n - 1)
    * (bernstein_poly (Z.of_nat n - 2) (Z.of_nat i - 1) 1
       - bernstein_poly (Z.of_nat n - 2) (Z.of_nat i) 1)
  = if Nat.eqb i n then INR n * (INR n - 1)
    else if Nat.eqb i (n - 1) then - 2 * (INR n * (INR n - 1))
    else if Nat.eqb i (n - 2) then INR n * (INR n - 1) else 0.
Proof.
  intros Hn.
  replace (Z.of_nat n - 2)%Z with (Z.of_nat (n - 2)) by lia.
  rewrite !bernstein_index_at_1, minus_IZR, <- INR_IZR_INZ.
  repeat match goal with
         | |- context [Z.eqb ?x ?y] => destruct (Z.eqb_spec x y)
         end;
  repeat match goal with
         | |- context [Nat.eqb ?x ?y] => destruct (Nat.eqb_spec x y)
         end; try lia; ring.
Qed.

(** The second derivative across an edge of a patch of finite points: the
    degree across the edge, times that degree less one, times the sum of
    the second differences of the three boundary rows. *)
Lemma bezier_cross_second_derivative (n m : nat) (srf : BezierSurface.t)
    (edge : SurfaceEdge) (t : R) :
  bezier_patch n m srf -> all_finite (BezierSurface.points srf) ->
  (2 <= perpendicular_degree n m edge)%nat ->
  let D := fun k =>
    INR (perpendicular_degree n m edge) * (INR (perpendicular_degree n m edge) - 1)
    * edge_second_difference_sum n m edge t (BezierSurface.points srf) k in
  BezierSurface.second_deriv_on_edge srf edge true t
  = Ok (Pt (D 0%nat) (D 1%nat) (D 2%nat)).
Proof.
  intros Hp Hf Hq D.
  set (P := BezierSurface.points srf).
  assert (Hrows : forall (a b : nat -> R) (k k1 k2 k3 : nat) (s : R),
    (k1 < S n)%nat -> (k2 < S n)%nat -> (k3 < S n)%nat ->
    k1 <> k2 -> k1 <> k3 -> k2 <> k3 ->
    (forall i, i <> k1 -> i <> k2 -> i <> k3 -> a i = 0) ->
    a k1 = s -> a k2 = - 2 * s -> a k3 = s ->
    gsum (fun i j => a i * b j) P k (S n) (S m)
    = s * rsum (fun j => b j * (coord k (at2 NonFinite P k1 j)
                                - 2 * coord k (at2 NonFinite P k2 j)
                                + coord k (at2 NonFinite P k3 j)))
               (S m)).
  { intros a b k k1 k2 k3 s H1 H2 H3 N12 N13 N23 Hz Ha1 Ha2 Ha3. unfold gsum.
    rewrite (rsum_triple k1 k2 k3); auto.
    - rewrite <- rsum_scale, <- !rsum_plus. apply rsum_ext. intros j _.
      rewrite Ha1, Ha2, Ha3. ring.
    - intros i _ Hi1 Hi2 Hi3. apply rsum_zero. intros j _.
      rewrite (Hz i); auto. ring. }
  assert (Hcols : forall (a b : nat -> R) (k k1 k2 k3 : nat) (s : R),
    (k1 < S m)%nat -> (k2 < S m)%nat -> (k3 < S m)%nat ->
    k1 <> k2 -> k1 <> k3 -> k2 <> k3 ->
    (forall j, j <> k1 -> j <> k2 -> j <> k3 -> b j = 0) ->
    b k1 = s -> b k2 = - 2 * s -> b k3 = s ->
    gsum (fun i j => a i * b j) P k (S n) (S m)
    = s * rsum (fun i => a i * (coord k (at2 NonFinite P i k1)
                                - 2 * coord k (at2 NonFinite P i k2)
                                + coord k (at2 NonFinite P i k3)))
               (S n)).
  { intros a b k k1 k2 k3 s H1 H2 H3 N12 N13 N23 Hz Hb1 Hb2 Hb3. unfold gsum.
    rewrite <- rsum_scale. apply rsum_ext. intros i _.
    rewrite (rsum_triple k1 k2 k3); auto.
    - rewrite Hb1, Hb2, Hb3. ring.
    - intros j _ Hj1 Hj2 Hj3. rewrite (Hz j); auto. ring. }
  unfold D, edge_second_difference_sum, edge_read. fold P.
  destruct edge; simpl in Hq;
    simpl BezierSurface.second_deriv_on_edge;
    simpl parallel_degree; simpl perpendicular_degree; simpl edge_cell;
    simpl fst; simpl snd; rewrite ?Nat.sub_0_r.
  - (* North *)
    rewrite (bezier_d2Sdv2_gsum n m) by assumption. cbv zeta. fold P. f_equal.
    f_equal;
      apply (Hcols _ (fun j =>
                        IZR (Z.of_nat m) * IZR (Z.of_nat m - 1)
                        * (bernstein_poly (Z.of_nat m - 2) (Z.of_nat j - 2) 1
                           - bernstein_poly (Z.of_nat m - 2) (Z.of_nat j - 1) 1)
                        - IZR (Z.of_nat m) * IZR (Z.of_nat m - 1)
                          * (bernstein_poly (Z.of_nat m - 2) (Z.of_nat j - 1) 1
                             - bernstein_poly (Z.of_nat m - 2) (Z.of_nat j) 1))
               _ m (m - 1)%nat (m - 2)%nat); try lia;
      try (intros j Hj1 Hj2 Hj3); rewrite basis_second_difference_at_1 by lia;
      repeat match goal with
             | |- context [Nat.eqb ?x ?y] => destruct (Nat.eqb_spec x y)
             end; try lia; try ring.
  - (* South *)
    rewrite (bezier_d2Sdv2_gsum n m) by assumption. cbv zeta. fold P. f_equal.
    f_equal;
      apply (Hcols _ (fun j =>
                        IZR (Z.of_nat m) * IZR (Z.of_nat m - 1)
                        * (bernstein_poly (Z.of_nat m - 2) (Z.of_nat j - 2) 0
                           - bernstein_poly (Z.of_nat m - 2) (Z.of_nat j - 1) 0)
                        - IZR (Z.of_nat m) * IZR (Z.of_nat m - 1)
                          * (bernstein_poly (Z.of_nat m - 2) (Z.of_nat j - 1) 0
                             - bernstein_poly (Z.of_nat m - 2) (Z.of_nat j) 0))
               _ 0%nat 1%nat 2%nat); try lia;
      try (intros j Hj1 Hj2 Hj3); rewrite basis_second_difference_at_0 by lia;
      repeat match goal with
             | |- context [Nat.eqb ?x ?y] => destruct (Nat.eqb_spec x y)
             end; try lia; try ring.
  - (* East *)
    rewrite (bezier_d2Sdu2_gsum n m) by assumption. cbv zeta. fold P. f_equal.
    f_equal;
      apply (Hrows (fun i =>
                      IZR (Z.of_nat n) * IZR (Z.of_nat n - 1)
                      * (bernstein_poly (Z.of_nat n - 2) (Z.of_nat i - 2) 1
                         - bernstein_poly (Z.of_nat n - 2) (Z.of_nat i - 1) 1)
                      - IZR (Z.of_nat n) * IZR (Z.of_nat n - 1)
                        * (bernstein_poly (Z.of_nat n - 2) (Z.of_nat i - 1) 1
                           - bernstein_poly (Z.of_nat n - 2) (Z.of_nat i) 1))
               _ _ n (n - 1)%nat (n - 2)%nat); try lia;
      try (intros i Hi1 Hi2 Hi3); rewrite basis_second_difference_at_1 by lia;
      repeat match goal with
             | |- context [Nat.eqb ?x ?y] => destruct (Nat.eqb_spec x y)
             end; try lia; try ring.
  - (* West *)
    rewrite (bezier_d2Sdu2_gsum n m) by assumption. cbv zeta. fold P. f_equal.
    f_equal;
      apply (Hrows (fun i =>
                      IZR (Z.of_nat n) * IZR (Z.of_nat n - 1)
                      * (bernstein_poly (Z.of_nat n - 2) (Z.of_nat i - 2) 0
                         - bernstein_poly (Z.of_nat n - 2) (Z.of_nat i - 1) 0)
                      - IZR (Z.of_nat n) * IZR (Z.of_nat n - 1)
                        * (bernstein_poly (Z.of_nat n - 2) (Z.of_nat i - 1) 0
                           - bernstein_poly (Z.of_nat n - 2) (Z.of_nat i) 0))
               _ _ 0%nat 1%nat 2%nat); try lia;
      try (intros i Hi1 Hi2 Hi3); rewrite basis_second_difference_at_0 by lia;
      repeat match goal with
             | |- context [Nat.eqb ?x ?y] => destruct (Nat.eqb_spec x y)
             end; try lia; try ring.
Qed.

Lemma bezier_get_point_third (n m : nat) (srf : BezierSurface.t)
    (edge : SurfaceEdge) (row : nat) :
  bezier_patch n m srf ->
  (row <= parallel_degree n m edge)%nat ->
  (2 <= perpendicular_degree n m edge)%nat ->
  BezierSurface.get_point srf (Z.of_nat row) 2 edge
  = Ok (edge_read NonFinite n m edge row 2 (BezierSurface.points srf)).
Proof.
  intros (Hs & _) Hrow Hc. unfold BezierSurface.get_point.
  now apply (edge_get_cell NonFinite n m _ edge row 2).
Qed.

Lemma bezier_set_point_third (n m : nat) (srf : BezierSurface.t)
    (edge : SurfaceEdge) (row : nat) (p : Point3D) :
  bezier_patch n m srf ->
  (row <= parallel_degree n m edge)%nat ->
  (2 <= perpendicular_degree n m edge)%nat ->
  BezierSurface.set_point p (Z.of_nat row) 2 edge srf
  = (Ok tt,
     BezierSurface.with_points srf
       (edge_write n m edge row 2 p (BezierSurface.points srf))).
Proof.
  intros (Hs & _) Hrow Hc. unfold BezierSurface.set_point, mwrite.
  rewrite (edge_set_cell n m _ edge row 2) by auto. reflexivity.
Qed.

Lemma second_difference_finite (X Y Z : Point3D) (c : R) (U V : Point3D) :
  is_finite X -> is_finite Y -> is_finite Z -> is_finite U -> is_finite V ->
  is_finite (padd (psub (pscale 2 U) V)
                  (pscale c (padd (psub X (pscale 2 Y)) Z))).
Proof. destruct X, Y, Z, U, V; simpl; tauto. Qed.

(** The rows that [enforce_g0g1g2] leaves along the edge of the receiver. *)
Lemma bezier_enforce_g0g1g2_ok (nA mA nB mB : nat) (A B : BezierSurface.t) (f : R)
    (eB eA : SurfaceEdge) :
  bezier_patch nA mA A -> bezier_patch nB mB B ->
  all_finite (BezierSurface.points A) -> all_finite (BezierSurface.points B) ->
  parallel_degree nB mB eB = parallel_degree nA mA eA ->
  (2 <= perpendicular_degree nA mA eA)%nat ->
  (2 <= perpendicular_degree nB mB eB)%nat ->
  let pA := Z.of_nat (perpendicular_degree nA mA eA) in
  let pB := Z.of_nat (perpendicular_degree nB mB eB) in
  let r1 := INR (perpendicular_degree nA mA eA) / INR (perpendicular_degree nB mB eB) in
  let r2 := IZR (pA ^ 2 - pA) / IZR (pB ^ 2 - pB) in
  exists B',
    BezierSurface.enforce_g0g1g2 A f eB eA B = (Ok tt, B')
    /\ bezier_patch nB mB B'
    /\ all_finite (BezierSurface.points B')
    /\ forall row, (row <= parallel_degree nB mB eB)%nat ->
         let P_im_a := edge_read NonFinite nA mA eA row 0 (BezierSurface.points A) in
         let P_im1_a := edge_read NonFinite nA mA eA row 1 (BezierSurface.points A) in
         let P_im2_a := edge_read NonFinite nA mA eA row 2 (BezierSurface.points A) in
         let P_i0_b := edge_read NonFinite nB mB eB row 0 (BezierSurface.points B') in
         let P_i1_b := edge_read NonFinite nB mB eB row 1 (BezierSurface.points B') in
         P_i0_b = P_im_a
         /\ P_i1_b = padd P_im_a (pscale (f * r1) (psub P_im_a P_im1_a))
         /\ edge_read NonFinite nB mB eB row 2 (BezierSurface.points B')
            = padd (psub (pscale 2 P_i1_b) P_i0_b)
                   (pscale (f ^ 2 * r2)
                      (padd (psub P_im_a (pscale 2 P_im1_a)) P_im2_a)).
Proof.
  intros HA HB HfA HfB Hpar HqA HqB pA pB r1 r2.
  destruct (bezier_enforce_g0g1_ok nA mA nB mB A B f eB eA HA HB HfA HfB Hpar)
    as (B1 & Hg1 & HB1 & HfB1 & Hrow1); try lia.
  fold r1 in Hrow1.
  unfold BezierSurface.enforce_g0g1g2.
  unfold mbind at 1. rewrite Hg1.
  unfold mbind at 1. unfold mread at 1.
  rewrite (bezier_perpendicular_degree nB mB B1 eB HB1),
          (bezier_perpendicular_degree nA mA A eA HA).
  fold pA pB.
  unfold mbind at 1. unfold mlift at 1. unfold pydiv.
  destruct (Req_dec_T (IZR (pB ^ 2 - pB)) 0) as [Hz|Hnz].
  { apply eq_IZR in Hz. unfold pB in Hz. nia. }
  fold r2.
  unfold mbind at 1. unfold mread at 1.
  rewrite (bezier_parallel_degree nB mB B1 eB HB1), range_degree.
  set (row1 := fun row =>
         padd (edge_read NonFinite nA mA eA row 0 (BezierSurface.points A))
              (pscale (f * r1)
                 (psub (edge_read NonFinite nA mA eA row 0 (BezierSurface.points A))
                       (edge_read NonFinite nA mA eA row 1 (BezierSurface.points A))))).
  set (row2 := fun row =>
         padd (psub (pscale 2 (row1 row))
                    (edge_read NonFinite nA mA eA row 0 (BezierSurface.points A)))
              (pscale (f ^ 2 * r2)
                 (padd (psub (edge_read NonFinite nA mA eA row 0 (BezierSurface.points A))
                             (pscale 2 (edge_read NonFinite nA mA eA row 1
                                          (BezierSurface.points A))))
                       (edge_read NonFinite nA mA eA row 2 (BezierSurface.points A))))).
  destruct (mfor_invariant
    (fun k s =>
       bezier_patch nB mB s /\ all_finite (BezierSurface.points s)
       /\ (forall row, (row <= parallel_degree nB mB eB)%nat ->
             edge_read NonFinite nB mB eB row 0 (BezierSurface.points s)
             = edge_read NonFinite nA mA eA row 0 (BezierSurface.points A)
             /\ edge_read NonFinite nB mB eB row 1 (BezierSurface.points s) = row1 row)
       /\ forall row, (row < k)%nat ->
            edge_read NonFinite nB mB eB row 2 (BezierSurface.points s) = row2 row)
    (fun row_index =>
       P_i0_b <~ mread (fun self => BezierSurface.get_point self (Z.of_nat row_index) 0 eB) ;;
       P_i1_b <~ mread (fun self => BezierSurface.get_point self (Z.of_nat row_index) 1 eB) ;;
       P_im_a <~ mlift (BezierSurface.get_point A (Z.of_nat row_index) 0 eA) ;;
       P_im1_a <~ mlift (BezierSurface.get_point A (Z.of_nat row_index) 1 eA) ;;
       P_im2_a <~ mlift (BezierSurface.get_point A (Z.of_nat row_index) 2 eA) ;;
       let P_i2_b :=
         padd (psub (pscale 2 P_i1_b) P_i0_b)
              (pscale (f ^ 2 * r2) (padd (psub P_im_a (pscale 2 P_im1_a)) P_im2_a)) in
       BezierSurface.set_point P_i2_b (Z.of_nat row_index) 2 eB)
    (S (parallel_degree nB mB eB)) B1) as [B' [Hrun (HB' & HfB' & Hr01 & Hr2)]].
  - split; [exact HB1|]. split; [exact HfB1|]. split.
    + intros row Hrow. destruct (Hrow1 row Hrow) as [H0 H1]. split; assumption.
    + intros row Hrow. lia.
  - intros k s1 Hk (Hs1 & Hf1 & Hk01 & Hk2).
    assert (HkA : (k <= parallel_degree nA mA eA)%nat) by lia.
    assert (HkB : (k <= parallel_degree nB mB eB)%nat) by lia.
    assert (HqA1 : (1 <= perpendicular_degree nA mA eA)%nat) by lia.
    assert (HqB1 : (1 <= perpendicular_degree nB mB eB)%nat) by lia.
    eexists. split.
    + unfold mbind, mlift, mread.
      rewrite (proj1 (bezier_get_point_at nB mB s1 eB k Hs1 HkB)).
      rewrite (proj2 (bezier_get_point_at nB mB s1 eB k Hs1 HkB) HqB1).
      rewrite (proj1 (bezier_get_point_at nA mA A eA k HA HkA)).
      rewrite (proj2 (bezier_get_point_at nA mA A eA k HA HkA) HqA1).
      rewrite (bezier_get_point_third nA mA A eA k HA HkA HqA).
      rewrite (bezier_set_point_third nB mB s1 eB k _ Hs1 HkB HqB).
      reflexivity.
    + split; [now apply bezier_patch_with_points|].
      pose proof HA as (HsA & _). pose proof Hs1 as (Hp1 & _).
      destruct (Hk01 k HkB) as [E0 E1]. rewrite E0, E1.
      split.
      * simpl. apply all_finite_edge_write; auto.
        apply second_difference_finite;
          try (apply edge_read_finite; auto; lia).
        unfold row1.
        assert (F0 : is_finite (edge_read NonFinite nA mA eA k 0 (BezierSurface.points A)))
          by (apply edge_read_finite; auto; lia).
        assert (F1 : is_finite (edge_read NonFinite nA mA eA k 1 (BezierSurface.points A)))
          by (apply edge_read_finite; auto; lia).
        destruct (edge_read NonFinite nA mA eA k 0 (BezierSurface.points A));
          destruct (edge_read NonFinite nA mA eA k 1 (BezierSurface.points A));
          simpl in *; tauto.
      * split.
        -- intros row Hrow. simpl.
           rewrite !edge_read_write by (auto; lia).
           replace (Nat.eqb 2 0) with false by reflexivity.
           replace (Nat.eqb 2 1) with false by reflexivity.
           rewrite !andb_false_r. now apply Hk01.
        -- intros row Hrow. simpl.
           rewrite edge_read_write by (auto; lia).
           destruct (Nat.eqb_spec k row) as [<-|Hne]; simpl; [reflexivity|].
           apply Hk2. lia.
  - exists B'. split; [exact Hrun|]. split; [exact HB'|]. split; [exact HfB'|].
    intros row Hrow. cbv zeta.
    destruct (Hr01 row Hrow) as [E0 E1].
    split; [exact E0|]. split; [exact E1|].
    rewrite (Hr2 row) by lia. unfold row2. now rewrite E0, E1.
Qed.

Lemma coord_g2_difference (k : nat) (c : R) (X Y Z U V : Point3D) :
  is_finite X -> is_finite Y -> is_finite Z -> is_finite U -> is_finite V ->
  coord k V - 2 * coord k U
  + coord k (padd (psub (pscale 2 U) V) (pscale c (padd (psub X (pscale 2 Y)) Z)))
  = c * (coord k X - 2 * coord k Y + coord k Z).
Proof.
  destruct X, Y, Z, U, V; simpl; try tauto. intros _ _ _ _ _.
  destruct k as [|[|k]]; ring.
Qed.

Lemma degree_product (p : nat) :
  IZR (Z.of_nat p ^ 2 - Z.of_nat p) = INR p * (INR p - 1).
Proof.
  rewrite minus_IZR, Z.pow_2_r, mult_IZR, <- INR_IZR_INZ. ring.
Qed.

(** The first derivative across the edge of a patch whose two boundary rows
    continue those of another patch with the ratio [c]. *)
Lemma bezier_rows_first_derivative (nA mA nB mB : nat) (A B' : BezierSurface.t)
    (c : R) (eB eA : SurfaceEdge) (t : R) :
  bezier_patch nA mA A -> bezier_patch nB mB B' ->
  all_finite (BezierSurface.points A) -> all_finite (BezierSurface.points B') ->
  parallel_degree nB mB eB = parallel_degree nA mA eA ->
  (1 <= perpendicular_degree nA mA eA)%nat ->
  (1 <= perpendicular_degree nB mB eB)%nat ->
  (forall row, (row <= parallel_degree nB mB eB)%nat ->
     let P_im_a := edge_read NonFinite nA mA eA row 0 (BezierSurface.points A) in
     let P_im1_a := edge_read NonFinite nA mA eA row 1 (BezierSurface.points A) in
     edge_read NonFinite nB mB eB row 0 (BezierSurface.points B') = P_im_a
     /\ edge_read NonFinite nB mB eB row 1 (BezierSurface.points B')
        = padd P_im_a
            (pscale (c * (INR (perpendicular_degree nA mA eA)
                          / INR (perpendicular_degree nB mB eB)))
               (psub P_im_a P_im1_a))) ->
  exists dA,
    BezierSurface.first_deriv_on_edge A eA true t = Ok dA
    /\ is_finite dA
    /\ BezierSurface.first_deriv_on_edge B' eB true t
       = Ok (pscale (- (edge_sign eB * edge_sign eA) * c) dA).
Proof.
  intros HA HB' HfA HfB' Hpar HqA HqB Hrows.
  rewrite (bezier_cross_derivative nA mA A eA t HA HfA HqA).
  rewrite (bezier_cross_derivative nB mB B' eB t HB' HfB' HqB).
  eexists. split; [reflexivity|]. split; [exact I|].
  assert (Hsum : forall k,
    edge_difference_sum nB mB eB t (BezierSurface.points B') k
    = - (c * (INR (perpendicular_degree nA mA eA)
              / INR (perpendicular_degree nB mB eB)))
      * edge_difference_sum nA mA eA t (BezierSurface.points A) k).
  { intros k. unfold edge_difference_sum. rewrite Hpar, <- rsum_scale.
    apply rsum_ext. intros row Hrow.
    destruct (Hrows row) as [H0 H1]; [lia|].
    rewrite H0, H1.
    pose proof HA as (HsA & _).
    rewrite coord_g1_difference by (apply edge_read_finite; auto; lia).
    ring. }
  assert (Hq : INR (perpendicular_degree nB mB eB) <> 0).
  { intros Hz. apply (INR_eq _ 0%nat) in Hz. lia. }
  assert (Hscale : forall x,
    edge_sign eB * INR (perpendicular_degree nB mB eB)
    * (- (c * (INR (perpendicular_degree nA mA eA)
               / INR (perpendicular_degree nB mB eB))) * x)
    = - (edge_sign eB * edge_sign eA) * c
      * (edge_sign eA * INR (perpendicular_degree nA mA eA) * x)).
  { intros x.
    transitivity (- edge_sign eB * c * INR (perpendicular_degree nA mA eA) * x
                  * (edge_sign eA * edge_sign eA)).
    - rewrite edge_sign_square. field. assumption.
    - ring. }
  simpl pscale. rewrite !Hsum, !Hscale. reflexivity.
Qed.

(** X8.  [B.enforce_g0g1g2(A, f, edge_B, edge_A)] on a patch [B] of degree
    one across [edge_B]: the two boundary rows of [B] are written first, as
    by [enforce_g0g1], and then the ratio of the degrees,
    [(p_a^2 - p_a) / (p_b^2 - p_b)], is a division by zero: the call raises
    [ZeroDivisionError] and leaves [B] as [enforce_g0g1] leaves it. *)
Theorem bezier_enforce_g0g1g2_degree_one (nA mA nB mB : nat) (A B : BezierSurface.t)
    (f : R) (eB eA : SurfaceEdge) :
  bezier_patch nA mA A -> bezier_patch nB mB B ->
  all_finite (BezierSurface.points A) -> all_finite (BezierSurface.points B) ->
  BezierSurface.get_parallel_degree B eB = BezierSurface.get_parallel_degree A eA ->
  (1 <= BezierSurface.get_perpendicular_degree A eA)%Z ->
  BezierSurface.get_perpendicular_degree B eB = 1%Z ->
  exists B1,
    BezierSurface.enforce_g0g1 A f eB eA B = (Ok tt, B1)
    /\ BezierSurface.enforce_g0g1g2 A f eB eA B = (Raise ZeroDivisionError, B1).
Proof.
  intros HA HB HfA HfB Hpar HqA HqB.
  rewrite (bezier_parallel_degree nB mB B eB HB),
          (bezier_parallel_degree nA mA A eA HA) in Hpar.
  rewrite (bezier_perpendicular_degree nA mA A eA HA) in HqA.
  rewrite (bezier_perpendicular_degree nB mB B eB HB) in HqB.
  apply Nat2Z.inj in Hpar.
  destruct (bezier_enforce_g0g1_ok nA mA nB mB A B f eB eA HA HB HfA HfB Hpar)
    as (B1 & Hg1 & HB1 & _); try lia.
  exists B1. split; [exact Hg1|].
  unfold BezierSurface.enforce_g0g1g2.
  unfold mbind at 1. rewrite Hg1.
  unfold mbind at 1. unfold mread at 1.
  rewrite (bezier_perpendicular_degree nB mB B1 eB HB1), HqB.
  unfold mbind at 1. unfold mlift at 1. unfold pydiv.
  change (1 ^ 2 - 1)%Z with 0%Z.
  destruct (Req_dec_T 0 0); [reflexivity|contradiction].
Qed.

Lemma bezier_enforce_g0g1g2_degree_one_witness :
  exists B1,
    BezierSurface.enforce_g0g1 sample_bezier_A 1 West East sample_bezier_B = (Ok tt, B1)
    /\ BezierSurface.enforce_g0g1g2 sample_bezier_A 1 West East sample_bezier_B
       = (Raise ZeroDivisionError, B1).
Proof.
  apply (bezier_enforce_g0g1g2_degree_one 1 1 1 1 sample_bezier_A sample_bezier_B 1
           West East).
  - repeat split; repeat constructor.
  - repeat split; repeat constructor.
  - repeat constructor.
  - repeat constructor.
  - reflexivity.
  - simpl. lia.
  - reflexivity.
Defined.

(** ** The control point net *)

Lemma fold_left_extend {A B : Type} (g : B -> list A) (l : list B) (init : list A) :
  fold_left (fun acc x => acc ++ g x) l init = init ++ flat_map g l.
Proof.
  revert init. induction l as [|x l IH]; intros init; simpl.
  - now rewrite app_nil_r.
  - now rewrite IH, app_assoc.
Qed.

Lemma fold_left_extend_nested {A B C : Type} (g : B -> C -> list A)
    (l1 : list B) (l2 : list C) :
  fold_left (fun acc x => fold_left (fun acc y => acc ++ g x y) l2 acc) l1 []
  = flat_map (fun x => flat_map (g x) l2) l1.
Proof.
  rewrite (fold_left_ext_in _ (fun acc x => acc ++ flat_map (g x) l2)).
  - apply (fold_left_extend (fun x => flat_map (g x) l2)).
  - intros acc x _. apply fold_left_extend.
Qed.

(** The entries of a grid, row after row. *)
Lemma grid_rows {A : Type} (d : A) (r c : nat) (g : list (list A)) :
  shaped r c g ->
  map (fun i => map (fun j => at2 d g i j) (seq 0 c)) (seq 0 r) = g.
Proof.
  intros Hs. pose proof Hs as [Hr Hc].
  apply (nth_ext _ _ [] []).
  - now rewrite length_map, length_seq.
  - intros i Hi. rewrite length_map, length_seq in Hi.
    rewrite (nth_indep _ [] (map (fun j => at2 d g 0 j) (seq 0 c)))
      by (now rewrite length_map, length_seq).
    rewrite (map_nth (fun i => map (fun j => at2 d g i j) (seq 0 c))), seq_nth by exact Hi.
    simpl Nat.add.
    pose proof (shaped_row_length r c g i Hs Hi) as Hlen.
    apply (nth_ext _ _ d d).
    + now rewrite length_map, length_seq.
    + intros j Hj. rewrite length_map, length_seq in Hj.
      rewrite (nth_indep _ d (at2 d g i 0))
        by (now rewrite length_map, length_seq).
      rewrite (map_nth (fun j => at2 d g i j)), seq_nth by exact Hj.
      reflexivity.
Qed.

Lemma flat_map_singleton {A B : Type} (f : A -> B) (l : list A) :
  flat_map (fun x => [f x]) l = map f l.
Proof. induction l as [|x l IH]; simpl; congruence. Qed.

Lemma flat_map_concat_map {A B : Type} (f : A -> list B) (l : list A) :
  flat_map f l = concat (map f l).
Proof. induction l as [|x l IH]; simpl; congruence. Qed.

(** X9.  [generate_control_point_net] on a constructed polynomial patch of
    [n + 1] by [m + 1] control points.  The points are the control points,
    row after row.  Every line joins a control point to its neighbour in
    the next row or in the next column.  When the grid has at least two
    rows and two columns, every pair of neighbours is joined by a line;
    when it has a single row or a single column, there is no line at all. *)
Theorem control_point_net (n m : nat) (pts : list (list Point3D))
    (srf : BezierSurface.t) :
  shaped (S n) (S m) pts ->
  BezierSurface.__init__ pts = Ok srf ->
  let P := at2 NonFinite pts in
  exists lines,
    BezierSurface.generate_control_point_net srf = Ok (concat pts, lines)
    /\ (forall line, In line lines ->
          exists i j, (i <= n)%nat /\ (j <= m)%nat
            /\ ((i < n)%nat /\ line = (P i j, P (i + 1)%nat j)
                \/ (j < m)%nat /\ line = (P i j, P i (j + 1)%nat)))
    /\ ((1 <= n)%nat -> (1 <= m)%nat ->
        (forall i j, (i < n)%nat -> (j <= m)%nat ->
           In (P i j, P (i + 1)%nat j) lines)
        /\ (forall i j, (i <= n)%nat -> (j < m)%nat ->
              In (P i j, P i (j + 1)%nat) lines))
    /\ (n = 0%nat \/ m = 0%nat -> lines = []).
Proof.
  intros Hs Hinit P.
  rewrite (bezier_init n m pts Hs) in Hinit. injection Hinit as <-.
  unfold BezierSurface.generate_control_point_net,
    BezierSurface.get_control_point_array.
  cbn [BezierSurface.points BezierSurface.Nu BezierSurface.Nv].
  rewrite (as_ndarray_shaped _ _ _ Hs). cbn [bind].
  replace (Z.of_nat n + 1 - 1)%Z with (Z.of_nat n) by lia.
  replace (Z.of_nat m + 1 - 1)%Z with (Z.of_nat m) by lia.
  rewrite !range_degree, !range_of_nat.
  rewrite (fold_left_extend_nested (fun i j => [at2 NonFinite pts i j])).
  rewrite (fold_left_extend_nested _ (seq 0 n) (seq 0 m)).
  set (srf := BezierSurface.mk pts (Z.of_nat n) (Z.of_nat m)
                (Z.of_nat n + 1) (Z.of_nat m + 1)).
  eexists. split.
  { f_equal. f_equal.
    rewrite flat_map_concat_map. f_equal.
    transitivity (map (fun i => map (fun j => at2 NonFinite pts i j) (seq 0 (S m)))
                      (seq 0 (S n))).
    - apply map_ext. intros i. apply flat_map_singleton.
    - now apply grid_rows. }
  assert (Hcell : forall i j line,
    In line (BezierSurface.net_cell srf pts i j) <->
    line = (P i j, P (i + 1)%nat j) \/ line = (P i j, P i (j + 1)%nat)
    \/ ((S i = n \/ S j = m) /\ (i < n)%nat /\ (j < m)%nat
        \/ (n <= i)%nat \/ (m <= j)%nat)
       /\ (line = (P i (j + 1)%nat, P (i + 1)%nat (j + 1)%nat)
           \/ line = (P (i + 1)%nat j, P (i + 1)%nat (j + 1)%nat))).
  { intros i j line. unfold BezierSurface.net_cell.
    cbn [BezierSurface.Nu BezierSurface.Nv srf]. fold P.
    destruct (Z.ltb_spec (Z.of_nat i) (Z.of_nat n + 1 - 2));
      destruct (Z.ltb_spec (Z.of_nat j) (Z.of_nat m + 1 - 2));
      cbn [andb In app]; split; intros Hin;
      repeat match goal with
             | H : _ \/ _ |- _ => destruct H
             | H : _ /\ _ |- _ => destruct H
             | H : False |- _ => contradiction
             end;
      subst; auto; try lia;
      try (right; right; split; [|auto]; lia);
      try (right; right; left; auto; fail);
      try (right; right; right; left; auto; fail);
      auto 6. }
  split; [|split].
  - intros line Hin.
    apply in_flat_map in Hin. destruct Hin as (i & Hi & Hin).
    apply in_flat_map in Hin. destruct Hin as (j & Hj & Hin).
    apply in_seq in Hi. apply in_seq in Hj.
    apply Hcell in Hin.
    destruct Hin as [->|[->|[Hb [->| ->]]]].
    + exists i, j. split; [lia|]. split; [lia|]. left. split; [lia|reflexivity].
    + exists i, j. split; [lia|]. split; [lia|]. right. split; [lia|reflexivity].
    + exists i, (j + 1)%nat. split; [lia|]. split; [lia|].
      left. split; [lia|reflexivity].
    + exists (i + 1)%nat, j. split; [lia|]. split; [lia|].
      right. split; [lia|reflexivity].
  - intros Hn Hm. split.
    + intros i j Hi Hj. apply in_flat_map.
      exists i. split; [apply in_seq; lia|]. apply in_flat_map.
      destruct (Nat.eq_dec j m) as [->|Hne].
      * exists (m - 1)%nat. split; [apply in_seq; lia|].
        apply Hcell. right. right.
        replace (m - 1 + 1)%nat with m by lia.
        split; [left; lia|]. left. reflexivity.
      * exists j. split; [apply in_seq; lia|].
        apply Hcell. left. reflexivity.
    + intros i j Hi Hj. apply in_flat_map.
      destruct (Nat.eq_dec i n) as [->|Hne].
      * exists (n - 1)%nat. split; [apply in_seq; lia|]. apply in_flat_map.
        exists j. split; [apply in_seq; lia|].
        apply Hcell. right. right.
        replace (n - 1 + 1)%nat with n by lia.
        split; [left; lia|]. right. reflexivity.
      * exists i. split; [apply in_seq; lia|]. apply in_flat_map.
        exists j. split; [apply in_seq; lia|].
        apply Hcell. right. left. reflexivity.
  - intros [-> | ->]; [reflexivity|].
    simpl. induction (seq 0 n) as [|x l IH]; [reflexivity|exact IH].
Qed.

Lemma control_point_net_witness :
  let P := at2 NonFinite sample_points in
  exists lines,
    BezierSurface.generate_control_point_net sample_bezier_A
    = Ok (concat sample_points, lines)
    /\ (forall line, In line lines ->
          exists i j, (i <= 1)%nat /\ (j <= 1)%nat
            /\ ((i < 1)%nat /\ line = (P i j, P (i + 1)%nat j)
                \/ (j < 1)%nat /\ line = (P i j, P i (j + 1)%nat)))
    /\ ((1 <= 1)%nat -> (1 <= 1)%nat ->
        (forall i j, (i < 1)%nat -> (j <= 1)%nat ->
           In (P i j, P (i + 1)%nat j) lines)
        /\ (forall i j, (i <= 1)%nat -> (j < 1)%nat ->
              In (P i j, P i (j + 1)%nat) lines))
    /\ (1%nat = 0%nat \/ 1%nat = 0%nat -> lines = []).
Proof.
  apply (control_point_net 1 1 sample_points sample_bezier_A).
  - split; [reflexivity|repeat constructor].
  - reflexivity.
Defined.

(** ** Rational patches: the weights stay non-negative *)

(** A loop of a mutating method keeps what every turn keeps, whether the
    loop returns or raises. *)
Lemma mfor_preserves {St A : Type} (Inv : St -> Prop) (body : A -> Mut St unit)
    (xs : list A) (s : St) :
  Inv s -> (forall x s1, Inv s1 -> Inv (snd (body x s1))) ->
  Inv (snd (mfor xs body s)).
Proof.
  intros H0 Hbody. revert s H0.
  induction xs as [|x xs IH]; intros s H0; [exact H0|].
  simpl. unfold mbind. specialize (Hbody x s H0).
  destruct (body x s) as [[[]|e] s1]; simpl in Hbody |- *; auto.
Qed.

Lemma mbind_preserves {St A B : Type} (Inv : St -> Prop) (m : Mut St A)
    (k : A -> Mut St B) (s : St) :
  Inv (snd (m s)) -> (forall a s1, Inv s1 -> Inv (snd (k a s1))) ->
  Inv (snd (mbind m k s)).
Proof.
  intros Hm Hk. unfold mbind.
  destruct (m s) as [[a|e] s1]; simpl in Hm |- *; auto.
Qed.

Lemma getitem_In {A : Type} (l : list A) (i : Z) (x : A) :
  getitem l i = Ok x -> In x l.
Proof.
  unfold getitem. destruct (norm_index (length l) i) as [k|]; [|discriminate].
  destruct (nth_error l k) eqn:E; [|discriminate].
  intros [= <-]. eapply nth_error_In; eauto.
Qed.

Lemma getitem2_nonneg (ws : list (list R)) (i j : Z) (w : R) :
  nonneg_weights ws -> getitem2 ws i j = Ok w -> 0 <= w.
Proof.
  intros Hn. unfold getitem2.
  destruct (getitem ws i) as [row|] eqn:Hrow; [|discriminate]. cbn [bind].
  intros Hw. apply getitem_In in Hrow. apply getitem_In in Hw.
  unfold nonneg_weights in Hn. rewrite Forall_forall in Hn.
  specialize (Hn row Hrow). rewrite Forall_forall in Hn. now apply Hn.
Qed.

Lemma setitem2_nonneg (ws ws' : list (list R)) (i j : Z) (w : R) :
  nonneg_weights ws -> 0 <= w -> setitem2 ws i j w = Ok ws' -> nonneg_weights ws'.
Proof.
  intros Hn Hw. unfold setitem2.
  destruct (getitem ws i) as [row|] eqn:Hrow; [|discriminate]. cbn [bind].
  unfold setitem.
  destruct (norm_index (length row) j) as [kj|]; [|discriminate]. cbn [bind].
  destruct (norm_index (length ws) i) as [ki|]; [|discriminate].
  intros [= <-]. apply getitem_In in Hrow.
  unfold nonneg_weights in *.
  apply Forall_replace_nth; [exact Hn|]. intros _.
  apply Forall_replace_nth; [|auto].
  rewrite Forall_forall in Hn. now apply Hn.
Qed.

Lemma get_weight_nonneg (srf : RationalBezierSurface.t) (row c : Z)
    (edge : SurfaceEdge) (w : R) :
  nonneg_weights (RationalBezierSurface.weights srf) ->
  RationalBezierSurface.get_weight srf row c edge = Ok w -> 0 <= w.
Proof.
  intros Hn. unfold RationalBezierSurface.get_weight.
  destruct edge; apply getitem2_nonneg; assumption.
Qed.

Lemma set_weight_nonneg (srf : RationalBezierSurface.t) (row c : Z)
    (edge : SurfaceEdge) (w : R) :
  nonneg_weights (RationalBezierSurface.weights srf) -> 0 <= w ->
  nonneg_weights
    (RationalBezierSurface.weights
       (snd (RationalBezierSurface.set_weight w row c edge srf))).
Proof.
  intros Hn Hw. unfold RationalBezierSurface.set_weight, mwrite.
  destruct edge;
    match goal with
    | |- context [setitem2 ?g ?i ?j ?x] =>
        destruct (setitem2 g i j x) as [ws'|] eqn:E
    end; cbn [bind snd RationalBezierSurface.weights
              RationalBezierSurface.with_weights]; auto;
    eapply setitem2_nonneg; eauto.
Qed.

Lemma set_point_weights (srf : RationalBezierSurface.t) (row c : Z)
    (edge : SurfaceEdge) (p : Point3D) :
  RationalBezierSurface.weights
    (snd (RationalBezierSurface.set_point p row c edge srf))
  = RationalBezierSurface.weights srf.
Proof.
  unfold RationalBezierSurface.set_point, mwrite.
  destruct edge;
    match goal with
    | |- context [setitem2 ?g ?i ?j ?x] => destruct (setitem2 g i j x)
    end; reflexivity.
Qed.

Lemma mread_bind_preserves {St A B : Type} (Inv : St -> Prop) (f : St -> result A)
    (k : A -> Mut St B) (s : St) :
  Inv s -> (forall a, f s = Ok a -> Inv (snd (k a s))) ->
  Inv (snd (mbind (mread f) k s)).
Proof.
  intros Hs Hk. unfold mbind, mread.
  destruct (f s) as [a|e]; simpl; auto.
Qed.

Lemma mlift_bind_preserves {St A B : Type} (Inv : St -> Prop) (r : result A)
    (k : A -> Mut St B) (s : St) :
  Inv s -> (forall a, r = Ok a -> Inv (snd (k a s))) ->
  Inv (snd (mbind (mlift r) k s)).
Proof.
  intros Hs Hk. unfold mbind, mlift.
  destruct r as [a|e]; simpl; auto.
Qed.

(** One step of a method, for a property [Inv] of the receiver that the
    step has to keep. *)
Ltac keep_step Inv :=
  lazymatch goal with
  | |- Inv (snd (mbind (if Rlt_dec ?w 0 then _ else _) _ ?s)) =>
      let Hw := fresh "Hw" in
      unfold mbind at 1;
      destruct (Rlt_dec w 0) as [Hw|Hw]; [assumption|];
      unfold mret at 1; cbv beta iota
  | |- Inv (snd (mbind (mread _) _ _)) =>
      let a := fresh "a" in
      let E := fresh "E" in
      apply mread_bind_preserves; [assumption|intros a E]
  | |- Inv (snd (mbind (mlift _) _ _)) =>
      let a := fresh "a" in
      let E := fresh "E" in
      apply mlift_bind_preserves; [assumption|intros a E]
  | |- Inv (snd (mbind _ _ _)) =>
      let a := fresh "a" in
      let s := fresh "s" in
      let H := fresh "H" in
      apply mbind_preserves; [|intros a s H]
  end.

Lemma rational_enforce_g0_keeps_weights (A B : RationalBezierSurface.t)
    (eB eA : SurfaceEdge) :
  nonneg_weights (RationalBezierSurface.weights A) ->
  nonneg_weights (RationalBezierSurface.weights B) ->
  nonneg_weights
    (RationalBezierSurface.weights (snd (RationalBezierSurface.enforce_g0 A eB eA B))).
Proof.
  intros HA HB.
  set (Inv := fun s => nonneg_weights (RationalBezierSurface.weights s)).
  change (Inv (snd (RationalBezierSurface.enforce_g0 A eB eA B))).
  change (Inv B) in HB.
  unfold RationalBezierSurface.enforce_g0.
  keep_step Inv. keep_step Inv.
  apply mfor_preserves; [assumption|].
  intros row s1 H1.
  keep_step Inv. keep_step Inv.
  { unfold Inv in *. now rewrite set_point_weights. }
  keep_step Inv.
  unfold Inv in *. apply set_weight_nonneg; [assumption|].
  eapply (get_weight_nonneg A); eauto.
Qed.

Lemma rational_g1_row_keeps_weights (A : RationalBezierSurface.t) (f : f_arg)
    (n_ratio : R) (eB eA : SurfaceEdge) (row : nat) (s : RationalBezierSurface.t) :
  nonneg_weights (RationalBezierSurface.weights s) ->
  nonneg_weights
    (RationalBezierSurface.weights
       (snd (RationalBezierSurface.enforce_g0g1_row A f n_ratio eB eA row s))).
Proof.
  intros Hs.
  set (Inv := fun s => nonneg_weights (RationalBezierSurface.weights s)).
  change (Inv (snd (RationalBezierSurface.enforce_g0g1_row A f n_ratio eB eA row s))).
  change (Inv s) in Hs.
  unfold RationalBezierSurface.enforce_g0g1_row.
  do 4 keep_step Inv. cbv zeta. keep_step Inv. keep_step Inv.
  { unfold Inv in *. apply set_weight_nonneg; [assumption|lra]. }
  do 3 keep_step Inv.
  unfold Inv in *. now rewrite set_point_weights.
Qed.

Lemma rational_g2_row_keeps_weights (A : RationalBezierSurface.t) (f : f_arg)
    (n_ratio : R) (eB eA : SurfaceEdge) (row : nat) (s : RationalBezierSurface.t) :
  nonneg_weights (RationalBezierSurface.weights s) ->
  nonneg_weights
    (RationalBezierSurface.weights
       (snd (RationalBezierSurface.enforce_g0g1g2_row A f n_ratio eB eA row s))).
Proof.
  intros Hs.
  set (Inv := fun s => nonneg_weights (RationalBezierSurface.weights s)).
  change (Inv (snd (RationalBezierSurface.enforce_g0g1g2_row A f n_ratio eB eA row s))).
  change (Inv s) in Hs.
  unfold RationalBezierSurface.enforce_g0g1g2_row.
  do 6 keep_step Inv. cbv zeta. keep_step Inv. keep_step Inv.
  { unfold Inv in *. apply set_weight_nonneg; [assumption|lra]. }
  do 5 keep_step Inv.
  unfold Inv in *. now rewrite set_point_weights.
Qed.

(** X10.  The enforcement methods of a rational patch keep its weights
    non-negative in every outcome.  When the weights of [A] and of [B] are
    not negative, then after [B.enforce_g0], [B.enforce_g0g1] or
    [B.enforce_g0g1g2] (with [A], a ratio or an array of ratios, and any
    two edges) no weight of [B] is negative, whether the call returned or
    raised [AssertionError], [IndexError], [ZeroDivisionError] or
    [NegativeWeightError]: a computed weight is stored only after it has
    passed the check. *)
Theorem rational_enforcement_keeps_weights (A B : RationalBezierSurface.t)
    (f : f_arg) (eB eA : SurfaceEdge) :
  nonneg_weights (RationalBezierSurface.weights A) ->
  nonneg_weights (RationalBezierSurface.weights B) ->
  nonneg_weights
    (RationalBezierSurface.weights (snd (RationalBezierSurface.enforce_g0 A eB eA B)))
  /\ nonneg_weights
       (RationalBezierSurface.weights
          (snd (RationalBezierSurface.enforce_g0g1 A f eB eA B)))
  /\ nonneg_weights
       (RationalBezierSurface.weights
          (snd (RationalBezierSurface.enforce_g0g1g2 A f eB eA B))).
Proof.
  intros HA HB.
  set (Inv := fun s => nonneg_weights (RationalBezierSurface.weights s)).
  assert (H0 : Inv (snd (RationalBezierSurface.enforce_g0 A eB eA B)))
    by now apply rational_enforce_g0_keeps_weights.
  assert (H1 : Inv (snd (RationalBezierSurface.enforce_g0g1 A f eB eA B))).
  { change (Inv B) in HB.
    unfold RationalBezierSurface.enforce_g0g1.
    keep_step Inv.
    { destruct f; [assumption|]. unfold mread. exact HB. }
    keep_step Inv.
    { now apply rational_enforce_g0_keeps_weights. }
    do 2 keep_step Inv.
    apply mfor_preserves; [assumption|].
    intros row s2 H2. now apply rational_g1_row_keeps_weights. }
  split; [exact H0|]. split; [exact H1|].
  change (Inv (snd (RationalBezierSurface.enforce_g0g1g2 A f eB eA B))).
  unfold RationalBezierSurface.enforce_g0g1g2.
  keep_step Inv; [exact H1|].
  do 2 keep_step Inv.
  apply mfor_preserves; [assumption|].
  intros row s2 H2. now apply rational_g2_row_keeps_weights.
Qed.

Lemma rational_enforcement_keeps_weights_witness :
  nonneg_weights
    (RationalBezierSurface.weights
       (snd (RationalBezierSurface.enforce_g0 sample_patch_A West East sample_patch_B)))
  /\ nonneg_weights
       (RationalBezierSurface.weights
          (snd (RationalBezierSurface.enforce_g0g1 sample_patch_A (f_float 1)
                  West East sample_patch_B)))
  /\ nonneg_weights
       (RationalBezierSurface.weights
          (snd (RationalBezierSurface.enforce_g0g1g2 sample_patch_A (f_float 1)
                  West East sample_patch_B))).
Proof.
  apply (rational_enforcement_keeps_weights sample_patch_A sample_patch_B (f_float 1)
           West East).
  - repeat constructor; lra.
  - repeat constructor; lra.
Defined.

(** ** Rational patches: the ratio as an array *)

Lemma mfor_ext_in {St A : Type} (b1 b2 : A -> Mut St unit) (xs : list A) :
  (forall x, In x xs -> forall s, b1 x s = b2 x s) ->
  forall s, mfor xs b1 s = mfor xs b2 s.
Proof.
  induction xs as [|x xs IH]; intros H s; [reflexivity|].
  simpl. unfold mbind. rewrite (H x (or_introl eq_refl) s).
  destruct (b2 x s) as [[[]|e] s1]; [|reflexivity].
  apply IH. intros y Hy. apply H. now right.
Qed.

(** The enforcement of positional continuity does not change the degrees
    of the receiver. *)
Lemma rational_enforce_g0_keeps_degrees (A B : RationalBezierSurface.t)
    (eB eA : SurfaceEdge) (edge : SurfaceEdge) :
  RationalBezierSurface.get_parallel_degree
    (snd (RationalBezierSurface.enforce_g0 A eB eA B)) edge
  = RationalBezierSurface.get_parallel_degree B edge.
Proof.
  set (Inv := fun s => RationalBezierSurface.get_parallel_degree s edge
                       = RationalBezierSurface.get_parallel_degree B edge).
  change (Inv (snd (RationalBezierSurface.enforce_g0 A eB eA B))).
  assert (HB : Inv B) by reflexivity.
  assert (Hp : forall p row c e s, Inv s ->
            Inv (snd (RationalBezierSurface.set_point p row c e s))).
  { intros p row c e s Hs. unfold Inv in *. rewrite <- Hs.
    unfold RationalBezierSurface.set_point, mwrite.
    destruct e;
      match goal with
      | |- context [setitem2 ?g ?i ?j ?x] => destruct (setitem2 g i j x)
      end; reflexivity. }
  assert (Hw : forall w row c e s, Inv s ->
            Inv (snd (RationalBezierSurface.set_weight w row c e s))).
  { intros w row c e s Hs. unfold Inv in *. rewrite <- Hs.
    unfold RationalBezierSurface.set_weight, mwrite.
    destruct e;
      match goal with
      | |- context [setitem2 ?g ?i ?j ?x] => destruct (setitem2 g i j x)
      end; reflexivity. }
  unfold RationalBezierSurface.enforce_g0.
  keep_step Inv. keep_step Inv.
  apply mfor_preserves; [assumption|].
  intros row s1 H1.
  keep_step Inv. keep_step Inv; [now apply Hp|].
  keep_step Inv. now apply Hw.
Qed.

Lemma getitem_all_equal (a : list R) (x : R) (row : nat) :
  Forall (fun y => y = x) a -> (row < length a)%nat ->
  getitem a (Z.of_nat row) = Ok x.
Proof.
  intros Ha Hrow. rewrite (getitem_nonneg 0) by exact Hrow. f_equal.
  rewrite Forall_forall in Ha. apply Ha. now apply nth_In.
Qed.

(** X11.  The ratio of [RationalBezierSurface.enforce_g0g1] given as an
    array.  An array whose length is not the number of rows along the edge
    is refused with [AssertionError] before anything is written.  An array
    of the right length whose entries all equal [x] has exactly the effect
    of the float [x]: the same result and the same patch. *)
Theorem rational_g1_ratio_array (A B : RationalBezierSurface.t) (x : R) (a : list R)
    (eB eA : SurfaceEdge) :
  ((len a <> RationalBezierSurface.get_parallel_degree B eB + 1)%Z ->
   RationalBezierSurface.enforce_g0g1 A (f_ndarray a) eB eA B
   = (Raise AssertionError, B))
  /\ (len a = (RationalBezierSurface.get_parallel_degree B eB + 1)%Z ->
      Forall (fun y => y = x) a ->
      RationalBezierSurface.enforce_g0g1 A (f_ndarray a) eB eA B
      = RationalBezierSurface.enforce_g0g1 A (f_float x) eB eA B).
Proof.
  split.
  - intros Hne.
    unfold RationalBezierSurface.enforce_g0g1.
    unfold mbind at 1. unfold mread at 1.
    destruct (Z.eqb_spec (len a) (RationalBezierSurface.get_parallel_degree B eB + 1));
      [contradiction|reflexivity].
  - intros Heq Ha.
    pose proof (rational_enforce_g0_keeps_degrees A B eB eA eB) as Hdeg.
    unfold RationalBezierSurface.enforce_g0g1.
    cbv beta iota delta [mbind mread mret].
    rewrite Heq, Z.eqb_refl. cbv beta iota delta [assert].
    destruct (RationalBezierSurface.enforce_g0 A eB eA B) as [[[]|e] B0];
      [|reflexivity].
    cbn [snd] in Hdeg.
    destruct (pydiv _ _) as [n_ratio|e]; [|reflexivity].
    apply mfor_ext_in. intros row Hrow s.
    unfold RationalBezierSurface.enforce_g0g1_row.
    cbv beta iota delta [mbind mlift RationalBezierSurface.f_row_of].
    rewrite (getitem_all_equal a x row Ha); [reflexivity|].
    unfold range in Hrow. apply in_seq in Hrow. unfold len in Heq. lia.
Qed.

Lemma rational_g1_ratio_array_witness :
  RationalBezierSurface.enforce_g0g1 sample_patch_A (f_ndarray [1]) West East
    sample_patch_B
  = (Raise AssertionError, sample_patch_B)
  /\ RationalBezierSurface.enforce_g0g1 sample_patch_A (f_ndarray [1; 1]) West East
       sample_patch_B
     = RationalBezierSurface.enforce_g0g1 sample_patch_A (f_float 1) West East
         sample_patch_B.
Proof.
  split.
  - apply (proj1 (rational_g1_ratio_array sample_patch_A sample_patch_B 1 [1]
                    West East)).
    unfold len. simpl. lia.
  - apply (proj2 (rational_g1_ratio_array sample_patch_A sample_patch_B 1 [1; 1]
                    West East)).
    + reflexivity.
    + repeat constructor.
Defined.


(** ** The bounding box of the control points *)

Lemma rsum_le (f g : nat -> R) (n : nat) :
  (forall i, (i < n)%nat -> f i <= g i) -> rsum f n <= rsum g n.
Proof.
  induction n as [|n IH]; intros H; simpl; [lra|].
  pose proof (H n ltac:(lia)). pose proof (IH ltac:(intros; apply H; lia)). lra.
Qed.

Lemma binomial_positive (n i : nat) : 0 < C n i.
Proof.
  unfold C. apply Rdiv_lt_0_compat; [apply INR_fact_lt_0|].
  apply Rmult_lt_0_compat; apply INR_fact_lt_0.
Qed.

(** On the unit interval the basis functions are not negative. *)
Lemma bernstein_nonneg (n i : nat) (t : R) :
  0 <= t <= 1 -> 0 <= bernstein_poly (Z.of_nat n) (Z.of_nat i) t.
Proof.
  intros Ht. destruct (Nat.le_gt_cases i n) as [Hin|Hin].
  - rewrite bernstein_in_range by assumption.
    apply Rmult_le_pos; [apply Rmult_le_pos|].
    + apply Rlt_le, binomial_positive.
    + apply pow_le. lra.
    + apply pow_le. lra.
  - rewrite bernstein_out_of_range by lia. lra.
Qed.

(** A sum of values between [lo] and [hi] with coefficients that are not
    negative lies between [lo] and [hi] times the sum of the
    coefficients. *)
Lemma weighted_sum_bounds (c : nat -> nat -> R) (x : nat -> nat -> R)
    (nu nv : nat) (lo hi : R) :
  (forall i j, (i < nu)%nat -> (j < nv)%nat -> 0 <= c i j) ->
  (forall i j, (i < nu)%nat -> (j < nv)%nat -> lo <= x i j <= hi) ->
  let W := rsum (fun i => rsum (fun j => c i j) nv) nu in
  lo * W <= rsum (fun i => rsum (fun j => c i j * x i j) nv) nu <= hi * W.
Proof.
  intros Hc Hx W. unfold W. split.
  - rewrite <- rsum_scale. apply rsum_le. intros i Hi.
    rewrite <- rsum_scale. apply rsum_le. intros j Hj.
    pose proof (Hc i j Hi Hj). pose proof (Hx i j Hi Hj). nra.
  - rewrite <- rsum_scale. apply rsum_le. intros i Hi.
    rewrite <- rsum_scale. apply rsum_le. intros j Hj.
    pose proof (Hc i j Hi Hj). pose proof (Hx i j Hi Hj). nra.
Qed.

(** On a grid of positive weights there is a positive bound below all of
    them. *)
Lemma positive_row_bound (row : list R) :
  Forall (fun w => 0 < w) row ->
  exists eps, 0 < eps /\ Forall (fun w => eps <= w) row.
Proof.
  induction 1 as [|w row Hw Hrow (eps & He & Hall)].
  - exists 1. split; [lra|constructor].
  - exists (Rmin eps w). split; [now apply Rmin_pos|].
    constructor; [apply Rmin_r|].
    eapply Forall_impl; [|exact Hall]. intros w' H'. cbv beta in H'.
    pose proof (Rmin_l eps w). lra.
Qed.

Lemma positive_weights_bound (ws : list (list R)) :
  positive_weights ws ->
  exists eps, 0 < eps /\ Forall (Forall (fun w => eps <= w)) ws.
Proof.
  induction 1 as [|row ws Hrow Hws (eps & He & Hall)].
  - exists 1. split; [lra|constructor].
  - destruct (positive_row_bound row Hrow) as (eps' & He' & Hall').
    exists (Rmin eps eps'). split; [now apply Rmin_pos|].
    constructor.
    + eapply Forall_impl; [|exact Hall']. intros w H'. cbv beta in H'.
      pose proof (Rmin_r eps eps'). lra.
    + eapply Forall_impl; [|exact Hall]. intros r Hr.
      eapply Forall_impl; [|exact Hr]. intros w H'. cbv beta in H'.
      pose proof (Rmin_l eps eps'). lra.
Qed.

Lemma at2_bound (r c : nat) (ws : list (list R)) (eps : R) (i j : nat) :
  shaped r c ws -> Forall (Forall (fun w => eps <= w)) ws ->
  (i < r)%nat -> (j < c)%nat -> eps <= at2 0 ws i j.
Proof.
  intros Hs Hb Hi Hj. unfold at2.
  pose proof (shaped_row_length r c ws i Hs Hi) as Hlen.
  destruct Hs as [Hr Hc].
  rewrite Forall_forall in Hb.
  assert (Hrow : Forall (fun w => eps <= w) (nth i ws []))
    by (apply Hb, nth_In; lia).
  rewrite Forall_forall in Hrow. apply Hrow, nth_In. lia.
Qed.

Lemma positive_nonneg (ws : list (list R)) : positive_weights ws -> nonneg_weights ws.
Proof.
  unfold positive_weights, nonneg_weights. intros H.
  eapply Forall_impl; [|exact H]. intros row Hrow.
  eapply Forall_impl; [|exact Hrow]. simpl. intros w Hw. lra.
Qed.

(** ** Weights are relative *)

Lemma at2_scale_weights (c : R) (ws : list (list R)) (i j : nat) :
  at2 0 (scale_weights c ws) i j = c * at2 0 ws i j.
Proof.
  unfold at2, scale_weights.
  change (@nil R) with (map (Rmult c) []) at 1.
  rewrite map_nth.
  replace 0 with (c * 0) at 1 by ring.
  now rewrite map_nth.
Qed.

Lemma scale_weights_shaped (c : R) (r k : nat) (ws : list (list R)) :
  shaped r k ws -> shaped r k (scale_weights c ws).
Proof.
  intros [Hr Hc]. unfold scale_weights. split.
  - now rewrite length_map.
  - apply Forall_forall. intros row Hin.
    apply in_map_iff in Hin. destruct Hin as (row' & <- & Hin').
    rewrite length_map. rewrite Forall_forall in Hc. now apply Hc.
Qed.

Lemma scale_weights_nonneg (c : R) (ws : list (list R)) :
  0 <= c -> nonneg_weights ws -> nonneg_weights (scale_weights c ws).
Proof.
  intros Hc Hn. unfold nonneg_weights, scale_weights in *.
  apply Forall_forall. intros row Hin.
  apply in_map_iff in Hin. destruct Hin as (row' & <- & Hin').
  rewrite Forall_forall in Hn. specialize (Hn row' Hin').
  apply Forall_forall. intros w Hw.
  apply in_map_iff in Hw. destruct Hw as (w' & <- & Hw').
  rewrite Forall_forall in Hn. specialize (Hn w' Hw').
  now apply Rmult_le_pos.
Qed.

Lemma pdiv_scale (c a b d W : R) :
  c <> 0 -> pdiv (Pt (c * a) (c * b) (c * d)) (c * W) = pdiv (Pt a b d) W.
Proof.
  intros Hc. destruct (Req_dec_T W 0) as [->|HW].
  - rewrite Rmult_0_r. now rewrite !pdiv_zero.
  - rewrite !pdiv_nonzero; [|assumption|now apply Rmult_integral_contrapositive].
    f_equal; field; split; assumption.
Qed.

(** ** The spans of a knot vector *)

Lemma possible_spans_from_closed (l : list R) (k0 : nat) :
  let keep := fun j =>
    if Req_dec_T (nth (j - k0) l 0) (nth (S (j - k0)) l 0) then false else true in
  let indices := filter keep (seq k0 (length l - 1)) in
  NURBSSurface.possible_spans_from k0 l
  = (map (fun j => (nth (j - k0) l 0, nth (S (j - k0)) l 0)) indices, indices).
Proof.
  revert k0. induction l as [|x rest IH]; intros k0; [reflexivity|].
  destruct rest as [|y tl]; [reflexivity|].
  cbv zeta in *. specialize (IH (S k0)).
  change (NURBSSurface.possible_spans_from k0 (x :: y :: tl))
    with (let '(possible_spans, possible_span_indices) :=
            NURBSSurface.possible_spans_from (S k0) (y :: tl) in
          if Req_dec_T x y
          then (possible_spans, possible_span_indices)
          else ((x, y) :: possible_spans, k0 :: possible_span_indices)).
  rewrite IH. clear IH.
  replace (length (x :: y :: tl) - 1)%nat with (S (length (y :: tl) - 1))
    by (simpl; lia).
  cbn [seq filter]. rewrite Nat.sub_diag.
  change (nth 0 (x :: y :: tl) 0) with x.
  change (nth 1 (x :: y :: tl) 0) with y.
  assert (Hf : filter
                 (fun j => if Req_dec_T (nth (j - S k0) (y :: tl) 0)
                                        (nth (S (j - S k0)) (y :: tl) 0)
                           then false else true)
                 (seq (S k0) (length (y :: tl) - 1))
               = filter
                   (fun j => if Req_dec_T (nth (j - k0) (x :: y :: tl) 0)
                                          (nth (S (j - k0)) (x :: y :: tl) 0)
                             then false else true)
                   (seq (S k0) (length (y :: tl) - 1))).
  { apply filter_ext_in. intros j Hj. apply in_seq in Hj.
    replace (j - k0)%nat with (S (j - S k0)) by lia. reflexivity. }
  rewrite Hf.
  assert (Hm : forall js, (forall j, In j js -> (S k0 <= j)%nat) ->
             map (fun j => (nth (j - S k0) (y :: tl) 0, nth (S (j - S k0)) (y :: tl) 0)) js
             = map (fun j => (nth (j - k0) (x :: y :: tl) 0,
                              nth (S (j - k0)) (x :: y :: tl) 0)) js).
  { intros js Hjs. apply map_ext_in. intros j Hj. specialize (Hjs j Hj).
    replace (j - k0)%nat with (S (j - S k0)) by lia. reflexivity. }
  rewrite Hm.
  - destruct (Req_dec_T x y); cbn [map]; rewrite ?Nat.sub_diag; reflexivity.
  - intros j Hj. apply filter_In in Hj. destruct Hj as [Hj _].
    apply in_seq in Hj. lia.
Qed.

(** The indices and the spans of [_get_possible_spans], in closed form. *)
Lemma possible_spans_closed (kv : list R) :
  let distinct := fun j =>
    if Req_dec_T (knot kv j) (knot kv (j + 1)) then false else true in
  let indices := filter distinct (seq 0 (length kv - 1)) in
  NURBSSurface._get_possible_spans kv
  = (map (fun j => (knot kv j, knot kv (j + 1))) indices, indices).
Proof.
  intros distinct indices.
  unfold NURBSSurface._get_possible_spans.
  rewrite possible_spans_from_closed. cbv zeta. unfold indices, distinct, knot.
  f_equal.
  - rewrite (filter_ext _ (fun j => if Req_dec_T (nth j kv 0) (nth (j + 1) kv 0)
                                    then false else true)).
    + apply map_ext. intros j. rewrite Nat.sub_0_r.
      now replace (j + 1)%nat with (S j) by lia.
    + intros j. rewrite Nat.sub_0_r. now replace (j + 1)%nat with (S j) by lia.
  - apply filter_ext. intros j. rewrite Nat.sub_0_r.
    now replace (j + 1)%nat with (S j) by lia.
Qed.

Lemma possible_spans_member (kv : list R) (j : nat) :
  In j (snd (NURBSSurface._get_possible_spans kv)) <->
  (j + 1 < length kv)%nat /\ knot kv j <> knot kv (j + 1).
Proof.
  rewrite possible_spans_closed. cbv zeta. cbn [snd].
  rewrite filter_In, in_seq.
  destruct (Req_dec_T (knot kv j) (knot kv (j + 1)));
    split; intros [H1 H2]; try discriminate; try contradiction;
    (split; [lia|auto]).
Qed.

Lemma possible_spans_listed_none (kv : list R) :
  (forall j, (j + 1 < length kv)%nat -> knot kv j = knot kv (j + 1)) ->
  fst (NURBSSurface._get_possible_spans kv) = []
  /\ snd (NURBSSurface._get_possible_spans kv) = [].
Proof.
  intros Hall.
  assert (Hnil : snd (NURBSSurface._get_possible_spans kv) = []).
  { assert (Hno : forall js : list nat, (forall j, In j js -> False) -> js = []).
    { intros [|j js] H; [reflexivity|]. exfalso. apply (H j). now left. }
    apply Hno. intros j Hj. apply possible_spans_member in Hj.
    destruct Hj as [Hlt Hne]. apply Hne. now apply Hall. }
  split; [|exact Hnil].
  rewrite possible_spans_closed in Hnil |- *. cbv zeta in *. cbn [fst snd] in *.
  now rewrite Hnil.
Qed.

(** X15.  [_get_possible_spans] lists exactly the spans of the knot vector
    that are not degenerate, in increasing order: the indices are the
    positions [j], from 0 to [len(knot_vector) - 2], at which
    [knot_vector[j] != knot_vector[j + 1]], and the span listed with the
    index [j] is the pair of these two knots.  A knot vector with fewer
    than two knots, or with all knots equal, has no span. *)
Theorem possible_spans_listed (knot_vector : list R) :
  let distinct := fun j =>
    if Req_dec_T (knot knot_vector j) (knot knot_vector (j + 1))
    then false else true in
  let indices := filter distinct (seq 0 (length knot_vector - 1)) in
  NURBSSurface._get_possible_spans knot_vector
  = (map (fun j => (knot knot_vector j, knot knot_vector (j + 1))) indices, indices)
  /\ (forall j, In j indices <->
        (j + 1 < length knot_vector)%nat
        /\ knot knot_vector j <> knot knot_vector (j + 1))
  /\ ((forall j, (j + 1 < length knot_vector)%nat ->
         knot knot_vector j = knot knot_vector (j + 1)) ->
      NURBSSurface._get_possible_spans knot_vector = ([], [])).
Proof.
  intros distinct indices.
  pose proof (possible_spans_closed knot_vector) as Hclosed. cbv zeta in Hclosed.
  fold distinct in Hclosed. fold indices in Hclosed.
  split; [exact Hclosed|]. split.
  - intros j. rewrite <- (possible_spans_member knot_vector j).
    rewrite Hclosed. reflexivity.
  - intros Hall. destruct (possible_spans_listed_none knot_vector Hall) as [H1 H2].
    destruct (NURBSSurface._get_possible_spans knot_vector) as [sp ix].
    cbn [fst snd] in H1, H2. now subst.
Qed.

(** ** The span of a parameter *)

Lemma getitem_last {A : Type} (l : list A) (x : A) :
  getitem (l ++ [x]) (-1) = Ok x.
Proof.
  change (-1)%Z with (- (Z.of_nat 0 + 1))%Z.
  rewrite (getitem_back x) by (rewrite length_app; simpl; lia).
  f_equal. rewrite length_app. simpl.
  replace (length l + 1 - 1 - 0)%nat with (length l) by lia.
  apply nth_middle.
Qed.

(** No span holds a parameter below the first knot or from the last knot
    on. *)
Lemma scan_none (kv : list R) (t : R) :
  Sorted Rle kv ->
  t < knot kv 0 \/ knot kv (length kv - 1) <= t ->
  NURBSSurface.find_span_scan t
    (combine (fst (NURBSSurface._get_possible_spans kv))
             (snd (NURBSSurface._get_possible_spans kv))) = None.
Proof.
  intros Hs Ht. unfold NURBSSurface._get_possible_spans.
  destruct (NURBSSurface.find_span_scan t _) as [k|] eqn:E; [|reflexivity].
  exfalso. apply scan_sound in E. destruct E as (j & _ & Hj & Hjt).
  pose proof (sorted_knots_monotone kv Hs 0 j ltac:(lia) ltac:(lia)) as M0.
  pose proof (sorted_knots_monotone kv Hs (S j) (length kv - 1)
                ltac:(lia) ltac:(lia)) as M1.
  unfold knot in *. destruct Ht; lra.
Qed.

(** The last span that is not degenerate ends the two lists. *)
Lemma last_span_listed (kv : list R) (L : nat) :
  last_span kv L ->
  exists spans indices,
    NURBSSurface._get_possible_spans kv
    = (spans ++ [(knot kv L, knot kv (S L))], indices ++ [L]).
Proof.
  intros (HL & Hlt & Hafter).
  rewrite possible_spans_closed. cbv zeta.
  set (distinct := fun j => if Req_dec_T (knot kv j) (knot kv (j + 1))
                            then false else true).
  replace (length kv - 1)%nat with (S L + (length kv - 1 - S L))%nat by lia.
  rewrite seq_app, filter_app, (seq_S L), filter_app. cbn [filter Nat.add].
  assert (HdL : distinct L = true).
  { unfold distinct. replace (L + 1)%nat with (S L) by lia.
    destruct (Req_dec_T (knot kv L) (knot kv (S L))); [lra|reflexivity]. }
  rewrite HdL.
  assert (Hrest : filter distinct (seq (S L) (length kv - 1 - S L)) = []).
  { assert (Hno : forall js : list nat, (forall j, In j js -> False) -> js = []).
    { intros [|j js] H; [reflexivity|]. exfalso. apply (H j). now left. }
    apply Hno. intros j Hj. apply filter_In in Hj. destruct Hj as [Hj Hd].
    apply in_seq in Hj. unfold distinct in Hd.
    rewrite (Hafter j), (Hafter (j + 1)%nat) in Hd by lia.
    destruct (Req_dec_T (knot kv (S L)) (knot kv (S L))); [discriminate|contradiction]. }
  rewrite Hrest, app_nil_r, map_app. cbn [map].
  replace (L + 1)%nat with (S L) by lia.
  eexists. eexists. reflexivity.
Qed.

(** A knot vector that does not decrease and whose last knot is above its
    first has a last span that is not degenerate. *)
Lemma last_span_exists (kv : list R) :
  Sorted Rle kv -> knot kv 0 < knot kv (length kv - 1) ->
  exists L, last_span kv L.
Proof.
  intros Hs Hlt.
  assert (G : forall d i, (i + d = length kv - 1)%nat ->
                knot kv i < knot kv (length kv - 1) ->
                exists L, last_span kv L).
  { induction d as [|d IH]; intros i Hi Hk.
    - replace i with (length kv - 1)%nat in Hk by lia. lra.
    - pose proof (sorted_knots_monotone kv Hs (S i) (length kv - 1)
                    ltac:(lia) ltac:(lia)) as M.
      destruct (Rlt_dec (knot kv (S i)) (knot kv (length kv - 1))) as [Hn|Hn].
      + apply (IH (S i)); [lia|exact Hn].
      + exists i. split; [lia|]. split; [lra|].
        intros j Hj Hjl.
        pose proof (sorted_knots_monotone kv Hs (S i) j ltac:(lia) ltac:(lia)).
        pose proof (sorted_knots_monotone kv Hs j (length kv - 1)
                      ltac:(lia) ltac:(lia)).
        lra. }
  apply (G (length kv - 1)%nat 0%nat); [lia|exact Hlt].
Qed.

Lemma last_span_end (kv : list R) (L : nat) :
  last_span kv L -> knot kv (S L) = knot kv (length kv - 1).
Proof.
  intros (HL & _ & Hafter).
  destruct (Nat.eq_dec (S L) (length kv - 1)) as [->|Hne]; [reflexivity|].
  symmetry. apply Hafter; lia.
Qed.

Lemma find_span_outside (kv : list R) (t : R) :
  Sorted Rle kv -> knot kv 0 < knot kv (length kv - 1) ->
  t < knot kv 0 \/ knot kv (length kv - 1) < t ->
  NURBSSurface._find_span t (fst (NURBSSurface._get_possible_spans kv))
                            (snd (NURBSSurface._get_possible_spans kv)) = Ok None.
Proof.
  intros Hs Hlt Ht.
  destruct (last_span_exists kv Hs Hlt) as (L & HL).
  destruct (last_span_listed kv L HL) as (sp & ix & Hlist).
  pose proof (last_span_end kv L HL) as Hend.
  unfold NURBSSurface._find_span.
  rewrite scan_none; [|exact Hs|destruct Ht; [left|right]; lra].
  rewrite Hlist. cbn [fst snd]. rewrite getitem_last. cbn [bind snd].
  destruct (Req_dec_T t (knot kv (S L))) as [Heq|_]; [|reflexivity].
  exfalso. destruct HL as (HL1 & HL2 & _).
  pose proof (sorted_knots_monotone kv Hs 0 L ltac:(lia) ltac:(lia)).
  destruct Ht; lra.
Qed.

Lemma find_span_inside (kv : list R) (t : R) (j : nat) :
  Sorted Rle kv -> (S j < length kv)%nat -> knot kv j <= t < knot kv (S j) ->
  NURBSSurface._find_span t (fst (NURBSSurface._get_possible_spans kv))
                            (snd (NURBSSurface._get_possible_spans kv)) = Ok (Some j).
Proof.
  intros Hs Hj Hjt.
  unfold NURBSSurface._find_span, NURBSSurface._get_possible_spans.
  pose proof (scan_complete kv 0 t j Hs Hj Hjt) as Hscan. simpl in Hscan.
  now rewrite Hscan.
Qed.

Lemma find_span_last (kv : list R) (L : nat) :
  Sorted Rle kv -> last_span kv L ->
  NURBSSurface._find_span (knot kv (S L))
    (fst (NURBSSurface._get_possible_spans kv))
    (snd (NURBSSurface._get_possible_spans kv)) = Ok (Some L).
Proof.
  intros Hs HL.
  destruct (last_span_listed kv L HL) as (sp & ix & Hlist).
  pose proof (last_span_end kv L HL) as Hend.
  unfold NURBSSurface._find_span.
  rewrite scan_none; [|exact Hs|right; lra].
  rewrite Hlist. cbn [fst snd]. rewrite getitem_last. cbn [bind snd].
  destruct (Req_dec_T (knot kv (S L)) (knot kv (S L))) as [_|Hne]; [|contradiction].
  now rewrite getitem_last.
Qed.

(** X16.  [_find_span] on the spans of a knot vector that does not
    decrease.  When the last knot is above the first: a parameter below the
    first knot or above the last one has no span (the function falls off
    its end and returns [None]); a parameter from the first knot up to, but
    not, the last knot gets the index [j] of the span that holds it,
    [knot_vector[j] <= t < knot_vector[j + 1]]; the last knot itself gets
    the index of the last span that is not degenerate.  When all the knots
    are equal there is no span, and the function raises [IndexError] for
    every parameter. *)
Theorem find_span_result (kv : list R) (t : R) :
  Sorted Rle kv ->
  let spans := fst (NURBSSurface._get_possible_spans kv) in
  let indices := snd (NURBSSurface._get_possible_spans kv) in
  (knot kv 0 < knot kv (length kv - 1) ->
   (t < knot kv 0 \/ knot kv (length kv - 1) < t ->
    NURBSSurface._find_span t spans indices = Ok None)
   /\ (knot kv 0 <= t < knot kv (length kv - 1) ->
       exists j, NURBSSurface._find_span t spans indices = Ok (Some j)
                 /\ (S j < length kv)%nat
                 /\ knot kv j <= t < knot kv (S j))
   /\ (t = knot kv (length kv - 1) ->
       exists L, NURBSSurface._find_span t spans indices = Ok (Some L)
                 /\ last_span kv L))
  /\ ((forall j, (j + 1 < length kv)%nat -> knot kv j = knot kv (j + 1)) ->
      NURBSSurface._find_span t spans indices = Raise IndexError).
Proof.
  intros Hs spans indices. split.
  - intros Hlt. split; [|split].
    + intros Ht. now apply find_span_outside.
    + intros Ht. destruct (span_exists kv t Hs Ht) as (j & Hj & Hjt).
      exists j. split; [|split; [exact Hj|exact Hjt]].
      now apply find_span_inside.
    + intros Ht. destruct (last_span_exists kv Hs Hlt) as (L & HL).
      exists L. split; [|exact HL].
      rewrite Ht, <- (last_span_end kv L HL). now apply find_span_last.
  - intros Hall.
    destruct (possible_spans_listed_none kv Hall) as [Hsp Hix].
    unfold spans, indices. now rewrite Hsp, Hix.
Qed.

Lemma find_span_result_witness :
  let spans := fst (NURBSSurface._get_possible_spans sample_knot_vector) in
  let indices := snd (NURBSSurface._get_possible_spans sample_knot_vector) in
  exists j, NURBSSurface._find_span (1 / 4) spans indices = Ok (Some j)
            /\ (S j < length sample_knot_vector)%nat
            /\ knot sample_knot_vector j <= 1 / 4 < knot sample_knot_vector (S j).
Proof.
  assert (Hs : Sorted Rle sample_knot_vector)
    by (repeat constructor; lra).
  destruct (find_span_result sample_knot_vector (1 / 4) Hs) as [Hin _].
  apply Hin; unfold knot, sample_knot_vector; simpl; lra.
Defined.

(** ** The basis functions at the ends of the knot vector and beyond *)

Lemma ratio_zero_numerator (y : R) : ratio 0 y = 0.
Proof. unfold ratio. destruct (Req_dec_T y 0); [reflexivity|]. now field. Qed.

Lemma ratio_same (x : R) : x <> 0 -> ratio x x = 1.
Proof. intros H. unfold ratio. destruct (Req_dec_T x 0); [contradiction|]. now field. Qed.

(** The recursion of [_cox_de_boor] over the degree, for any values at
    degree zero. *)
Lemma cox_de_boor_recursion (kv : list R) (sp : list (R * R)) (ix : list nat)
    (t : R) (N : nat -> nat -> R) :
  (forall i, (i + 1 < length kv)%nat ->
     NURBSSurface._cox_de_boor t i 0 kv sp ix = Ok (N 0%nat i)) ->
  (forall q i, (i + S q + 1 < length kv)%nat ->
     N (S q) i
     = ratio (t - knot kv i) (knot kv (i + S q) - knot kv i) * N q i
       + ratio (knot kv (i + S q + 1) - t)
               (knot kv (i + S q + 1) - knot kv (i + 1)) * N q (i + 1)%nat) ->
  forall p i, (i + p + 1 < length kv)%nat ->
    NURBSSurface._cox_de_boor t i p kv sp ix = Ok (N p i).
Proof.
  intros Hbase Hstep. induction p as [|p IH]; intros i Hi.
  - apply Hbase. lia.
  - cbn [NURBSSurface._cox_de_boor].
    replace (Z.of_nat i + Z.of_nat (S p))%Z with (Z.of_nat (i + S p)) by lia.
    replace (Z.of_nat (i + S p) + 1)%Z with (Z.of_nat (i + S p + 1)) by lia.
    replace (Z.of_nat i + 1)%Z with (Z.of_nat (i + 1)) by lia.
    rewrite !getitem_knot by lia. cbn [bind].
    rewrite !finite_or_zero_ratio.
    rewrite (IH i) by lia. rewrite (IH (i + 1)%nat) by lia. cbn [bind].
    rewrite (Hstep p i Hi).
    set (f := ratio (t - knot kv i) (knot kv (i + S p) - knot kv i)).
    set (g := ratio (knot kv (i + S p + 1) - t)
                    (knot kv (i + S p + 1) - knot kv (i + 1))).
    destruct (Req_dec_T f 0) as [Hf|Hf]; destruct (Req_dec_T g 0) as [Hg|Hg];
      f_equal; try rewrite Hf; try rewrite Hg; ring.
Qed.

(** A listed span makes the last knot larger than the first. *)
Lemma listed_span_range (kv : list R) (i : nat) :
  Sorted Rle kv ->
  existsb (Nat.eqb i) (snd (NURBSSurface._get_possible_spans kv)) = true ->
  knot kv 0 < knot kv (length kv - 1).
Proof.
  intros Hs Hmem. apply existsb_exists in Hmem.
  destruct Hmem as (j & Hj & Heq). apply Nat.eqb_eq in Heq. subst j.
  apply possible_spans_member in Hj. destruct Hj as [Hlt Hne].
  pose proof (sorted_knots_monotone kv Hs 0 i ltac:(lia) ltac:(lia)).
  pose proof (sorted_knots_monotone kv Hs i (i + 1) ltac:(lia) ltac:(lia)).
  pose proof (sorted_knots_monotone kv Hs (i + 1) (length kv - 1)
                ltac:(lia) ltac:(lia)).
  lra.
Qed.

(** Outside the range of the knots every basis function is zero. *)
Lemma cox_de_boor_outside (kv : list R) (t : R) (p i : nat) :
  Sorted Rle kv ->
  t < knot kv 0 \/ knot kv (length kv - 1) < t ->
  (i + p + 1 < length kv)%nat ->
  NURBSSurface._cox_de_boor t i p kv
    (fst (NURBSSurface._get_possible_spans kv))
    (snd (NURBSSurface._get_possible_spans kv)) = Ok 0.
Proof.
  intros Hs Ht.
  apply (cox_de_boor_recursion kv _ _ t (fun _ _ => 0)).
  - intros j _. cbn [NURBSSurface._cox_de_boor].
    destruct (existsb (Nat.eqb j) (snd (NURBSSurface._get_possible_spans kv)))
      eqn:Hmem; [|reflexivity].
    rewrite find_span_outside; [reflexivity|exact Hs| |exact Ht].
    now apply (listed_span_range kv j).
  - intros q j _. ring.
Qed.

(** At the last knot the basis function of the last span that is not
    degenerate is one, and the others are zero, at every degree. *)
Lemma cox_de_boor_last (kv : list R) (L p i : nat) :
  Sorted Rle kv -> last_span kv L ->
  (i + p + 1 < length kv)%nat ->
  NURBSSurface._cox_de_boor (knot kv (S L)) i p kv
    (fst (NURBSSurface._get_possible_spans kv))
    (snd (NURBSSurface._get_possible_spans kv))
  = Ok (if Nat.eqb i L then 1 else 0).
Proof.
  intros Hs HL.
  apply (cox_de_boor_recursion kv _ _ (knot kv (S L))
           (fun _ i => if Nat.eqb i L then 1 else 0)).
  - intros j _. cbn [NURBSSurface._cox_de_boor].
    destruct (existsb (Nat.eqb j) (snd (NURBSSurface._get_possible_spans kv)))
      eqn:Hmem.
    + rewrite find_span_last by assumption. cbn [bind].
      rewrite (Nat.eqb_sym L j). destruct (Nat.eqb j L); reflexivity.
    + destruct (Nat.eqb_spec j L) as [->|_]; [|reflexivity].
      exfalso. destruct HL as (HL1 & HL2 & _).
      assert (Hne : nth L kv 0 <> nth (S L) kv 0) by (unfold knot in HL2; lra).
      pose proof (span_index_listed kv 0 L HL1 Hne) as Hl. simpl in Hl.
      unfold NURBSSurface._get_possible_spans in Hmem. congruence.
  - intros q j Hj. destruct HL as (HL1 & HL2 & HL3).
    destruct (Nat.eqb_spec j L) as [->|Hne].
    + rewrite (HL3 (L + S q)%nat) by lia.
      rewrite (HL3 (L + S q + 1)%nat) by lia.
      rewrite ratio_same by lra.
      replace (knot kv (S L) - knot kv (S L)) with 0 by ring.
      rewrite ratio_zero_numerator. ring.
    + destruct (Nat.eqb_spec (j + 1) L) as [He|_]; [|ring].
      rewrite (HL3 (j + S q + 1)%nat) by lia.
      replace (knot kv (S L) - knot kv (S L)) with 0 by ring.
      rewrite ratio_zero_numerator. ring.
Qed.

(** At the first knot of a clamped vector whose first knot is repeated
    [p + 1] times and no more, the function of index [i] and degree [q] is
    one when [i + q = p] and zero otherwise. *)
Lemma bspline_first_knot (kv : list R) (p : nat) (a : R) :
  Sorted Rle kv -> (p + 1 < length kv)%nat ->
  (forall i, (i <= p)%nat -> knot kv i = a) ->
  a < knot kv (p + 1) ->
  forall q i, (i + q + 1 < length kv)%nat ->
    bspline kv a q i = if Nat.eqb (i + q) p then 1 else 0.
Proof.
  intros Hs Hlen Hfirst Hnext.
  induction q as [|q IH]; intros i Hi.
  - rewrite Nat.add_0_r. cbn [bspline].
    destruct (Nat.eqb_spec i p) as [->|Hne].
    + rewrite (Hfirst p) by lia.
      destruct (Rle_dec a a); [|lra].
      destruct (Rlt_dec a (knot kv (p + 1))); [reflexivity|lra].
    + destruct (Nat.lt_ge_cases i p) as [Hlt|Hge].
      * rewrite (Hfirst i), (Hfirst (i + 1)%nat) by lia.
        destruct (Rle_dec a a); [|reflexivity].
        destruct (Rlt_dec a a); [lra|reflexivity].
      * pose proof (sorted_knots_monotone kv Hs (p + 1) i ltac:(lia) ltac:(lia)).
        destruct (Rle_dec (knot kv i) a); [lra|reflexivity].
  - cbn [bspline]. rewrite (IH i), (IH (i + 1)%nat) by lia.
    destruct (Nat.eqb_spec (i + S q) p) as [He|Hne].
    + destruct (Nat.eqb_spec (i + q) p) as [He'|_]; [lia|].
      destruct (Nat.eqb_spec (i + 1 + q) p) as [_|Hn]; [|lia].
      replace (i + S q + 1)%nat with (p + 1)%nat by lia.
      rewrite (Hfirst (i + 1)%nat) by lia.
      rewrite ratio_same by lra. ring.
    + destruct (Nat.eqb_spec (i + 1 + q) p) as [He'|_]; [lia|].
      destruct (Nat.eqb_spec (i + q) p) as [He'|_]; [|ring].
      rewrite (Hfirst i) by lia.
      replace (a - a) with 0 by ring. rewrite ratio_zero_numerator. ring.
Qed.

(** The array of [_basis_functions], from the values of [_cox_de_boor]. *)
Lemma basis_functions_of (kv : list R) (sp : list (R * R)) (ix : list nat)
    (t : R) (p n : nat) (N : nat -> R) :
  (forall i, (i < n)%nat -> NURBSSurface._cox_de_boor t i p kv sp ix = Ok (N i)) ->
  NURBSSurface._basis_functions t p kv (Z.of_nat n) sp ix = Ok (map N (seq 0 n)).
Proof.
  intros H. unfold NURBSSurface._basis_functions. rewrite range_of_nat.
  assert (G : forall l, (forall i, In i l -> (i < n)%nat) ->
    comprehension (fun i => NURBSSurface._cox_de_boor t i p kv sp ix) l
    = Ok (map N l)).
  { induction l as [|i l IHl]; intros Hl; [reflexivity|].
    simpl. rewrite H by (apply Hl; now left). cbn [bind].
    rewrite IHl; [reflexivity|]. intros; apply Hl; now right. }
  apply G. intros i Hi. apply in_seq in Hi. lia.
Qed.

Lemma nth_unit_array (n k i : nat) :
  (i < n)%nat -> nth i (unit_array n k) 0 = if Nat.eqb i k then 1 else 0.
Proof. intros H. unfold unit_array. now rewrite nth_map_seq. Qed.

(** On a clamped vector whose end knots are repeated [p + 1] times and no
    more, the basis at the first knot is the first unit array and the basis
    at the last knot is the last one. *)
Lemma basis_at_ends (kv : list R) (p n : nat) (a b : R) :
  simply_clamped kv p (S n) a b ->
  NURBSSurface._basis_functions a p kv (Z.of_nat (S n))
    (fst (NURBSSurface._get_possible_spans kv))
    (snd (NURBSSurface._get_possible_spans kv)) = Ok (unit_array (S n) 0)
  /\ NURBSSurface._basis_functions b p kv (Z.of_nat (S n))
       (fst (NURBSSurface._get_possible_spans kv))
       (snd (NURBSSurface._get_possible_spans kv)) = Ok (unit_array (S n) n).
Proof.
  intros ((Hlen & Hs & Hfirst & Hlast & Hab) & Hnext & Hprev).
  replace (S n - 1)%nat with n in Hprev by lia.
  assert (H0 : knot kv 0 = a) by (apply Hfirst; lia).
  assert (Htop : knot kv (length kv - 1) = b) by (apply Hlast; lia).
  assert (Hn : knot kv (S n) = b) by (apply Hlast; lia).
  split.
  - rewrite basis_functions_value; auto; [|rewrite H0, Htop; lra|lia].
    f_equal. unfold unit_array. apply map_ext_in. intros i Hi.
    apply in_seq in Hi.
    rewrite (bspline_first_knot kv p a Hs) by (auto; lia).
    destruct (Nat.eqb_spec (i + p) p); destruct (Nat.eqb_spec i 0);
      try reflexivity; lia.
  - assert (HL : last_span kv n).
    { split; [lia|]. split; [lra|].
      intros j Hj Hjl. rewrite Hn. apply Hlast. lia. }
    rewrite <- Hn. apply basis_functions_of. intros i Hi.
    apply cox_de_boor_last; auto. lia.
Qed.

(** ** Evaluation of a NURBS surface *)

Lemma getitem_last_nonempty {A : Type} (l : list A) :
  l <> [] -> exists x, getitem l (-1) = Ok x.
Proof.
  intros H. destruct (exists_last H) as (l' & x & ->).
  exists x. apply getitem_last.
Qed.

(** [_find_span] does not raise when a span is listed. *)
Lemma find_span_listed_total (kv : list R) (t : R) (i : nat) :
  existsb (Nat.eqb i) (snd (NURBSSurface._get_possible_spans kv)) = true ->
  exists r, NURBSSurface._find_span t
              (fst (NURBSSurface._get_possible_spans kv))
              (snd (NURBSSurface._get_possible_spans kv)) = Ok r.
Proof.
  intros Hmem. unfold NURBSSurface._find_span.
  destruct (NURBSSurface.find_span_scan t _); [eexists; reflexivity|].
  pose proof (possible_spans_lengths kv 0) as Hl.
  fold (NURBSSurface._get_possible_spans kv) in Hl.
  destruct (NURBSSurface._get_possible_spans kv) as [sp ix]. cbn [fst snd] in *.
  assert (Hix : ix <> []) by (destruct ix; [discriminate|discriminate]).
  assert (Hsp : sp <> []).
  { destruct sp; [|discriminate]. destruct ix; [contradiction|discriminate]. }
  destruct (getitem_last_nonempty sp Hsp) as [x ->]. cbn [bind].
  destruct (Req_dec_T t (snd x)); [|eexists; reflexivity].
  destruct (getitem_last_nonempty ix Hix) as [k ->]. eexists; reflexivity.
Qed.

(** On indices in range [_cox_de_boor] does not raise, whatever the knot
    vector and the parameter. *)
Lemma cox_de_boor_total (kv : list R) (t : R) (p i : nat) :
  (i + p + 1 < length kv)%nat ->
  exists r, NURBSSurface._cox_de_boor t i p kv
              (fst (NURBSSurface._get_possible_spans kv))
              (snd (NURBSSurface._get_possible_spans kv)) = Ok r.
Proof.
  revert i. induction p as [|p IH]; intros i Hi.
  - cbn [NURBSSurface._cox_de_boor].
    destruct (existsb (Nat.eqb i) (snd (NURBSSurface._get_possible_spans kv)))
      eqn:Hmem; [|eexists; reflexivity].
    destruct (find_span_listed_total kv t i Hmem) as [r ->]. cbn [bind].
    destruct r as [k|]; [destruct (Nat.eqb k i)|]; eexists; reflexivity.
  - cbn [NURBSSurface._cox_de_boor].
    replace (Z.of_nat i + Z.of_nat (S p))%Z with (Z.of_nat (i + S p)) by lia.
    replace (Z.of_nat (i + S p) + 1)%Z with (Z.of_nat (i + S p + 1)) by lia.
    replace (Z.of_nat i + 1)%Z with (Z.of_nat (i + 1)) by lia.
    rewrite !getitem_knot by lia. cbn [bind].
    destruct (IH i) as [r1 ->]; [lia|].
    destruct (IH (i + 1)%nat) as [r2 ->]; [lia|]. cbn [bind].
    repeat match goal with
           | |- context [Req_dec_T ?x ?y] => destruct (Req_dec_T x y)
           end; eexists; reflexivity.
Qed.

Lemma basis_functions_total (kv : list R) (t : R) (p n : nat) :
  (n + p + 1 <= length kv)%nat ->
  exists B,
    NURBSSurface._basis_functions t p kv (Z.of_nat n)
      (fst (NURBSSurface._get_possible_spans kv))
      (snd (NURBSSurface._get_possible_spans kv)) = Ok B.
Proof.
  intros Hn. unfold NURBSSurface._basis_functions. rewrite range_of_nat.
  assert (G : forall l, (forall i, In i l -> (i < n)%nat) ->
    exists B,
      comprehension
        (fun i => NURBSSurface._cox_de_boor t i p kv
                    (fst (NURBSSurface._get_possible_spans kv))
                    (snd (NURBSSurface._get_possible_spans kv))) l = Ok B).
  { induction l as [|i l IHl]; intros Hl; [eexists; reflexivity|].
    destruct (cox_de_boor_total kv t p i) as [r Hr].
    { pose proof (Hl i (or_introl eq_refl)). lia. }
    destruct IHl as [B HB]; [intros; apply Hl; now right|].
    exists (r :: B). simpl. rewrite Hr. cbn [bind]. now rewrite HB. }
  apply G. intros i Hi. apply in_seq in Hi. lia.
Qed.

(** What the asserts of the constructor leave: the fields of the surface
    and the lengths of the knot vectors. *)
Lemma nurbs_init_fields (cps : list (list Point3D)) (ku kv : list R)
    (ws : list (list R)) (du dv : nat) (srf : NURBSSurface.t) :
  NURBSSurface.__init__ cps ku kv ws du dv = Ok srf ->
  srf = NURBSSurface.mk cps ku kv ws du dv (shape_0 cps) (shape_1 cps)
          (fst (NURBSSurface._get_possible_spans ku))
          (snd (NURBSSurface._get_possible_spans ku))
          (fst (NURBSSurface._get_possible_spans kv))
          (snd (NURBSSurface._get_possible_spans kv))
  /\ len ku = (shape_0 cps + Z.of_nat du + 1)%Z
  /\ len kv = (shape_1 cps + Z.of_nat dv + 1)%Z.
Proof.
  unfold NURBSSurface.__init__. intros H.
  destruct (Z.eqb_spec (len ku) (shape_0 cps + Z.of_nat du + 1)) as [E1|];
    [|discriminate].
  destruct (Z.eqb_spec (len kv) (shape_1 cps + Z.of_nat dv + 1)) as [E2|];
    [|discriminate].
  cbn [assert bind] in H.
  destruct ((shape_0 cps =? shape_0 ws)%Z && (shape_1 cps =? shape_1 ws)%Z)%bool;
    [|discriminate].
  cbn [assert bind] in H.
  destruct (check_weights ws); [|discriminate]. cbn [bind] in H.
  destruct (NURBSSurface._get_possible_spans ku) as [su iu].
  destruct (NURBSSurface._get_possible_spans kv) as [sv iv].
  injection H as <-. auto.
Qed.

Lemma pscale_pscale (a b : R) (p : Point3D) :
  pscale a (pscale b p) = pscale (a * b) p.
Proof. destruct p; simpl; [f_equal; ring|reflexivity]. Qed.

(** Evaluation, as the loop over the grid and the sum of the weighted basis
    values. *)
Lemma nurbs_evaluate_fold (cps : list (list Point3D)) (ku kv : list R)
    (ws : list (list R)) (du dv : nat) (srf : NURBSSurface.t) (n m : nat)
    (u v : R) (Bu Bv : list R) :
  NURBSSurface.__init__ cps ku kv ws du dv = Ok srf ->
  shape_0 cps = Z.of_nat n -> shape_1 cps = Z.of_nat m ->
  NURBSSurface._basis_functions u du ku (Z.of_nat n)
    (fst (NURBSSurface._get_possible_spans ku))
    (snd (NURBSSurface._get_possible_spans ku)) = Ok Bu ->
  NURBSSurface._basis_functions v dv kv (Z.of_nat m)
    (fst (NURBSSurface._get_possible_spans kv))
    (snd (NURBSSurface._get_possible_spans kv)) = Ok Bv ->
  let c := fun i j => nth i Bu 0 * nth j Bv 0 * at2 0 ws i j in
  NURBSSurface.evaluate_ndarray srf u v
  = Ok (pdiv
          (fold_left (fun acc i =>
             fold_left (fun acc j => padd acc (pscale (c i j) (at2 NonFinite cps i j)))
                       (seq 0 m) acc)
           (seq 0 n) zeros)
          (rsum (fun i => rsum (fun j => c i j) m) n)).
Proof.
  intros Hinit Hn Hm HBu HBv c.
  destruct (nurbs_init_fields _ _ _ _ _ _ _ Hinit) as (-> & _ & _).
  unfold NURBSSurface.evaluate_ndarray.
  cbn [NURBSSurface.control_points NURBSSurface.weights NURBSSurface.knots_u
       NURBSSurface.knots_v NURBSSurface.degree_u NURBSSurface.degree_v
       NURBSSurface.Nu NURBSSurface.Nv NURBSSurface.possible_spans_u
       NURBSSurface.possible_span_indices_u NURBSSurface.possible_spans_v
       NURBSSurface.possible_span_indices_v].
  rewrite Hn, Hm, HBu, HBv. cbn [bind]. rewrite !range_of_nat.
  pose proof (grid_fold_pair c cps n m zeros 0) as H.
  match goal with
  | |- context [fold_left ?F (seq 0 n) (zeros, 0)] =>
      replace (fold_left F (seq 0 n) (zeros, 0))
        with (fold_left (fun acc i =>
                fold_left (fun '(point, wsum) j =>
                   (padd point (pscale (c i j) (at2 NonFinite cps i j)), wsum + c i j))
                  (seq 0 m) acc)
              (seq 0 n) (zeros, 0))
  end.
  - rewrite H. f_equal. f_equal. lra.
  - apply fold_left_ext_in. intros acc i _.
    apply fold_left_ext_in. intros [point wsum] j _.
    unfold c. rewrite !pscale_pscale. do 3 f_equal. ring.
Qed.

Lemma shape_nat {A : Type} (g : list (list A)) :
  exists n m, shape_0 g = Z.of_nat n /\ shape_1 g = Z.of_nat m.
Proof.
  exists (length g). destruct g as [|row0 rest].
  - exists 0%nat. split; reflexivity.
  - exists (length row0). split; reflexivity.
Qed.

Lemma nth_zero_array (n i : nat) : nth i (map (fun _ : nat => 0) (seq 0 n)) 0 = 0.
Proof.
  destruct (Nat.lt_ge_cases i n) as [H|H].
  - now rewrite nth_map_seq.
  - apply nth_overflow. now rewrite length_map, length_seq.
Qed.

(** Without rounding, a NURBS surface on clamped knot vectors whose end
    knots are repeated degree + 1 times and no more passes through a
    corner control point when the weight there is not zero, and has no
    finite value there when that weight is zero. *)
Lemma nurbs_corner_eval (n m : nat) (cps : list (list Point3D))
    (ws : list (list R)) (ku kv : list R) (du dv : nat) (au bu av bv : R)
    (srf : NURBSSurface.t) (corner : SurfaceCorner) :
  shaped (S n) (S m) cps -> all_finite cps ->
  simply_clamped ku du (S n) au bu -> simply_clamped kv dv (S m) av bv ->
  NURBSSurface.__init__ cps ku kv ws du dv = Ok srf ->
  let ki := fst (corner_index n m corner) in
  let kj := snd (corner_index n m corner) in
  NURBSSurface.evaluate_ndarray srf (fst (knot_corner au bu av bv corner))
                                (snd (knot_corner au bu av bv corner))
  = Ok (if Req_dec_T (at2 0 ws ki kj) 0 then NonFinite
        else at2 NonFinite cps ki kj).
Proof.
  intros Hp Hf Hku Hkv Hinit ki kj.
  destruct (basis_at_ends ku du n au bu Hku) as [Hua Hub].
  destruct (basis_at_ends kv dv m av bv Hkv) as [Hva Hvb].
  assert (HBu : NURBSSurface._basis_functions (fst (knot_corner au bu av bv corner))
                  du ku (Z.of_nat (S n))
                  (fst (NURBSSurface._get_possible_spans ku))
                  (snd (NURBSSurface._get_possible_spans ku))
                = Ok (unit_array (S n) ki)).
  { unfold ki. destruct corner; assumption. }
  assert (HBv : NURBSSurface._basis_functions (snd (knot_corner au bu av bv corner))
                  dv kv (Z.of_nat (S m))
                  (fst (NURBSSurface._get_possible_spans kv))
                  (snd (NURBSSurface._get_possible_spans kv))
                = Ok (unit_array (S m) kj)).
  { unfold kj. destruct corner; assumption. }
  rewrite (nurbs_evaluate_fold cps ku kv ws du dv srf (S n) (S m) _ _ _ _ Hinit
             (shape_0_shaped _ _ _ Hp) (shape_1_shaped _ _ _ Hp) HBu HBv).
  cbv zeta.
  destruct (corner_index_in_range n m corner) as [Hi Hj].
  fold ki kj in Hi, Hj.
  assert (Hfin : is_finite (at2 NonFinite cps ki kj))
    by now apply (at2_finite (S n) (S m)).
  assert (Hoff : forall i j, (i < S n)%nat -> (j < S m)%nat ->
            i <> ki \/ j <> kj ->
            nth i (unit_array (S n) ki) 0 * nth j (unit_array (S m) kj) 0
            * at2 0 ws i j = 0).
  { intros i j Hi' Hj' Hne. rewrite !nth_unit_array by assumption.
    destruct (Nat.eqb_spec i ki); destruct (Nat.eqb_spec j kj); try ring.
    destruct Hne; contradiction. }
  assert (Hon : nth ki (unit_array (S n) ki) 0 * nth kj (unit_array (S m) kj) 0 = 1).
  { rewrite !nth_unit_array, !Nat.eqb_refl by assumption. ring. }
  rewrite grid_fold_finite
    by (intros; now apply (at2_finite (S n) (S m))).
  rewrite !(gsum_single _ cps _ (S n) (S m) ki kj) by assumption.
  rewrite (rsum2_single _ (S n) (S m) ki kj) by assumption.
  rewrite Hon, !Rmult_1_l. f_equal.
  destruct (Req_dec_T (at2 0 ws ki kj) 0) as [Hz|Hnz].
  - rewrite Hz. apply pdiv_zero.
  - rewrite pdiv_nonzero by assumption.
    rewrite (Pt_coords (at2 NonFinite cps ki kj)) at 4 by assumption.
    f_equal; field; assumption.
Qed.

Lemma sample_nurbs_knots_clamped : simply_clamped sample_nurbs_knots 1 2 0 1.
Proof.
  split; [|split; unfold knot, sample_nurbs_knots; simpl; lra].
  split; [reflexivity|]. split; [repeat constructor; lra|].
  split; [|split; [|lra]].
  - intros i Hi. destruct i as [|[|i]]; try reflexivity; lia.
  - intros i Hi. destruct i as [|[|[|[|i]]]]; try reflexivity; lia.
Qed.

Lemma sample_nurbs_init :
  exists srf,
    NURBSSurface.__init__ sample_points sample_nurbs_knots sample_nurbs_knots
      sample_unit_weights 1 1 = Ok srf.
Proof.
  rewrite (nurbs_init_checks 1 1);
    try reflexivity; try (split; [reflexivity|repeat constructor]).
  rewrite check_weights_nonneg by (repeat constructor; lra). cbn [bind].
  destruct (NURBSSurface._get_possible_spans sample_nurbs_knots).
  eexists. reflexivity.
Qed.

(** X18.  The evaluation of a NURBS surface constructed with degrees that
    are not negative never raises: the lengths that the constructor asserts
    keep every knot lookup of the Cox-de Boor recursion in range, and
    [_find_span] is asked only when a span is listed.  (With a negative
    degree, which the constructor does not refuse, the recursion reads past
    the end of the knot vector; that case is outside this statement.)  With
    a knot vector that does not decrease, a parameter
    below its first knot or above its last knot makes every basis value
    zero, and the evaluation divides zero by zero: it returns an array that
    is not finite, not an error. *)
Theorem nurbs_evaluate_outside (cps : list (list Point3D)) (ku kv : list R)
    (ws : list (list R)) (du dv : nat) (srf : NURBSSurface.t) :
  NURBSSurface.__init__ cps ku kv ws du dv = Ok srf ->
  (forall u v, exists p, NURBSSurface.evaluate_ndarray srf u v = Ok p)
  /\ (Sorted Rle ku ->
      forall u v, u < knot ku 0 \/ knot ku (length ku - 1) < u ->
        NURBSSurface.evaluate_ndarray srf u v = Ok NonFinite)
  /\ (Sorted Rle kv ->
      forall u v, v < knot kv 0 \/ knot kv (length kv - 1) < v ->
        NURBSSurface.evaluate_ndarray srf u v = Ok NonFinite).
Proof.
  intros Hinit.
  destruct (shape_nat cps) as (n & m & Hn & Hm).
  destruct (nurbs_init_fields _ _ _ _ _ _ _ Hinit) as (_ & Hlu & Hlv).
  unfold len in Hlu, Hlv. rewrite Hn in Hlu. rewrite Hm in Hlv.
  assert (HBu : forall u, exists Bu,
            NURBSSurface._basis_functions u du ku (Z.of_nat n)
              (fst (NURBSSurface._get_possible_spans ku))
              (snd (NURBSSurface._get_possible_spans ku)) = Ok Bu)
    by (intros u; apply basis_functions_total; lia).
  assert (HBv : forall v, exists Bv,
            NURBSSurface._basis_functions v dv kv (Z.of_nat m)
              (fst (NURBSSurface._get_possible_spans kv))
              (snd (NURBSSurface._get_possible_spans kv)) = Ok Bv)
    by (intros v; apply basis_functions_total; lia).
  split; [|split].
  - intros u v. destruct (HBu u) as [Bu Hu]. destruct (HBv v) as [Bv Hv].
    rewrite (nurbs_evaluate_fold cps ku kv ws du dv srf n m u v Bu Bv); auto.
    eexists. reflexivity.
  - intros Hs u v Hout. destruct (HBv v) as [Bv Hv].
    assert (Hu : NURBSSurface._basis_functions u du ku (Z.of_nat n)
                   (fst (NURBSSurface._get_possible_spans ku))
                   (snd (NURBSSurface._get_possible_spans ku))
                 = Ok (map (fun _ => 0) (seq 0 n))).
    { apply basis_functions_of. intros i Hi.
      apply cox_de_boor_outside; auto. lia. }
    rewrite (nurbs_evaluate_fold cps ku kv ws du dv srf n m u v _ Bv Hinit Hn Hm Hu Hv).
    cbv zeta. f_equal.
    match goal with
    | |- pdiv ?a ?b = _ => replace b with 0; [apply pdiv_zero|]
    end.
    symmetry. apply rsum_zero. intros i _. apply rsum_zero. intros j _.
    rewrite nth_zero_array. ring.
  - intros Hs u v Hout. destruct (HBu u) as [Bu Hu].
    assert (Hv : NURBSSurface._basis_functions v dv kv (Z.of_nat m)
                   (fst (NURBSSurface._get_possible_spans kv))
                   (snd (NURBSSurface._get_possible_spans kv))
                 = Ok (map (fun _ => 0) (seq 0 m))).
    { apply basis_functions_of. intros i Hi.
      apply cox_de_boor_outside; auto. lia. }
    rewrite (nurbs_evaluate_fold cps ku kv ws du dv srf n m u v Bu _ Hinit Hn Hm Hu Hv).
    cbv zeta. f_equal.
    match goal with
    | |- pdiv ?a ?b = _ => replace b with 0; [apply pdiv_zero|]
    end.
    symmetry. apply rsum_zero. intros i _. apply rsum_zero. intros j _.
    rewrite nth_zero_array. ring.
Qed.

Lemma nurbs_evaluate_outside_witness :
  exists srf,
    NURBSSurface.__init__ sample_points sample_nurbs_knots sample_nurbs_knots
      sample_unit_weights 1 1 = Ok srf
    /\ NURBSSurface.evaluate_ndarray srf 2 0 = Ok NonFinite.
Proof.
  destruct sample_nurbs_init as [srf Hinit]. exists srf. split; [exact Hinit|].
  destruct (nurbs_evaluate_outside sample_points sample_nurbs_knots
              sample_nurbs_knots sample_unit_weights 1 1 srf Hinit)
    as (_ & Hu & _).
  apply Hu.
  - repeat constructor; lra.
  - right. unfold knot, sample_nurbs_knots. simpl. lra.
Defined.

(** ** The bounding box of a NURBS surface *)

Lemma ratio_nonneg (x y : R) : 0 <= x -> 0 <= y -> 0 <= ratio x y.
Proof.
  intros Hx Hy. unfold ratio. destruct (Req_dec_T y 0); [lra|].
  apply Rmult_le_pos; [exact Hx|]. left. apply Rinv_0_lt_compat. lra.
Qed.

Lemma bspline_nonneg (kv : list R) (t : R) (p i : nat) :
  Sorted Rle kv -> (i + p + 1 < length kv)%nat -> 0 <= bspline kv t p i.
Proof.
  intros Hs. revert i. induction p as [|p IH]; intros i Hi.
  - simpl. destruct (Rle_dec (knot kv i) t); [|lra].
    destruct (Rlt_dec t (knot kv (i + 1))); lra.
  - cbn [bspline]. apply Rplus_le_le_0_compat.
    + destruct (Rlt_dec t (knot kv i)) as [Hlt|Hge].
      * rewrite (bspline_support kv t p i Hs) by (try lia; now left). lra.
      * apply Rmult_le_pos; [|apply IH; lia].
        pose proof (sorted_knots_monotone kv Hs i (i + S p) ltac:(lia) ltac:(lia)).
        apply ratio_nonneg; lra.
    + destruct (Rle_dec (knot kv (i + S p + 1)) t) as [Hle|Hgt].
      * rewrite (bspline_support kv t p (i + 1) Hs); [lra|lia|].
        right. now replace (i + 1 + p + 1)%nat with (i + S p + 1)%nat by lia.
      * apply Rmult_le_pos; [|apply IH; lia].
        pose proof (sorted_knots_monotone kv Hs (i + 1) (i + S p + 1)
                      ltac:(lia) ltac:(lia)).
        apply ratio_nonneg; lra.
Qed.

(** On a clamped knot vector, from the first knot to the last knot
    included, the basis values are not negative and sum to one. *)
Lemma basis_values (kv : list R) (p n : nat) (a b t : R) :
  clamped_knot_vector kv p n a b -> a <= t <= b ->
  exists N : nat -> R,
    NURBSSurface._basis_functions t p kv (Z.of_nat n)
      (fst (NURBSSurface._get_possible_spans kv))
      (snd (NURBSSurface._get_possible_spans kv)) = Ok (map N (seq 0 n))
    /\ (forall i, (i < n)%nat -> 0 <= N i)
    /\ rsum N n = 1.
Proof.
  intros (Hlen & Hs & Hfirst & Hlast & Hab) Ht.
  assert (H0 : knot kv 0 = a) by (apply Hfirst; lia).
  assert (Hp : knot kv p = a) by (apply Hfirst; lia).
  assert (Hn : knot kv n = b) by (apply Hlast; lia).
  assert (Htop : knot kv (length kv - 1) = b) by (apply Hlast; lia).
  destruct (Rlt_dec t b) as [Hlt|Hge].
  - exists (bspline kv t p). split; [|split].
    + apply basis_functions_value; auto; [|lia]. rewrite H0, Htop. lra.
    + intros i Hi. apply bspline_nonneg; auto. lia.
    + rewrite <- rsum_range_from_0. replace 0%nat with (p - p)%nat by lia.
      apply (bspline_partition_level kv t p n); auto. rewrite Hp, Hn. lra.
  - assert (Htb : t = b) by lra. subst t.
    destruct (last_span_exists kv Hs) as (L & HL); [rewrite H0, Htop; lra|].
    pose proof (last_span_end kv L HL) as Hend. rewrite Htop in Hend.
    assert (HLn : (L < n)%nat).
    { destruct (Nat.lt_ge_cases L n) as [H|H]; [exact H|].
      destruct HL as (HL1 & HL2 & _).
      rewrite (Hlast L), (Hlast (S L)) in HL2 by lia. lra. }
    exists (fun i => if Nat.eqb i L then 1 else 0). split; [|split].
    + rewrite <- Hend. apply basis_functions_of. intros i Hi.
      apply cox_de_boor_last; auto. lia.
    + intros i _. destruct (Nat.eqb i L); lra.
    + rewrite (rsum_single L); [now rewrite Nat.eqb_refl|exact HLn|].
      intros i _ Hne. destruct (Nat.eqb_spec i L); [contradiction|reflexivity].
Qed.

(** ** The knot vector of a revolution *)






(** ** The NURBS surface of revolution *)


(** On a backward sweep the number of samples asked of [np.linspace] is
    negative from a quarter turn on, and is one below a quarter turn. *)
Lemma nurbs_angles_backward (start_angle end_angle : R) :
  end_angle < start_angle ->
  (end_angle - start_angle <= - (PI / 2) ->
   NURBSSurface._determine_angle_distribution start_angle end_angle
   = Raise ValueError)
  /\ (- (PI / 2) < end_angle - start_angle ->
      NURBSSurface._determine_angle_distribution start_angle end_angle
      = Ok [start_angle]).
Proof.
  intros Hlt. pose proof half_pi_positive as Hh.
  set (d := end_angle - start_angle).
  assert (Hd : d < 0) by (unfold d; lra).
  set (x := d / (PI / 2)).
  assert (Hx : x * (PI / 2) = d) by (unfold x; field; lra).
  destruct (Zfloor_bound x) as [Hlo Hhi].
  unfold NURBSSurface._determine_angle_distribution, floordiv, pymod, floordiv.
  fold d. rewrite half_pi. fold x.
  destruct (Req_dec_T d 0) as [Hz|_]; [lra|].
  set (q := Zfloor x) in *.
  split.
  - intros Hback.
    assert (Hx1 : x <= -1) by nra.
    assert (Hq : (q <= -1)%Z) by (apply le_IZR; lra).
    destruct (Req_dec_T (d - PI / 2 * IZR q) 0) as [Hm|Hm].
    + unfold linspace. destruct (Z.ltb_spec (2 * q + 1) 0); [reflexivity|lia].
    + assert (Hq2 : (q <= -2)%Z).
      { destruct (Z.eq_dec q (-1)) as [E|E]; [|lia].
        exfalso. apply Hm. rewrite E in *. nra. }
      unfold linspace. destruct (Z.ltb_spec (2 * q + 3) 0); [reflexivity|lia].
  - intros Hshort.
    assert (Hx1 : -1 < x < 0) by nra.
    assert (Hq : q = (-1)%Z).
    { assert (H1 : (q < 0)%Z) by (apply lt_IZR; lra).
      assert (H2 : (-2 < q)%Z) by (apply lt_IZR; lra).
      lia. }
    rewrite Hq.
    destruct (Req_dec_T (d - PI / 2 * IZR (-1)) 0) as [Hm|_]; [lra|].
    rewrite linspace_ok by lia.
    change (Z.to_nat (2 * -1 + 3)) with 1%nat. cbn [seq map].
    f_equal. f_equal. simpl INR. ring.
Qed.

Section NurbsBuilderFacts.

Variable Line3D : Type.
Variable project_point_onto_line : Point3D -> Line3D -> Point3D.
Variable measure_distance_point_line : Point3D -> Line3D -> R.
Variable rotate_point_about_axis : Point3D -> Line3D -> R -> Point3D.
Variable normalized_value : Point3D -> Point3D -> Point3D.


(** X21.  On a backward sweep (the end angle below the start angle) the
    NURBS revolution builder never returns a surface, whatever the profile
    and the axis.  From a quarter turn backward on, the number of samples
    asked of [np.linspace] is negative and the builder raises
    [ValueError]; below a quarter turn there is a single angle sample, the
    six knots across the profile do not fit one control point of degree
    two, and the constructor raises [AssertionError]. *)
Theorem nurbs_revolve_backward (bezier_points : list Point3D) (axis : Line3D)
    (start_angle end_angle : R) :
  end_angle < start_angle ->
  (end_angle - start_angle <= - (PI / 2) ->
   NURBSSurface.from_bezier_revolve Line3D project_point_onto_line
     measure_distance_point_line rotate_point_about_axis normalized_value
     bezier_points axis start_angle end_angle = Raise ValueError)
  /\ (- (PI / 2) < end_angle - start_angle ->
      NURBSSurface.from_bezier_revolve Line3D project_point_onto_line
        measure_distance_point_line rotate_point_about_axis normalized_value
        bezier_points axis start_angle end_angle = Raise AssertionError).
Proof.
  intros Hlt.
  destruct (nurbs_angles_backward start_angle end_angle Hlt) as [Hfar Hnear].
  split.
  - intros Hback. unfold NURBSSurface.from_bezier_revolve.
    now rewrite (Hfar Hback).
  - intros Hshort. unfold NURBSSurface.from_bezier_revolve.
    rewrite (Hnear Hshort). cbn [bind].
    destruct (revolve_rows_result Line3D project_point_onto_line
                measure_distance_point_line rotate_point_about_axis
                normalized_value axis [start_angle] bezier_points)
      as (cps & Hrows & Hlc & Hall & _); [reflexivity|].
    rewrite Hrows. cbn [bind].
    change (NURBSSurface.revolve_knots_v (len [start_angle]))
      with (Ok (A := list R) [0; 0; 0; 1; 1; 1]).
    cbn [bind].
    destruct bezier_points as [|pt rest]; [reflexivity|].
    unfold NURBSSurface.__init__.
    destruct (len _ =? shape_0 cps + _ + 1)%Z; [|reflexivity].
    cbn [assert bind].
    destruct cps as [|row0 cps']; [discriminate|].
    inversion Hall as [|? ? Hrow0 _]; subst.
    unfold shape_1, len. rewrite Hrow0. reflexivity.
Qed.

End NurbsBuilderFacts.


Lemma nurbs_revolve_backward_witness :
  NURBSSurface.from_bezier_revolve unit ZAxis.project_point_onto_line
    ZAxis.measure_distance_point_line ZAxis.rotate_point_about_axis
    ZAxis.normalized_value [Pt 1 0 0; Pt 0 0 1] tt (PI / 2) 0 = Raise ValueError
  /\ NURBSSurface.from_bezier_revolve unit ZAxis.project_point_onto_line
       ZAxis.measure_distance_point_line ZAxis.rotate_point_about_axis
       ZAxis.normalized_value [Pt 1 0 0; Pt 0 0 1] tt (PI / 4) 0
     = Raise AssertionError.
Proof.
  pose proof PI_RGT_0 as Hpi. split.
  - apply (nurbs_revolve_backward unit ZAxis.project_point_onto_line
             ZAxis.measure_distance_point_line ZAxis.rotate_point_about_axis
             ZAxis.normalized_value [Pt 1 0 0; Pt 0 0 1] tt (PI / 2) 0); lra.
  - apply (nurbs_revolve_backward unit ZAxis.project_point_onto_line
             ZAxis.measure_distance_point_line ZAxis.rotate_point_about_axis
             ZAxis.normalized_value [Pt 1 0 0; Pt 0 0 1] tt (PI / 4) 0); lra.
Defined.

(** ** The sample grid of a polynomial patch *)

Lemma comprehension_ok {A B : Type} (f : A -> result B) (g : A -> B) (xs : list A) :
  (forall x, f x = Ok (g x)) -> comprehension f xs = Ok (map g xs).
Proof.
  intros H. induction xs as [|x xs IH]; [reflexivity|].
  simpl. now rewrite H, IH.
Qed.

Lemma nth_map_in {A B : Type} (f : A -> B) (l : list A) (k : nat) (dA : A) (dB : B) :
  (k < length l)%nat -> nth k (map f l) dB = f (nth k l dA).
Proof.
  intros Hk. rewrite (nth_indep _ dB (f dA)) by (now rewrite length_map).
  apply map_nth.
Qed.

(** X22.  [evaluate(Nu, Nv)] on a constructed polynomial patch of finite
    control points, for at least two samples in each direction: the result
    has [Nv] rows of [Nu] points, the row index running over [v] and the
    column index over [u], so that the entry [j][i] is the surface at
    [(i / (Nu - 1), j / (Nv - 1))]; its four corner entries are the corner
    control points, the entry [0][Nu - 1] being the control point
    [P[n][0]] and the entry [Nv - 1][0] the control point [P[0][m]].  A
    negative number of samples raises [ValueError]. *)
Theorem bezier_evaluate_grid (n m : nat) (pts : list (list Point3D))
    (srf : BezierSurface.t) (Nu Nv : nat) :
  shaped (S n) (S m) pts -> all_finite pts ->
  BezierSurface.__init__ pts = Ok srf ->
  (2 <= Nu)%nat -> (2 <= Nv)%nat ->
  (exists grid,
     BezierSurface.evaluate srf (Z.of_nat Nu) (Z.of_nat Nv) = Ok grid
     /\ shaped Nv Nu grid
     /\ (forall i j, (i < Nu)%nat -> (j < Nv)%nat ->
           BezierSurface.evaluate_ndarray srf (INR i / (INR Nu - 1))
                                          (INR j / (INR Nv - 1))
           = Ok (at2 NonFinite grid j i))
     /\ at2 NonFinite grid 0 0 = at2 NonFinite pts 0 0
     /\ at2 NonFinite grid 0 (Nu - 1) = at2 NonFinite pts n 0
     /\ at2 NonFinite grid (Nv - 1) 0 = at2 NonFinite pts 0 m
     /\ at2 NonFinite grid (Nv - 1) (Nu - 1) = at2 NonFinite pts n m)
  /\ (forall a b : Z, (a < 0)%Z \/ (b < 0)%Z ->
        BezierSurface.evaluate srf a b = Raise ValueError).
Proof.
  intros Hs Hf Hinit HNu HNv. split.
  - set (val := fun u v =>
        let c := fun i j => bernstein_poly (Z.of_nat n) (Z.of_nat i) u
                            * bernstein_poly (Z.of_nat m) (Z.of_nat j) v in
        Pt (gsum c pts 0 (S n) (S m)) (gsum c pts 1 (S n) (S m))
           (gsum c pts 2 (S n) (S m))).
    assert (Hval : forall u v, BezierSurface.evaluate_ndarray srf u v = Ok (val u v)).
    { intros u v. now apply (bezier_evaluate_gsum n m pts). }
    set (us := map (fun k => 0 + INR k * ((1 - 0) / (IZR (Z.of_nat Nu) - 1)))
                   (seq 0 Nu)).
    set (vs := map (fun k => 0 + INR k * ((1 - 0) / (IZR (Z.of_nat Nv) - 1)))
                   (seq 0 Nv)).
    destruct (linspace_ends 0 1 Nu HNu) as (Hlu & Hu0 & Hu1). fold us in Hlu, Hu0, Hu1.
    destruct (linspace_ends 0 1 Nv HNv) as (Hlv & Hv0 & Hv1). fold vs in Hlv, Hv0, Hv1.
    assert (Hcell : forall i j, (i < Nu)%nat -> (j < Nv)%nat ->
              at2 NonFinite (map (fun v => map (fun u => val u v) us) vs) j i
              = val (nth i us 0) (nth j vs 0)).
    { intros i j Hi Hj. unfold at2.
      rewrite (nth_map_in _ vs j 0) by lia.
      now rewrite (nth_map_in _ us i 0) by lia. }
    assert (Hcorner : forall corner,
              Ok (val (fst (corner_parameters corner)) (snd (corner_parameters corner)))
              = Ok (at2 NonFinite pts (fst (corner_index n m corner))
                                      (snd (corner_index n m corner)))).
    { intros corner. rewrite <- Hval.
      rewrite (bezier_corner_eval n m pts srf corner Hs Hf Hinit).
      now apply corner_control_point_at. }
    exists (map (fun v => map (fun u => val u v) us) vs).
    split; [|split; [|split; [|split; [|split; [|split]]]]].
    + unfold BezierSurface.evaluate.
      rewrite !linspace_ok by lia. cbn [bind]. rewrite !Nat2Z.id.
      fold us vs. apply comprehension_ok. intros v.
      apply comprehension_ok. intros u. apply Hval.
    + split; [now rewrite length_map|].
      apply Forall_forall. intros row Hrow.
      apply in_map_iff in Hrow. destruct Hrow as (v & <- & _).
      now rewrite length_map.
    + intros i j Hi Hj. rewrite Hcell by assumption. rewrite Hval.
      f_equal. f_equal.
      * unfold us. rewrite nth_map_seq by exact Hi.
        rewrite <- INR_IZR_INZ. unfold Rdiv. ring.
      * unfold vs. rewrite nth_map_seq by exact Hj.
        rewrite <- INR_IZR_INZ. unfold Rdiv. ring.
    + rewrite Hcell by lia. rewrite Hu0, Hv0.
      pose proof (Hcorner Southwest) as H. simpl in H. now injection H.
    + rewrite Hcell by lia. rewrite Hu1, Hv0.
      pose proof (Hcorner Southeast) as H. simpl in H. now injection H.
    + rewrite Hcell by lia. rewrite Hu0, Hv1.
      pose proof (Hcorner Northwest) as H. simpl in H. now injection H.
    + rewrite Hcell by lia. rewrite Hu1, Hv1.
      pose proof (Hcorner Northeast) as H. simpl in H. now injection H.
  - intros a b Hab. unfold BezierSurface.evaluate, linspace.
    destruct (Z.ltb_spec a 0) as [Ha|Ha]; [reflexivity|]. cbn [bind].
    destruct (Z.ltb_spec b 0) as [Hb|Hb]; [reflexivity|]. lia.
Qed.

Lemma bezier_evaluate_grid_witness :
  exists srf grid,
    BezierSurface.__init__ sample_points = Ok srf
    /\ BezierSurface.evaluate srf 3 2 = Ok grid
    /\ shaped 2 3 grid
    /\ at2 NonFinite grid 0 2 = Pt 1 0 0
    /\ at2 NonFinite grid 1 0 = Pt 0 1 0.
Proof.
  pose proof (bezier_init 1 1 sample_points sample_points_shaped) as Hinit.
  eexists.
  destruct (bezier_evaluate_grid 1 1 sample_points _ 3 2 sample_points_shaped
              sample_points_finite Hinit ltac:(lia) ltac:(lia))
    as ((grid & Hrun & Hshape & _ & _ & Hse & Hnw & _) & _).
  exists grid. split; [exact Hinit|]. split; [exact Hrun|].
  split; [exact Hshape|]. split; [exact Hse|exact Hnw].
Defined.

(** ** Enforcing twice *)

Lemma replace_nth_same {A : Type} (d : A) (k : nat) (l : list A) :
  (k < length l)%nat -> replace_nth k (nth k l d) l = l.
Proof.
  revert k. induction l as [|h t IH]; intros [|k] H; simpl in *; try lia; auto.
  f_equal. apply IH. lia.
Qed.

(** Writing to a cell the value that it holds changes nothing. *)
Lemma edge_write_same {A : Type} (d : A) (n m : nat) (g : list (list A))
    (edge : SurfaceEdge) (row c : nat) :
  shaped (S n) (S m) g ->
  (row <= parallel_degree n m edge)%nat ->
  (c <= perpendicular_degree n m edge)%nat ->
  edge_write n m edge row c (edge_read d n m edge row c g) g = g.
Proof.
  intros Hs Hrow Hc. unfold edge_write, edge_read, at2.
  destruct (edge_cell_in_range n m edge row c Hrow Hc) as [Hi Hj].
  set (i := fst (edge_cell n m edge row c)) in *.
  set (j := snd (edge_cell n m edge row c)) in *.
  rewrite (replace_nth_same d j)
    by (rewrite (shaped_row_length (S n) (S m)); auto).
  apply replace_nth_same. destruct Hs as [Hr _]. lia.
Qed.

Lemma bezier_with_points_same (srf : BezierSurface.t) :
  BezierSurface.with_points srf (BezierSurface.points srf) = srf.
Proof. destruct srf. reflexivity. Qed.

(** A patch whose boundary row is that of the other patch is left as it is
    by [enforce_g0]. *)
Lemma bezier_g0_fixed (nA mA nB mB : nat) (A s : BezierSurface.t)
    (eB eA : SurfaceEdge) :
  bezier_patch nA mA A -> bezier_patch nB mB s ->
  parallel_degree nB mB eB = parallel_degree nA mA eA ->
  (forall row, (row <= parallel_degree nB mB eB)%nat ->
     edge_read NonFinite nB mB eB row 0 (BezierSurface.points s)
     = edge_read NonFinite nA mA eA row 0 (BezierSurface.points A)) ->
  BezierSurface.enforce_g0 A eB eA s = (Ok tt, s).
Proof.
  intros HA Hs Hpar Hrow0.
  unfold BezierSurface.enforce_g0.
  unfold mbind at 1. unfold mread at 1.
  rewrite (bezier_parallel_degree nB mB s eB Hs),
          (bezier_parallel_degree nA mA A eA HA), Hpar, Z.eqb_refl.
  cbn [assert]. unfold mbind at 1. unfold mread at 1.
  rewrite (bezier_parallel_degree nB mB s eB Hs), range_degree.
  destruct (mfor_invariant
    (fun _ s' => s' = s)
    (fun row_index =>
       p <~ mlift (BezierSurface.get_point A (Z.of_nat row_index) 0 eA) ;;
       BezierSurface.set_point p (Z.of_nat row_index) 0 eB)
    (S (parallel_degree nB mB eB)) s) as [s' [Hrun ->]]; [reflexivity| |exact Hrun].
  intros k s1 Hk ->.
  assert (HkA : (k <= parallel_degree nA mA eA)%nat) by lia.
  assert (HkB : (k <= parallel_degree nB mB eB)%nat) by lia.
  exists s. split; [|reflexivity].
  unfold mbind, mlift.
  rewrite (proj1 (bezier_get_point_at nA mA A eA k HA HkA)).
  rewrite (proj1 (bezier_set_point_at nB mB s eB k _ Hs HkB)).
  rewrite <- (Hrow0 k HkB).
  destruct Hs as (Hp & _).
  rewrite edge_write_same by (auto; lia).
  now rewrite bezier_with_points_same.
Qed.

(** A patch whose two first rows are those that [enforce_g0g1] writes is
    left as it is by [enforce_g0g1]. *)
Lemma bezier_g0g1_fixed (nA mA nB mB : nat) (A s : BezierSurface.t) (f : R)
    (eB eA : SurfaceEdge) :
  bezier_patch nA mA A -> bezier_patch nB mB s ->
  parallel_degree nB mB eB = parallel_degree nA mA eA ->
  (1 <= perpendicular_degree nA mA eA)%nat ->
  (1 <= perpendicular_degree nB mB eB)%nat ->
  let n_ratio := INR (perpendicular_degree nA mA eA)
                 / INR (perpendicular_degree nB mB eB) in
  (forall row, (row <= parallel_degree nB mB eB)%nat ->
     let P_im_a := edge_read NonFinite nA mA eA row 0 (BezierSurface.points A) in
     let P_im1_a := edge_read NonFinite nA mA eA row 1 (BezierSurface.points A) in
     edge_read NonFinite nB mB eB row 0 (BezierSurface.points s) = P_im_a
     /\ edge_read NonFinite nB mB eB row 1 (BezierSurface.points s)
        = padd P_im_a (pscale (f * n_ratio) (psub P_im_a P_im1_a))) ->
  BezierSurface.enforce_g0g1 A f eB eA s = (Ok tt, s).
Proof.
  intros HA Hs Hpar HqA HqB n_ratio Hrows.
  unfold BezierSurface.enforce_g0g1.
  unfold mbind at 1.
  rewrite (bezier_g0_fixed nA mA nB mB A s eB eA HA Hs Hpar)
    by (intros row Hrow; apply (Hrows row Hrow)).
  unfold mbind at 1. unfold mread at 1.
  rewrite (bezier_perpendicular_degree nB mB s eB Hs),
          (bezier_perpendicular_degree nA mA A eA HA).
  rewrite <- !INR_IZR_INZ. unfold pydiv.
  destruct (Req_dec_T (INR (perpendicular_degree nB mB eB)) 0) as [Hz|Hnz].
  { apply (INR_eq _ 0%nat) in Hz. lia. }
  fold n_ratio.
  unfold mbind at 1. unfold mread at 1.
  rewrite (bezier_parallel_degree nB mB s eB Hs), range_degree.
  destruct (mfor_invariant
    (fun _ s' => s' = s)
    (fun row_index =>
       P_i0_b <~ mread (fun self => BezierSurface.get_point self (Z.of_nat row_index) 0 eB) ;;
       P_im_a <~ mlift (BezierSurface.get_point A (Z.of_nat row_index) 0 eA) ;;
       P_im1_a <~ mlift (BezierSurface.get_point A (Z.of_nat row_index) 1 eA) ;;
       let P_i1_b := padd P_i0_b (pscale (f * n_ratio) (psub P_im_a P_im1_a)) in
       BezierSurface.set_point P_i1_b (Z.of_nat row_index) 1 eB)
    (S (parallel_degree nB mB eB)) s) as [s' [Hrun ->]]; [reflexivity| |exact Hrun].
  intros k s1 Hk ->.
  assert (HkA : (k <= parallel_degree nA mA eA)%nat) by lia.
  assert (HkB : (k <= parallel_degree nB mB eB)%nat) by lia.
  exists s. split; [|reflexivity].
  unfold mbind, mlift, mread.
  rewrite (proj1 (bezier_get_point_at nB mB s eB k Hs HkB)).
  rewrite (proj1 (bezier_get_point_at nA mA A eA k HA HkA)).
  rewrite (proj2 (bezier_get_point_at nA mA A eA k HA HkA) HqA).
  rewrite (proj2 (bezier_set_point_at nB mB s eB k _ Hs HkB) HqB).
  destruct (Hrows k HkB) as [E0 E1]. cbv zeta in E0, E1.
  rewrite E0, <- E1.
  destruct Hs as (Hp & _).
  rewrite edge_write_same by (auto; lia).
  now rewrite bezier_with_points_same.
Qed.

(** X24.  The patch that [B.enforce_g0g1g2(A, f, edge_B, edge_A)] leaves is
    a fixed point of the three enforcement methods: calling [enforce_g0],
    [enforce_g0g1] or [enforce_g0g1g2] on it again, with the same patch
    [A], ratio and edges, succeeds and changes no control point.  The two
    boundaries now agree, so that [A.enforce_g0(B', edge_A, edge_B)]
    changes no control point of [A] either. *)
Theorem bezier_enforcement_fixed_point (nA mA nB mB : nat) (A B : BezierSurface.t)
    (f : R) (eB eA : SurfaceEdge) :
  bezier_patch nA mA A -> bezier_patch nB mB B ->
  all_finite (BezierSurface.points A) -> all_finite (BezierSurface.points B) ->
  BezierSurface.get_parallel_degree B eB = BezierSurface.get_parallel_degree A eA ->
  (2 <= BezierSurface.get_perpendicular_degree A eA)%Z ->
  (2 <= BezierSurface.get_perpendicular_degree B eB)%Z ->
  exists B',
    BezierSurface.enforce_g0g1g2 A f eB eA B = (Ok tt, B')
    /\ BezierSurface.enforce_g0 A eB eA B' = (Ok tt, B')
    /\ BezierSurface.enforce_g0g1 A f eB eA B' = (Ok tt, B')
    /\ BezierSurface.enforce_g0g1g2 A f eB eA B' = (Ok tt, B')
    /\ BezierSurface.enforce_g0 B' eA eB A = (Ok tt, A).
Proof.
  intros HA HB HfA HfB Hpar HqA HqB.
  rewrite (bezier_parallel_degree nB mB B eB HB),
          (bezier_parallel_degree nA mA A eA HA) in Hpar.
  rewrite (bezier_perpendicular_degree nA mA A eA HA) in HqA.
  rewrite (bezier_perpendicular_degree nB mB B eB HB) in HqB.
  apply Nat2Z.inj in Hpar.
  assert (HqA' : (2 <= perpendicular_degree nA mA eA)%nat) by lia.
  assert (HqB' : (2 <= perpendicular_degree nB mB eB)%nat) by lia.
  destruct (bezier_enforce_g0g1g2_ok nA mA nB mB A B f eB eA
              HA HB HfA HfB Hpar HqA' HqB') as (B' & Hrun & HB' & _ & Hrows).
  cbv zeta in Hrows.
  assert (Hg0 : BezierSurface.enforce_g0 A eB eA B' = (Ok tt, B')).
  { apply (bezier_g0_fixed nA mA nB mB); auto.
    intros row Hrow. apply (Hrows row Hrow). }
  assert (Hg1 : BezierSurface.enforce_g0g1 A f eB eA B' = (Ok tt, B')).
  { apply (bezier_g0g1_fixed nA mA nB mB); auto; try lia.
    intros row Hrow. cbv zeta. destruct (Hrows row Hrow) as (E0 & E1 & _).
    split; assumption. }
  assert (Hback : BezierSurface.enforce_g0 B' eA eB A = (Ok tt, A)).
  { apply (bezier_g0_fixed nB mB nA mA); auto.
    intros row Hrow. symmetry. apply (Hrows row). lia. }
  exists B'. split; [exact Hrun|]. split; [exact Hg0|]. split; [exact Hg1|].
  split; [|exact Hback].
  unfold BezierSurface.enforce_g0g1g2.
  unfold mbind at 1. rewrite Hg1.
  unfold mbind at 1. unfold mread at 1.
  rewrite (bezier_perpendicular_degree nB mB B' eB HB'),
          (bezier_perpendicular_degree nA mA A eA HA).
  set (pA := Z.of_nat (perpendicular_degree nA mA eA)) in *.
  set (pB := Z.of_nat (perpendicular_degree nB mB eB)) in *.
  unfold mbind at 1. unfold mlift at 1. unfold pydiv.
  destruct (Req_dec_T (IZR (pB ^ 2 - pB)) 0) as [Hz|Hnz].
  { apply eq_IZR in Hz. unfold pB in Hz. nia. }
  unfold mbind at 1. unfold mread at 1.
  rewrite (bezier_parallel_degree nB mB B' eB HB'), range_degree.
  set (r2 := IZR (pA ^ 2 - pA) / IZR (pB ^ 2 - pB)) in *.
  destruct (mfor_invariant
    (fun _ s' => s' = B')
    (fun row_index =>
       P_i0_b <~ mread (fun self => BezierSurface.get_point self (Z.of_nat row_index) 0 eB) ;;
       P_i1_b <~ mread (fun self => BezierSurface.get_point self (Z.of_nat row_index) 1 eB) ;;
       P_im_a <~ mlift (BezierSurface.get_point A (Z.of_nat row_index) 0 eA) ;;
       P_im1_a <~ mlift (BezierSurface.get_point A (Z.of_nat row_index) 1 eA) ;;
       P_im2_a <~ mlift (BezierSurface.get_point A (Z.of_nat row_index) 2 eA) ;;
       let P_i2_b :=
         padd (psub (pscale 2 P_i1_b) P_i0_b)
              (pscale (f ^ 2 * r2) (padd (psub P_im_a (pscale 2 P_im1_a)) P_im2_a)) in
       BezierSurface.set_point P_i2_b (Z.of_nat row_index) 2 eB)
    (S (parallel_degree nB mB eB)) B') as [s' [Hloop ->]];
    [reflexivity| |exact Hloop].
  intros k s1 Hk ->.
  assert (HkA : (k <= parallel_degree nA mA eA)%nat) by lia.
  assert (HkB : (k <= parallel_degree nB mB eB)%nat) by lia.
  assert (HqA1 : (1 <= perpendicular_degree nA mA eA)%nat) by lia.
  assert (HqB1 : (1 <= perpendicular_degree nB mB eB)%nat) by lia.
  exists B'. split; [|reflexivity].
  unfold mbind, mlift, mread.
  rewrite (proj1 (bezier_get_point_at nB mB B' eB k HB' HkB)).
  rewrite (proj2 (bezier_get_point_at nB mB B' eB k HB' HkB) HqB1).
  rewrite (proj1 (bezier_get_point_at nA mA A eA k HA HkA)).
  rewrite (proj2 (bezier_get_point_at nA mA A eA k HA HkA) HqA1).
  rewrite (bezier_get_point_third nA mA A eA k HA HkA HqA').
  rewrite (bezier_set_point_third nB mB B' eB k _ HB' HkB HqB').
  destruct (Hrows k HkB) as (_ & _ & E2).
  fold pA pB in E2. fold r2 in E2. rewrite <- E2.
  destruct HB' as (Hp & _).
  rewrite edge_write_same by (auto; lia).
  now rewrite bezier_with_points_same.
Qed.

Lemma bezier_enforcement_fixed_point_witness :
  exists B',
    BezierSurface.enforce_g0g1g2 sample_bezier_C 1 South North sample_bezier_D
    = (Ok tt, B')
    /\ BezierSurface.enforce_g0 sample_bezier_C South North B' = (Ok tt, B')
    /\ BezierSurface.enforce_g0g1 sample_bezier_C 1 South North B' = (Ok tt, B')
    /\ BezierSurface.enforce_g0g1g2 sample_bezier_C 1 South North B' = (Ok tt, B')
    /\ BezierSurface.enforce_g0 B' North South sample_bezier_C
       = (Ok tt, sample_bezier_C).
Proof.
  apply (bezier_enforcement_fixed_point 1 2 1 2 sample_bezier_C sample_bezier_D 1
           South North).
  - repeat split; repeat constructor.
  - repeat split; repeat constructor.
  - repeat constructor.
  - repeat constructor.
  - reflexivity.
  - simpl. lia.
  - simpl. lia.
Defined.

(** ** Unit weights: the rational enforcement is the polynomial one *)

Lemma edge_read_all_ones (n m : nat) (ws : list (list R)) (edge : SurfaceEdge)
    (row c : nat) :
  shaped (S n) (S m) ws -> all_ones ws ->
  (row <= parallel_degree n m edge)%nat ->
  (c <= perpendicular_degree n m edge)%nat ->
  edge_read 0 n m edge row c ws = 1.
Proof.
  intros Hs Ho Hr Hc. unfold edge_read.
  destruct (edge_cell_in_range n m edge row c Hr Hc).
  now apply (at2_all_ones (S n) (S m)).
Qed.

Lemma all_ones_edge_write (n m : nat) (edge : SurfaceEdge) (row c : nat)
    (ws : list (list R)) :
  all_ones ws -> all_ones (edge_write n m edge row c 1 ws).
Proof.
  intros Ho. unfold edge_write, all_ones in *.
  apply Forall_replace_nth; auto. intros Hi.
  apply Forall_replace_nth; auto.
  rewrite Forall_forall in Ho. apply Ho. now apply nth_In.
Qed.

Lemma npdiv_one (x : R) : npdiv x 1 = Some x.
Proof. unfold npdiv. destruct (Req_dec_T 1 0); [lra|]. f_equal. field. Qed.

(** Two loops that run in step. *)
Lemma mfor_simulation {S1 S2 : Type} (Rel : S1 -> S2 -> Prop)
    (b1 : nat -> Mut S1 unit) (b2 : nat -> Mut S2 unit) (xs : list nat)
    (s1 : S1) (s2 : S2) :
  Rel s1 s2 ->
  (forall k t1 t2, In k xs -> Rel t1 t2 ->
     exists t1' t2', b1 k t1 = (Ok tt, t1') /\ b2 k t2 = (Ok tt, t2')
                     /\ Rel t1' t2') ->
  exists s1' s2', mfor xs b1 s1 = (Ok tt, s1') /\ mfor xs b2 s2 = (Ok tt, s2')
                  /\ Rel s1' s2'.
Proof.
  revert s1 s2. induction xs as [|x xs IH]; intros s1 s2 HR Hstep.
  - exists s1, s2. repeat split; auto.
  - destruct (Hstep x s1 s2 (or_introl eq_refl) HR) as (t1 & t2 & H1 & H2 & HR').
    destruct (IH t1 t2 HR') as (u1 & u2 & G1 & G2 & HR'').
    { intros k a b Hk. apply Hstep. now right. }
    exists u1, u2. simpl. unfold mbind. rewrite H1, H2. auto.
Qed.

(** The three methods of the polynomial patch, as their row loops. *)
Lemma bezier_enforce_g0_loop (nA mA nB mB : nat) (A B : BezierSurface.t)
    (eB eA : SurfaceEdge) :
  bezier_patch nA mA A -> bezier_patch nB mB B ->
  parallel_degree nB mB eB = parallel_degree nA mA eA ->
  BezierSurface.enforce_g0 A eB eA B
  = mfor (seq 0 (S (parallel_degree nB mB eB)))
      (fun row_index =>
         p <~ mlift (BezierSurface.get_point A (Z.of_nat row_index) 0 eA) ;;
         BezierSurface.set_point p (Z.of_nat row_index) 0 eB) B.
Proof.
  intros HA HB Hpar. unfold BezierSurface.enforce_g0.
  unfold mbind at 1. unfold mread at 1.
  rewrite (bezier_parallel_degree nB mB B eB HB),
          (bezier_parallel_degree nA mA A eA HA), <- Hpar, Z.eqb_refl.
  cbn [assert]. unfold mbind at 1. unfold mread at 1.
  now rewrite (bezier_parallel_degree nB mB B eB HB), range_degree.
Qed.

Lemma bezier_enforce_g0g1_loop (nA mA nB mB : nat) (A B B0 : BezierSurface.t)
    (f : R) (eB eA : SurfaceEdge) :
  bezier_patch nA mA A -> bezier_patch nB mB B0 ->
  (1 <= perpendicular_degree nB mB eB)%nat ->
  BezierSurface.enforce_g0 A eB eA B = (Ok tt, B0) ->
  let n_ratio := INR (perpendicular_degree nA mA eA)
                 / INR (perpendicular_degree nB mB eB) in
  BezierSurface.enforce_g0g1 A f eB eA B
  = mfor (seq 0 (S (parallel_degree nB mB eB)))
      (fun row_index =>
         P_i0_b <~ mread (fun self =>
                     BezierSurface.get_point self (Z.of_nat row_index) 0 eB) ;;
         P_im_a <~ mlift (BezierSurface.get_point A (Z.of_nat row_index) 0 eA) ;;
         P_im1_a <~ mlift (BezierSurface.get_point A (Z.of_nat row_index) 1 eA) ;;
         let P_i1_b := padd P_i0_b (pscale (f * n_ratio) (psub P_im_a P_im1_a)) in
         BezierSurface.set_point P_i1_b (Z.of_nat row_index) 1 eB) B0.
Proof.
  intros HA HB0 HqB Hg0 n_ratio. unfold BezierSurface.enforce_g0g1.
  unfold mbind at 1. rewrite Hg0.
  unfold mbind at 1. unfold mread at 1.
  rewrite (bezier_perpendicular_degree nB mB B0 eB HB0),
          (bezier_perpendicular_degree nA mA A eA HA).
  rewrite <- !INR_IZR_INZ. unfold pydiv.
  destruct (Req_dec_T (INR (perpendicular_degree nB mB eB)) 0) as [Hz|Hnz].
  { apply (INR_eq _ 0%nat) in Hz. lia. }
  unfold mbind at 1. unfold mread at 1.
  now rewrite (bezier_parallel_degree nB mB B0 eB HB0), range_degree.
Qed.

Lemma bezier_enforce_g0g1g2_loop (nA mA nB mB : nat) (A B B1 : BezierSurface.t)
    (f : R) (eB eA : SurfaceEdge) :
  bezier_patch nA mA A -> bezier_patch nB mB B1 ->
  (2 <= perpendicular_degree nB mB eB)%nat ->
  BezierSurface.enforce_g0g1 A f eB eA B = (Ok tt, B1) ->
  let pA := Z.of_nat (perpendicular_degree nA mA eA) in
  let pB := Z.of_nat (perpendicular_degree nB mB eB) in
  let r2 := IZR (pA ^ 2 - pA) / IZR (pB ^ 2 - pB) in
  BezierSurface.enforce_g0g1g2 A f eB eA B
  = mfor (seq 0 (S (parallel_degree nB mB eB)))
      (fun row_index =>
         P_i0_b <~ mread (fun self =>
                     BezierSurface.get_point self (Z.of_nat row_index) 0 eB) ;;
         P_i1_b <~ mread (fun self =>
                     BezierSurface.get_point self (Z.of_nat row_index) 1 eB) ;;
         P_im_a <~ mlift (BezierSurface.get_point A (Z.of_nat row_index) 0 eA) ;;
         P_im1_a <~ mlift (BezierSurface.get_point A (Z.of_nat row_index) 1 eA) ;;
         P_im2_a <~ mlift (BezierSurface.get_point A (Z.of_nat row_index) 2 eA) ;;
         let P_i2_b :=
           padd (psub (pscale 2 P_i1_b) P_i0_b)
                (pscale (f ^ 2 * r2)
                   (padd (psub P_im_a (pscale 2 P_im1_a)) P_im2_a)) in
         BezierSurface.set_point P_i2_b (Z.of_nat row_index) 2 eB) B1.
Proof.
  intros HA HB1 HqB Hg1 pA pB r2. unfold BezierSurface.enforce_g0g1g2.
  unfold mbind at 1. rewrite Hg1.
  unfold mbind at 1. unfold mread at 1.
  rewrite (bezier_perpendicular_degree nB mB B1 eB HB1),
          (bezier_perpendicular_degree nA mA A eA HA).
  fold pA pB.
  unfold mbind at 1. unfold mlift at 1. unfold pydiv.
  destruct (Req_dec_T (IZR (pB ^ 2 - pB)) 0) as [Hz|Hnz].
  { apply eq_IZR in Hz. unfold pB in Hz. nia. }
  fold r2.
  unfold mbind at 1. unfold mread at 1.
  now rewrite (bezier_parallel_degree nB mB B1 eB HB1), range_degree.
Qed.

(** The rational [enforce_g0] and [enforce_g0g1g2], as their row loops. *)
Lemma rational_enforce_g0_loop (nA mA nB mB : nat) (A B : RationalBezierSurface.t)
    (eB eA : SurfaceEdge) :
  rational_patch nA mA A -> rational_patch nB mB B ->
  parallel_degree nB mB eB = parallel_degree nA mA eA ->
  RationalBezierSurface.enforce_g0 A eB eA B
  = mfor (seq 0 (S (parallel_degree nB mB eB)))
      (fun row_index =>
         p <~ mlift (RationalBezierSurface.get_point A (Z.of_nat row_index) 0 eA) ;;
         RationalBezierSurface.set_point p (Z.of_nat row_index) 0 eB ~;;
         w <~ mlift (RationalBezierSurface.get_weight A (Z.of_nat row_index) 0 eA) ;;
         RationalBezierSurface.set_weight w (Z.of_nat row_index) 0 eB) B.
Proof.
  intros HA HB Hpar. unfold RationalBezierSurface.enforce_g0.
  unfold mbind at 1. unfold mread at 1.
  rewrite (rational_parallel_degree nB mB B eB HB),
          (rational_parallel_degree nA mA A eA HA), <- Hpar, Z.eqb_refl.
  cbn [assert]. unfold mbind at 1. unfold mread at 1.
  now rewrite (rational_parallel_degree nB mB B eB HB), range_degree.
Qed.

Lemma rational_enforce_g0g1g2_loop (nA mA nB mB : nat)
    (A B B1 : RationalBezierSurface.t) (f : f_arg) (eB eA : SurfaceEdge) :
  rational_patch nA mA A -> rational_patch nB mB B1 ->
  (2 <= perpendicular_degree nB mB eB)%nat ->
  RationalBezierSurface.enforce_g0g1 A f eB eA B = (Ok tt, B1) ->
  let pA := Z.of_nat (perpendicular_degree nA mA eA) in
  let pB := Z.of_nat (perpendicular_degree nB mB eB) in
  let r2 := IZR (pA ^ 2 - pA) / IZR (pB ^ 2 - pB) in
  RationalBezierSurface.enforce_g0g1g2 A f eB eA B
  = mfor (seq 0 (S (parallel_degree nB mB eB)))
      (RationalBezierSurface.enforce_g0g1g2_row A f r2 eB eA) B1.
Proof.
  intros HA HB1 HqB Hg1 pA pB r2. unfold RationalBezierSurface.enforce_g0g1g2.
  unfold mbind at 1. rewrite Hg1.
  unfold mbind at 1. unfold mread at 1.
  rewrite (rational_perpendicular_degree nB mB B1 eB HB1),
          (rational_perpendicular_degree nA mA A eA HA).
  fold pA pB. unfold pydiv.
  destruct (Req_dec_T (IZR (pB ^ 2 - pB)) 0) as [Hz|Hnz].
  { apply eq_IZR in Hz. unfold pB in Hz. nia. }
  fold r2.
  unfold mbind at 1. unfold mread at 1.
  now rewrite (rational_parallel_degree nB mB B1 eB HB1), range_degree.
Qed.

Lemma rational_with_both_pair (nB mB : nat) (t1 : RationalBezierSurface.t)
    (t2 : BezierSurface.t) (eB : SurfaceEdge) (row c : nat) (p q : Point3D) :
  p = q -> unit_weight_pair nB mB t1 t2 ->
  unit_weight_pair nB mB
    (RationalBezierSurface.with_points
       (RationalBezierSurface.with_weights t1
          (edge_write nB mB eB row c 1 (RationalBezierSurface.weights t1)))
       (edge_write nB mB eB row c p (RationalBezierSurface.points t1)))
    (BezierSurface.with_points t2
       (edge_write nB mB eB row c q (BezierSurface.points t2))).
Proof.
  intros <- (H1 & H2 & Hpts & Ho).
  split; [|split; [|split]].
  - apply (rational_patch_with_points nB mB
             (RationalBezierSurface.with_weights t1 _)).
    now apply rational_patch_with_weights.
  - now apply bezier_patch_with_points.
  - simpl. now rewrite Hpts.
  - simpl. now apply all_ones_edge_write.
Qed.

(** Positional continuity, in step. *)
Lemma unit_g0_sim (nA mA nB mB : nat) (A B : RationalBezierSurface.t)
    (pA pB : BezierSurface.t) (eB eA : SurfaceEdge) :
  unit_weight_pair nA mA A pA -> unit_weight_pair nB mB B pB ->
  parallel_degree nB mB eB = parallel_degree nA mA eA ->
  exists B' pB',
    RationalBezierSurface.enforce_g0 A eB eA B = (Ok tt, B')
    /\ BezierSurface.enforce_g0 pA eB eA pB = (Ok tt, pB')
    /\ unit_weight_pair nB mB B' pB'.
Proof.
  intros HAp HBp Hpar.
  pose proof HAp as (HA & HpA & HptsA & HoA).
  pose proof HBp as (HB & HpB & _ & _).
  rewrite (rational_enforce_g0_loop nA mA nB mB A B eB eA HA HB Hpar).
  rewrite (bezier_enforce_g0_loop nA mA nB mB pA pB eB eA HpA HpB Hpar).
  apply (mfor_simulation (unit_weight_pair nB mB)); [exact HBp|].
  intros k t1 t2 Hk Ht. apply in_seq in Hk.
  pose proof Ht as (H1 & H2 & Hpts & Ho).
  assert (HkA : (k <= parallel_degree nA mA eA)%nat) by lia.
  assert (HkB : (k <= parallel_degree nB mB eB)%nat) by lia.
  eexists. eexists. split; [|split].
  - apply (rational_g0_row nA mA nB mB); auto.
  - unfold mbind, mlift.
    rewrite (proj1 (bezier_get_point_at nA mA pA eA k HpA HkA)).
    rewrite (proj1 (bezier_set_point_at nB mB t2 eB k _ H2 HkB)).
    reflexivity.
  - destruct HA as (_ & HwA & _).
    rewrite (edge_read_all_ones nA mA _ eA k 0 HwA HoA HkA) by lia.
    pose proof (rational_with_both_pair nB mB t1 t2 eB k 0
                  (edge_read NonFinite nA mA eA k 0 (RationalBezierSurface.points A))
                  (edge_read NonFinite nA mA eA k 0 (BezierSurface.points pA))
                  ltac:(now rewrite HptsA) Ht) as Hpair.
    destruct Hpair as (G1 & G2 & G3 & G4).
    split; [|split; [|split]].
    + apply (rational_patch_with_weights nB mB
               (RationalBezierSurface.with_points t1 _)).
      now apply rational_patch_with_points.
    + exact G2.
    + exact G3.
    + exact G4.
Qed.

(** One row of the rational G1 loop on unit weights. *)
Lemma rational_g1_row_unit (nA mA nB mB : nat) (A B : RationalBezierSurface.t)
    (f n_ratio : R) (eB eA : SurfaceEdge) (row : nat) :
  rational_patch nA mA A -> rational_patch nB mB B ->
  all_ones (RationalBezierSurface.weights A) ->
  all_ones (RationalBezierSurface.weights B) ->
  (row <= parallel_degree nA mA eA)%nat ->
  (row <= parallel_degree nB mB eB)%nat ->
  (1 <= perpendicular_degree nA mA eA)%nat ->
  (1 <= perpendicular_degree nB mB eB)%nat ->
  let P_i0_b := edge_read NonFinite nB mB eB row 0 (RationalBezierSurface.points B) in
  let P_im_a := edge_read NonFinite nA mA eA row 0 (RationalBezierSurface.points A) in
  let P_im1_a := edge_read NonFinite nA mA eA row 1 (RationalBezierSurface.points A) in
  RationalBezierSurface.enforce_g0g1_row A (f_float f) n_ratio eB eA row B
  = (Ok tt,
     RationalBezierSurface.with_points
       (RationalBezierSurface.with_weights B
          (edge_write nB mB eB row 1 1 (RationalBezierSurface.weights B)))
       (edge_write nB mB eB row 1
          (padd P_i0_b (pscale (f * n_ratio) (psub P_im_a P_im1_a)))
          (RationalBezierSurface.points B))).
Proof.
  intros HA HB HoA HoB HrA HrB HqA HqB P_i0_b P_im_a P_im1_a.
  rewrite (rational_g1_row nA mA nB mB A B (f_float f) n_ratio eB eA row f
             HA HB HrA HrB HqA HqB eq_refl).
  cbv zeta.
  pose proof HA as (_ & HwA & _). pose proof HB as (_ & HwB & _).
  rewrite (edge_read_all_ones nB mB _ eB row 0 HwB HoB HrB) by lia.
  rewrite (edge_read_all_ones nA mA _ eA row 0 HwA HoA HrA) by lia.
  rewrite (edge_read_all_ones nA mA _ eA row 1 HwA HoA HrA) by lia.
  replace (1 + f * n_ratio * (1 - 1)) with 1 by ring.
  destruct (Rlt_dec 1 0) as [Hneg|_]; [lra|].
  rewrite !npdiv_one. cbn [pscale_np]. rewrite !pscale_one.
  reflexivity.
Qed.

(** Tangential continuity, in step. *)
Lemma unit_g0g1_sim (nA mA nB mB : nat) (A B : RationalBezierSurface.t)
    (pA pB : BezierSurface.t) (f : R) (eB eA : SurfaceEdge) :
  unit_weight_pair nA mA A pA -> unit_weight_pair nB mB B pB ->
  parallel_degree nB mB eB = parallel_degree nA mA eA ->
  (1 <= perpendicular_degree nA mA eA)%nat ->
  (1 <= perpendicular_degree nB mB eB)%nat ->
  exists B' pB',
    RationalBezierSurface.enforce_g0g1 A (f_float f) eB eA B = (Ok tt, B')
    /\ BezierSurface.enforce_g0g1 pA f eB eA pB = (Ok tt, pB')
    /\ unit_weight_pair nB mB B' pB'.
Proof.
  intros HAp HBp Hpar HqA HqB.
  pose proof HAp as (HA & HpA & HptsA & HoA).
  pose proof HBp as (HB & HpB & _ & _).
  destruct (unit_g0_sim nA mA nB mB A B pA pB eB eA HAp HBp Hpar)
    as (B0 & pB0 & Hr0 & Hp0 & Hpair0).
  pose proof Hpair0 as (HB0 & HpB0 & _ & _).
  destruct (rational_enforce_g0g1_rows nA mA nB mB A B f eB eA HA HB Hpar HqB)
    as (B0' & Hr0' & _ & Hloop).
  rewrite Hr0 in Hr0'. injection Hr0' as <-.
  rewrite Hloop.
  rewrite (bezier_enforce_g0g1_loop nA mA nB mB pA pB pB0 f eB eA HpA HpB0 HqB Hp0).
  cbv zeta.
  apply (mfor_simulation (unit_weight_pair nB mB)); [exact Hpair0|].
  intros k t1 t2 Hk Ht. apply in_seq in Hk.
  pose proof Ht as (H1 & H2 & Hpts & Ho).
  assert (HkA : (k <= parallel_degree nA mA eA)%nat) by lia.
  assert (HkB : (k <= parallel_degree nB mB eB)%nat) by lia.
  eexists. eexists. split; [|split].
  - apply (rational_g1_row_unit nA mA nB mB); auto.
  - unfold mbind, mlift, mread.
    rewrite (proj1 (bezier_get_point_at nB mB t2 eB k H2 HkB)).
    rewrite (proj1 (bezier_get_point_at nA mA pA eA k HpA HkA)).
    rewrite (proj2 (bezier_get_point_at nA mA pA eA k HpA HkA) HqA).
    rewrite (proj2 (bezier_set_point_at nB mB t2 eB k _ H2 HkB) HqB).
    reflexivity.
  - apply rational_with_both_pair; [|exact Ht].
    now rewrite HptsA, Hpts.
Qed.

(** One row of the rational G2 loop on unit weights. *)
Lemma rational_g2_row_unit (nA mA nB mB : nat) (A B : RationalBezierSurface.t)
    (f n_ratio : R) (eB eA : SurfaceEdge) (row : nat) :
  rational_patch nA mA A -> rational_patch nB mB B ->
  all_ones (RationalBezierSurface.weights A) ->
  all_ones (RationalBezierSurface.weights B) ->
  (row <= parallel_degree nA mA eA)%nat ->
  (row <= parallel_degree nB mB eB)%nat ->
  (2 <= perpendicular_degree nA mA eA)%nat ->
  (2 <= perpendicular_degree nB mB eB)%nat ->
  let P_i0_b := edge_read NonFinite nB mB eB row 0 (RationalBezierSurface.points B) in
  let P_i1_b := edge_read NonFinite nB mB eB row 1 (RationalBezierSurface.points B) in
  let P_im_a := edge_read NonFinite nA mA eA row 0 (RationalBezierSurface.points A) in
  let P_im1_a := edge_read NonFinite nA mA eA row 1 (RationalBezierSurface.points A) in
  let P_im2_a := edge_read NonFinite nA mA eA row 2 (RationalBezierSurface.points A) in
  RationalBezierSurface.enforce_g0g1g2_row A (f_float f) n_ratio eB eA row B
  = (Ok tt,
     RationalBezierSurface.with_points
       (RationalBezierSurface.with_weights B
          (edge_write nB mB eB row 2 1 (RationalBezierSurface.weights B)))
       (edge_write nB mB eB row 2
          (padd (psub (pscale 2 P_i1_b) P_i0_b)
                (pscale (f ^ 2 * n_ratio)
                   (padd (psub P_im_a (pscale 2 P_im1_a)) P_im2_a)))
          (RationalBezierSurface.points B))).
Proof.
  intros HA HB HoA HoB HrA HrB HqA HqB P_i0_b P_i1_b P_im_a P_im1_a P_im2_a.
  pose proof HA as (_ & HwA & _). pose proof HB as (_ & HwB & _).
  assert (HqA1 : (1 <= perpendicular_degree nA mA eA)%nat) by lia.
  assert (HqB1 : (1 <= perpendicular_degree nB mB eB)%nat) by lia.
  assert (Hw2 : RationalBezierSurface.get_weight A (Z.of_nat row) 2 eA
                = Ok (edge_read 0 nA mA eA row 2 (RationalBezierSurface.weights A)))
    by (apply (rational_get_weight nA mA A eA row 2); auto).
  assert (Hp2 : RationalBezierSurface.get_point A (Z.of_nat row) 2 eA = Ok P_im2_a)
    by (apply (rational_get_point nA mA A eA row 2); auto).
  assert (Hsw : forall w,
            RationalBezierSurface.set_weight w (Z.of_nat row) 2 eB B
            = (Ok tt, RationalBezierSurface.with_weights B
                        (edge_write nB mB eB row 2 w (RationalBezierSurface.weights B))))
    by (intros w; apply (rational_set_weight nB mB B eB row 2); auto).
  pose proof (rational_patch_with_weights nB mB B eB row 2 1 HB) as HB1.
  assert (Hsp : forall p,
            RationalBezierSurface.set_point p (Z.of_nat row) 2 eB
              (RationalBezierSurface.with_weights B
                 (edge_write nB mB eB row 2 1 (RationalBezierSurface.weights B)))
            = (Ok tt,
               RationalBezierSurface.with_points
                 (RationalBezierSurface.with_weights B
                    (edge_write nB mB eB row 2 1 (RationalBezierSurface.weights B)))
                 (edge_write nB mB eB row 2 p (RationalBezierSurface.points B))))
    by (intros p;
        exact (rational_set_point nB mB
                 (RationalBezierSurface.with_weights B
                    (edge_write nB mB eB row 2 1 (RationalBezierSurface.weights B)))
                 eB row 2 p HB1 HrB HqB)).
  unfold RationalBezierSurface.enforce_g0g1g2_row.
  unfold mbind, mlift, mread, mret.
  rewrite (proj1 (rational_get_weight_at nB mB B eB row HB HrB)).
  rewrite (proj2 (rational_get_weight_at nB mB B eB row HB HrB) HqB1).
  rewrite (proj1 (rational_get_weight_at nA mA A eA row HA HrA)).
  rewrite (proj2 (rational_get_weight_at nA mA A eA row HA HrA) HqA1).
  rewrite Hw2.
  rewrite (edge_read_all_ones nB mB _ eB row 0 HwB HoB HrB) by lia.
  rewrite (edge_read_all_ones nB mB _ eB row 1 HwB HoB HrB) by lia.
  rewrite (edge_read_all_ones nA mA _ eA row 0 HwA HoA HrA) by lia.
  rewrite (edge_read_all_ones nA mA _ eA row 1 HwA HoA HrA) by lia.
  rewrite (edge_read_all_ones nA mA _ eA row 2 HwA HoA HrA) by lia.
  cbn [RationalBezierSurface.f_row_of].
  replace (2 * 1 - 1 + f ^ 2 * n_ratio * (1 - 2 * 1 + 1)) with 1 by ring.
  destruct (Rlt_dec 1 0) as [Hneg|_]; [lra|].
  rewrite Hsw.
  rewrite (proj1 (rational_get_point_at nB mB _ eB row HB1 HrB)).
  rewrite (proj2 (rational_get_point_at nB mB _ eB row HB1 HrB) HqB1).
  rewrite (proj1 (rational_get_point_at nA mA A eA row HA HrA)).
  rewrite (proj2 (rational_get_point_at nA mA A eA row HA HrA) HqA1).
  rewrite Hp2, Hsp.
  cbn [RationalBezierSurface.points RationalBezierSurface.with_weights].
  fold P_i0_b P_i1_b P_im_a P_im1_a.
  rewrite !npdiv_one. cbn [pscale_np option_map]. rewrite !pscale_one.
  replace (2 * 1) with 2 by ring.
  replace (f ^ 2 * n_ratio * 1) with (f ^ 2 * n_ratio) by ring.
  reflexivity.
Qed.

(** Curvature continuity, in step. *)
Lemma unit_g0g1g2_sim (nA mA nB mB : nat) (A B : RationalBezierSurface.t)
    (pA pB : BezierSurface.t) (f : R) (eB eA : SurfaceEdge) :
  unit_weight_pair nA mA A pA -> unit_weight_pair nB mB B pB ->
  parallel_degree nB mB eB = parallel_degree nA mA eA ->
  (2 <= perpendicular_degree nA mA eA)%nat ->
  (2 <= perpendicular_degree nB mB eB)%nat ->
  exists B' pB',
    RationalBezierSurface.enforce_g0g1g2 A (f_float f) eB eA B = (Ok tt, B')
    /\ BezierSurface.enforce_g0g1g2 pA f eB eA pB = (Ok tt, pB')
    /\ unit_weight_pair nB mB B' pB'.
Proof.
  intros HAp HBp Hpar HqA HqB.
  pose proof HAp as (HA & HpA & HptsA & HoA).
  destruct (unit_g0g1_sim nA mA nB mB A B pA pB f eB eA HAp HBp Hpar)
    as (B1 & pB1 & Hr1 & Hp1 & Hpair1); try lia.
  pose proof Hpair1 as (HB1 & HpB1 & _ & _).
  rewrite (rational_enforce_g0g1g2_loop nA mA nB mB A B B1 (f_float f) eB eA
             HA HB1 HqB Hr1).
  rewrite (bezier_enforce_g0g1g2_loop nA mA nB mB pA pB pB1 f eB eA
             HpA HpB1 HqB Hp1).
  cbv zeta.
  apply (mfor_simulation (unit_weight_pair nB mB)); [exact Hpair1|].
  intros k t1 t2 Hk Ht. apply in_seq in Hk.
  pose proof Ht as (H1 & H2 & Hpts & Ho).
  assert (HkA : (k <= parallel_degree nA mA eA)%nat) by lia.
  assert (HkB : (k <= parallel_degree nB mB eB)%nat) by lia.
  assert (HqA1 : (1 <= perpendicular_degree nA mA eA)%nat) by lia.
  assert (HqB1 : (1 <= perpendicular_degree nB mB eB)%nat) by lia.
  eexists. eexists. split; [|split].
  - apply (rational_g2_row_unit nA mA nB mB); auto.
  - unfold mbind, mlift, mread.
    rewrite (proj1 (bezier_get_point_at nB mB t2 eB k H2 HkB)).
    rewrite (proj2 (bezier_get_point_at nB mB t2 eB k H2 HkB) HqB1).
    rewrite (proj1 (bezier_get_point_at nA mA pA eA k HpA HkA)).
    rewrite (proj2 (bezier_get_point_at nA mA pA eA k HpA HkA) HqA1).
    rewrite (bezier_get_point_third nA mA pA eA k HpA HkA HqA).
    rewrite (bezier_set_point_third nB mB t2 eB k _ H2 HkB HqB).
    reflexivity.
  - apply rational_with_both_pair; [|exact Ht].
    now rewrite HptsA, Hpts.
Qed.

(** X25.  On patches whose weights are all 1.0 the rational enforcement
    methods are the polynomial ones.  For rational patches [A] and [B] with
    unit weights and the polynomial patches of the same control points,
    with equal degrees along the two edges: [enforce_g0], [enforce_g0g1]
    with a float ratio (degrees of at least one across the edges) and
    [enforce_g0g1g2] (degrees of at least two) succeed on both kinds of
    patch, leave the same control points in both, and leave the weights of
    the rational patch all equal to 1.0. *)
Theorem unit_weights_enforcement (nA mA nB mB : nat)
    (A B : RationalBezierSurface.t) (pA pB : BezierSurface.t) (f : R)
    (eB eA : SurfaceEdge) :
  unit_weight_pair nA mA A pA -> unit_weight_pair nB mB B pB ->
  RationalBezierSurface.get_parallel_degree B eB
  = RationalBezierSurface.get_parallel_degree A eA ->
  (exists B' pB',
     RationalBezierSurface.enforce_g0 A eB eA B = (Ok tt, B')
     /\ BezierSurface.enforce_g0 pA eB eA pB = (Ok tt, pB')
     /\ RationalBezierSurface.points B' = BezierSurface.points pB'
     /\ all_ones (RationalBezierSurface.weights B'))
  /\ ((1 <= RationalBezierSurface.get_perpendicular_degree A eA)%Z ->
      (1 <= RationalBezierSurface.get_perpendicular_degree B eB)%Z ->
      exists B' pB',
        RationalBezierSurface.enforce_g0g1 A (f_float f) eB eA B = (Ok tt, B')
        /\ BezierSurface.enforce_g0g1 pA f eB eA pB = (Ok tt, pB')
        /\ RationalBezierSurface.points B' = BezierSurface.points pB'
        /\ all_ones (RationalBezierSurface.weights B'))
  /\ ((2 <= RationalBezierSurface.get_perpendicular_degree A eA)%Z ->
      (2 <= RationalBezierSurface.get_perpendicular_degree B eB)%Z ->
      exists B' pB',
        RationalBezierSurface.enforce_g0g1g2 A (f_float f) eB eA B = (Ok tt, B')
        /\ BezierSurface.enforce_g0g1g2 pA f eB eA pB = (Ok tt, pB')
        /\ RationalBezierSurface.points B' = BezierSurface.points pB'
        /\ all_ones (RationalBezierSurface.weights B')).
Proof.
  intros HAp HBp Hpar.
  pose proof HAp as (HA & _). pose proof HBp as (HB & _).
  rewrite (rational_parallel_degree nB mB B eB HB),
          (rational_parallel_degree nA mA A eA HA) in Hpar.
  apply Nat2Z.inj in Hpar.
  rewrite (rational_perpendicular_degree nA mA A eA HA),
          (rational_perpendicular_degree nB mB B eB HB).
  split; [|split].
  - destruct (unit_g0_sim nA mA nB mB A B pA pB eB eA HAp HBp Hpar)
      as (B' & pB' & Hr & Hp & (_ & _ & Hpts & Ho)).
    exists B', pB'. auto.
  - intros HqA HqB.
    destruct (unit_g0g1_sim nA mA nB mB A B pA pB f eB eA HAp HBp Hpar)
      as (B' & pB' & Hr & Hp & (_ & _ & Hpts & Ho)); try lia.
    exists B', pB'. auto.
  - intros HqA HqB.
    destruct (unit_g0g1g2_sim nA mA nB mB A B pA pB f eB eA HAp HBp Hpar)
      as (B' & pB' & Hr & Hp & (_ & _ & Hpts & Ho)); try lia.
    exists B', pB'. auto.
Qed.

Lemma sample_pair_C : unit_weight_pair 1 2 sample_patch_C sample_bezier_C.
Proof.
  split; [|split; [|split]].
  - repeat split; repeat constructor.
  - repeat split; repeat constructor.
  - reflexivity.
  - repeat constructor.
Qed.

Lemma sample_pair_D : unit_weight_pair 1 2 sample_patch_D sample_bezier_D.
Proof.
  split; [|split; [|split]].
  - repeat split; repeat constructor.
  - repeat split; repeat constructor.
  - reflexivity.
  - repeat constructor.
Qed.

Lemma unit_weights_enforcement_witness :
  exists B' pB',
    RationalBezierSurface.enforce_g0g1g2 sample_patch_C (f_float 1) South North
      sample_patch_D = (Ok tt, B')
    /\ BezierSurface.enforce_g0g1g2 sample_bezier_C 1 South North sample_bezier_D
       = (Ok tt, pB')
    /\ RationalBezierSurface.points B' = BezierSurface.points pB'
    /\ all_ones (RationalBezierSurface.weights B').
Proof.
  destruct (unit_weights_enforcement 1 2 1 2 sample_patch_C sample_patch_D
              sample_bezier_C sample_bezier_D 1 South North
              sample_pair_C sample_pair_D eq_refl) as (_ & _ & H2).
  apply H2; simpl; lia.
Defined.

(** ** The basis on the closed knot range *)

Lemma sample_knot_vector_clamped : clamped_knot_vector sample_knot_vector 2 4 0 1.
Proof.
  split; [reflexivity|]. split; [repeat constructor; lra|].
  split; [|split; [|lra]].
  - intros i Hi. destruct i as [|[|[|i]]]; try reflexivity; lia.
  - intros i Hi.
    destruct i as [|[|[|[|[|[|[|i]]]]]]]; try reflexivity; lia.
Qed.

(** ** Rounded arithmetic *)

Lemma rounding_exact : rounding (fun x => x).
Proof. repeat split. Qed.

Lemma relative_error_exact : relative_error (fun x => x) 0.
Proof.
  split; [lra|]. intros x. rewrite Rminus_diag, Rabs_R0. lra.
Qed.

Lemma bernstein_ends_closed_form : bernstein_ends bernstein_poly.
Proof. intros n i. split; [apply bernstein_at_0|apply bernstein_at_1]. Qed.

Lemma at2_Forall {A : Type} (Q : A -> Prop) (d : A) (r c : nat)
    (g : list (list A)) (i j : nat) :
  shaped r c g -> Forall (Forall Q) g -> (i < r)%nat -> (j < c)%nat ->
  Q (at2 d g i j).
Proof.
  intros Hs Hq Hi Hj. unfold at2.
  pose proof (shaped_row_length r c g i Hs Hi) as Hlen.
  destruct Hs as [Hr Hc].
  rewrite Forall_forall in Hq.
  assert (Hrow : Forall Q (nth i g [])) by (apply Hq, nth_In; lia).
  rewrite Forall_forall in Hrow. apply Hrow, nth_In. lia.
Qed.

Lemma float_points_finite (rnd : R -> R) (g : list (list Point3D)) :
  float_points rnd g -> all_finite g.
Proof.
  unfold float_points, all_finite. intros H.
  eapply Forall_impl; [|exact H]. intros row Hrow.
  eapply Forall_impl; [|exact Hrow]. intros p. destruct p; simpl; tauto.
Qed.

Lemma float_point_rounded (rnd : R -> R) (p : Point3D) :
  float_point rnd p -> rounded_point rnd p.
Proof. destruct p; simpl; tauto. Qed.

Lemma rounded_zeros (rnd : R -> R) : rounding rnd -> float_point rnd zeros.
Proof. intros (H0 & _). repeat split; exact H0. Qed.

Lemma rounded_padd (rnd : R -> R) (p q : Point3D) :
  rounding rnd -> rounded_point rnd (Rounded.Num.padd rnd p q).
Proof.
  intros (_ & _ & Hi). destruct p, q; simpl; auto.
  unfold representable, Rounded.Num.add. repeat split; apply Hi.
Qed.

(** Scaling by zero and adding zero. *)
Lemma rounded_pscale_zero (rnd : R -> R) (p : Point3D) :
  rounding rnd -> is_finite p -> Rounded.Num.pscale rnd 0 p = zeros.
Proof.
  intros (H0 & _) Hp. destruct p; [|contradiction]. simpl.
  unfold Rounded.Num.mul, zeros. now rewrite !Rmult_0_l, H0.
Qed.

Lemma rounded_padd_zeros_r (rnd : R -> R) (p : Point3D) :
  rounded_point rnd p -> Rounded.Num.padd rnd p zeros = p.
Proof.
  destruct p; simpl; auto. unfold representable, Rounded.Num.add.
  intros (Ha & Hb & Hc). now rewrite !Rplus_0_r, Ha, Hb, Hc.
Qed.

Lemma rounded_padd_zeros_l (rnd : R -> R) (p : Point3D) :
  rounded_point rnd p -> Rounded.Num.padd rnd zeros p = p.
Proof.
  destruct p; simpl; auto. unfold representable, Rounded.Num.add.
  intros (Ha & Hb & Hc). now rewrite !Rplus_0_l, Ha, Hb, Hc.
Qed.

Lemma rounded_pscale_point (rnd : R -> R) (k : R) (p : Point3D) :
  rounding rnd -> rounded_point rnd (Rounded.Num.pscale rnd k p).
Proof.
  intros (_ & _ & Hi). destruct p; simpl; auto.
  unfold representable, Rounded.Num.mul. repeat split; apply Hi.
Qed.

Lemma rounded_pscale_one (rnd : R -> R) (p : Point3D) :
  rounded_point rnd p -> Rounded.Num.pscale rnd 1 p = p.
Proof.
  destruct p; simpl; auto. unfold representable, Rounded.Num.mul.
  intros (Ha & Hb & Hc). now rewrite !Rmult_1_l, Ha, Hb, Hc.
Qed.

Lemma rounded_pdiv_one (rnd : R -> R) (p : Point3D) :
  rounded_point rnd p -> Rounded.Num.pdiv rnd p 1 = p.
Proof.
  destruct p; simpl; auto. unfold representable, Rounded.Num.npdiv.
  intros (Ha & Hb & Hc).
  destruct (Req_dec_T 1 0) as [H|_]; [lra|].
  unfold Rdiv. now rewrite Rinv_1, !Rmult_1_r, Ha, Hb, Hc.
Qed.

Lemma rounded_pdiv_zero (rnd : R -> R) (p : Point3D) :
  Rounded.Num.pdiv rnd p 0 = NonFinite.
Proof.
  destruct p; simpl; auto. unfold Rounded.Num.npdiv.
  destruct (Req_dec_T 0 0); [reflexivity|contradiction].
Qed.

(** ** Loops over a grid, one cell apart *)

Lemma fold_left_seq_invariant {A : Type} (Inv : nat -> A -> Prop)
    (F : A -> nat -> A) (n : nat) (a : A) :
  Inv 0%nat a ->
  (forall k acc, (k < n)%nat -> Inv k acc -> Inv (S k) (F acc k)) ->
  Inv n (fold_left F (seq 0 n) a).
Proof.
  intros H0 Hstep. induction n as [|n IH]; [exact H0|].
  rewrite seq_S, fold_left_app. simpl. apply Hstep; [lia|].
  apply IH. intros k acc Hk. apply Hstep. lia.
Qed.

(** A loop over the grid that treats the cell [(ki, kj)] in one way and
    every other cell in another: [Q false] holds before that cell and
    [Q true] after it. *)
Lemma grid_fold_one_cell {A : Type} (F : A -> nat -> nat -> A)
    (Q : bool -> A -> Prop) (nu nv ki kj : nat) (a : A) :
  (ki < nu)%nat -> (kj < nv)%nat ->
  Q false a ->
  (forall i j acc b, (i < nu)%nat -> (j < nv)%nat -> i <> ki \/ j <> kj ->
     Q b acc -> Q b (F acc i j)) ->
  (forall acc, Q false acc -> Q true (F acc ki kj)) ->
  Q true (fold_left (fun acc i => fold_left (fun acc j => F acc i j) (seq 0 nv) acc)
            (seq 0 nu) a).
Proof.
  intros Hki Hkj H0 Hoff Hon.
  set (passed := fun i j => ((ki <? i)%nat || ((ki =? i)%nat && (kj <? j)%nat))%bool).
  assert (G : Q (passed nu 0%nat)
                (fold_left (fun acc i => fold_left (fun acc j => F acc i j) (seq 0 nv) acc)
                   (seq 0 nu) a)).
  { apply (fold_left_seq_invariant (fun i acc => Q (passed i 0%nat) acc)).
    - unfold passed. replace (ki <? 0)%nat with false
        by (symmetry; apply Nat.ltb_ge; lia).
      replace (kj <? 0)%nat with false by (symmetry; apply Nat.ltb_ge; lia).
      rewrite andb_false_r. exact H0.
    - intros i acc Hi Hacc.
      assert (E : passed (S i) 0%nat = passed i nv).
      { unfold passed.
        destruct (Nat.ltb_spec ki (S i)); destruct (Nat.ltb_spec ki i);
          destruct (Nat.eqb_spec ki (S i)); destruct (Nat.eqb_spec ki i);
          destruct (Nat.ltb_spec kj 0); destruct (Nat.ltb_spec kj nv);
          simpl; try reflexivity; lia. }
      rewrite E.
      apply (fold_left_seq_invariant (fun j acc' => Q (passed i j) acc')).
      + exact Hacc.
      + intros j acc' Hj Hacc'.
        destruct (Nat.eq_dec i ki) as [->|Hne].
        * destruct (Nat.eq_dec j kj) as [->|Hnj].
          -- assert (E1 : passed ki kj = false).
             { unfold passed. rewrite Nat.ltb_irrefl, Nat.ltb_irrefl.
               now rewrite andb_false_r. }
             assert (E2 : passed ki (S kj) = true).
             { unfold passed. rewrite Nat.eqb_refl.
               replace (kj <? S kj)%nat with true
                 by (symmetry; apply Nat.ltb_lt; lia).
               apply orb_true_r. }
             rewrite E1 in Hacc'. rewrite E2. now apply Hon.
          -- assert (E1 : passed ki (S j) = passed ki j).
             { unfold passed. rewrite Nat.eqb_refl. f_equal. simpl.
               destruct (Nat.ltb_spec kj (S j)); destruct (Nat.ltb_spec kj j);
                 try reflexivity; lia. }
             rewrite E1. apply Hoff; auto.
        * assert (E1 : passed i (S j) = passed i j).
          { unfold passed. destruct (Nat.eqb_spec ki i); [congruence|].
            now rewrite !andb_false_l. }
          rewrite E1. apply Hoff; auto. }
  assert (E : passed nu 0%nat = true).
  { unfold passed. replace (ki <? nu)%nat with true
      by (symmetry; apply Nat.ltb_lt; lia). reflexivity. }
  now rewrite E in G.
Qed.

(** ** Evaluation with rounding: the loops *)

Lemma rounded_bezier_evaluate_fold (rnd : R -> R) (B : Z -> Z -> R -> R)
    (n m : nat) (pts : list (list Point3D)) (srf : BezierSurface.t) (u v : R) :
  shaped (S n) (S m) pts ->
  BezierSurface.__init__ pts = Ok srf ->
  Rounded.BezierSurface.evaluate_ndarray rnd B srf u v
  = Ok (fold_left (fun acc i =>
          fold_left (fun acc j =>
            Rounded.Num.padd rnd acc
              (Rounded.Num.pscale rnd
                 (Rounded.Num.mul rnd (B (Z.of_nat n) (Z.of_nat i) u)
                                      (B (Z.of_nat m) (Z.of_nat j) v))
                 (at2 NonFinite pts i j)))
            (seq 0 (S m)) acc)
        (seq 0 (S n)) zeros).
Proof.
  intros Hs Hinit.
  rewrite (bezier_init n m) in Hinit by assumption.
  injection Hinit as <-.
  unfold Rounded.BezierSurface.evaluate_ndarray, BezierSurface.get_control_point_array.
  simpl. rewrite (as_ndarray_shaped _ _ _ Hs). simpl.
  rewrite (shape_2_shaped _ _ _ Hs). simpl.
  rewrite !range_degree. reflexivity.
Qed.

Lemma rounded_rational_evaluate_fold (rnd : R -> R) (B : Z -> Z -> R -> R)
    (n m : nat) (pts : list (list Point3D)) (ws : list (list R))
    (srf : RationalBezierSurface.t) (u v : R) :
  shaped (S n) (S m) pts -> shaped (S n) (S m) ws ->
  RationalBezierSurface.__init__ pts ws = Ok srf ->
  Rounded.RationalBezierSurface.evaluate_ndarray rnd B srf u v
  = Ok (let '(point, wBuBv_sum) :=
          fold_left (fun acc i =>
            fold_left (fun acc j =>
              let wBuBv :=
                Rounded.Num.mul rnd
                  (Rounded.Num.mul rnd (B (Z.of_nat n) (Z.of_nat i) u)
                                       (B (Z.of_nat m) (Z.of_nat j) v))
                  (at2 0 ws i j) in
              (Rounded.Num.padd rnd (fst acc)
                 (Rounded.Num.pscale rnd wBuBv (at2 NonFinite pts i j)),
               Rounded.Num.add rnd (snd acc) wBuBv))
              (seq 0 (S m)) acc)
          (seq 0 (S n)) (zeros, 0) in
        Rounded.Num.pdiv rnd point wBuBv_sum).
Proof.
  intros Hp Hw Hinit.
  rewrite (rational_init_checks n m) in Hinit by assumption.
  destruct (check_weights ws); [|discriminate].
  cbn [bind] in Hinit. injection Hinit as <-.
  unfold Rounded.RationalBezierSurface.evaluate_ndarray,
    RationalBezierSurface.get_control_point_array.
  cbn [RationalBezierSurface.points RationalBezierSurface.weights
       RationalBezierSurface.degree_u RationalBezierSurface.degree_v
       RationalBezierSurface.Nu RationalBezierSurface.Nv].
  rewrite (as_ndarray_shaped _ _ _ Hp). cbn [bind].
  rewrite (shape_2_shaped _ _ _ Hp). cbn [bind].
  change (Z.pos (Pos.of_succ_nat m)) with (Z.of_nat (S m)).
  change (Z.pos (Pos.of_succ_nat n)) with (Z.of_nat (S n)).
  rewrite !range_of_nat.
  match goal with
  | |- (let '(_, _) := ?x in _) = Ok (let '(_, _) := ?y in _) =>
      replace x with y; [destruct y; reflexivity|]
  end.
  apply fold_left_ext_in. intros acc i _.
  apply fold_left_ext_in. intros [p s] j _. reflexivity.
Qed.

(** ** Evaluation with rounding at the parameter corners *)

Lemma bernstein_ends_corner (B : Z -> Z -> R -> R) (n m : nat)
    (corner : SurfaceCorner) (i j : nat) :
  bernstein_ends B ->
  B (Z.of_nat n) (Z.of_nat i) (fst (corner_parameters corner))
  = (if Nat.eqb i (fst (corner_index n m corner)) then 1 else 0)
  /\ B (Z.of_nat m) (Z.of_nat j) (snd (corner_parameters corner))
     = (if Nat.eqb j (snd (corner_index n m corner)) then 1 else 0).
Proof.
  intros H. destruct (H n i) as [Hn0 Hn1]. destruct (H m j) as [Hm0 Hm1].
  destruct corner; simpl; auto.
Qed.

(** The rounded product of the two basis values at a parameter corner: one
    at the corner of the grid, zero elsewhere. *)
Lemma rounded_corner_product (rnd : R -> R) (B : Z -> Z -> R -> R) (n m : nat)
    (corner : SurfaceCorner) (i j : nat) :
  rounding rnd -> bernstein_ends B ->
  Rounded.Num.mul rnd
    (B (Z.of_nat n) (Z.of_nat i) (fst (corner_parameters corner)))
    (B (Z.of_nat m) (Z.of_nat j) (snd (corner_parameters corner)))
  = if (Nat.eqb i (fst (corner_index n m corner))
        && Nat.eqb j (snd (corner_index n m corner)))%bool
    then 1 else 0.
Proof.
  intros (H0 & H1 & _) HB.
  destruct (bernstein_ends_corner B n m corner i j HB) as [-> ->].
  unfold Rounded.Num.mul.
  destruct (Nat.eqb i (fst (corner_index n m corner)));
    destruct (Nat.eqb j (snd (corner_index n m corner))); simpl;
    rewrite ?Rmult_1_l, ?Rmult_0_l, ?Rmult_0_r; assumption.
Qed.

Lemma corner_product_off (i j ki kj : nat) :
  i <> ki \/ j <> kj -> (Nat.eqb i ki && Nat.eqb j kj)%bool = false.
Proof.
  intros H. destruct (Nat.eqb_spec i ki); destruct (Nat.eqb_spec j kj);
    simpl; auto. destruct H; contradiction.
Qed.

(** With rounding, a polynomial patch whose control points are floats
    passes through its corner control points. *)
Lemma rounded_bezier_corner (rnd : R -> R) (B : Z -> Z -> R -> R) (n m : nat)
    (pts : list (list Point3D)) (srf : BezierSurface.t) (corner : SurfaceCorner) :
  rounding rnd -> bernstein_ends B ->
  shaped (S n) (S m) pts -> float_points rnd pts ->
  BezierSurface.__init__ pts = Ok srf ->
  Rounded.BezierSurface.evaluate_ndarray rnd B srf
    (fst (corner_parameters corner)) (snd (corner_parameters corner))
  = Ok (at2 NonFinite pts (fst (corner_index n m corner))
                          (snd (corner_index n m corner))).
Proof.
  intros Hr HB Hs Hf Hinit.
  rewrite (rounded_bezier_evaluate_fold rnd B n m pts srf) by assumption.
  destruct (corner_index_in_range n m corner) as [Hi Hj].
  set (ki := fst (corner_index n m corner)) in *.
  set (kj := snd (corner_index n m corner)) in *.
  set (Pc := at2 NonFinite pts ki kj).
  assert (HPc : float_point rnd Pc)
    by (apply (at2_Forall _ _ (S n) (S m)); auto).
  f_equal.
  apply (grid_fold_one_cell
           (fun acc i j =>
              Rounded.Num.padd rnd acc
                (Rounded.Num.pscale rnd
                   (Rounded.Num.mul rnd
                      (B (Z.of_nat n) (Z.of_nat i) (fst (corner_parameters corner)))
                      (B (Z.of_nat m) (Z.of_nat j) (snd (corner_parameters corner))))
                   (at2 NonFinite pts i j)))
           (fun b acc => acc = if b then Pc else zeros)
           (S n) (S m) ki kj zeros Hi Hj eq_refl).
  - intros i j acc b Hi' Hj' Hne ->.
    rewrite (rounded_corner_product rnd B n m corner i j Hr HB).
    fold ki kj. rewrite (corner_product_off i j ki kj Hne).
    rewrite rounded_pscale_zero; auto.
    + apply rounded_padd_zeros_r.
      destruct b; apply float_point_rounded; [exact HPc|now apply rounded_zeros].
    + apply (at2_finite (S n) (S m)); auto. now apply (float_points_finite rnd).
  - intros acc ->.
    rewrite (rounded_corner_product rnd B n m corner ki kj Hr HB).
    fold ki kj. rewrite !Nat.eqb_refl. simpl andb. cbv iota.
    rewrite rounded_pscale_one by now apply float_point_rounded.
    apply rounded_padd_zeros_l. now apply float_point_rounded.
Qed.

(** With rounding, a rational patch evaluates at a parameter corner to the
    quotient, by the weight of the corner, of the corner control point times
    that weight. *)
Lemma rounded_rational_corner (rnd : R -> R) (B : Z -> Z -> R -> R) (n m : nat)
    (pts : list (list Point3D)) (ws : list (list R))
    (srf : RationalBezierSurface.t) (corner : SurfaceCorner) :
  rounding rnd -> bernstein_ends B ->
  shaped (S n) (S m) pts -> shaped (S n) (S m) ws ->
  float_points rnd pts -> float_weights rnd ws ->
  RationalBezierSurface.__init__ pts ws = Ok srf ->
  let p := at2 NonFinite pts (fst (corner_index n m corner))
                             (snd (corner_index n m corner)) in
  let w := at2 0 ws (fst (corner_index n m corner)) (snd (corner_index n m corner)) in
  Rounded.RationalBezierSurface.evaluate_ndarray rnd B srf
    (fst (corner_parameters corner)) (snd (corner_parameters corner))
  = Ok (Rounded.Num.pdiv rnd (Rounded.Num.pscale rnd w p) w).
Proof.
  intros Hr HB Hp Hw Hf Hfw Hinit p w.
  rewrite (rounded_rational_evaluate_fold rnd B n m pts ws srf) by assumption.
  destruct (corner_index_in_range n m corner) as [Hi Hj].
  set (ki := fst (corner_index n m corner)) in *.
  set (kj := snd (corner_index n m corner)) in *.
  assert (Hwr : representable rnd w)
    by (apply (at2_Forall _ _ (S n) (S m)); auto).
  pose proof Hr as (H0 & H1 & Hidem).
  match goal with
  | |- Ok (let '(_, _) := ?x in _) = _ =>
      assert (G : x = (Rounded.Num.pscale rnd w p, w))
  end.
  { apply (grid_fold_one_cell
             (fun acc i j =>
                (Rounded.Num.padd rnd (fst acc)
                   (Rounded.Num.pscale rnd
                      (Rounded.Num.mul rnd
                         (Rounded.Num.mul rnd
                            (B (Z.of_nat n) (Z.of_nat i) (fst (corner_parameters corner)))
                            (B (Z.of_nat m) (Z.of_nat j) (snd (corner_parameters corner))))
                         (at2 0 ws i j))
                      (at2 NonFinite pts i j)),
                 Rounded.Num.add rnd (snd acc)
                   (Rounded.Num.mul rnd
                      (Rounded.Num.mul rnd
                         (B (Z.of_nat n) (Z.of_nat i) (fst (corner_parameters corner)))
                         (B (Z.of_nat m) (Z.of_nat j) (snd (corner_parameters corner))))
                      (at2 0 ws i j))))
             (fun b acc => acc = if b then (Rounded.Num.pscale rnd w p, w)
                                 else (zeros, 0))
             (S n) (S m) ki kj (zeros, 0) Hi Hj eq_refl).
    - intros i j acc b Hi' Hj' Hne ->.
      rewrite (rounded_corner_product rnd B n m corner i j Hr HB).
      fold ki kj. rewrite (corner_product_off i j ki kj Hne).
      unfold Rounded.Num.mul at 1 2. rewrite Rmult_0_l, H0.
      rewrite rounded_pscale_zero; auto.
      + destruct b; cbn [fst snd]; f_equal.
        * apply rounded_padd_zeros_r. now apply rounded_pscale_point.
        * unfold Rounded.Num.add. now rewrite Rplus_0_r.
        * apply rounded_padd_zeros_r. apply float_point_rounded.
          now apply rounded_zeros.
        * unfold Rounded.Num.add. now rewrite Rplus_0_r.
      + apply (at2_finite (S n) (S m)); auto. now apply (float_points_finite rnd).
    - intros acc ->. cbn [fst snd].
      rewrite (rounded_corner_product rnd B n m corner ki kj Hr HB).
      fold ki kj. rewrite !Nat.eqb_refl. simpl andb. cbv iota.
      fold w p.
      assert (Hm : Rounded.Num.mul rnd 1 w = w)
        by (unfold Rounded.Num.mul; now rewrite Rmult_1_l).
      rewrite Hm. f_equal.
      + apply rounded_padd_zeros_l. now apply rounded_pscale_point.
      + unfold Rounded.Num.add. now rewrite Rplus_0_l. }
  rewrite G. reflexivity.
Qed.

(** ** Unit weights, with rounding *)

Lemma fold_left_split {A B C : Type} (F : A -> C -> A) (G : B -> C -> B)
    (l : list C) (a : A) (b : B) :
  fold_left (fun acc c => (F (fst acc) c, G (snd acc) c)) l (a, b)
  = (fold_left F l a, fold_left G l b).
Proof.
  revert a b. induction l as [|c l IH]; intros a b; [reflexivity|].
  simpl. apply IH.
Qed.

Lemma grid_fold_split {A B : Type} (F : A -> nat -> nat -> A)
    (G : B -> nat -> nat -> B) (l1 l2 : list nat) (a : A) (b : B) :
  fold_left (fun acc i =>
     fold_left (fun acc j => (F (fst acc) i j, G (snd acc) i j)) l2 acc) l1 (a, b)
  = (fold_left (fun x i => fold_left (fun x j => F x i j) l2 x) l1 a,
     fold_left (fun y i => fold_left (fun y j => G y i j) l2 y) l1 b).
Proof.
  revert a b. induction l1 as [|i l1 IH]; intros a b; [reflexivity|].
  simpl.
  rewrite (fold_left_split (fun x j => F x i j) (fun y j => G y i j)).
  apply IH.
Qed.

Lemma rounded_grid_point (rnd : R -> R) (t : nat -> nat -> Point3D)
    (l1 l2 : list nat) (a : Point3D) :
  rounding rnd -> rounded_point rnd a ->
  rounded_point rnd
    (fold_left (fun acc i =>
       fold_left (fun acc j => Rounded.Num.padd rnd acc (t i j)) l2 acc) l1 a).
Proof.
  intros Hr. revert a. induction l1 as [|i l1 IH]; intros a Ha; [exact Ha|].
  simpl. apply IH. clear IH. revert a Ha.
  induction l2 as [|j l2 IH2]; intros a Ha; [exact Ha|].
  simpl. apply IH2. now apply rounded_padd.
Qed.

(** With unit weights the rational loop is the polynomial loop, followed by
    the division by the accumulated products of the basis values. *)
Lemma rounded_unit_weights (rnd : R -> R) (B : Z -> Z -> R -> R) (n m : nat)
    (pts : list (list Point3D)) (ws : list (list R))
    (rsrf : RationalBezierSurface.t) (bsrf : BezierSurface.t) (u v : R) :
  rounding rnd ->
  shaped (S n) (S m) pts -> shaped (S n) (S m) ws -> all_ones ws ->
  RationalBezierSurface.__init__ pts ws = Ok rsrf ->
  BezierSurface.__init__ pts = Ok bsrf ->
  exists p,
    Rounded.BezierSurface.evaluate_ndarray rnd B bsrf u v = Ok p
    /\ rounded_point rnd p
    /\ Rounded.RationalBezierSurface.evaluate_ndarray rnd B rsrf u v
       = Ok (Rounded.Num.pdiv rnd p (basis_product_sum rnd B n m u v)).
Proof.
  intros Hr Hp Hw Ho HR HB.
  pose proof Hr as (H0 & H1 & Hidem).
  rewrite (rounded_bezier_evaluate_fold rnd B n m pts bsrf u v Hp HB).
  rewrite (rounded_rational_evaluate_fold rnd B n m pts ws rsrf u v Hp Hw HR).
  eexists. split; [reflexivity|]. split.
  - apply (rounded_grid_point rnd
             (fun i j => Rounded.Num.pscale rnd
                (Rounded.Num.mul rnd (B (Z.of_nat n) (Z.of_nat i) u)
                                     (B (Z.of_nat m) (Z.of_nat j) v))
                (at2 NonFinite pts i j))); auto.
    apply float_point_rounded. now apply rounded_zeros.
  - match goal with
    | |- Ok (let '(_, _) := ?x in _) = _ =>
        replace x with
          (fold_left (fun acc i =>
             fold_left (fun acc j =>
               (Rounded.Num.padd rnd (fst acc)
                  (Rounded.Num.pscale rnd
                     (Rounded.Num.mul rnd (B (Z.of_nat n) (Z.of_nat i) u)
                                          (B (Z.of_nat m) (Z.of_nat j) v))
                     (at2 NonFinite pts i j)),
                Rounded.Num.add rnd (snd acc)
                  (Rounded.Num.mul rnd (B (Z.of_nat n) (Z.of_nat i) u)
                                       (B (Z.of_nat m) (Z.of_nat j) v))))
               (seq 0 (S m)) acc)
             (seq 0 (S n)) (zeros, 0))
    end.
    + rewrite (grid_fold_split
                 (fun x i j =>
                    Rounded.Num.padd rnd x
                      (Rounded.Num.pscale rnd
                         (Rounded.Num.mul rnd (B (Z.of_nat n) (Z.of_nat i) u)
                                              (B (Z.of_nat m) (Z.of_nat j) v))
                         (at2 NonFinite pts i j)))
                 (fun y i j =>
                    Rounded.Num.add rnd y
                      (Rounded.Num.mul rnd (B (Z.of_nat n) (Z.of_nat i) u)
                                           (B (Z.of_nat m) (Z.of_nat j) v)))).
      reflexivity.
    + apply fold_left_ext_in. intros acc i Hi. apply in_seq in Hi.
      apply fold_left_ext_in. intros acc' j Hj. apply in_seq in Hj.
      rewrite (at2_all_ones (S n) (S m)) by (auto; lia).
      assert (E : forall x y, Rounded.Num.mul rnd (Rounded.Num.mul rnd x y) 1
                              = Rounded.Num.mul rnd x y).
      { intros x y. unfold Rounded.Num.mul. now rewrite Rmult_1_r, Hidem. }
      now rewrite E.
Qed.

(** At a parameter corner the accumulated products of the basis values are
    exactly one. *)
Lemma basis_product_sum_corner (rnd : R -> R) (B : Z -> Z -> R -> R) (n m : nat)
    (corner : SurfaceCorner) :
  rounding rnd -> bernstein_ends B ->
  basis_product_sum rnd B n m (fst (corner_parameters corner))
                              (snd (corner_parameters corner)) = 1.
Proof.
  intros Hr HB. pose proof Hr as (H0 & H1 & _).
  destruct (corner_index_in_range n m corner) as [Hi Hj].
  unfold basis_product_sum.
  apply (grid_fold_one_cell
           (fun acc i j =>
              Rounded.Num.add rnd acc
                (Rounded.Num.mul rnd
                   (B (Z.of_nat n) (Z.of_nat i) (fst (corner_parameters corner)))
                   (B (Z.of_nat m) (Z.of_nat j) (snd (corner_parameters corner)))))
           (fun b acc => acc = if b then 1 else 0)
           (S n) (S m) _ _ 0 Hi Hj eq_refl).
  - intros i j acc b _ _ Hne ->.
    rewrite (rounded_corner_product rnd B n m corner i j Hr HB).
    rewrite (corner_product_off _ _ _ _ Hne).
    unfold Rounded.Num.add. rewrite Rplus_0_r. now destruct b.
  - intros acc ->.
    rewrite (rounded_corner_product rnd B n m corner _ _ Hr HB).
    rewrite !Nat.eqb_refl. simpl andb. cbv iota.
    unfold Rounded.Num.add. now rewrite Rplus_0_l.
Qed.

(** Without rounding, and with the closed form of the basis, the
    accumulated products are one at every parameter pair. *)
Lemma basis_product_sum_exact (n m : nat) (u v : R) :
  basis_product_sum (fun x => x) bernstein_poly n m u v = 1.
Proof.
  unfold basis_product_sum, Rounded.Num.add, Rounded.Num.mul.
  rewrite <- (bernstein_product_partition n m u v).
  assert (G : forall (f : nat -> nat -> R) nu nv a,
            fold_left (fun acc i =>
              fold_left (fun acc j => acc + f i j) (seq 0 nv) acc) (seq 0 nu) a
            = a + rsum (fun i => rsum (fun j => f i j) nv) nu).
  { intros f nu nv. induction nu as [|nu IH]; intros a.
    - simpl. lra.
    - rewrite seq_S, fold_left_app, IH. simpl.
      rewrite (fold_rsum (fun j => f nu j) nv). lra. }
  rewrite G. lra.
Qed.

(** ** The relative error of a rounding *)

Lemma growth_bounds (eps : R) :
  0 <= eps < 1 ->
  1 <= growth eps /\ growth eps * (1 - eps) = 1 + eps.
Proof.
  intros He. unfold growth. split.
  - apply (Rmult_le_reg_r (1 - eps)); [lra|].
    unfold Rdiv. rewrite Rmult_assoc, Rinv_l by lra. lra.
  - field. lra.
Qed.

Lemma growth_pow (eps : R) (k : nat) : 0 <= eps < 1 -> 1 <= growth eps ^ k.
Proof.
  intros He. destruct (growth_bounds eps He) as [H1 _].
  apply pow_R1_Rle. exact H1.
Qed.

Lemma rnd_bounds (rnd : R -> R) (eps x : R) :
  relative_error rnd eps -> 0 <= x ->
  x * (1 - eps) <= rnd x <= x * (1 + eps).
Proof.
  intros [He Hr] Hx. specialize (Hr x).
  rewrite (Rabs_pos_eq x Hx) in Hr.
  unfold Rabs in Hr. destruct (Rcase_abs (rnd x - x)); lra.
Qed.

Lemma rnd_zero (rnd : R -> R) (eps : R) : relative_error rnd eps -> rnd 0 = 0.
Proof.
  intros H. pose proof (rnd_bounds rnd eps 0 H (Rle_refl 0)). lra.
Qed.

Lemma rnd_zero_inv (rnd : R -> R) (eps x : R) :
  relative_error rnd eps -> rnd x = 0 -> x = 0.
Proof.
  intros [He Hr] H0. specialize (Hr x). rewrite H0 in Hr.
  replace (0 - x) with (- x) in Hr by ring. rewrite Rabs_Ropp in Hr.
  destruct (Req_dec x 0) as [|Hne]; [assumption|exfalso].
  pose proof (Rabs_pos_lt x Hne). nra.
Qed.

Lemma rnd_positive (rnd : R -> R) (eps x : R) :
  relative_error rnd eps -> 0 < x -> 0 < rnd x.
Proof.
  intros H Hx. pose proof H as [He _].
  pose proof (rnd_bounds rnd eps x H (Rlt_le _ _ Hx)). nra.
Qed.

Lemma close_to_nonneg (eps : R) (k : nat) (x y : R) :
  0 <= eps < 1 -> 0 <= x -> close_to eps k x y -> 0 <= y.
Proof.
  intros He Hx [H1 _]. pose proof (growth_pow eps k He).
  destruct (Rle_dec 0 y) as [|Hn]; [assumption|exfalso]. nra.
Qed.

Lemma close_to_zero (eps : R) (k : nat) (y : R) :
  0 <= eps < 1 -> close_to eps k 0 y -> y = 0.
Proof.
  intros He H. pose proof (close_to_nonneg eps k 0 y He (Rle_refl 0) H).
  destruct H as [_ H2]. lra.
Qed.

Lemma close_to_refl (eps : R) (k : nat) (x : R) :
  0 <= eps < 1 -> 0 <= x -> close_to eps k x x.
Proof.
  intros He Hx. pose proof (growth_pow eps k He). split; nra.
Qed.

Lemma close_to_weaken (eps : R) (k k' : nat) (x y : R) :
  0 <= eps < 1 -> 0 <= x -> (k <= k')%nat ->
  close_to eps k x y -> close_to eps k' x y.
Proof.
  intros He Hx Hk H. pose proof (close_to_nonneg eps k x y He Hx H) as Hy.
  destruct H as [H1 H2].
  replace k' with (k + (k' - k))%nat by lia. unfold close_to. rewrite pow_add.
  pose proof (growth_pow eps k He). pose proof (growth_pow eps (k' - k) He).
  split; nra.
Qed.

Lemma close_to_round (rnd : R -> R) (eps : R) (k : nat) (x y : R) :
  relative_error rnd eps -> 0 <= x ->
  close_to eps k x y -> close_to eps (S k) x (rnd y).
Proof.
  intros Hr Hx H. pose proof Hr as [He _].
  pose proof (close_to_nonneg eps k x y He Hx H) as Hy.
  destruct H as [H1 H2].
  pose proof (rnd_bounds rnd eps y Hr Hy) as [B1 B2].
  destruct (growth_bounds eps He) as [G1 G2].
  pose proof (growth_pow eps k He) as Gk.
  unfold close_to. simpl pow. split.
  - assert (y <= rnd y * growth eps) by nra. nra.
  - assert (rnd y <= y * growth eps) by nra. nra.
Qed.

Lemma close_to_mult (eps : R) (k1 k2 : nat) (x1 y1 x2 y2 : R) :
  0 <= eps < 1 -> 0 <= x1 -> 0 <= x2 ->
  close_to eps k1 x1 y1 -> close_to eps k2 x2 y2 ->
  close_to eps (k1 + k2) (x1 * x2) (y1 * y2).
Proof.
  intros He Hx1 Hx2 Ha Hb.
  pose proof (close_to_nonneg eps k1 x1 y1 He Hx1 Ha) as Hy1.
  pose proof (close_to_nonneg eps k2 x2 y2 He Hx2 Hb) as Hy2.
  destruct Ha as [A1 A2]. destruct Hb as [B1 B2].
  pose proof (growth_pow eps k1 He). pose proof (growth_pow eps k2 He).
  unfold close_to. rewrite pow_add. split.
  - replace (y1 * y2 * (growth eps ^ k1 * growth eps ^ k2))
      with ((y1 * growth eps ^ k1) * (y2 * growth eps ^ k2)) by ring.
    apply Rmult_le_compat; assumption.
  - replace (x1 * x2 * (growth eps ^ k1 * growth eps ^ k2))
      with ((x1 * growth eps ^ k1) * (x2 * growth eps ^ k2)) by ring.
    apply Rmult_le_compat; assumption.
Qed.

Lemma close_to_quotient (eps : R) (k1 k2 : nat) (x1 y1 x2 y2 : R) :
  0 <= eps < 1 -> 0 <= x1 -> 0 < x2 -> 0 < y2 ->
  close_to eps k1 x1 y1 -> close_to eps k2 x2 y2 ->
  close_to eps (k1 + k2) (x1 / x2) (y1 / y2).
Proof.
  intros He Hx1 Hx2 Hy2 Ha Hb.
  pose proof (close_to_nonneg eps k1 x1 y1 He Hx1 Ha) as Hy1.
  destruct Ha as [A1 A2]. destruct Hb as [B1 B2].
  pose proof (growth_pow eps k1 He) as G1. pose proof (growth_pow eps k2 He) as G2.
  unfold close_to. rewrite pow_add.
  set (r1 := growth eps ^ k1) in *. set (r2 := growth eps ^ k2) in *.
  split.
  - apply (Rmult_le_reg_r (x2 * y2)); [nra|].
    replace (x1 / x2 * (x2 * y2)) with (x1 * y2) by (field; lra).
    replace (y1 / y2 * (r1 * r2) * (x2 * y2)) with ((y1 * r1) * (x2 * r2))
      by (field; lra).
    apply Rmult_le_compat; try assumption. nra.
  - apply (Rmult_le_reg_r (x2 * y2)); [nra|].
    replace (y1 / y2 * (x2 * y2)) with (y1 * x2) by (field; lra).
    replace (x1 / x2 * (r1 * r2) * (x2 * y2)) with ((x1 * r1) * (y2 * r2))
      by (field; lra).
    apply Rmult_le_compat; try assumption. lra.
Qed.

Lemma close_to_plus (eps : R) (k : nat) (x1 y1 x2 y2 : R) :
  close_to eps k x1 y1 -> close_to eps k x2 y2 ->
  close_to eps k (x1 + x2) (y1 + y2).
Proof. intros [A1 A2] [B1 B2]. split; lra. Qed.

(** ** The Cox-de Boor recursion with rounding *)

(** A coefficient of the recursion, computed from a numerator that is not
    negative and a positive denominator: three roundings from the exact
    quotient. *)
Lemma rounded_ratio_close (rnd : R -> R) (eps a b : R) :
  relative_error rnd eps -> 0 <= a -> 0 < b ->
  NURBSSurface.finite_or_zero (Rounded.Num.npdiv rnd (rnd a) (rnd b))
  = rnd (rnd a / rnd b)
  /\ close_to eps 3 (a / b) (rnd (rnd a / rnd b))
  /\ (rnd (rnd a / rnd b) = 0 -> a = 0).
Proof.
  intros Hr Ha Hb. pose proof Hr as [He _].
  pose proof (rnd_positive rnd eps b Hr Hb) as Hrb.
  unfold Rounded.Num.npdiv.
  destruct (Req_dec_T (rnd b) 0) as [Hz|_]; [lra|].
  split; [reflexivity|]. split.
  - apply (close_to_round rnd eps 2).
    + assumption.
    + apply Rmult_le_pos; [assumption|]. left. now apply Rinv_0_lt_compat.
    + apply (close_to_quotient eps 1 1); auto.
      * apply (close_to_round rnd eps 0); auto. now apply close_to_refl.
      * apply (close_to_round rnd eps 0); auto; [lra|]. apply close_to_refl; lra.
  - intros H0. apply (rnd_zero_inv rnd eps) in H0; [|assumption].
    apply (rnd_zero_inv rnd eps); [assumption|].
    unfold Rdiv in H0. apply Rmult_integral in H0. destruct H0 as [H0|H0]; [exact H0|].
    exfalso. pose proof (Rinv_0_lt_compat _ Hrb). lra.
Qed.

(** One term of the recursion: the computed coefficient times the computed
    value of lower degree, against the exact term.  Where the value of lower
    degree is zero the coefficient does not matter. *)
Lemma rounded_term_close (rnd : R -> R) (eps : R) (k : nat) (a b Ne r : R) :
  relative_error rnd eps -> 0 <= Ne -> close_to eps k Ne r ->
  (Ne <> 0 -> 0 <= a /\ 0 < b) ->
  let c := NURBSSurface.finite_or_zero (Rounded.Num.npdiv rnd (rnd a) (rnd b)) in
  close_to eps (k + 4) (ratio a b * Ne) (Rounded.Num.mul rnd c r)
  /\ (c = 0 -> ratio a b * Ne = 0).
Proof.
  intros Hr HNe Hc Hsupp c. pose proof Hr as [He _].
  destruct (Req_dec Ne 0) as [Hz|Hnz].
  - subst Ne. apply close_to_zero in Hc; [|assumption]. subst r.
    unfold Rounded.Num.mul. rewrite !Rmult_0_r, (rnd_zero rnd eps Hr).
    split; [|reflexivity]. apply close_to_refl; [assumption|lra].
  - destruct (Hsupp Hnz) as [Ha Hb].
    destruct (rounded_ratio_close rnd eps a b Hr Ha Hb) as (Ec & Cc & Zc).
    unfold c. rewrite Ec.
    assert (Er : ratio a b = a / b).
    { unfold ratio. destruct (Req_dec_T b 0); [lra|reflexivity]. }
    rewrite Er. split.
    + replace (k + 4)%nat with (S (3 + k)) by lia.
      unfold Rounded.Num.mul. apply close_to_round; auto.
      * apply Rmult_le_pos; [|assumption].
        apply Rmult_le_pos; [assumption|]. left. now apply Rinv_0_lt_compat.
      * apply close_to_mult; auto.
        apply Rmult_le_pos; [assumption|]. left. now apply Rinv_0_lt_compat.
    + intros H0. rewrite (Zc H0). unfold Rdiv. ring.
Qed.

(** On indices in range, [_cox_de_boor] with rounding returns the value of
    the recursion up to five roundings for each degree. *)
Lemma rounded_cox_de_boor_close (rnd : R -> R) (eps : R) (kv : list R) (t : R)
    (p i : nat) :
  relative_error rnd eps ->
  Sorted Rle kv ->
  knot kv 0 <= t < knot kv (length kv - 1) ->
  (i + p + 1 < length kv)%nat ->
  exists N,
    Rounded.NURBSSurface._cox_de_boor rnd t i p kv
      (fst (NURBSSurface._get_possible_spans kv))
      (snd (NURBSSurface._get_possible_spans kv)) = Ok N
    /\ close_to eps (5 * p) (bspline kv t p i) N.
Proof.
  intros Hr Hs Ht. pose proof Hr as [He _].
  revert i. induction p as [|p IH]; intros i Hi.
  - exists (bspline kv t 0 i). split.
    + apply (cox_de_boor_base kv t i Hs Ht). lia.
    + apply close_to_refl; auto. apply bspline_nonneg; auto.
  - destruct (IH i) as (r1 & Hr1 & C1); [lia|].
    destruct (IH (i + 1)%nat) as (r2 & Hr2 & C2); [lia|].
    cbn [Rounded.NURBSSurface._cox_de_boor bspline].
    replace (Z.of_nat i + Z.of_nat (S p))%Z with (Z.of_nat (i + S p)) by lia.
    replace (Z.of_nat (i + S p) + 1)%Z with (Z.of_nat (i + S p + 1)) by lia.
    replace (Z.of_nat i + 1)%Z with (Z.of_nat (i + 1)) by lia.
    rewrite !getitem_knot by lia. cbn [bind].
    rewrite Hr1, Hr2. cbn [bind].
    unfold Rounded.Num.sub.
    set (a1 := t - knot kv i). set (b1 := knot kv (i + S p) - knot kv i).
    set (a2 := knot kv (i + S p + 1) - t).
    set (b2 := knot kv (i + S p + 1) - knot kv (i + 1)).
    set (N1 := bspline kv t p i) in *. set (N2 := bspline kv t p (i + 1)) in *.
    assert (HN1 : 0 <= N1) by (apply bspline_nonneg; auto; lia).
    assert (HN2 : 0 <= N2) by (apply bspline_nonneg; auto; lia).
    assert (S1 : N1 <> 0 -> 0 <= a1 /\ 0 < b1).
    { intros Hnz. unfold a1, b1.
      destruct (Rlt_dec t (knot kv i)) as [Hlt|Hge].
      - exfalso. apply Hnz. apply (bspline_support kv t p i Hs); [lia|now left].
      - destruct (Rle_dec (knot kv (i + p + 1)) t) as [Hle|Hgt].
        + exfalso. apply Hnz. apply (bspline_support kv t p i Hs); [lia|now right].
        + replace (i + S p)%nat with (i + p + 1)%nat by lia. lra. }
    assert (S2 : N2 <> 0 -> 0 <= a2 /\ 0 < b2).
    { intros Hnz. unfold a2, b2.
      destruct (Rlt_dec t (knot kv (i + 1))) as [Hlt|Hge].
      - exfalso. apply Hnz.
        apply (bspline_support kv t p (i + 1) Hs); [lia|now left].
      - destruct (Rle_dec (knot kv (i + 1 + p + 1)) t) as [Hle|Hgt].
        + exfalso. apply Hnz.
          apply (bspline_support kv t p (i + 1) Hs); [lia|now right].
        + replace (i + S p + 1)%nat with (i + 1 + p + 1)%nat by lia. lra. }
    destruct (rounded_term_close rnd eps (5 * p) a1 b1 N1 r1 Hr HN1 C1 S1)
      as [T1 Z1].
    destruct (rounded_term_close rnd eps (5 * p) a2 b2 N2 r2 Hr HN2 C2 S2)
      as [T2 Z2].
    cbv zeta in T1, Z1, T2, Z2.
    set (f := NURBSSurface.finite_or_zero
                (Rounded.Num.npdiv rnd (rnd a1) (rnd b1))) in *.
    set (g := NURBSSurface.finite_or_zero
                (Rounded.Num.npdiv rnd (rnd a2) (rnd b2))) in *.
    assert (E1 : 0 <= ratio a1 b1 * N1).
    { destruct (Req_dec N1 0) as [->|Hnz]; [lra|].
      destruct (S1 Hnz). apply Rmult_le_pos; [|assumption].
      apply ratio_nonneg; lra. }
    assert (E2 : 0 <= ratio a2 b2 * N2).
    { destruct (Req_dec N2 0) as [->|Hnz]; [lra|].
      destruct (S2 Hnz). apply Rmult_le_pos; [|assumption].
      apply ratio_nonneg; lra. }
    replace (5 * S p)%nat with (S (5 * p + 4)) by lia.
    destruct (Req_dec_T f 0) as [Hf|Hf]; destruct (Req_dec_T g 0) as [Hg|Hg].
    + exists 0. split; [reflexivity|].
      rewrite (Z1 Hf), (Z2 Hg), Rplus_0_l. apply close_to_refl; [assumption|lra].
    + eexists. split; [reflexivity|].
      rewrite (Z1 Hf), Rplus_0_l.
      apply (close_to_weaken eps (5 * p + 4)); auto.
    + eexists. split; [reflexivity|].
      rewrite (Z2 Hg), Rplus_0_r.
      apply (close_to_weaken eps (5 * p + 4)); auto.
    + eexists. split; [reflexivity|].
      unfold Rounded.Num.add. apply close_to_round; auto; [lra|].
      now apply close_to_plus.
Qed.

(** ** Sums accumulated with rounding *)

Lemma real_sum_app (l : list R) (x : R) : real_sum (l ++ [x]) = real_sum l + x.
Proof.
  unfold real_sum. induction l as [|y l IH]; simpl; [lra|]. rewrite IH. lra.
Qed.

Lemma real_sum_map_seq (f : nat -> R) (n : nat) :
  real_sum (map f (seq 0 n)) = rsum f n.
Proof.
  induction n as [|n IH]; [reflexivity|].
  rewrite seq_S, map_app. cbn [map]. rewrite real_sum_app, IH. reflexivity.
Qed.

Lemma fold_close (eps : R) {T : Type} (F : T -> R -> R) (E : T -> R) (c k : nat) :
  0 <= eps < 1 ->
  (forall i, 0 <= E i) ->
  (forall i acc A j, (k <= j)%nat -> 0 <= A -> close_to eps j A acc ->
     close_to eps (j + c) (A + E i) (F i acc)) ->
  forall l acc A j, (k <= j)%nat -> 0 <= A -> close_to eps j A acc ->
    close_to eps (j + c * length l) (A + real_sum (map E l))
      (fold_left (fun acc i => F i acc) l acc).
Proof.
  intros He HE HF. induction l as [|a l IH]; intros acc A j Hj HA Hc.
  - simpl. rewrite Nat.mul_0_r, Nat.add_0_r, Rplus_0_r. exact Hc.
  - simpl fold_left. simpl map. simpl length. unfold real_sum. simpl fold_right.
    fold (real_sum (map E l)).
    replace (j + c * S (length l))%nat with ((j + c) + c * length l)%nat by lia.
    replace (A + (E a + real_sum (map E l)))
      with ((A + E a) + real_sum (map E l)) by ring.
    apply IH; [lia| specialize (HE a); lra | now apply HF].
Qed.

Lemma rsum_pos (f : nat -> R) (n : nat) :
  (forall i, 0 <= f i) -> 0 <= rsum f n.
Proof.
  intros H. induction n as [|n IH]; simpl; [lra|]. specialize (H n). lra.
Qed.

Lemma rounded_add_close (rnd : R -> R) (eps : R) (j : nat) (A acc e x : R) :
  relative_error rnd eps -> 0 <= A -> 0 <= e ->
  close_to eps j A acc -> close_to eps j e x ->
  close_to eps (j + 1) (A + e) (Rounded.Num.add rnd acc x).
Proof.
  intros Hr HA He Ha Hx. unfold Rounded.Num.add.
  replace (j + 1)%nat with (S j) by lia.
  apply close_to_round; [assumption|lra|]. now apply close_to_plus.
Qed.

(** The products of the basis values, accumulated with rounding, against
    their exact sum, which is one. *)
Lemma basis_product_sum_close (rnd : R -> R) (eps : R) (k : nat)
    (B : Z -> Z -> R -> R) (n m : nat) (u v : R) :
  relative_error rnd eps -> bernstein_close eps k B ->
  0 <= u <= 1 -> 0 <= v <= 1 ->
  close_to eps (2 * k + 1 + S n * S m) 1 (basis_product_sum rnd B n m u v).
Proof.
  intros Hr HB Hu Hv. pose proof Hr as [He _].
  unfold basis_product_sum.
  set (e := fun i j => bernstein_poly (Z.of_nat n) (Z.of_nat i) u
                       * bernstein_poly (Z.of_nat m) (Z.of_nat j) v).
  assert (He0 : forall i j, 0 <= e i j).
  { intros i j. unfold e. apply Rmult_le_pos; now apply bernstein_nonneg. }
  assert (Hterm : forall i j,
            close_to eps (2 * k + 1) (e i j)
              (Rounded.Num.mul rnd (B (Z.of_nat n) (Z.of_nat i) u)
                                   (B (Z.of_nat m) (Z.of_nat j) v))).
  { intros i j. unfold Rounded.Num.mul.
    replace (2 * k + 1)%nat with (S (k + k)) by lia.
    apply close_to_round; [assumption|apply He0|].
    unfold e. apply close_to_mult; auto; now apply bernstein_nonneg. }
  pose proof (fold_close eps
    (fun i acc =>
       fold_left (fun acc j =>
         Rounded.Num.add rnd acc
           (Rounded.Num.mul rnd (B (Z.of_nat n) (Z.of_nat i) u)
                                (B (Z.of_nat m) (Z.of_nat j) v)))
         (seq 0 (S m)) acc)
    (fun i => rsum (fun j => e i j) (S m)) (S m) (2 * k + 1) He) as Houter.
  specialize (Houter (fun i => rsum_pos _ _ (He0 i))).
  assert (Hinner : forall i acc A j, (2 * k + 1 <= j)%nat -> 0 <= A ->
            close_to eps j A acc ->
            close_to eps (j + S m) (A + rsum (fun j0 => e i j0) (S m))
              (fold_left (fun acc j0 =>
                 Rounded.Num.add rnd acc
                   (Rounded.Num.mul rnd (B (Z.of_nat n) (Z.of_nat i) u)
                                        (B (Z.of_nat m) (Z.of_nat j0) v)))
                 (seq 0 (S m)) acc)).
  { intros i acc A j Hj HA Hc.
    pose proof (fold_close eps
      (fun j0 acc =>
         Rounded.Num.add rnd acc
           (Rounded.Num.mul rnd (B (Z.of_nat n) (Z.of_nat i) u)
                                (B (Z.of_nat m) (Z.of_nat j0) v)))
      (fun j0 => e i j0) 1 (2 * k + 1) He (He0 i)) as Hin.
    rewrite <- real_sum_map_seq.
    replace (j + S m)%nat with (j + 1 * length (seq 0 (S m)))%nat
      by (rewrite length_seq; lia).
    apply Hin; auto.
    intros j0 acc0 A0 j1 Hj1 HA0 Hc0.
    apply rounded_add_close; auto.
    apply (close_to_weaken eps (2 * k + 1)); auto. }
  specialize (Houter Hinner (seq 0 (S n)) 0 0 (2 * k + 1)%nat (Nat.le_refl _)
                (Rle_refl 0) (close_to_refl eps _ 0 He (Rle_refl 0))).
  rewrite length_seq, real_sum_map_seq, Rplus_0_l in Houter.
  unfold e in Houter. rewrite bernstein_product_partition in Houter.
  replace (2 * k + 1 + S n * S m)%nat with (2 * k + 1 + S m * S n)%nat by lia.
  exact Houter.
Qed.

(** ** The error of a rounded quotient *)

Lemma growth_above (eps : R) : 0 <= eps < 1 -> 1 + eps <= growth eps.
Proof.
  intros He. destruct (growth_bounds eps He) as [H1 H2]. nra.
Qed.

Lemma rounded_quotient_bound (rnd : R -> R) (eps : R) (K : nat) (a s : R) :
  relative_error rnd eps -> close_to eps K 1 s ->
  Rabs (rnd (a / s) - a) <= (growth eps ^ S K - 1) * Rabs a.
Proof.
  intros Hr [H1 H2]. pose proof Hr as [He Hrel].
  pose proof (growth_pow eps K He) as HG.
  pose proof (growth_above eps He) as Hg.
  assert (EG : growth eps ^ S K = growth eps * growth eps ^ K) by reflexivity.
  set (G := growth eps ^ K) in *. clearbody G.
  assert (Hs : 0 < s) by nra.
  set (r := / s).
  assert (Hrs : r * s = 1) by (unfold r; field; lra).
  assert (Hr0 : 0 < r) by (unfold r; now apply Rinv_0_lt_compat).
  assert (HrG : r <= G) by nra.
  assert (HrG' : 1 <= r * G) by nra.
  specialize (Hrel (a / s)).
  replace (a / s) with (a * r) in * by (unfold r, Rdiv; ring).
  rewrite Rabs_mult, (Rabs_pos_eq r) in Hrel by lra.
  assert (Hd : Rabs (a * r - a) = Rabs a * Rabs (r - 1)).
  { rewrite <- Rabs_mult. f_equal. ring. }
  assert (Htri : Rabs (rnd (a * r) - a)
                 <= Rabs (rnd (a * r) - a * r) + Rabs (a * r - a)).
  { replace (rnd (a * r) - a) with ((rnd (a * r) - a * r) + (a * r - a)) by ring.
    apply Rabs_triang. }
  rewrite Hd in Htri.
  assert (Hb : eps * r + Rabs (r - 1) <= growth eps * G - 1).
  { unfold Rabs. destruct (Rcase_abs (r - 1)) as [Hlt|Hge].
    - assert (Q1 : 0 <= (G - 1) * (G - 1)) by apply Rle_0_sqr.
      assert (Q2 : 0 <= eps * (G * G - 1)) by (apply Rmult_le_pos; nra).
      assert (Q3 : (1 + eps) * (G * G) <= growth eps * (G * G))
        by (apply Rmult_le_compat_r; nra).
      assert (Q4 : (1 - eps) * 1 <= (1 - eps) * (r * G))
        by (apply Rmult_le_compat_l; lra).
      assert (Q5 : 2 * G <= (growth eps * G + (1 - eps) * r) * G) by nra.
      assert (Q6 : 2 <= growth eps * G + (1 - eps) * r).
      { apply (Rmult_le_reg_r G); lra. }
      lra.
    - assert (Q1 : (1 + eps) * r <= (1 + eps) * G)
        by (apply Rmult_le_compat_l; lra).
      assert (Q2 : (1 + eps) * G <= growth eps * G)
        by (apply Rmult_le_compat_r; lra).
      lra. }
  pose proof (Rabs_pos a) as Ha.
  rewrite EG.
  apply (Rle_trans _ _ _ Htri).
  replace ((growth eps * G - 1) * Rabs a) with (Rabs a * (growth eps * G - 1)) by ring.
  apply (Rle_trans _ (Rabs a * (eps * r + Rabs (r - 1)))); [nra|].
  apply Rmult_le_compat_l; assumption.
Qed.

Lemma rounded_pdiv_close (rnd : R -> R) (eps : R) (K : nat) (p : Point3D) (s : R) :
  relative_error rnd eps -> close_to eps K 1 s ->
  (is_finite p -> is_finite (Rounded.Num.pdiv rnd p s))
  /\ forall c,
       Rabs (coord c (Rounded.Num.pdiv rnd p s) - coord c p)
       <= (growth eps ^ S K - 1) * Rabs (coord c p).
Proof.
  intros Hr Hc. pose proof Hr as [He _].
  assert (Hs : s <> 0).
  { destruct Hc as [H1 _]. pose proof (growth_pow eps K He). intros ->. lra. }
  destruct p as [a b c|]; simpl.
  - unfold Rounded.Num.npdiv. destruct (Req_dec_T s 0); [contradiction|].
    split; [trivial|].
    intros [|[|k]]; simpl; now apply rounded_quotient_bound.
  - split; [trivial|]. intros k. rewrite Rminus_diag, Rabs_R0. lra.
Qed.

(** The point [(w * p) / w], rounded twice, against [p]. *)
Lemma rounded_weighted_quotient_bound (rnd : R -> R) (eps a w : R) :
  relative_error rnd eps -> 0 < w ->
  Rabs (rnd (rnd (w * a) / w) - a) <= (growth eps ^ 2 - 1) * Rabs a.
Proof.
  intros Hr Hw. pose proof Hr as [He Hrel].
  pose proof (growth_above eps He) as Hg.
  pose proof (Hrel (w * a)) as Hy.
  pose proof (Hrel (rnd (w * a) / w)) as Hz.
  set (y := rnd (w * a)) in *.
  set (r := / w).
  assert (Hrw : r * w = 1) by (unfold r; field; lra).
  assert (Hr0 : 0 < r) by (unfold r; now apply Rinv_0_lt_compat).
  replace (y / w) with (y * r) in * by (unfold r, Rdiv; ring).
  rewrite Rabs_mult, (Rabs_pos_eq w) in Hy by lra.
  rewrite Rabs_mult, (Rabs_pos_eq r) in Hz by lra.
  assert (Hy1 : Rabs (y * r - a) <= eps * Rabs a).
  { replace (y * r - a) with ((y - w * a) * r) by (rewrite Rmult_minus_distr_r;
      replace (w * a * r) with (a * (r * w)) by ring; rewrite Hrw; ring).
    rewrite Rabs_mult, (Rabs_pos_eq r) by lra.
    replace (eps * Rabs a) with (eps * (w * Rabs a) * r)
      by (replace (eps * (w * Rabs a) * r) with (eps * Rabs a * (r * w)) by ring;
          rewrite Hrw; ring).
    apply Rmult_le_compat_r; lra. }
  assert (Hy2 : Rabs y * r <= (1 + eps) * Rabs a).
  { assert (Rabs y <= Rabs (y - w * a) + Rabs (w * a)).
    { replace y with ((y - w * a) + w * a) at 1 by ring. apply Rabs_triang. }
    rewrite (Rabs_mult w a), (Rabs_pos_eq w) in H by lra.
    assert (Rabs y <= (1 + eps) * (w * Rabs a)) by lra.
    replace ((1 + eps) * Rabs a) with ((1 + eps) * (w * Rabs a) * r)
      by (replace ((1 + eps) * (w * Rabs a) * r)
            with ((1 + eps) * Rabs a * (r * w)) by ring; rewrite Hrw; ring).
    apply Rmult_le_compat_r; lra. }
  assert (Htri : Rabs (rnd (y * r) - a)
                 <= Rabs (rnd (y * r) - y * r) + Rabs (y * r - a)).
  { replace (rnd (y * r) - a) with ((rnd (y * r) - y * r) + (y * r - a)) by ring.
    apply Rabs_triang. }
  pose proof (Rabs_pos a) as Ha.
  assert (Hsq : (1 + eps) * (1 + eps) <= growth eps ^ 2) by (simpl; nra).
  assert (Rabs (rnd (y * r) - a) <= (eps * (1 + eps) + eps) * Rabs a) by nra.
  nra.
Qed.

Lemma rounded_weighted_point_close (rnd : R -> R) (eps : R) (p : Point3D) (w : R) :
  relative_error rnd eps -> 0 < w ->
  (is_finite p ->
   is_finite (Rounded.Num.pdiv rnd (Rounded.Num.pscale rnd w p) w))
  /\ forall c,
       Rabs (coord c (Rounded.Num.pdiv rnd (Rounded.Num.pscale rnd w p) w)
             - coord c p)
       <= (growth eps ^ 2 - 1) * Rabs (coord c p).
Proof.
  intros Hr Hw.
  destruct p as [a b c|]; simpl.
  - unfold Rounded.Num.npdiv. destruct (Req_dec_T w 0); [lra|].
    split; [trivial|]. unfold Rounded.Num.mul.
    intros [|[|k]]; simpl; now apply rounded_weighted_quotient_bound.
  - split; [trivial|]. intros k. rewrite Rminus_diag, Rabs_R0. lra.
Qed.

(** ** The corners and the unit weights, with rounding *)

(** C1 (as amended).  A Bezier surface whose control points are floats,
    evaluated at the parameter corner (0,0), (1,0), (0,1) or (1,1), returns
    exactly the Southwest, Southeast, Northwest or Northeast control point
    of its grid.  A rational Bezier surface with non-negative weights
    returns there the corner control point times the corner weight, divided
    by that weight, with one rounding for the product and one for the
    quotient in each coordinate.  This is the corner control point itself
    when the weight is one, and no finite point when the weight is zero.
    For another weight it is a finite point within two roundings of the
    corner control point: with a relative error of at most [eps] in each
    operation, each coordinate is off by at most [g ^ 2 - 1] times its
    absolute value, for [g = (1 + eps) / (1 - eps)].  [bernstein_poly] is
    any function that is exact at the ends of the unit interval. *)
Theorem corner_interpolation (rnd : R -> R) (B : Z -> Z -> R -> R) (n m : nat)
    (pts : list (list Point3D)) (corner : SurfaceCorner) :
  rounding rnd -> bernstein_ends B ->
  shaped (S n) (S m) pts -> float_points rnd pts ->
  let u := fst (corner_parameters corner) in
  let v := snd (corner_parameters corner) in
  (exists srf p,
      BezierSurface.__init__ pts = Ok srf
      /\ corner_control_point pts corner = Ok p
      /\ Rounded.BezierSurface.evaluate_ndarray rnd B srf u v = Ok p)
  /\ (forall ws, shaped (S n) (S m) ws -> nonneg_weights ws -> float_weights rnd ws ->
      exists srf p w,
        RationalBezierSurface.__init__ pts ws = Ok srf
        /\ corner_control_point pts corner = Ok p
        /\ corner_control_point ws corner = Ok w
        /\ Rounded.RationalBezierSurface.evaluate_ndarray rnd B srf u v
           = Ok (Rounded.Num.pdiv rnd (Rounded.Num.pscale rnd w p) w)
        /\ (w = 1 ->
            Rounded.RationalBezierSurface.evaluate_ndarray rnd B srf u v = Ok p)
        /\ (w = 0 ->
            Rounded.RationalBezierSurface.evaluate_ndarray rnd B srf u v
            = Ok NonFinite)
        /\ (forall eps, relative_error rnd eps -> 0 < w ->
            exists q,
              Rounded.RationalBezierSurface.evaluate_ndarray rnd B srf u v = Ok q
              /\ is_finite q
              /\ forall c, Rabs (coord c q - coord c p)
                           <= (growth eps ^ 2 - 1) * Rabs (coord c p))).
Proof.
  intros Hr HB Hs Hf u v. split.
  - eexists. eexists. split; [now apply (bezier_init n m)|].
    split; [now apply (corner_control_point_at NonFinite n m)|].
    unfold u, v. apply (rounded_bezier_corner rnd B n m pts); auto.
    now apply bezier_init.
  - intros ws Hw Hn Hfw. eexists. eexists. eexists.
    split; [now apply (rational_init n m)|].
    split; [now apply (corner_control_point_at NonFinite n m)|].
    split; [now apply (corner_control_point_at 0 n m)|].
    assert (He : Rounded.RationalBezierSurface.evaluate_ndarray rnd B
                   (RationalBezierSurface.mk pts
                      (RationalBezierSurface.clamped_knots (S n))
                      (RationalBezierSurface.clamped_knots (S m))
                      ws (Z.of_nat n) (Z.of_nat m) (Z.of_nat (S n)) (Z.of_nat (S m)))
                   u v
                 = Ok (Rounded.Num.pdiv rnd
                         (Rounded.Num.pscale rnd
                            (at2 0 ws (fst (corner_index n m corner))
                                      (snd (corner_index n m corner)))
                            (at2 NonFinite pts (fst (corner_index n m corner))
                                               (snd (corner_index n m corner))))
                         (at2 0 ws (fst (corner_index n m corner))
                                   (snd (corner_index n m corner))))).
    { unfold u, v. apply (rounded_rational_corner rnd B n m pts ws); auto.
      now apply rational_init. }
    split; [exact He|]. rewrite He.
    destruct (corner_index_in_range n m corner) as [Hi Hj].
    assert (HP : float_point rnd
                   (at2 NonFinite pts (fst (corner_index n m corner))
                                      (snd (corner_index n m corner))))
      by (apply (at2_Forall _ _ (S n) (S m)); auto).
    split.
    + intros ->.
      rewrite rounded_pscale_one by now apply float_point_rounded.
      rewrite rounded_pdiv_one by now apply float_point_rounded.
      reflexivity.
    + split; [intros ->; now rewrite rounded_pdiv_zero|].
      intros eps Hrel Hpos. eexists. split; [reflexivity|].
      assert (HF : is_finite
                     (at2 NonFinite pts (fst (corner_index n m corner))
                                        (snd (corner_index n m corner)))).
      { apply (at2_Forall is_finite NonFinite (S n) (S m)); auto.
        now apply (float_points_finite rnd). }
      destruct (rounded_weighted_point_close rnd eps
                  (at2 NonFinite pts (fst (corner_index n m corner))
                                     (snd (corner_index n m corner)))
                  _ Hrel Hpos) as [Hfin Hbound].
      split; [now apply Hfin|exact Hbound].
Qed.

Lemma sample_points_floats : float_points (fun x => x) sample_points.
Proof. repeat constructor. Qed.

Lemma corner_interpolation_witness :
  exists srf,
    BezierSurface.__init__ sample_points = Ok srf
    /\ Rounded.BezierSurface.evaluate_ndarray (fun x => x) bernstein_poly srf 1 1
       = corner_control_point sample_points Northeast.
Proof.
  destruct (corner_interpolation (fun x => x) bernstein_poly 1 1 sample_points
              Northeast) as [(srf & p & Hinit & Hcorner & Heval) _].
  - repeat split.
  - intros n i. split; [apply bernstein_at_0|apply bernstein_at_1].
  - split; [reflexivity|repeat constructor].
  - repeat constructor.
  - exists srf. split; [exact Hinit|]. now rewrite Hcorner.
Defined.

(** C2 (as amended).  A rational Bezier surface whose weights are all one
    evaluates, at every parameter pair, to the point of the polynomial
    Bezier surface of the same control grid divided, coordinate by
    coordinate, by the sum that the loop accumulates of the products of the
    two basis values.  The two evaluations return the same point whenever
    that sum is exactly one, as it is at the four parameter corners.  On the
    unit square they agree up to rounding: with a relative error of at most
    [eps] in each operation, and a [bernstein_poly] within [k] roundings of
    the Bernstein polynomials, each coordinate of the rational point is off
    that of the polynomial point by at most [g ^ K - 1] times its absolute
    value, for [g = (1 + eps) / (1 - eps)] and
    [K = 2 k + 2 + (n + 1) (m + 1)]. *)
Theorem unit_weights_polynomial (rnd : R -> R) (B : Z -> Z -> R -> R) (n m : nat)
    (pts : list (list Point3D)) (ws : list (list R)) (u v : R) :
  rounding rnd ->
  shaped (S n) (S m) pts -> shaped (S n) (S m) ws -> all_ones ws ->
  exists rsrf bsrf p,
    RationalBezierSurface.__init__ pts ws = Ok rsrf
    /\ BezierSurface.__init__ pts = Ok bsrf
    /\ Rounded.BezierSurface.evaluate_ndarray rnd B bsrf u v = Ok p
    /\ Rounded.RationalBezierSurface.evaluate_ndarray rnd B rsrf u v
       = Ok (Rounded.Num.pdiv rnd p (basis_product_sum rnd B n m u v))
    /\ (basis_product_sum rnd B n m u v = 1 ->
        Rounded.RationalBezierSurface.evaluate_ndarray rnd B rsrf u v = Ok p)
    /\ (bernstein_ends B ->
        forall corner,
          basis_product_sum rnd B n m (fst (corner_parameters corner))
                                      (snd (corner_parameters corner)) = 1)
    /\ (forall eps k, relative_error rnd eps -> bernstein_close eps k B ->
        0 <= u <= 1 -> 0 <= v <= 1 ->
        exists q,
          Rounded.RationalBezierSurface.evaluate_ndarray rnd B rsrf u v = Ok q
          /\ (is_finite p -> is_finite q)
          /\ forall c, Rabs (coord c q - coord c p)
                       <= (growth eps ^ (2 * k + 2 + S n * S m) - 1)
                          * Rabs (coord c p)).
Proof.
  intros Hr Hp Hw Ho.
  pose proof (rational_init n m pts ws Hp Hw (all_ones_nonneg ws Ho)) as HR.
  pose proof (bezier_init n m pts Hp) as HB.
  destruct (rounded_unit_weights rnd B n m pts ws _ _ u v Hr Hp Hw Ho HR HB)
    as (p & Hbez & Hpt & Hrat).
  eexists. eexists. exists p.
  split; [exact HR|]. split; [exact HB|]. split; [exact Hbez|].
  split; [exact Hrat|]. split.
  - intros H1. rewrite Hrat, H1. now rewrite rounded_pdiv_one.
  - split; [intros HE corner; now apply basis_product_sum_corner|].
    intros eps k Hrel Hk Hu Hv. eexists. split; [exact Hrat|].
    replace (2 * k + 2 + S n * S m)%nat with (S (2 * k + 1 + S n * S m)) by lia.
    apply (rounded_pdiv_close rnd eps); [assumption|].
    now apply basis_product_sum_close.
Qed.

Lemma unit_weights_polynomial_witness :
  exists rsrf bsrf p,
    RationalBezierSurface.__init__ sample_points sample_unit_weights = Ok rsrf
    /\ BezierSurface.__init__ sample_points = Ok bsrf
    /\ Rounded.BezierSurface.evaluate_ndarray (fun x => x) bernstein_poly bsrf
         (1 / 2) (1 / 4) = Ok p
    /\ Rounded.RationalBezierSurface.evaluate_ndarray (fun x => x) bernstein_poly rsrf
         (1 / 2) (1 / 4)
       = Ok (Rounded.Num.pdiv (fun x => x) p
               (basis_product_sum (fun x => x) bernstein_poly 1 1 (1 / 2) (1 / 4))).
Proof.
  destruct (unit_weights_polynomial (fun x => x) bernstein_poly 1 1
              sample_points sample_unit_weights (1 / 2) (1 / 4))
    as (rsrf & bsrf & p & HR & HB & Hbez & Hrat & _).
  - repeat split.
  - split; [reflexivity|repeat constructor].
  - split; [reflexivity|repeat constructor].
  - repeat constructor.
  - exists rsrf, bsrf, p. repeat split; assumption.
Defined.

(** ** Partition of unity up to rounding *)

Lemma comprehension_related {A : Type} (f : A -> result R) (g : A -> R)
    (Rel : R -> R -> Prop) (l : list A) :
  (forall i, In i l -> exists N, f i = Ok N /\ Rel (g i) N) ->
  exists vs, comprehension f l = Ok vs /\ Forall2 Rel (map g l) vs.
Proof.
  induction l as [|i l IH]; intros H.
  - exists []. split; [reflexivity|constructor].
  - destruct (H i (or_introl eq_refl)) as (N & HN & HR).
    destruct IH as (vs & Hvs & HF); [intros; apply H; now right|].
    exists (N :: vs). simpl. rewrite HN. cbn [bind]. rewrite Hvs. cbn [bind].
    split; [reflexivity|]. now constructor.
Qed.

Lemma real_sum_close (eps : R) (k : nat) (xs ys : list R) :
  Forall2 (close_to eps k) xs ys ->
  close_to eps k (real_sum xs) (real_sum ys).
Proof.
  induction 1 as [|x y xs ys Hxy _ IH]; simpl.
  - split; lra.
  - now apply close_to_plus.
Qed.

Lemma close_values_nonneg (eps : R) (k : nat) (xs ys : list R) :
  0 <= eps < 1 -> Forall (fun x => 0 <= x) xs ->
  Forall2 (close_to eps k) xs ys -> Forall (fun y => 0 <= y) ys.
Proof.
  intros He Hx H. induction H as [|x y xs ys Hxy _ IH]; [constructor|].
  inversion Hx; subst. constructor; auto.
  now apply (close_to_nonneg eps k x).
Qed.

(** The array of [_basis_functions] with rounding, against the values of
    the recursion. *)
Lemma rounded_basis_functions_close (rnd : R -> R) (eps : R) (kv : list R) (t : R)
    (p n : nat) :
  relative_error rnd eps ->
  Sorted Rle kv ->
  knot kv 0 <= t < knot kv (length kv - 1) ->
  (n + p + 1 <= length kv)%nat ->
  exists values,
    Rounded.NURBSSurface._basis_functions rnd t p kv (Z.of_nat n)
      (fst (NURBSSurface._get_possible_spans kv))
      (snd (NURBSSurface._get_possible_spans kv)) = Ok values
    /\ Forall2 (close_to eps (5 * p)) (map (bspline kv t p) (seq 0 n)) values.
Proof.
  intros Hr Hs Ht Hn. unfold Rounded.NURBSSurface._basis_functions.
  rewrite range_of_nat.
  apply comprehension_related. intros i Hi. apply in_seq in Hi.
  apply rounded_cox_de_boor_close; auto. lia.
Qed.

(** C7 (as amended).  For a valid clamped knot vector, a degree [p] from 1
    to 5 and a parameter [t] strictly between the first and the last knot,
    [_basis_functions] returns one value for each control point; the values
    are not negative, and their sum is one up to rounding: with a relative
    error of at most [eps] in each operation, the sum lies between
    [1 / g ^ (5 p)] and [g ^ (5 p)] for [g = (1 + eps) / (1 - eps)].  The
    sum is exactly one when no operation rounds. *)
Theorem basis_partition_of_unity (rnd : R -> R) (eps : R) (kv : list R)
    (p n : nat) (a b t : R) :
  relative_error rnd eps ->
  clamped_knot_vector kv p n a b ->
  (1 <= p <= 5)%nat ->
  a < t < b ->
  exists values,
    Rounded.NURBSSurface._basis_functions rnd t p kv (Z.of_nat n)
      (fst (NURBSSurface._get_possible_spans kv))
      (snd (NURBSSurface._get_possible_spans kv))
    = Ok values
    /\ length values = n
    /\ Forall (fun x => 0 <= x) values
    /\ / growth eps ^ (5 * p) <= real_sum values <= growth eps ^ (5 * p)
    /\ (eps = 0 -> real_sum values = 1).
Proof.
  intros Hr (Hlen & Hs & Hfirst & Hlast & Hab) Hp Ht.
  pose proof Hr as [He _].
  assert (H0 : knot kv 0 = a) by (apply Hfirst; lia).
  assert (Hp' : knot kv p = a) by (apply Hfirst; lia).
  assert (Hn : knot kv n = b) by (apply Hlast; lia).
  assert (Htop : knot kv (length kv - 1) = b) by (apply Hlast; lia).
  destruct (rounded_basis_functions_close rnd eps kv t p n Hr Hs)
    as (values & Hrun & Hclose); [rewrite H0, Htop; lra|lia|].
  exists values. split; [exact Hrun|].
  assert (Hsum : real_sum (map (bspline kv t p) (seq 0 n)) = 1).
  { rewrite real_sum_map_seq, <- rsum_range_from_0.
    replace 0%nat with (p - p)%nat by lia.
    apply (bspline_partition_level kv t p n); auto. rewrite Hp', Hn. lra. }
  pose proof (real_sum_close eps (5 * p) _ _ Hclose) as [S1 S2].
  rewrite Hsum in S1, S2.
  pose proof (growth_pow eps (5 * p) He) as G.
  split; [|split; [|split; [|]]].
  - apply Forall2_length in Hclose.
    now rewrite length_map, length_seq in Hclose.
  - apply (close_values_nonneg eps (5 * p) (map (bspline kv t p) (seq 0 n))); auto.
    apply Forall_forall. intros x Hx. apply in_map_iff in Hx.
    destruct Hx as (i & <- & Hi). apply in_seq in Hi.
    apply bspline_nonneg; auto. lia.
  - split; [|lra].
    apply (Rmult_le_reg_r (growth eps ^ (5 * p))); [lra|].
    rewrite Rinv_l by lra. exact S1.
  - intros E0. subst eps. unfold growth in S1, S2.
    replace ((1 + 0) / (1 - 0)) with 1 in S1, S2 by field.
    rewrite pow1 in S1, S2. lra.
Qed.

Lemma basis_partition_of_unity_witness :
  exists values,
    Rounded.NURBSSurface._basis_functions (fun x => x) (1 / 4) 2 sample_knot_vector 4
      (fst (NURBSSurface._get_possible_spans sample_knot_vector))
      (snd (NURBSSurface._get_possible_spans sample_knot_vector))
    = Ok values
    /\ length values = 4%nat
    /\ Forall (fun x => 0 <= x) values
    /\ / growth 0 ^ (5 * 2) <= real_sum values <= growth 0 ^ (5 * 2)
    /\ (0 = 0 -> real_sum values = 1).
Proof.
  apply (basis_partition_of_unity (fun x => x) 0 sample_knot_vector 2 4 0 1 (1 / 4)).
  - exact relative_error_exact.
  - exact sample_knot_vector_clamped.
  - lia.
  - lra.
Defined.

(** ** Tangential continuity of polynomial patches, with rounding *)

Lemma rounded_g1_point_finite (rnd : R -> R) (c : R) (X Y Z : Point3D) :
  is_finite X -> is_finite Y -> is_finite Z ->
  is_finite (Rounded.Num.padd rnd X (Rounded.Num.pscale rnd c (Rounded.Num.psub rnd Y Z))).
Proof. destruct X, Y, Z; simpl; tauto. Qed.

(** [enforce_g0g1] with rounding: the boundary row of [B] is that of [A],
    and the next row of [B] is computed from the two rows of [A] next to
    its edge, each operation rounded once. *)
Lemma rounded_enforce_g0g1_ok (rnd : R -> R) (nA mA nB mB : nat)
    (A B : BezierSurface.t) (f : R) (eB eA : SurfaceEdge) :
  bezier_patch nA mA A -> bezier_patch nB mB B ->
  all_finite (BezierSurface.points A) -> all_finite (BezierSurface.points B) ->
  parallel_degree nB mB eB = parallel_degree nA mA eA ->
  (1 <= perpendicular_degree nA mA eA)%nat ->
  (1 <= perpendicular_degree nB mB eB)%nat ->
  let n_ratio := rnd (INR (perpendicular_degree nA mA eA)
                      / INR (perpendicular_degree nB mB eB)) in
  exists B',
    Rounded.BezierSurface.enforce_g0g1 rnd A f eB eA B = (Ok tt, B')
    /\ bezier_patch nB mB B'
    /\ all_finite (BezierSurface.points B')
    /\ forall row, (row <= parallel_degree nB mB eB)%nat ->
         let P_im_a := edge_read NonFinite nA mA eA row 0 (BezierSurface.points A) in
         let P_im1_a := edge_read NonFinite nA mA eA row 1 (BezierSurface.points A) in
         edge_read NonFinite nB mB eB row 0 (BezierSurface.points B') = P_im_a
         /\ edge_read NonFinite nB mB eB row 1 (BezierSurface.points B')
            = Rounded.Num.padd rnd P_im_a
                (Rounded.Num.pscale rnd (Rounded.Num.mul rnd f n_ratio)
                   (Rounded.Num.psub rnd P_im_a P_im1_a)).
Proof.
  intros HA HB HfA HfB Hpar HqA HqB n_ratio.
  destruct (bezier_enforce_g0_ok nA mA nB mB A B eB eA HA HB HfA HfB Hpar)
    as (B0 & Hg0 & HB0 & HfB0 & Hrow0).
  unfold Rounded.BezierSurface.enforce_g0g1.
  unfold mbind at 1. rewrite Hg0.
  unfold mbind at 1. unfold mread at 1.
  rewrite (bezier_perpendicular_degree nB mB B0 eB HB0),
          (bezier_perpendicular_degree nA mA A eA HA).
  rewrite <- !INR_IZR_INZ. unfold Rounded.Num.pydiv.
  destruct (Req_dec_T (INR (perpendicular_degree nB mB eB)) 0) as [Hz|Hnz].
  { apply (INR_eq _ 0%nat) in Hz. lia. }
  fold n_ratio.
  unfold mbind at 1. unfold mread at 1.
  rewrite (bezier_parallel_degree nB mB B0 eB HB0), range_degree.
  destruct (mfor_invariant
    (fun k s =>
       bezier_patch nB mB s /\ all_finite (BezierSurface.points s)
       /\ (forall row, (row <= parallel_degree nB mB eB)%nat ->
             edge_read NonFinite nB mB eB row 0 (BezierSurface.points s)
             = edge_read NonFinite nA mA eA row 0 (BezierSurface.points A))
       /\ forall row, (row < k)%nat ->
            edge_read NonFinite nB mB eB row 1 (BezierSurface.points s)
            = Rounded.Num.padd rnd
                (edge_read NonFinite nA mA eA row 0 (BezierSurface.points A))
                (Rounded.Num.pscale rnd (Rounded.Num.mul rnd f n_ratio)
                   (Rounded.Num.psub rnd
                      (edge_read NonFinite nA mA eA row 0 (BezierSurface.points A))
                      (edge_read NonFinite nA mA eA row 1 (BezierSurface.points A)))))
    (fun row_index =>
       P_i0_b <~ mread (fun self => BezierSurface.get_point self (Z.of_nat row_index) 0 eB) ;;
       P_im_a <~ mlift (BezierSurface.get_point A (Z.of_nat row_index) 0 eA) ;;
       P_im1_a <~ mlift (BezierSurface.get_point A (Z.of_nat row_index) 1 eA) ;;
       let P_i1_b :=
         Rounded.Num.padd rnd P_i0_b
           (Rounded.Num.pscale rnd (Rounded.Num.mul rnd f n_ratio)
              (Rounded.Num.psub rnd P_im_a P_im1_a)) in
       BezierSurface.set_point P_i1_b (Z.of_nat row_index) 1 eB)
    (S (parallel_degree nB mB eB)) B0) as [B' [Hrun (HB' & HfB' & Hr0 & Hr1)]].
  - split; [exact HB0|]. split; [exact HfB0|]. split; [exact Hrow0|].
    intros row Hrow. lia.
  - intros k s1 Hk (Hs1 & Hf1 & Hk0 & Hk1).
    assert (HkA : (k <= parallel_degree nA mA eA)%nat) by lia.
    assert (HkB : (k <= parallel_degree nB mB eB)%nat) by lia.
    eexists. split.
    + unfold mbind, mlift, mread.
      rewrite (proj1 (bezier_get_point_at nB mB s1 eB k Hs1 HkB)).
      rewrite (proj1 (bezier_get_point_at nA mA A eA k HA HkA)).
      rewrite (proj2 (bezier_get_point_at nA mA A eA k HA HkA) HqA).
      rewrite (proj2 (bezier_set_point_at nB mB s1 eB k _ Hs1 HkB) HqB).
      reflexivity.
    + split; [now apply bezier_patch_with_points|].
      pose proof HA as (HsA & _). pose proof Hs1 as (Hp1 & _).
      assert (Fa0 : is_finite (edge_read NonFinite nA mA eA k 0 (BezierSurface.points A)))
        by (apply edge_read_finite; auto; lia).
      assert (Fa1 : is_finite (edge_read NonFinite nA mA eA k 1 (BezierSurface.points A)))
        by (apply edge_read_finite; auto; lia).
      rewrite (Hk0 k HkB).
      split.
      * simpl. apply all_finite_edge_write; auto.
        now apply rounded_g1_point_finite.
      * split.
        -- intros row Hrow. simpl.
           rewrite edge_read_write by (auto; lia).
           replace (Nat.eqb 1 0) with false by reflexivity.
           rewrite andb_false_r. now apply Hk0.
        -- intros row Hrow. simpl.
           rewrite edge_read_write by (auto; lia).
           destruct (Nat.eqb_spec k row) as [<-|Hne]; simpl; [reflexivity|].
           apply Hk1. lia.
  - exists B'. split; [exact Hrun|]. split; [exact HB'|]. split; [exact HfB'|].
    intros row Hrow. cbv zeta. split; [now apply Hr0|]. apply Hr1. lia.
Qed.






(** ** Instances in binary64 *)

Section Binary64Instances.

Import PrimFloat.

#[local] Open Scope float_scope.

(** A decimal literal stands for the nearest binary64 number, as in
    Python. *)
#[local] Set Warnings "-inexact-float".

(** C2 as stated fails in binary64: on the sample grid with unit weights, at
    (0.1, 0.2), the products of the basis values accumulate to
    1.0000000000000002, and the rational evaluation returns another point
    than the polynomial one. *)
Lemma unit_weights_binary64 :
  Binary64.BezierSurface.evaluate_ndarray Binary64.sample_bezier 0.1 0.2
  = (0.10000000000000002, 0.2, 0.020000000000000004)
  /\ Binary64.RationalBezierSurface.evaluate_ndarray Binary64.sample_unit_rational
       0.1 0.2
     = (0.09999999999999999, 0.19999999999999996, 0.02)
  /\ eqb 0.10000000000000002 0.09999999999999999 = false
  /\ eqb 0.2 0.19999999999999996 = false
  /\ eqb 0.020000000000000004 0.02 = false.
Proof. vm_compute. repeat split. Qed.

(** In binary64 a rational patch does not pass through a corner control
    point whose weight is 3: at the Southwest corner (0.1, 0.2, 0.3) the
    evaluation at (0, 0) returns (0.1 * 3) / 3 = 0.10000000000000002 in the
    first coordinate. *)
Lemma rational_corner_binary64 :
  Binary64.RationalBezierSurface.evaluate_ndarray Binary64.sample_weighted_rational 0 0
  = (0.10000000000000002, 0.20000000000000004, 0.3)
  /\ eqb 0.10000000000000002 0.1 = false
  /\ eqb 0.20000000000000004 0.2 = false.
Proof. vm_compute. repeat split. Qed.

(** C7 as stated fails in binary64: on the knots 0, 0, 0, 1, 1, 1, for the
    degree 2 at the parameter 0.3, the three basis values sum to less than
    one, added as floats or added as real numbers. *)
Lemma basis_sum_binary64 :
  Binary64.NURBSSurface._basis_functions 0.3 2 Binary64.sample_knot_vector 3
    (fst (Binary64.NURBSSurface._get_possible_spans Binary64.sample_knot_vector))
    (snd (Binary64.NURBSSurface._get_possible_spans Binary64.sample_knot_vector))
  = Ok [0.48999999999999994; 0.42; 0.09]
  /\ Binary64.np_sum [0.48999999999999994; 0.42; 0.09] = 0.9999999999999999
  /\ ltb 0.9999999999999999 1 = true
  /\ Z.ltb (Binary64.scaled_sum [0.48999999999999994; 0.42; 0.09]) (Binary64.scaled 1)
     = true.
Proof. vm_compute. repeat split. Qed.

(** In binary64 the row that [enforce_g0g1] stores for the ratio one does
    not reproduce the step of [A]: with the boundary point (1, 0, 0) and the
    next point (0.9, 0, 0) of [A], the point stored in [B] is (1.1, 0, 0),
    and 1.1 - 1 is not 1 - 0.9. *)
Lemma g1_row_binary64 :
  Binary64.BezierSurface.g1_point (1, 0, 0) (1, 0, 0) (0.9, 0, 0) 1 1 = (1.1, 0, 0)
  /\ Binary64.psub (1.1, 0, 0) (1, 0, 0) = (0.10000000000000009, 0, 0)
  /\ Binary64.psub (1, 0, 0) (0.9, 0, 0) = (0.09999999999999998, 0, 0)
  /\ eqb 0.10000000000000009 0.09999999999999998 = false.
Proof. vm_compute. repeat split. Qed.

End Binary64Instances.

(** ** Tangential continuity of polynomial patches, with rounding: any
    ratio *)

(** X5.  [B.enforce_g0g1(A, f, edge_B, edge_A)] on polynomial patches of
    finite control points whose edges have the same degree along them and
    degrees of at least one across them, equal or not, succeeds.  After it,
    in every row along the edge, the boundary point of [B] is the boundary
    point [P_a0] of [A], and the next point of [B] is the point
    [P_a0 + (f * n_ratio) * (P_a0 - P_a1)] that the loop computes, every
    operation rounded once, [n_ratio] being the rounded quotient of the
    degree of [A] across its edge by that of [B]. *)
Theorem bezier_g1_any_ratio (rnd : R -> R) (nA mA nB mB : nat)
    (A B : BezierSurface.t) (f : R) (eB eA : SurfaceEdge) :
  bezier_patch nA mA A -> bezier_patch nB mB B ->
  all_finite (BezierSurface.points A) -> all_finite (BezierSurface.points B) ->
  BezierSurface.get_parallel_degree B eB = BezierSurface.get_parallel_degree A eA ->
  (1 <= BezierSurface.get_perpendicular_degree A eA)%Z ->
  (1 <= BezierSurface.get_perpendicular_degree B eB)%Z ->
  let n_ratio := rnd (IZR (BezierSurface.get_perpendicular_degree A eA)
                      / IZR (BezierSurface.get_perpendicular_degree B eB)) in
  exists B',
    Rounded.BezierSurface.enforce_g0g1 rnd A f eB eA B = (Ok tt, B')
    /\ forall row_index,
         (0 <= row_index <= BezierSurface.get_parallel_degree B eB)%Z ->
         exists P_a0 P_a1,
           BezierSurface.get_point A row_index 0 eA = Ok P_a0
           /\ BezierSurface.get_point A row_index 1 eA = Ok P_a1
           /\ BezierSurface.get_point B' row_index 0 eB = Ok P_a0
           /\ BezierSurface.get_point B' row_index 1 eB
              = Ok (Rounded.Num.padd rnd P_a0
                      (Rounded.Num.pscale rnd (Rounded.Num.mul rnd f n_ratio)
                         (Rounded.Num.psub rnd P_a0 P_a1))).
Proof.
  intros HA HB HfA HfB Hpar HqA HqB n_ratio.
  rewrite (bezier_parallel_degree nB mB B eB HB),
          (bezier_parallel_degree nA mA A eA HA) in Hpar.
  unfold n_ratio.
  rewrite (bezier_perpendicular_degree nA mA A eA HA) in *.
  rewrite (bezier_perpendicular_degree nB mB B eB HB) in *.
  apply Nat2Z.inj in Hpar.
  assert (HqA' : (1 <= perpendicular_degree nA mA eA)%nat) by lia.
  assert (HqB' : (1 <= perpendicular_degree nB mB eB)%nat) by lia.
  destruct (rounded_enforce_g0g1_ok rnd nA mA nB mB A B f eB eA
              HA HB HfA HfB Hpar HqA' HqB') as (B' & Hrun & HB' & HfB' & Hrows).
  cbv zeta in Hrows. rewrite <- !INR_IZR_INZ.
  exists B'. split; [exact Hrun|].
  intros row_index Hri.
  rewrite (bezier_parallel_degree nB mB B eB HB) in Hri.
  set (row := Z.to_nat row_index).
  assert (Erow : row_index = Z.of_nat row) by (unfold row; lia).
  assert (Hrow : (row <= parallel_degree nB mB eB)%nat) by (unfold row; lia).
  assert (HrowA : (row <= parallel_degree nA mA eA)%nat) by lia.
  destruct (Hrows row Hrow) as [H0 H1].
  exists (edge_read NonFinite nA mA eA row 0 (BezierSurface.points A)),
         (edge_read NonFinite nA mA eA row 1 (BezierSurface.points A)).
  rewrite Erow.
  split; [apply (bezier_get_point_at nA mA A eA row HA HrowA)|].
  split; [apply (bezier_get_point_at nA mA A eA row HA HrowA); exact HqA'|].
  split; [rewrite <- H0; apply (bezier_get_point_at nB mB B' eB row HB' Hrow)|].
  rewrite <- H1. apply (bezier_get_point_at nB mB B' eB row HB' Hrow). exact HqB'.
Qed.

Lemma bezier_g1_any_ratio_witness :
  exists B',
    Rounded.BezierSurface.enforce_g0g1 (fun x => x) sample_bezier_A 2 West East
      sample_bezier_B = (Ok tt, B')
    /\ forall row_index,
         (0 <= row_index <= BezierSurface.get_parallel_degree sample_bezier_B West)%Z ->
         exists P_a0 P_a1,
           BezierSurface.get_point sample_bezier_A row_index 0 East = Ok P_a0
           /\ BezierSurface.get_point sample_bezier_A row_index 1 East = Ok P_a1
           /\ BezierSurface.get_point B' row_index 0 West = Ok P_a0
           /\ BezierSurface.get_point B' row_index 1 West
              = Ok (Rounded.Num.padd (fun x => x) P_a0
                      (Rounded.Num.pscale (fun x => x)
                         (Rounded.Num.mul (fun x => x) 2
                            (IZR (BezierSurface.get_perpendicular_degree
                                    sample_bezier_A East)
                             / IZR (BezierSurface.get_perpendicular_degree
                                      sample_bezier_B West)))
                         (Rounded.Num.psub (fun x => x) P_a0 P_a1))).
Proof.
  apply (bezier_g1_any_ratio (fun x => x) 1 1 1 1 sample_bezier_A sample_bezier_B 2
           West East).
  - repeat split; repeat constructor.
  - repeat split; repeat constructor.
  - repeat constructor.
  - repeat constructor.
  - reflexivity.
  - simpl. lia.
  - simpl. lia.
Defined.

(** ** Curvature continuity of polynomial patches, with rounding *)

Lemma rounded_g2_point_finite (rnd : R -> R) (c : R) (X Y Z U V : Point3D) :
  is_finite X -> is_finite Y -> is_finite Z -> is_finite U -> is_finite V ->
  is_finite (Rounded.Num.padd rnd
               (Rounded.Num.psub rnd (Rounded.Num.pscale rnd 2 U) V)
               (Rounded.Num.pscale rnd c
                  (Rounded.Num.padd rnd
                     (Rounded.Num.psub rnd X (Rounded.Num.pscale rnd 2 Y)) Z))).
Proof. destruct X, Y, Z, U, V; simpl; tauto. Qed.

(** The rows that [enforce_g0g1g2] with rounding leaves along the edge of
    the receiver. *)
Lemma rounded_enforce_g0g1g2_ok (rnd square : R -> R) (nA mA nB mB : nat)
    (A B : BezierSurface.t) (f : R) (eB eA : SurfaceEdge) :
  bezier_patch nA mA A -> bezier_patch nB mB B ->
  all_finite (BezierSurface.points A) -> all_finite (BezierSurface.points B) ->
  parallel_degree nB mB eB = parallel_degree nA mA eA ->
  (2 <= perpendicular_degree nA mA eA)%nat ->
  (2 <= perpendicular_degree nB mB eB)%nat ->
  let pA := Z.of_nat (perpendicular_degree nA mA eA) in
  let pB := Z.of_nat (perpendicular_degree nB mB eB) in
  let r1 := rnd (INR (perpendicular_degree nA mA eA)
                 / INR (perpendicular_degree nB mB eB)) in
  let r2 := rnd (IZR (pA ^ 2 - pA) / IZR (pB ^ 2 - pB)) in
  exists B',
    Rounded.BezierSurface.enforce_g0g1g2 rnd square A f eB eA B = (Ok tt, B')
    /\ bezier_patch nB mB B'
    /\ all_finite (BezierSurface.points B')
    /\ forall row, (row <= parallel_degree nB mB eB)%nat ->
         let P_im_a := edge_read NonFinite nA mA eA row 0 (BezierSurface.points A) in
         let P_im1_a := edge_read NonFinite nA mA eA row 1 (BezierSurface.points A) in
         let P_im2_a := edge_read NonFinite nA mA eA row 2 (BezierSurface.points A) in
         let P_i0_b := edge_read NonFinite nB mB eB row 0 (BezierSurface.points B') in
         let P_i1_b := edge_read NonFinite nB mB eB row 1 (BezierSurface.points B') in
         P_i0_b = P_im_a
         /\ P_i1_b = Rounded.Num.padd rnd P_im_a
                       (Rounded.Num.pscale rnd (Rounded.Num.mul rnd f r1)
                          (Rounded.Num.psub rnd P_im_a P_im1_a))
         /\ edge_read NonFinite nB mB eB row 2 (BezierSurface.points B')
            = Rounded.Num.padd rnd
                (Rounded.Num.psub rnd (Rounded.Num.pscale rnd 2 P_i1_b) P_i0_b)
                (Rounded.Num.pscale rnd (Rounded.Num.mul rnd (square f) r2)
                   (Rounded.Num.padd rnd
                      (Rounded.Num.psub rnd P_im_a (Rounded.Num.pscale rnd 2 P_im1_a))
                      P_im2_a)).
Proof.
  intros HA HB HfA HfB Hpar HqA HqB pA pB r1 r2.
  destruct (rounded_enforce_g0g1_ok rnd nA mA nB mB A B f eB eA HA HB HfA HfB Hpar)
    as (B1 & Hg1 & HB1 & HfB1 & Hrow1); try lia.
  fold r1 in Hrow1.
  unfold Rounded.BezierSurface.enforce_g0g1g2.
  unfold mbind at 1. rewrite Hg1.
  unfold mbind at 1. unfold mread at 1.
  rewrite (bezier_perpendicular_degree nB mB B1 eB HB1),
          (bezier_perpendicular_degree nA mA A eA HA).
  fold pA pB.
  unfold mbind at 1. unfold mlift at 1. unfold Rounded.Num.pydiv.
  destruct (Req_dec_T (IZR (pB ^ 2 - pB)) 0) as [Hz|Hnz].
  { apply eq_IZR in Hz. unfold pB in Hz. nia. }
  fold r2.
  unfold mbind at 1. unfold mread at 1.
  rewrite (bezier_parallel_degree nB mB B1 eB HB1), range_degree.
  set (c2 := Rounded.Num.mul rnd (square f) r2).
  set (row1 := fun row =>
         Rounded.Num.padd rnd
           (edge_read NonFinite nA mA eA row 0 (BezierSurface.points A))
           (Rounded.Num.pscale rnd (Rounded.Num.mul rnd f r1)
              (Rounded.Num.psub rnd
                 (edge_read NonFinite nA mA eA row 0 (BezierSurface.points A))
                 (edge_read NonFinite nA mA eA row 1 (BezierSurface.points A))))).
  set (row2 := fun row =>
         Rounded.Num.padd rnd
           (Rounded.Num.psub rnd (Rounded.Num.pscale rnd 2 (row1 row))
              (edge_read NonFinite nA mA eA row 0 (BezierSurface.points A)))
           (Rounded.Num.pscale rnd c2
              (Rounded.Num.padd rnd
                 (Rounded.Num.psub rnd
                    (edge_read NonFinite nA mA eA row 0 (BezierSurface.points A))
                    (Rounded.Num.pscale rnd 2
                       (edge_read NonFinite nA mA eA row 1 (BezierSurface.points A))))
                 (edge_read NonFinite nA mA eA row 2 (BezierSurface.points A))))).
  destruct (mfor_invariant
    (fun k s =>
       bezier_patch nB mB s /\ all_finite (BezierSurface.points s)
       /\ (forall row, (row <= parallel_degree nB mB eB)%nat ->
             edge_read NonFinite nB mB eB row 0 (BezierSurface.points s)
             = edge_read NonFinite nA mA eA row 0 (BezierSurface.points A)
             /\ edge_read NonFinite nB mB eB row 1 (BezierSurface.points s) = row1 row)
       /\ forall row, (row < k)%nat ->
            edge_read NonFinite nB mB eB row 2 (BezierSurface.points s) = row2 row)
    (fun row_index =>
       P_i0_b <~ mread (fun self => BezierSurface.get_point self (Z.of_nat row_index) 0 eB) ;;
       P_i1_b <~ mread (fun self => BezierSurface.get_point self (Z.of_nat row_index) 1 eB) ;;
       P_im_a <~ mlift (BezierSurface.get_point A (Z.of_nat row_index) 0 eA) ;;
       P_im1_a <~ mlift (BezierSurface.get_point A (Z.of_nat row_index) 1 eA) ;;
       P_im2_a <~ mlift (BezierSurface.get_point A (Z.of_nat row_index) 2 eA) ;;
       let P_i2_b :=
         Rounded.Num.padd rnd
           (Rounded.Num.psub rnd (Rounded.Num.pscale rnd 2 P_i1_b) P_i0_b)
           (Rounded.Num.pscale rnd c2
              (Rounded.Num.padd rnd
                 (Rounded.Num.psub rnd P_im_a (Rounded.Num.pscale rnd 2 P_im1_a))
                 P_im2_a)) in
       BezierSurface.set_point P_i2_b (Z.of_nat row_index) 2 eB)
    (S (parallel_degree nB mB eB)) B1) as [B' [Hrun (HB' & HfB' & Hr01 & Hr2)]].
  - split; [exact HB1|]. split; [exact HfB1|]. split.
    + intros row Hrow. destruct (Hrow1 row Hrow) as [H0 H1]. split; assumption.
    + intros row Hrow. lia.
  - intros k s1 Hk (Hs1 & Hf1 & Hk01 & Hk2).
    assert (HkA : (k <= parallel_degree nA mA eA)%nat) by lia.
    assert (HkB : (k <= parallel_degree nB mB eB)%nat) by lia.
    assert (HqA1 : (1 <= perpendicular_degree nA mA eA)%nat) by lia.
    assert (HqB1 : (1 <= perpendicular_degree nB mB eB)%nat) by lia.
    eexists. split.
    + unfold mbind, mlift, mread.
      rewrite (proj1 (bezier_get_point_at nB mB s1 eB k Hs1 HkB)).
      rewrite (proj2 (bezier_get_point_at nB mB s1 eB k Hs1 HkB) HqB1).
      rewrite (proj1 (bezier_get_point_at nA mA A eA k HA HkA)).
      rewrite (proj2 (bezier_get_point_at nA mA A eA k HA HkA) HqA1).
      rewrite (bezier_get_point_third nA mA A eA k HA HkA HqA).
      rewrite (bezier_set_point_third nB mB s1 eB k _ Hs1 HkB HqB).
      reflexivity.
    + split; [now apply bezier_patch_with_points|].
      pose proof HA as (HsA & _). pose proof Hs1 as (Hp1 & _).
      destruct (Hk01 k HkB) as [E0 E1]. rewrite E0, E1.
      assert (F0 : is_finite (edge_read NonFinite nA mA eA k 0 (BezierSurface.points A)))
        by (apply edge_read_finite; auto; lia).
      assert (F1 : is_finite (edge_read NonFinite nA mA eA k 1 (BezierSurface.points A)))
        by (apply edge_read_finite; auto; lia).
      assert (F2 : is_finite (edge_read NonFinite nA mA eA k 2 (BezierSurface.points A)))
        by (apply edge_read_finite; auto; lia).
      split.
      * simpl. apply all_finite_edge_write; auto.
        apply rounded_g2_point_finite; auto.
        unfold row1. now apply rounded_g1_point_finite.
      * split.
        -- intros row Hrow. simpl.
           rewrite !edge_read_write by (auto; lia).
           replace (Nat.eqb 2 0) with false by reflexivity.
           replace (Nat.eqb 2 1) with false by reflexivity.
           rewrite !andb_false_r. now apply Hk01.
        -- intros row Hrow. simpl.
           rewrite edge_read_write by (auto; lia).
           destruct (Nat.eqb_spec k row) as [<-|Hne]; simpl; [reflexivity|].
           apply Hk2. lia.
  - exists B'. split; [exact Hrun|]. split; [exact HB'|]. split; [exact HfB'|].
    intros row Hrow. cbv zeta.
    destruct (Hr01 row Hrow) as [E0 E1].
    split; [exact E0|]. split; [exact E1|].
    rewrite (Hr2 row) by lia. unfold row2. now rewrite E0, E1.
Qed.

(** X7.  [B.enforce_g0g1g2(A, f, edge_B, edge_A)] on polynomial patches of
    finite control points whose edges have the same degree along them and
    degrees of at least two across them succeeds.  After it, in every row
    along the edge, the first two points of [B] are those that
    [enforce_g0g1] stores, and the third point of [B] is the point
    [(2 P_b1 - P_b0) + (f ** 2 * n_ratio) * (P_a0 - 2 P_a1 + P_a2)] that
    the loop computes from them and from the three points of [A] next to
    its edge, every operation rounded once, [n_ratio] being the rounded
    quotient of [p_a^2 - p_a] by [p_b^2 - p_b] and [square f] the float
    that [f ** 2] returns. *)
Theorem bezier_g2_row (rnd square : R -> R) (nA mA nB mB : nat)
    (A B : BezierSurface.t) (f : R) (eB eA : SurfaceEdge) :
  bezier_patch nA mA A -> bezier_patch nB mB B ->
  all_finite (BezierSurface.points A) -> all_finite (BezierSurface.points B) ->
  BezierSurface.get_parallel_degree B eB = BezierSurface.get_parallel_degree A eA ->
  (2 <= BezierSurface.get_perpendicular_degree A eA)%Z ->
  (2 <= BezierSurface.get_perpendicular_degree B eB)%Z ->
  let p_perp_a := BezierSurface.get_perpendicular_degree A eA in
  let p_perp_b := BezierSurface.get_perpendicular_degree B eB in
  let n_ratio_1 := rnd (IZR p_perp_a / IZR p_perp_b) in
  let n_ratio := rnd (IZR (p_perp_a ^ 2 - p_perp_a) / IZR (p_perp_b ^ 2 - p_perp_b)) in
  exists B',
    Rounded.BezierSurface.enforce_g0g1g2 rnd square A f eB eA B = (Ok tt, B')
    /\ forall row_index,
         (0 <= row_index <= BezierSurface.get_parallel_degree B eB)%Z ->
         exists P_im_a P_im1_a P_im2_a P_i1_b,
           BezierSurface.get_point A row_index 0 eA = Ok P_im_a
           /\ BezierSurface.get_point A row_index 1 eA = Ok P_im1_a
           /\ BezierSurface.get_point A row_index 2 eA = Ok P_im2_a
           /\ BezierSurface.get_point B' row_index 0 eB = Ok P_im_a
           /\ BezierSurface.get_point B' row_index 1 eB = Ok P_i1_b
           /\ P_i1_b = Rounded.Num.padd rnd P_im_a
                         (Rounded.Num.pscale rnd (Rounded.Num.mul rnd f n_ratio_1)
                            (Rounded.Num.psub rnd P_im_a P_im1_a))
           /\ BezierSurface.get_point B' row_index 2 eB
              = Ok (Rounded.Num.padd rnd
                      (Rounded.Num.psub rnd (Rounded.Num.pscale rnd 2 P_i1_b) P_im_a)
                      (Rounded.Num.pscale rnd
                         (Rounded.Num.mul rnd (square f) n_ratio)
                         (Rounded.Num.padd rnd
                            (Rounded.Num.psub rnd P_im_a
                               (Rounded.Num.pscale rnd 2 P_im1_a))
                            P_im2_a))).
Proof.
  intros HA HB HfA HfB Hpar HqA HqB p_perp_a p_perp_b n_ratio_1 n_ratio.
  rewrite (bezier_parallel_degree nB mB B eB HB),
          (bezier_parallel_degree nA mA A eA HA) in Hpar.
  unfold n_ratio_1, n_ratio, p_perp_a, p_perp_b.
  rewrite (bezier_perpendicular_degree nA mA A eA HA) in *.
  rewrite (bezier_perpendicular_degree nB mB B eB HB) in *.
  apply Nat2Z.inj in Hpar.
  assert (HqA' : (2 <= perpendicular_degree nA mA eA)%nat) by lia.
  assert (HqB' : (2 <= perpendicular_degree nB mB eB)%nat) by lia.
  destruct (rounded_enforce_g0g1g2_ok rnd square nA mA nB mB A B f eB eA
              HA HB HfA HfB Hpar HqA' HqB') as (B' & Hrun & HB' & HfB' & Hrows).
  cbv zeta in Hrows. rewrite <- !INR_IZR_INZ.
  exists B'. split; [exact Hrun|].
  intros row_index Hri.
  rewrite (bezier_parallel_degree nB mB B eB HB) in Hri.
  set (row := Z.to_nat row_index).
  assert (Erow : row_index = Z.of_nat row) by (unfold row; lia).
  assert (Hrow : (row <= parallel_degree nB mB eB)%nat) by (unfold row; lia).
  assert (HrowA : (row <= parallel_degree nA mA eA)%nat) by lia.
  destruct (Hrows row Hrow) as (H0 & H1 & H2).
  exists (edge_read NonFinite nA mA eA row 0 (BezierSurface.points A)),
         (edge_read NonFinite nA mA eA row 1 (BezierSurface.points A)),
         (edge_read NonFinite nA mA eA row 2 (BezierSurface.points A)),
         (edge_read NonFinite nB mB eB row 1 (BezierSurface.points B')).
  rewrite Erow.
  split; [apply (bezier_get_point_at nA mA A eA row HA HrowA)|].
  split; [apply (bezier_get_point_at nA mA A eA row HA HrowA); lia|].
  split; [apply (bezier_get_point_third nA mA A eA row HA HrowA HqA')|].
  split; [rewrite <- H0; apply (bezier_get_point_at nB mB B' eB row HB' Hrow)|].
  split; [apply (bezier_get_point_at nB mB B' eB row HB' Hrow); lia|].
  split; [exact H1|].
  rewrite <- H0 at 1. rewrite <- H2.
  apply (bezier_get_point_third nB mB B' eB row HB' Hrow HqB').
Qed.

Lemma bezier_g2_row_witness :
  exists B',
    Rounded.BezierSurface.enforce_g0g1g2 (fun x => x) (fun f => f ^ 2)
      sample_bezier_C 2 South North sample_bezier_D = (Ok tt, B')
    /\ BezierSurface.get_point B' 0 0 South
       = BezierSurface.get_point sample_bezier_C 0 0 North.
Proof.
  destruct (bezier_g2_row (fun x => x) (fun f => f ^ 2) 1 2 1 2
              sample_bezier_C sample_bezier_D 2 South North)
    as (B' & Hrun & Hrows).
  - repeat split; repeat constructor.
  - repeat split; repeat constructor.
  - repeat constructor.
  - repeat constructor.
  - reflexivity.
  - simpl. lia.
  - simpl. lia.
  - exists B'. split; [exact Hrun|].
    destruct (Hrows 0%Z) as (P0 & P1 & P2 & Q1 & HA0 & _ & _ & HB0 & _).
    + simpl. lia.
    + now rewrite HA0, HB0.
Defined.

(** ** The corners of a NURBS surface *)

(** X17.  A NURBS surface on clamped knot vectors whose end knots are
    repeated degree + 1 times and no more, with finite control points,
    evaluated at a corner of the knot rectangle: when the weight at that
    corner of the grid is one the evaluation returns the control point at
    that corner; when that weight is zero the evaluation divides zero by
    zero and returns no finite point. *)
Theorem nurbs_corner_interpolation (n m : nat) (cps : list (list Point3D))
    (ws : list (list R)) (ku kv : list R) (du dv : nat) (au bu av bv : R)
    (srf : NURBSSurface.t) (corner : SurfaceCorner) :
  shaped (S n) (S m) cps -> all_finite cps ->
  simply_clamped ku du (S n) au bu -> simply_clamped kv dv (S m) av bv ->
  NURBSSurface.__init__ cps ku kv ws du dv = Ok srf ->
  let ki := fst (corner_index n m corner) in
  let kj := snd (corner_index n m corner) in
  let value :=
    NURBSSurface.evaluate_ndarray srf (fst (knot_corner au bu av bv corner))
                                  (snd (knot_corner au bu av bv corner)) in
  (at2 0 ws ki kj = 1 -> value = Ok (at2 NonFinite cps ki kj))
  /\ (at2 0 ws ki kj = 0 -> value = Ok NonFinite).
Proof.
  intros Hp Hf Hku Hkv Hinit ki kj value.
  pose proof (nurbs_corner_eval n m cps ws ku kv du dv au bu av bv srf corner
                Hp Hf Hku Hkv Hinit) as H.
  cbv zeta in H. fold ki kj value in H. rewrite H. split; intros ->.
  - destruct (Req_dec_T 1 0); [lra|reflexivity].
  - destruct (Req_dec_T 0 0); [reflexivity|contradiction].
Qed.

Lemma nurbs_corner_interpolation_witness :
  exists srf,
    NURBSSurface.__init__ sample_points sample_nurbs_knots sample_nurbs_knots
      sample_unit_weights 1 1 = Ok srf
    /\ NURBSSurface.evaluate_ndarray srf 1 1 = Ok (Pt 1 1 1).
Proof.
  destruct sample_nurbs_init as [srf Hinit]. exists srf. split; [exact Hinit|].
  exact (proj1 (nurbs_corner_interpolation 1 1 sample_points sample_unit_weights
                  sample_nurbs_knots sample_nurbs_knots 1 1 0 1 0 1 srf Northeast
                  sample_points_shaped sample_points_finite
                  sample_nurbs_knots_clamped sample_nurbs_knots_clamped Hinit)
           eq_refl).
Defined.

(** ** The corner indices of a rational patch, with rounding *)

(** X23.  [get_corner_index] of a constructed rational patch against the
    evaluation at the parameter corners, for control points and weights
    that are floats and a weight of one at the corner.  For Southwest,
    Northwest and Northeast the index addresses the control point that
    [evaluate_ndarray] returns at the parameters of that corner.  For
    Southeast the index is [(degree_u, 1)], while the surface at [(1, 0)]
    is the control point at [(degree_u, 0)]. *)
Theorem rational_corner_index (rnd : R -> R) (B : Z -> Z -> R -> R) (n m : nat)
    (pts : list (list Point3D)) (ws : list (list R))
    (srf : RationalBezierSurface.t) (corner : SurfaceCorner) :
  rounding rnd -> bernstein_ends B ->
  shaped (S n) (S m) pts -> shaped (S n) (S m) ws ->
  float_points rnd pts -> float_weights rnd ws ->
  RationalBezierSurface.__init__ pts ws = Ok srf ->
  at2 0 ws (fst (corner_index n m corner)) (snd (corner_index n m corner)) = 1 ->
  let index := RationalBezierSurface.get_corner_index srf corner in
  let value :=
    Rounded.RationalBezierSurface.evaluate_ndarray rnd B srf
      (fst (corner_parameters corner)) (snd (corner_parameters corner)) in
  (corner <> Southeast ->
   value = getitem2 (RationalBezierSurface.points srf) (fst index) (snd index)
   /\ exists p, value = Ok p)
  /\ (corner = Southeast ->
      index = (Z.of_nat n, 1%Z)
      /\ value = getitem2 (RationalBezierSurface.points srf) (Z.of_nat n) 0
      /\ exists p, value = Ok p).
Proof.
  intros Hr HB Hp Hw Hf Hfw Hinit Hone index value.
  pose proof (rounded_rational_corner rnd B n m pts ws srf corner
                Hr HB Hp Hw Hf Hfw Hinit) as Heval.
  cbv zeta in Heval. fold value in Heval. rewrite Hone in Heval.
  destruct (corner_index_in_range n m corner) as [Hi Hj].
  assert (HP : float_point rnd
                 (at2 NonFinite pts (fst (corner_index n m corner))
                                    (snd (corner_index n m corner))))
    by (apply (at2_Forall _ _ (S n) (S m)); auto).
  rewrite rounded_pscale_one in Heval by now apply float_point_rounded.
  rewrite rounded_pdiv_one in Heval by now apply float_point_rounded.
  rewrite (rational_init_checks n m) in Hinit by assumption.
  destruct (check_weights ws); [|discriminate].
  cbn [bind] in Hinit. injection Hinit as <-.
  unfold index.
  cbn [RationalBezierSurface.get_corner_index RationalBezierSurface.points
       RationalBezierSurface.degree_u RationalBezierSurface.degree_v].
  assert (Hcell : forall i j, (i < S n)%nat -> (j < S m)%nat ->
            getitem2 pts (Z.of_nat i) (Z.of_nat j) = Ok (at2 NonFinite pts i j)).
  { intros i j Hi' Hj'.
    apply (getitem2_norm NonFinite (S n) (S m)); auto;
      now apply norm_index_nonneg. }
  split.
  - intros Hne. rewrite Heval. split; [|eexists; reflexivity].
    destruct corner; cbn [corner_index fst snd]; try contradiction;
      symmetry; first [apply (Hcell 0%nat 0%nat) | apply (Hcell 0%nat m)
                      | apply (Hcell n m)]; lia.
  - intros ->. split; [reflexivity|]. rewrite Heval.
    split; [|eexists; reflexivity].
    cbn [corner_index fst snd]. symmetry. apply (Hcell n 0%nat); lia.
Qed.

Lemma rational_corner_index_witness :
  exists srf,
    RationalBezierSurface.__init__ sample_points sample_unit_weights = Ok srf
    /\ Rounded.RationalBezierSurface.evaluate_ndarray (fun x => x) bernstein_poly
         srf 1 1
       = getitem2 (RationalBezierSurface.points srf)
           (fst (RationalBezierSurface.get_corner_index srf Northeast))
           (snd (RationalBezierSurface.get_corner_index srf Northeast)).
Proof.
  assert (Hw : shaped 2 2 sample_unit_weights)
    by (split; [reflexivity|repeat constructor]).
  assert (Hn : nonneg_weights sample_unit_weights) by (repeat constructor; lra).
  pose proof (rational_init 1 1 sample_points sample_unit_weights
                sample_points_shaped Hw Hn) as Hinit.
  eexists. split; [exact Hinit|].
  apply (rational_corner_index (fun x => x) bernstein_poly 1 1
           sample_points sample_unit_weights _ Northeast).
  - repeat split.
  - intros n i. split; [apply bernstein_at_0|apply bernstein_at_1].
  - exact sample_points_shaped.
  - exact Hw.
  - repeat constructor.
  - repeat constructor.
  - exact Hinit.
  - reflexivity.
  - discriminate.
Defined.

(** ** The basis at the two ends of the knot range *)

(** X26.  On a clamped knot vector whose end knots are repeated degree + 1
    times and no more, for every degree, zero included, [_basis_functions]
    returns at the first knot the array that is one at the first index and
    zero elsewhere, and at the last knot the array that is one at the last
    index and zero elsewhere: at the last knot, where no half-open span
    holds the parameter, the last branch of [_find_span] gives the basis
    function of the last span the value one.  The entries of both arrays
    sum to exactly one. *)
Theorem basis_closed_range (kv : list R) (p n : nat) (a b : R) :
  simply_clamped kv p (S n) a b ->
  NURBSSurface._basis_functions a p kv (Z.of_nat (S n))
    (fst (NURBSSurface._get_possible_spans kv))
    (snd (NURBSSurface._get_possible_spans kv)) = Ok (unit_array (S n) 0)
  /\ NURBSSurface._basis_functions b p kv (Z.of_nat (S n))
       (fst (NURBSSurface._get_possible_spans kv))
       (snd (NURBSSurface._get_possible_spans kv)) = Ok (unit_array (S n) n)
  /\ real_sum (unit_array (S n) 0) = 1
  /\ real_sum (unit_array (S n) n) = 1.
Proof.
  intros Hkv. destruct (basis_at_ends kv p n a b Hkv) as [Ha Hb].
  split; [exact Ha|]. split; [exact Hb|].
  unfold unit_array. rewrite !real_sum_map_seq. split.
  - rewrite (rsum_single 0); [reflexivity|lia|].
    intros i _ Hne. destruct (Nat.eqb_spec i 0); [contradiction|reflexivity].
  - rewrite (rsum_single n); [now rewrite Nat.eqb_refl|lia|].
    intros i _ Hne. destruct (Nat.eqb_spec i n); [contradiction|reflexivity].
Qed.

Lemma basis_closed_range_witness :
  NURBSSurface._basis_functions 0 1 sample_nurbs_knots (Z.of_nat 2)
    (fst (NURBSSurface._get_possible_spans sample_nurbs_knots))
    (snd (NURBSSurface._get_possible_spans sample_nurbs_knots))
  = Ok (unit_array 2 0)
  /\ NURBSSurface._basis_functions 1 1 sample_nurbs_knots (Z.of_nat 2)
       (fst (NURBSSurface._get_possible_spans sample_nurbs_knots))
       (snd (NURBSSurface._get_possible_spans sample_nurbs_knots))
     = Ok (unit_array 2 1)
  /\ real_sum (unit_array 2 0) = 1
  /\ real_sum (unit_array 2 1) = 1.
Proof.
  apply (basis_closed_range sample_nurbs_knots 1 1 0 1).
  split; [|split; unfold knot, sample_nurbs_knots; simpl; lra].
  split; [reflexivity|]. split; [repeat constructor; lra|].
  split; [|split; [|lra]].
  - intros i Hi. destruct i as [|[|i]]; try reflexivity; lia.
  - intros i Hi. destruct i as [|[|[|[|i]]]]; try reflexivity; lia.
Defined.
